(** * Sauron: sharded sparse IPv4 score table

    A shallow embedding of [src/sauron.c] (the scoring engine of
    Sauron_Lib) and the verification of its specification.

    Conventions of the embedding.
    - C integers are [Z]; conversions to a narrower type are written out
      ([u8], [u16], [u32], [u64], [i16]).  [size_t] is 64 bits wide.
    - The engine context is a record; a NULL slot of the directory or of a
      block-pointer array is an absent key of a [gmap].  A block is owned by
      exactly one slot, so writing through the block pointer is modelled by
      storing the updated block back into its slot.
    - The model is single-threaded: locks and memory orders have no effect
      and are omitted.  The context handle and the pointer arguments are
      valid (the [NULL] guards at the top of each function are not taken).
    - The outcome of [aligned_alloc] and of the file calls is supplied by
      the environment ([Platform], [io_fault]). *)

From Stdlib Require Import ZArith Lia List Bool Ascii String Sorting.Sorted.
From Stdlib Require Import Floats.SpecFloat.
From stdpp Require Import base option list gmap strings pretty.

Local Open Scope Z_scope.

(** ** Fixed-width integers *)

Definition u8 (x : Z) : Z := x mod 2 ^ 8.
Definition u16 (x : Z) : Z := x mod 2 ^ 16.
Definition u32 (x : Z) : Z := x mod 2 ^ 32.
Definition u64 (x : Z) : Z := x mod 2 ^ 64.
Definition i16 (x : Z) : Z := (x + 2 ^ 15) mod 2 ^ 16 - 2 ^ 15.

Definition is_u32 (x : Z) : Prop := 0 <= x < 2 ^ 32.
Definition is_i16 (x : Z) : Prop := - 2 ^ 15 <= x < 2 ^ 15.

Definition INT16_MIN : Z := -32768.
Definition INT16_MAX : Z := 32767.

(** ** Constants of sauron.h and sauron.c *)

Definition SAURON_OK : Z := 0.
Definition SAURON_ERR_NULL : Z := -1.
Definition SAURON_ERR_INVALID : Z := -2.
Definition SAURON_ERR_NOMEM : Z := -3.
Definition SAURON_ERR_IO : Z := -4.

Definition SAURON_SCORE_MIN : Z := -32767.
Definition SAURON_SCORE_MAX : Z := 32767.

Definition BITMAP_SIZE : Z := Z.shiftl 1 24.
Definition BITMAP_BYTES : Z := BITMAP_SIZE / 8.
Definition PREFIX16_COUNT : Z := Z.shiftl 1 16.
Definition BLOCKS_PER_16 : Z := 256.
Definition SCORES_PER_BLOCK : Z := 256.

(** ** Data model *)

(** [cidr_block_t]: the 256 scores of one /24 and the number of non-zero
    ones.  The lock is omitted. *)
Record cidr_block := mk_block {
  scores : list Z;
  active_count : Z
}.

(** [struct sauron_ctx].  [bitmap] maps a byte index to the byte (a byte
    never written is 0, as after the [memset] of [sauron_create]);
    [block_ptrs] maps a /16 prefix to its array of block pointers. *)
Record sauron_ctx := mk_ctx {
  bitmap : gmap Z Z;
  block_ptrs : gmap Z (gmap Z cidr_block);
  score_count : Z;
  block_count : Z;
  memory_used : Z
}.

Definition with_bitmap (ctx : sauron_ctx) (bm : gmap Z Z) : sauron_ctx :=
  mk_ctx bm (block_ptrs ctx) (score_count ctx) (block_count ctx) (memory_used ctx).
Definition with_block_ptrs (ctx : sauron_ctx) (bp : gmap Z (gmap Z cidr_block)) : sauron_ctx :=
  mk_ctx (bitmap ctx) bp (score_count ctx) (block_count ctx) (memory_used ctx).
Definition with_score_count (ctx : sauron_ctx) (n : Z) : sauron_ctx :=
  mk_ctx (bitmap ctx) (block_ptrs ctx) n (block_count ctx) (memory_used ctx).
Definition with_block_count (ctx : sauron_ctx) (n : Z) : sauron_ctx :=
  mk_ctx (bitmap ctx) (block_ptrs ctx) (score_count ctx) n (memory_used ctx).
Definition with_memory_used (ctx : sauron_ctx) (n : Z) : sauron_ctx :=
  mk_ctx (bitmap ctx) (block_ptrs ctx) (score_count ctx) (block_count ctx) n.

(** What the build and the host decide: the sizes of the C types (they
    depend on the lock type chosen at configure time), the process id and
    [PATH_MAX] used for the temporary file name of [sauron_save], and the
    allocator: [heap_ok used size] tells whether [aligned_alloc] returns
    memory for [size] bytes when the engine owns [used] bytes. *)
Class Platform := {
  sizeof_cidr_block : Z;
  sizeof_block_ptr : Z;
  sizeof_sauron_ctx : Z;
  heap_ok : Z -> Z -> bool;
  cur_pid : Z;
  PATH_MAX : Z
}.

(** ** Address decomposition *)

Definition ip_to_prefix24 (ip : Z) : Z := Z.shiftr ip 8.
Definition ip_to_prefix16 (ip : Z) : Z := u16 (Z.shiftr ip 16).
Definition ip_to_block_idx (ip : Z) : Z := u8 (Z.land (Z.shiftr ip 8) 255).
Definition ip_to_host_idx (ip : Z) : Z := u8 (Z.land ip 255).

Definition prefix24_to_bitmap_pos (prefix24 : Z) : Z * Z :=
  (prefix24 / 8, u8 (prefix24 mod 8)).

(** ** Bitmap filter *)

Definition bitmap_byte (ctx : sauron_ctx) (byte_idx : Z) : Z :=
  default 0 (bitmap ctx !! byte_idx).

Definition bitmap_test (ctx : sauron_ctx) (prefix24 : Z) : Z :=
  let '(byte_idx, bit_idx) := prefix24_to_bitmap_pos prefix24 in
  let byte_val := bitmap_byte ctx byte_idx in
  Z.land (Z.shiftr byte_val bit_idx) 1.

Definition bitmap_set (ctx : sauron_ctx) (prefix24 : Z) : sauron_ctx :=
  let '(byte_idx, bit_idx) := prefix24_to_bitmap_pos prefix24 in
  with_bitmap ctx
    (<[byte_idx := Z.lor (bitmap_byte ctx byte_idx) (u8 (Z.shiftl 1 bit_idx))]>
       (bitmap ctx)).

Definition bitmap_clear (ctx : sauron_ctx) (prefix24 : Z) : sauron_ctx :=
  let '(byte_idx, bit_idx) := prefix24_to_bitmap_pos prefix24 in
  with_bitmap ctx
    (<[byte_idx := Z.land (bitmap_byte ctx byte_idx) (u8 (Z.lnot (Z.shiftl 1 bit_idx)))]>
       (bitmap ctx)).

(** ** Blocks and the directory *)

(** [block->scores[host_idx]] *)
Definition block_score (b : cidr_block) (host_idx : Z) : Z :=
  default 0 (scores b !! Z.to_nat host_idx).

(** [block->scores[host_idx] = v] *)
Definition block_store (b : cidr_block) (host_idx : Z) (v : Z) : cidr_block :=
  mk_block (<[Z.to_nat host_idx := v]> (scores b)) (active_count b).

Definition with_active_count (b : cidr_block) (n : Z) : cidr_block :=
  mk_block (scores b) n.

(** The block a pointer read from slot [(prefix16, block_idx)] refers to. *)
Definition lookup_block (ctx : sauron_ctx) (prefix16 block_idx : Z) : option cidr_block :=
  match block_ptrs ctx !! prefix16 with
  | Some block_arr => block_arr !! block_idx
  | None => None
  end.

(** Writing through the pointer held in slot [(prefix16, block_idx)]. *)
Definition store_block (ctx : sauron_ctx) (prefix16 block_idx : Z) (b : cidr_block)
  : sauron_ctx :=
  with_block_ptrs ctx
    (<[prefix16 := <[block_idx := b]> (default ∅ (block_ptrs ctx !! prefix16))]>
       (block_ptrs ctx)).

Section Engine.
Context `{Platform}.

(** [memset(block, 0, sizeof(cidr_block_t))] and the statistics update of
    [alloc_cidr_block]. *)
Definition alloc_cidr_block (ctx : sauron_ctx) : option (cidr_block * sauron_ctx) :=
  if heap_ok (memory_used ctx) sizeof_cidr_block then
    let block := mk_block (replicate (Z.to_nat SCORES_PER_BLOCK) 0) 0 in
    let ctx := with_block_count ctx (u64 (block_count ctx + 1)) in
    let ctx := with_memory_used ctx (u64 (memory_used ctx + sizeof_cidr_block)) in
    Some (block, ctx)
  else None.

Definition alloc_block_ptr_array (ctx : sauron_ctx)
  : option (gmap Z cidr_block * sauron_ctx) :=
  let arr_size := BLOCKS_PER_16 * sizeof_block_ptr in
  if heap_ok (memory_used ctx) arr_size then
    Some (∅, with_memory_used ctx (u64 (memory_used ctx + arr_size)))
  else None.

(** The slow path of [get_or_alloc_block], after the allocation lock is
    taken. *)
Definition get_or_alloc_block_slow (ctx : sauron_ctx) (ip : Z)
  : option cidr_block * sauron_ctx :=
  let prefix16 := ip_to_prefix16 ip in
  let block_idx := ip_to_block_idx ip in
  let prefix24 := ip_to_prefix24 ip in
  let arr_r :=
    match block_ptrs ctx !! prefix16 with
    | Some block_arr => Some (block_arr, ctx)
    | None =>
        match alloc_block_ptr_array ctx with
        | None => None
        | Some (block_arr, ctx) =>
            Some (block_arr,
                  with_block_ptrs ctx (<[prefix16 := block_arr]> (block_ptrs ctx)))
        end
    end in
  match arr_r with
  | None => (None, ctx)
  | Some (block_arr, ctx) =>
      match block_arr !! block_idx with
      | Some block => (Some block, ctx)
      | None =>
          match alloc_cidr_block ctx with
          | None => (None, ctx)
          | Some (block, ctx) =>
              let ctx := store_block ctx prefix16 block_idx block in
              let ctx := bitmap_set ctx prefix24 in
              (Some block, ctx)
          end
      end
  end.

Definition get_or_alloc_block (ctx : sauron_ctx) (ip : Z)
  : option cidr_block * sauron_ctx :=
  let prefix16 := ip_to_prefix16 ip in
  let block_idx := ip_to_block_idx ip in
  let prefix24 := ip_to_prefix24 ip in
  match lookup_block ctx prefix16 block_idx with
  | Some block =>
      if bitmap_test ctx prefix24 =? 0
      then (Some block, bitmap_set ctx prefix24)
      else (Some block, ctx)
  | None => get_or_alloc_block_slow ctx ip
  end.

Definition get_block (ctx : sauron_ctx) (ip : Z) : option cidr_block :=
  let prefix16 := ip_to_prefix16 ip in
  let block_idx := ip_to_block_idx ip in
  let prefix24 := ip_to_prefix24 ip in
  if bitmap_test ctx prefix24 =? 0 then None
  else lookup_block ctx prefix16 block_idx.

(** ** Lifecycle *)

Definition sauron_create : option sauron_ctx :=
  if heap_ok sizeof_sauron_ctx BITMAP_BYTES then
    Some (mk_ctx ∅ ∅ 0 0 (u64 (sizeof_sauron_ctx + BITMAP_BYTES)))
  else None.

(** ** Score operations *)

Definition sauron_get_u32 (ctx : sauron_ctx) (ip : Z) : Z :=
  match get_block ctx ip with
  | None => 0
  | Some block => block_score block (ip_to_host_idx ip)
  end.

(** The zero/non-zero bookkeeping shared by the writers: [active_count] of
    the block and [score_count] of the context move together. *)
Definition update_counts (old_score new_score : Z) (block : cidr_block) (ctx : sauron_ctx)
  : cidr_block * sauron_ctx :=
  if (old_score =? 0) && negb (new_score =? 0) then
    (with_active_count block (u32 (active_count block + 1)),
     with_score_count ctx (u64 (score_count ctx + 1)))
  else if negb (old_score =? 0) && (new_score =? 0) then
    (with_active_count block (u32 (active_count block - 1)),
     with_score_count ctx (u64 (score_count ctx - 1)))
  else (block, ctx).

Definition sauron_set_u32 (ctx : sauron_ctx) (ip : Z) (score : Z) : Z * sauron_ctx :=
  match get_or_alloc_block ctx ip with
  | (None, ctx) => (0, ctx)
  | (Some block, ctx) =>
      let host_idx := ip_to_host_idx ip in
      let old_score := block_score block host_idx in
      let block := block_store block host_idx score in
      let '(block, ctx) := update_counts old_score score block ctx in
      (old_score, store_block ctx (ip_to_prefix16 ip) (ip_to_block_idx ip) block)
  end.

(** Both operands are 16-bit, so the widened sum is exact. *)
Definition saturating_add (a b : Z) : Z :=
  let result := a + b in
  if result >? SAURON_SCORE_MAX then SAURON_SCORE_MAX
  else if result <? SAURON_SCORE_MIN then SAURON_SCORE_MIN
  else i16 result.

Definition sauron_incr_u32 (ctx : sauron_ctx) (ip : Z) (delta : Z) : Z * sauron_ctx :=
  if delta =? 0 then (sauron_get_u32 ctx ip, ctx)
  else
    match get_or_alloc_block ctx ip with
    | (None, ctx) => (0, ctx)
    | (Some block, ctx) =>
        let host_idx := ip_to_host_idx ip in
        let old_score := block_score block host_idx in
        let new_score := saturating_add old_score delta in
        let block := block_store block host_idx new_score in
        let '(block, ctx) := update_counts old_score new_score block ctx in
        (new_score, store_block ctx (ip_to_prefix16 ip) (ip_to_block_idx ip) block)
    end.

Definition sauron_decr_u32 (ctx : sauron_ctx) (ip : Z) (delta : Z) : Z * sauron_ctx :=
  if delta =? INT16_MIN then sauron_incr_u32 ctx ip INT16_MAX
  else sauron_incr_u32 ctx ip (i16 (- delta)).

Definition sauron_delete_u32 (ctx : sauron_ctx) (ip : Z) : Z * sauron_ctx :=
  match get_block ctx ip with
  | None => (SAURON_OK, ctx)
  | Some block =>
      let host_idx := ip_to_host_idx ip in
      let old_score := block_score block host_idx in
      if negb (old_score =? 0) then
        let block := block_store block host_idx 0 in
        let block := with_active_count block (u32 (active_count block - 1)) in
        let ctx := with_score_count ctx (u64 (score_count ctx - 1)) in
        (SAURON_OK, store_block ctx (ip_to_prefix16 ip) (ip_to_block_idx ip) block)
      else (SAURON_OK, ctx)
  end.

(** [sauron_get_ex]: the status and the value written to [*score_out], if
    any. *)
Definition sauron_get_ex (ctx : sauron_ctx) (ip : Z) : Z * option Z :=
  match get_block ctx ip with
  | None => (SAURON_ERR_INVALID, Some 0)
  | Some block =>
      let score := block_score block (ip_to_host_idx ip) in
      if score =? 0 then (SAURON_ERR_INVALID, None)
      else (SAURON_OK, Some score)
  end.

Definition sauron_count (ctx : sauron_ctx) : Z := score_count ctx.
Definition sauron_block_count (ctx : sauron_ctx) : Z := block_count ctx.
Definition sauron_memory_usage (ctx : sauron_ctx) : Z := memory_used ctx.

End Engine.

(** ** Single-precision arithmetic

    [float] is IEEE 754 binary32 ([prec = 24], [emax = 128]) and
    expressions of type [float] are evaluated in that format
    (FLT_EVAL_METHOD 0), rounding to nearest even. *)

Definition float_of_int16 (x : Z) : spec_float := binary_normalize 24 128 x 0 false.
Definition float_mul (x y : spec_float) : spec_float := SFmul 24 128 x y.
Definition float_zero : spec_float := S754_zero false.
Definition float_one : spec_float := S754_finite false 8388608 (-23).

(** The integral part of a finite float, rounded toward zero. *)
Definition float_trunc (s : bool) (m : positive) (e : Z) : Z :=
  cond_Zopp s (Z.shiftl (Zpos m) e).

(** [(int16_t)x] for a [float] x: the value is truncated toward zero; the
    behaviour is undefined ([None]) when x is not finite or the integral
    part does not fit the type (C17 6.3.1.4). *)
Definition float_to_int16 (x : spec_float) : option Z :=
  match x with
  | S754_zero _ => Some 0
  | S754_finite s m e =>
      let t := float_trunc s m e in
      if (INT16_MIN <=? t) && (t <=? INT16_MAX) then Some t else None
  | _ => None
  end.

(** ** Loops *)

(** A loop whose body may hit undefined behaviour. *)
Fixpoint foldl_opt {A B : Type} (f : A -> B -> option A) (a : A) (l : list B) : option A :=
  match l with
  | [] => Some a
  | x :: l => match f a x with Some a' => foldl_opt f a' l | None => None end
  end.

(** The values [lo, lo + 1, ..., lo + n - 1] of a loop counter. *)
Fixpoint count_from (lo : Z) (n : nat) : list Z :=
  match n with
  | O => []
  | S n => lo :: count_from (lo + 1) n
  end.

(** [for (i = 0; i < n; i++)] *)
Definition upto (n : Z) : list Z := count_from 0 (Z.to_nat n).

(** [((uint32_t)prefix16 << 8) | (uint32_t)block_idx] *)
Definition make_prefix24 (prefix16 block_idx : Z) : Z :=
  Z.lor (u32 (Z.shiftl prefix16 8)) block_idx.

(** [((uint32_t)prefix16 << 16) | ((uint32_t)block_idx << 8) | (uint32_t)host_idx] *)
Definition make_ip (prefix16 block_idx host_idx : Z) : Z :=
  Z.lor (Z.lor (u32 (Z.shiftl prefix16 16)) (u32 (Z.shiftl block_idx 8))) host_idx.

(** ** Decay *)

(** The new score of one non-zero cell: the decay factor, then the
    deadzone.  [- abs_deadzone] is computed in [int]. *)
Definition decay_score (decay_factor : spec_float) (abs_deadzone : Z) (old_score : Z)
  : option Z :=
  match float_to_int16 (float_mul (float_of_int16 old_score) decay_factor) with
  | None => None
  | Some new_score =>
      Some (if (new_score >=? 0) && (new_score <=? abs_deadzone) then 0
            else if (new_score <? 0) && (new_score >=? - abs_deadzone) then 0
            else new_score)
  end.

(** Body of the loop over the hosts of one block.  The build with
    [HAVE_AVX2] runs the same computation per cell in [decay_block_simd]
    and subtracts the zeroed cells from the counters after the loop. *)
Definition decay_host (decay_factor : spec_float) (abs_deadzone : Z)
    (st : cidr_block * sauron_ctx * Z) (host_idx : Z)
  : option (cidr_block * sauron_ctx * Z) :=
  let '(block, ctx, modified) := st in
  let old_score := block_score block host_idx in
  if old_score =? 0 then Some st
  else
    match decay_score decay_factor abs_deadzone old_score with
    | None => None
    | Some new_score =>
        if negb (new_score =? old_score) then
          let block := block_store block host_idx new_score in
          let modified := u64 (modified + 1) in
          if new_score =? 0 then
            Some (with_active_count block (u32 (active_count block - 1)),
                  with_score_count ctx (u64 (score_count ctx - 1)),
                  modified)
          else Some (block, ctx, modified)
        else Some st
    end.

(** Body of the loop over the /24 blocks of one /16. *)
Definition decay_block (decay_factor : spec_float) (abs_deadzone : Z) (prefix16 : Z)
    (st : sauron_ctx * Z) (block_idx : Z) : option (sauron_ctx * Z) :=
  let '(ctx, modified) := st in
  let prefix24 := make_prefix24 prefix16 block_idx in
  if bitmap_test ctx prefix24 =? 0 then Some st
  else
    match lookup_block ctx prefix16 block_idx with
    | None => Some st
    | Some block =>
        if active_count block =? 0 then Some (bitmap_clear ctx prefix24, modified)
        else
          match foldl_opt (decay_host decay_factor abs_deadzone)
                  (block, ctx, modified) (upto SCORES_PER_BLOCK) with
          | None => None
          | Some (block, ctx, modified) =>
              let ctx := store_block ctx prefix16 block_idx block in
              let ctx := if active_count block =? 0
                         then bitmap_clear ctx prefix24 else ctx in
              Some (ctx, modified)
          end
    end.

Definition decay_prefix16 (decay_factor : spec_float) (abs_deadzone : Z)
    (st : sauron_ctx * Z) (prefix16 : Z) : option (sauron_ctx * Z) :=
  match block_ptrs (fst st) !! prefix16 with
  | None => Some st
  | Some _ => foldl_opt (decay_block decay_factor abs_deadzone prefix16) st
                (upto BLOCKS_PER_16)
  end.

(** [abs_deadzone = (deadzone < 0) ? (int16_t)(-deadzone) : deadzone] *)
Definition abs_deadzone_of (deadzone : Z) : Z :=
  if deadzone <? 0 then i16 (- deadzone) else deadzone.

(** [sauron_decay]: the number of modified scores and the new state, or
    [None] when a conversion is undefined. *)
Definition sauron_decay (ctx : sauron_ctx) (decay_factor : spec_float) (deadzone : Z)
  : option (Z * sauron_ctx) :=
  if SFltb decay_factor float_zero || SFltb float_one decay_factor then Some (0, ctx)
  else
    let abs_deadzone := abs_deadzone_of deadzone in
    match foldl_opt (decay_prefix16 decay_factor abs_deadzone) (ctx, 0)
            (upto PREFIX16_COUNT) with
    | None => None
    | Some (ctx, modified) => Some (modified, ctx)
    end.

(** ** Clear *)

Definition zero_block : cidr_block :=
  mk_block (replicate (Z.to_nat SCORES_PER_BLOCK) 0) 0.

Definition clear_block (prefix16 : Z) (ctx : sauron_ctx) (block_idx : Z) : sauron_ctx :=
  match lookup_block ctx prefix16 block_idx with
  | None => ctx
  | Some block =>
      let prefix24 := make_prefix24 prefix16 block_idx in
      let block := mk_block (replicate (Z.to_nat SCORES_PER_BLOCK) 0) (active_count block) in
      let block := with_active_count block 0 in
      bitmap_clear (store_block ctx prefix16 block_idx block) prefix24
  end.

Definition clear_prefix16 (ctx : sauron_ctx) (prefix16 : Z) : sauron_ctx :=
  match block_ptrs ctx !! prefix16 with
  | None => ctx
  | Some _ => fold_left (clear_block prefix16) (upto BLOCKS_PER_16) ctx
  end.

(** The clearing loop shared by [sauron_clear] and [sauron_load]. *)
Definition clear_blocks (ctx : sauron_ctx) : sauron_ctx :=
  with_score_count (fold_left clear_prefix16 (upto PREFIX16_COUNT) ctx) 0.

Definition sauron_clear (ctx : sauron_ctx) : Z * sauron_ctx :=
  (SAURON_OK, clear_blocks ctx).

(** ** C strings

    A [const char *] is the string of the bytes from the pointer on; the
    byte read at the end of the string is the terminating NUL. *)

Definition NUL : ascii := "000"%char.

Definition peek (p : string) : ascii :=
  match p with
  | String c _ => c
  | EmptyString => NUL
  end.

Definition char_code (c : ascii) : Z := Z.of_N (N_of_ascii c).

Definition is_digit (c : ascii) : bool :=
  (char_code "0" <=? char_code c) && (char_code c <=? char_code "9").

(** [' '] or ['\t'] *)
Definition is_blank (c : ascii) : bool :=
  Ascii.eqb c " " || Ascii.eqb c "009".

(** [' '], ['\t'], ['\r'] or ['\n'] *)
Definition is_trailing_space (c : ascii) : bool :=
  Ascii.eqb c " " || Ascii.eqb c "009" || Ascii.eqb c "013" || Ascii.eqb c "010".

(** Skipping blanks: the pointer moves past every [' '] and ['\t']. *)
Fixpoint skip_blanks (p : string) : string :=
  match p with
  | String c rest => if is_blank c then skip_blanks rest else p
  | EmptyString => p
  end.

Fixpoint skip_trailing (p : string) : string :=
  match p with
  | String c rest => if is_trailing_space c then skip_trailing rest else p
  | EmptyString => p
  end.

(** ** Address parsing *)

(** The loop of [sauron_ip_to_u32]; [None] is an early [return 0]. *)
Fixpoint ip_to_u32_loop (p : string) (result octet dots digits_in_octet : Z)
  : option (Z * Z * Z * Z) :=
  match p with
  | EmptyString => Some (result, octet, dots, digits_in_octet)
  | String c rest =>
      if Ascii.eqb c NUL then Some (result, octet, dots, digits_in_octet)
      else if is_digit c then
        let octet := u32 (octet * 10 + (char_code c - char_code "0")) in
        let digits_in_octet := digits_in_octet + 1 in
        if octet >? 255 then None
        else ip_to_u32_loop rest result octet dots digits_in_octet
      else if Ascii.eqb c "." then
        if digits_in_octet =? 0 then None
        else if dots >=? 3 then None
        else ip_to_u32_loop rest (u32 (Z.lor (Z.shiftl result 8) octet)) 0 (dots + 1) 0
      else None
  end.

Definition sauron_ip_to_u32 (ip : string) : Z :=
  match ip_to_u32_loop ip 0 0 0 0 with
  | None => 0
  | Some (result, octet, dots, digits_in_octet) =>
      if digits_in_octet =? 0 then 0
      else if negb (dots =? 3) then 0
      else u32 (Z.lor (Z.shiftl result 8) octet)
  end.

(** ** Bulk CSV loading *)

Definition BULK_LINE_MAX : Z := 64.

(** The address loop of [parse_bulk_line]: the state at the comma, the
    blank or the end of the string, with the rest of the line. *)
Fixpoint parse_bulk_ip (p : string) (ip octet dots digits : Z)
  : option (Z * Z * Z * Z * string) :=
  match p with
  | EmptyString => Some (ip, octet, dots, digits, p)
  | String c rest =>
      if Ascii.eqb c NUL || Ascii.eqb c "," then Some (ip, octet, dots, digits, p)
      else if is_digit c then
        let octet := u32 (octet * 10 + (char_code c - char_code "0")) in
        let digits := digits + 1 in
        if octet >? 255 then None
        else parse_bulk_ip rest ip octet dots digits
      else if Ascii.eqb c "." then
        if digits =? 0 then None
        else if dots >=? 3 then None
        else parse_bulk_ip rest (u32 (Z.lor (Z.shiftl ip 8) octet)) 0 (dots + 1) 0
      else if is_blank c then Some (ip, octet, dots, digits, p)
      else None
  end.

(** The digit loop of the value, saturating at 32767. *)
Fixpoint parse_bulk_value (p : string) (value : Z) : Z * string :=
  match p with
  | EmptyString => (value, p)
  | String c rest =>
      if is_digit c then
        let value := value * 10 + (char_code c - char_code "0") in
        let value := if value >? 32767 then 32767 else value in
        parse_bulk_value rest value
      else (value, p)
  end.

(** [parse_bulk_line]: [Some (ip, value, is_relative)] when it returns 1. *)
Definition parse_bulk_line (line : string) : option (Z * Z * bool) :=
  let p := skip_blanks line in
  match parse_bulk_ip p 0 0 0 0 with
  | None => None
  | Some (ip, octet, dots, digits, p) =>
      if negb (dots =? 3) || (digits =? 0) then None
      else
        let ip := u32 (Z.lor (Z.shiftl ip 8) octet) in
        let p := skip_blanks p in
        match p with
        | String "," p =>
            let p := skip_blanks p in
            let '(is_relative, negative, p) :=
              match p with
              | String "+" p1 =>
                  match p1 with
                  | String "-" p2 => (true, true, p2)
                  | _ => (true, false, p1)
                  end
              | String "-" p1 => (false, true, p1)
              | _ => (false, false, p)
              end in
            if negb (is_digit (peek p)) then None
            else
              let '(value, p) := parse_bulk_value p 0 in
              let value := if negative then - value else value in
              let p := skip_trailing p in
              if negb (Ascii.eqb (peek p) NUL) && negb (Ascii.eqb (peek p) "#") then None
              else Some (ip, i16 value, is_relative)
        | _ => None
        end
  end.

(** The integer fields of [sauron_bulk_result_t]; the two timing fields
    depend on the clock and are left out. *)
Record sauron_bulk_result := mk_bulk_result {
  lines_processed : Z;
  lines_skipped : Z;
  sets : Z;
  updates : Z;
  parse_errors : Z
}.

Definition bulk_result_zero : sauron_bulk_result := mk_bulk_result 0 0 0 0 0.

(** The lines of a buffer as the scanning loop of
    [sauron_bulk_load_buffer] delimits them: [cur] holds the bytes of the
    current line; a line ends at ['\n'] or at the end of the data, and no
    line starts at the end of the data. *)
Fixpoint buffer_lines (data : string) (cur : string) : list string :=
  match data with
  | EmptyString => if String.eqb cur EmptyString then [] else [cur]
  | String c rest =>
      if Ascii.eqb c "010" then cur :: buffer_lines rest EmptyString
      else buffer_lines rest (String.append cur (String c EmptyString))
  end.

(** The lines [getline] returns: each keeps its ['\n']. *)
Fixpoint getline_lines (data : string) (cur : string) : list string :=
  match data with
  | EmptyString => if String.eqb cur EmptyString then [] else [cur]
  | String c rest =>
      if Ascii.eqb c "010" then (String.append cur (String c EmptyString)) :: getline_lines rest EmptyString
      else getline_lines rest (String.append cur (String c EmptyString))
  end.

(** [line_buffer] after the [memcpy] of at most [BULK_LINE_MAX - 1] bytes. *)
Definition truncate_line (line : string) : string :=
  String.substring 0 (Z.to_nat (BULK_LINE_MAX - 1)) line.

Section Bulk.
Context `{Platform}.

(** Applying a parsed record: it goes through the normal write path. *)
Definition bulk_apply (st : sauron_ctx * sauron_bulk_result) (ip value : Z)
    (is_relative : bool) : sauron_ctx * sauron_bulk_result :=
  let '(ctx, stats) := st in
  if is_relative then
    (snd (sauron_incr_u32 ctx ip value),
     mk_bulk_result (lines_processed stats) (lines_skipped stats) (sets stats)
       (u64 (updates stats + 1)) (parse_errors stats))
  else
    (snd (sauron_set_u32 ctx ip value),
     mk_bulk_result (lines_processed stats) (lines_skipped stats)
       (u64 (sets stats + 1)) (updates stats) (parse_errors stats)).

Definition bulk_count_line (stats : sauron_bulk_result) : sauron_bulk_result :=
  mk_bulk_result (u64 (lines_processed stats + 1)) (lines_skipped stats)
    (sets stats) (updates stats) (parse_errors stats).

Definition bulk_count_error (stats : sauron_bulk_result) : sauron_bulk_result :=
  mk_bulk_result (lines_processed stats) (u64 (lines_skipped stats + 1))
    (sets stats) (updates stats) (u64 (parse_errors stats + 1)).

(** Body of the loop of [sauron_bulk_load_buffer] for one scanned line. *)
Definition bulk_buffer_line (st : sauron_ctx * sauron_bulk_result) (line : string)
  : sauron_ctx * sauron_bulk_result :=
  let '(ctx, stats) := st in
  let line_len := Z.of_nat (String.length line) in
  let line_len := if line_len >=? BULK_LINE_MAX then BULK_LINE_MAX - 1 else line_len in
  let line_buffer := truncate_line line in
  let stats := bulk_count_line stats in
  if (line_len =? 0) || Ascii.eqb (peek line_buffer) "#" then (ctx, stats)
  else
    match parse_bulk_line line_buffer with
    | None => (ctx, bulk_count_error stats)
    | Some (ip, value, is_relative) => bulk_apply (ctx, stats) ip value is_relative
    end.

Definition sauron_bulk_load_buffer (ctx : sauron_ctx) (data : string)
  : Z * sauron_ctx * sauron_bulk_result :=
  let '(ctx, stats) :=
    fold_left bulk_buffer_line (buffer_lines data EmptyString) (ctx, bulk_result_zero) in
  (SAURON_OK, ctx, stats).

(** Body of the loop of [sauron_bulk_load] for one line read by [getline]. *)
Definition bulk_file_line (st : sauron_ctx * sauron_bulk_result) (line_buffer : string)
  : sauron_ctx * sauron_bulk_result :=
  let '(ctx, stats) := st in
  let line_len := Z.of_nat (String.length line_buffer) in
  let stats := bulk_count_line stats in
  if (line_len =? 0) || Ascii.eqb (peek line_buffer) "#"
     || Ascii.eqb (peek line_buffer) "010" then (ctx, stats)
  else
    match parse_bulk_line line_buffer with
    | None => (ctx, bulk_count_error stats)
    | Some (ip, value, is_relative) => bulk_apply (ctx, stats) ip value is_relative
    end.

(** [sauron_bulk_load]: [fopen] fails on a missing file, [malloc] of the
    line buffer may fail. *)
Definition sauron_bulk_load (ctx : sauron_ctx) (filename : string)
    (fs : gmap string string) : Z * sauron_ctx * sauron_bulk_result :=
  match fs !! filename with
  | None => (SAURON_ERR_IO, ctx, bulk_result_zero)
  | Some data =>
      if heap_ok (memory_used ctx) BULK_LINE_MAX then
        let '(ctx, stats) :=
          fold_left bulk_file_line (getline_lines data EmptyString) (ctx, bulk_result_zero) in
        (SAURON_OK, ctx, stats)
      else (SAURON_ERR_NOMEM, ctx, bulk_result_zero)
  end.

End Bulk.

(** ** Snapshot files

    A file is the string of its bytes; the file system maps a path to the
    file stored there.  Multi-byte fields are little-endian. *)

Definition SAURON_MAGIC : string := "SAUR".
Definition SAURON_ARCHIVE_VERSION : Z := 1.
Definition WRITE_BUFFER_ENTRIES : Z := 4096.
Definition MAX_ARCHIVE_ENTRIES : Z := 4294967296.

Definition byte_of (x : Z) : ascii := ascii_of_N (Z.to_N (x mod 256)).

(** The [n] bytes of the object representation of an integer. *)
Fixpoint le_bytes (n : nat) (x : Z) : string :=
  match n with
  | O => EmptyString
  | S n => String (byte_of x) (le_bytes n (x / 256))
  end.

(** The unsigned integer a sequence of bytes represents. *)
Fixpoint le_value (bytes : string) : Z :=
  match bytes with
  | EmptyString => 0
  | String c rest => char_code c + 256 * le_value rest
  end.

(** [archive_entry_t], packed: 4 bytes of address, 2 bytes of score. *)
Definition entry_bytes (e : Z * Z) : string :=
  String.append (le_bytes 4 (fst e)) (le_bytes 2 (snd e)).

Fixpoint entries_bytes (es : list (Z * Z)) : string :=
  match es with
  | [] => EmptyString
  | e :: es => String.append (entry_bytes e) (entries_bytes es)
  end.

(** [fread] of one object of [n] bytes: the bytes read and the rest of the
    stream, or [None] when fewer than [n] bytes are left. *)
Fixpoint fread (n : nat) (fp : string) : option (string * string) :=
  match n with
  | O => Some (EmptyString, fp)
  | S n =>
      match fp with
      | EmptyString => None
      | String c rest =>
          match fread n rest with
          | Some (bytes, fp) => Some (String c bytes, fp)
          | None => None
          end
      end
  end.

(** [fseek(fp, off, SEEK_SET)] followed by an [fwrite] of [bytes]. *)
Fixpoint overwrite_at (off : nat) (bytes : string) (fp : string) : string :=
  match off with
  | O => String.append bytes
           (String.substring (String.length bytes)
              (String.length fp - String.length bytes) fp)
  | S off =>
      match fp with
      | EmptyString => String NUL (overwrite_at off bytes EmptyString)
      | String c rest => String c (overwrite_at off bytes rest)
      end
  end.

(** Which of the file calls of [sauron_save] fails, if any: [fopen] of the
    temporary file, a later [fwrite], [fseek], [fflush] or [fsync], or the
    final [rename]. *)
Inductive io_fault := io_ok | io_open_fails | io_write_fails | io_rename_fails.

(** *** Save *)

(** One record enters the write buffer, which is flushed when full.  The
    state is the file written so far, the buffer and the entry count. *)
Definition save_entry (st : string * list (Z * Z) * Z) (ip score : Z)
  : string * list (Z * Z) * Z :=
  let '(fp, write_buffer, actual_entry_count) := st in
  let write_buffer := write_buffer ++ [(ip, score)] in
  let actual_entry_count := u64 (actual_entry_count + 1) in
  if Z.of_nat (length write_buffer) >=? WRITE_BUFFER_ENTRIES then
    (String.append fp (entries_bytes write_buffer), [], actual_entry_count)
  else (fp, write_buffer, actual_entry_count).

Definition save_host (prefix16 block_idx : Z) (block : cidr_block)
    (st : string * list (Z * Z) * Z) (host_idx : Z) : string * list (Z * Z) * Z :=
  let score := block_score block host_idx in
  if score =? 0 then st
  else save_entry st (make_ip prefix16 block_idx host_idx) score.

Definition save_block (ctx : sauron_ctx) (prefix16 : Z)
    (st : string * list (Z * Z) * Z) (block_idx : Z) : string * list (Z * Z) * Z :=
  match lookup_block ctx prefix16 block_idx with
  | None => st
  | Some block =>
      if active_count block =? 0 then st
      else fold_left (save_host prefix16 block_idx block) (upto SCORES_PER_BLOCK) st
  end.

Definition save_prefix16 (ctx : sauron_ctx)
    (st : string * list (Z * Z) * Z) (prefix16 : Z) : string * list (Z * Z) * Z :=
  match block_ptrs ctx !! prefix16 with
  | None => st
  | Some _ => fold_left (save_block ctx prefix16) (upto BLOCKS_PER_16) st
  end.

(** The content of the temporary file when every write succeeds: header
    with a zero count, the entries, then the count patched in place. *)
Definition archive_bytes (ctx : sauron_ctx) : string :=
  let header :=
    String.append SAURON_MAGIC
      (String.append (le_bytes 4 SAURON_ARCHIVE_VERSION) (le_bytes 8 0)) in
  let '(fp, write_buffer, actual_entry_count) :=
    fold_left (save_prefix16 ctx) (upto PREFIX16_COUNT) (header, [], 0) in
  let fp := if (0 <? Z.of_nat (length write_buffer))
            then String.append fp (entries_bytes write_buffer) else fp in
  overwrite_at 8 (le_bytes 8 actual_entry_count) fp.

Section Persistence.
Context `{Platform}.

(** [snprintf(tmp_filename, PATH_MAX, "%s.tmp.%d", filename, getpid())] *)
Definition tmp_filename_of (filename : string) : string :=
  String.substring 0 (Z.to_nat (PATH_MAX - 1))
    (String.append filename (String.append ".tmp." (pretty cur_pid))).

Definition sauron_save (io : io_fault) (ctx : sauron_ctx) (filename : string)
    (fs : gmap string string) : Z * gmap string string :=
  let tmp_filename := tmp_filename_of filename in
  match io with
  | io_open_fails => (SAURON_ERR_IO, fs)
  | io_write_fails => (SAURON_ERR_IO, delete tmp_filename fs)
  | io_rename_fails => (SAURON_ERR_IO, delete tmp_filename fs)
  | io_ok => (SAURON_OK, <[filename := archive_bytes ctx]> (delete tmp_filename fs))
  end.

(** *** Load *)

(** The loop over the entries: [remaining] is [entry_count - i]. *)
Fixpoint load_entries (ctx : sauron_ctx) (remaining : Z) (fp : string) {struct fp}
  : Z * sauron_ctx :=
  if remaining <=? 0 then (SAURON_OK, ctx)
  else
    match fp with
    | String b0 (String b1 (String b2 (String b3 (String s0 (String s1 rest))))) =>
        let ip := le_value (String b0 (String b1 (String b2 (String b3 EmptyString)))) in
        let score := i16 (le_value (String s0 (String s1 EmptyString))) in
        let ctx := if score =? 0 then ctx else snd (sauron_set_u32 ctx ip score) in
        load_entries ctx (remaining - 1) rest
    | _ => (SAURON_ERR_IO, ctx)
    end.

Definition sauron_load (ctx : sauron_ctx) (filename : string) (fs : gmap string string)
  : Z * sauron_ctx :=
  match fs !! filename with
  | None => (SAURON_ERR_IO, ctx)
  | Some fp =>
      match fread 4 fp with
      | None => (SAURON_ERR_IO, ctx)
      | Some (magic, fp) =>
          match fread 4 fp with
          | None => (SAURON_ERR_IO, ctx)
          | Some (version, fp) =>
              let version := le_value version in
              if negb (String.eqb magic SAURON_MAGIC) then (SAURON_ERR_INVALID, ctx)
              else if (version =? 0) || (version >? SAURON_ARCHIVE_VERSION)
              then (SAURON_ERR_INVALID, ctx)
              else
                match fread 8 fp with
                | None => (SAURON_ERR_IO, ctx)
                | Some (entry_count, fp) =>
                    let entry_count := le_value entry_count in
                    if entry_count >? MAX_ARCHIVE_ENTRIES then (SAURON_ERR_INVALID, ctx)
                    else load_entries (clear_blocks ctx) entry_count fp
                end
          end
      end
  end.

(** [sauron_incr_batch] *)
Definition sauron_incr_batch (ctx : sauron_ctx) (items : list (Z * Z)) : Z * sauron_ctx :=
  fold_left (fun st item =>
               (fst st + 1, snd (sauron_incr_u32 (snd st) (fst item) (snd item))))
    items (0, ctx).

End Persistence.

(** ** Notions of the specification *)

(** [clamp]: saturation into the score range. *)
Definition clamp (x : Z) : Z := Z.max SAURON_SCORE_MIN (Z.min SAURON_SCORE_MAX x).

(** The score stored in the cell of an address (0 when its block does not
    exist), whatever the bitmap says. *)
Definition stored_score (ctx : sauron_ctx) (ip : Z) : Z :=
  match lookup_block ctx (ip_to_prefix16 ip) (ip_to_block_idx ip) with
  | Some block => block_score block (ip_to_host_idx ip)
  | None => 0
  end.

(** The number of non-zero cells of a score array. *)
Fixpoint count_nz (l : list Z) : Z :=
  match l with
  | [] => 0
  | x :: l => (if x =? 0 then 0 else 1) + count_nz l
  end.

Definition sumZ (f : Z -> Z) (l : list Z) : Z :=
  fold_right (fun x acc => f x + acc) 0 l.

(** The number of addresses whose stored score is not 0, counted over the
    whole address space. *)
Definition nonzero_addresses (ctx : sauron_ctx) : Z :=
  sumZ (fun prefix16 =>
    sumZ (fun block_idx =>
      sumZ (fun host_idx =>
              if stored_score ctx (make_ip prefix16 block_idx host_idx) =? 0
              then 0 else 1)
        (upto SCORES_PER_BLOCK))
      (upto BLOCKS_PER_16))
    (upto PREFIX16_COUNT).

Definition slot_active (ctx : sauron_ctx) (prefix16 block_idx : Z) : Z :=
  match lookup_block ctx prefix16 block_idx with
  | Some block => active_count block
  | None => 0
  end.

(** The sum of [active_count] over all blocks. *)
Definition total_active (ctx : sauron_ctx) : Z :=
  sumZ (fun prefix16 => sumZ (slot_active ctx prefix16) (upto BLOCKS_PER_16))
    (upto PREFIX16_COUNT).

(** The invariant of a block: 256 cells of type [int16_t], and
    [active_count] counts the non-zero ones. *)
Definition block_ok (b : cidr_block) : Prop :=
  length (scores b) = Z.to_nat SCORES_PER_BLOCK /\
  Forall is_i16 (scores b) /\
  active_count b = count_nz (scores b).

(** The invariant of the engine between two operations. *)
Record consistent (ctx : sauron_ctx) : Prop := mk_consistent {
  cons_keys : forall prefix16 block_idx b,
    lookup_block ctx prefix16 block_idx = Some b ->
    0 <= prefix16 < PREFIX16_COUNT /\ 0 <= block_idx < BLOCKS_PER_16;
  cons_block : forall prefix16 block_idx b,
    lookup_block ctx prefix16 block_idx = Some b -> block_ok b;
  cons_bitmap : forall prefix16 block_idx b,
    lookup_block ctx prefix16 block_idx = Some b ->
    bitmap_test ctx (make_prefix24 prefix16 block_idx) = 0 -> active_count b = 0;
  cons_count : score_count ctx = total_active ctx
}.

(** Every cell in the symmetric score range. *)
Definition scores_symmetric (ctx : sauron_ctx) : Prop :=
  forall prefix16 block_idx b,
    lookup_block ctx prefix16 block_idx = Some b ->
    Forall (fun s => SAURON_SCORE_MIN <= s <= SAURON_SCORE_MAX) (scores b).

(** The entries [sauron_load] reads from a stream hold no [INT16_MIN]:
    the same walk as [load_entries]. *)
Fixpoint entries_symmetric (remaining : Z) (fp : string) {struct fp} : Prop :=
  if remaining <=? 0 then True
  else
    match fp with
    | String b0 (String b1 (String b2 (String b3 (String s0 (String s1 rest))))) =>
        i16 (le_value (String s0 (String s1 EmptyString))) <> INT16_MIN /\
        entries_symmetric (remaining - 1) rest
    | _ => True
    end.

(** The same for a whole snapshot file, behind its 16-byte header. *)
Definition archive_symmetric (fp : string) : Prop :=
  match fread 4 fp with
  | Some (_, fp) =>
      match fread 4 fp with
      | Some (_, fp) =>
          match fread 8 fp with
          | Some (entry_count, fp) => entries_symmetric (le_value entry_count) fp
          | None => True
          end
      | None => True
      end
  | None => True
  end.

(** The new score the specification gives a cell under decay: the product
    truncated toward zero, then snapped to 0 within the deadzone. *)
Definition decayed_score_spec (decay_factor : spec_float) (deadzone : Z) (old_score : Z)
  : option Z :=
  match float_to_int16 (float_mul (float_of_int16 old_score) decay_factor) with
  | None => None
  | Some t => Some (if Z.abs t <=? Z.abs deadzone then 0 else t)
  end.

(** ** Operation sequences *)

(** The public mutators, with their arguments. *)
Inductive op :=
| op_set (ip score : Z)
| op_incr (ip delta : Z)
| op_decr (ip delta : Z)
| op_delete (ip : Z)
| op_incr_batch (items : list (Z * Z))
| op_decay (decay_factor : spec_float) (deadzone : Z)
| op_clear
| op_load (filename : string) (fs : gmap string string)
| op_bulk_load (filename : string) (fs : gmap string string)
| op_bulk_load_buffer (data : string).

(** Arguments of the C types: addresses are [uint32_t], scores and deltas
    [int16_t], the decay factor a binary32 value. *)
Definition op_typed (o : op) : Prop :=
  match o with
  | op_set ip score => is_u32 ip /\ is_i16 score
  | op_incr ip delta => is_u32 ip /\ is_i16 delta
  | op_decr ip delta => is_u32 ip /\ is_i16 delta
  | op_delete ip => is_u32 ip
  | op_incr_batch items => Forall (fun it => is_u32 (fst it) /\ is_i16 (snd it)) items
  | op_decay decay_factor deadzone =>
      valid_binary 24 128 decay_factor = true /\ is_i16 deadzone
  | op_clear => True
  | op_load _ _ => True
  | op_bulk_load _ _ => True
  | op_bulk_load_buffer _ => True
  end.

(** No score equal to [INT16_MIN] is handed to the engine, neither by
    [sauron_set_u32] nor in a snapshot entry. *)
Definition op_symmetric (o : op) : Prop :=
  match o with
  | op_set _ score => score <> INT16_MIN
  | op_load filename fs =>
      match fs !! filename with
      | Some fp => archive_symmetric fp
      | None => True
      end
  | _ => True
  end.

Section Reachability.
Context `{Platform}.

(** The state after an operation; [None] when the operation has undefined
    behaviour. *)
Definition run_op (ctx : sauron_ctx) (o : op) : option sauron_ctx :=
  match o with
  | op_set ip score => Some (snd (sauron_set_u32 ctx ip score))
  | op_incr ip delta => Some (snd (sauron_incr_u32 ctx ip delta))
  | op_decr ip delta => Some (snd (sauron_decr_u32 ctx ip delta))
  | op_delete ip => Some (snd (sauron_delete_u32 ctx ip))
  | op_incr_batch items => Some (snd (sauron_incr_batch ctx items))
  | op_decay decay_factor deadzone =>
      match sauron_decay ctx decay_factor deadzone with
      | Some (_, ctx) => Some ctx
      | None => None
      end
  | op_clear => Some (snd (sauron_clear ctx))
  | op_load filename fs => Some (snd (sauron_load ctx filename fs))
  | op_bulk_load filename fs => Some (snd (fst (sauron_bulk_load ctx filename fs)))
  | op_bulk_load_buffer data => Some (snd (fst (sauron_bulk_load_buffer ctx data)))
  end.

(** The states a single thread reaches from [sauron_create] with
    operations satisfying [allowed]. *)
Inductive reachable_by (allowed : op -> Prop) : sauron_ctx -> Prop :=
| reach_create ctx :
    sauron_create = Some ctx -> reachable_by allowed ctx
| reach_step ctx o ctx' :
    reachable_by allowed ctx -> allowed o -> run_op ctx o = Some ctx' ->
    reachable_by allowed ctx'.

Definition reachable : sauron_ctx -> Prop := reachable_by op_typed.

End Reachability.

(** A 64-bit Linux build with spinlocks, whose allocator never fails. *)
Definition lp64 : Platform :=
  {| sizeof_cidr_block := 520;
     sizeof_block_ptr := 8;
     sizeof_sauron_ctx := 525352;
     heap_ok := fun _ _ => true;
     cur_pid := 4242;
     PATH_MAX := 4096 |}.

(** The engine [sauron_create] returns on that platform. *)
Definition lp64_fresh : sauron_ctx :=
  default (mk_ctx ∅ ∅ 0 0 0) (@sauron_create lp64).

(** ** Notions used in the proofs *)

(** 1 for a non-zero score, 0 for a zero one. *)
Definition nz (x : Z) : Z := if x =? 0 then 0 else 1.

(** The block of a slot after blocks satisfying [c] were zeroed. *)
Definition zero_if (c : Prop) `{Decision c} (o : option cidr_block) : option cidr_block :=
  match o with
  | Some x => Some (if decide c then zero_block else x)
  | None => None
  end.

(** How a sweep with factor [f] and deadzone [adz] relates the old and the
    new value of a cell. *)
Definition cell_rel (f : spec_float) (adz : Z) (v v' : Z) : Prop :=
  (v = 0 /\ v' = 0) \/ (v <> 0 /\ decay_score f adz v = Some v').

(** The cell [h] of the block in slot [(p, b)], 0 without a block. *)
Definition slot_cell (ctx : sauron_ctx) (p b h : Z) : Z :=
  match lookup_block ctx p b with
  | Some x => block_score x h
  | None => 0
  end.

(** The records of the live cells, in the order of the traversal. *)
Definition host_entries (p b : Z) (block : cidr_block) (hosts : list Z) : list (Z * Z) :=
  flat_map (fun h => if block_score block h =? 0 then []
                     else [(make_ip p b h, block_score block h)]) hosts.

(** The records [save_block] emits for one slot. *)
Definition block_entries (ctx : sauron_ctx) (p b : Z) : list (Z * Z) :=
  match lookup_block ctx p b with
  | None => []
  | Some block =>
      if active_count block =? 0 then []
      else host_entries p b block (upto SCORES_PER_BLOCK)
  end.

(** The records [save_prefix16] emits for one /16. *)
Definition prefix16_entries (ctx : sauron_ctx) (p : Z) : list (Z * Z) :=
  match block_ptrs ctx !! p with
  | None => []
  | Some _ => flat_map (block_entries ctx p) (upto BLOCKS_PER_16)
  end.

(** The records of a whole snapshot. *)
Definition live_entries (ctx : sauron_ctx) : list (Z * Z) :=
  flat_map (prefix16_entries ctx) (upto PREFIX16_COUNT).

(** [save_entry] over a list of records. *)
Definition save_entries (st : string * list (Z * Z) * Z) (es : list (Z * Z))
  : string * list (Z * Z) * Z :=
  fold_left (fun st e => save_entry st (fst e) (snd e)) es st.

Section RoundTripNotions.
Context `{Platform}.

(** What [load_entries] does with one non-zero record. *)
Definition load_apply (ctx : sauron_ctx) (e : Z * Z) : sauron_ctx :=
  snd (sauron_set_u32 ctx (fst e) (snd e)).

End RoundTripNotions.

(** A string of decimal digits and the number it denotes. *)
Fixpoint all_digits (s : string) : bool :=
  match s with
  | EmptyString => true
  | String c rest => is_digit c && all_digits rest
  end.

Fixpoint decimal_from (acc : Z) (s : string) : Z :=
  match s with
  | EmptyString => acc
  | String c rest => decimal_from (acc * 10 + (char_code c - char_code "0")) rest
  end.

(** The number a string of digits denotes. *)
Definition decimal (s : string) : Z := decimal_from 0 s.

(** A field of digits: not empty, digits only. *)
Definition digit_field (s : string) : Prop := s <> EmptyString /\ all_digits s = true.

(** The four ways to write a value. *)
Inductive value_form := form_set_plus | form_set_minus | form_add_plus | form_add_minus.

(** The characters before the digits, whether the record is relative, and
    the value it carries. *)
Definition form_prefix (f : value_form) : string :=
  match f with
  | form_set_plus => EmptyString
  | form_set_minus => "-"
  | form_add_plus => "+"
  | form_add_minus => "+-"
  end.

Definition form_relative (f : value_form) : bool :=
  match f with
  | form_set_plus | form_set_minus => false
  | form_add_plus | form_add_minus => true
  end.

Definition form_value (f : value_form) (n : Z) : Z :=
  match f with
  | form_set_plus | form_add_plus => n
  | form_set_minus | form_add_minus => - n
  end.

(** The line [o1.o2.o3.o4,<prefix><digits>]. *)
Definition csv_line (o1 o2 o3 o4 : string) (f : value_form) (ds : string) : string :=
  String.append o1 (String "." (String.append o2 (String "." (String.append o3
    (String "." (String.append o4 (String "," (String.append (form_prefix f) ds)))))))).

(** The address [a.b.c.d] in host byte order. *)
Definition ipv4 (a b c d : Z) : Z := a * 2 ^ 24 + b * 2 ^ 16 + c * 2 ^ 8 + d.

(** The line feed. *)
Definition LF : string := String "010" EmptyString.

(** The buffer of the end-to-end scenario. *)
Definition scenario_buffer : string :=
  String.append "10.0.0.1,100" (String.append LF
    (String.append "10.0.0.2,+200" (String.append LF
       (String.append "10.0.0.3,-50" LF)))).

(** A record of 70 bytes: the value 5 written with 60 leading zeros. *)
Definition long_record : string :=
  csv_line "10" "0" "0" "1" form_set_plus
    "0000000000000000000000000000000000000000000000000000000000005".

(** The conversion of the 16-bit integer [v] to [float] is exact: sign,
    a negative exponent and the mantissa of |v|. *)
Definition float_of_int16_exact (v : Z) : bool :=
  match float_of_int16 v with
  | S754_zero _ => v =? 0
  | S754_finite s m e =>
      Bool.eqb s (v <? 0) && (e <=? 0) && (Zpos m =? Z.abs v * 2 ^ (- e))
  | _ => false
  end.

(** A score of the symmetric range. *)
Definition symmetric (v : Z) : Prop := SAURON_SCORE_MIN <= v <= SAURON_SCORE_MAX.

(** Every address reads a score of the symmetric range. *)
Definition cells_symmetric (ctx : sauron_ctx) : Prop :=
  forall ip, is_u32 ip -> symmetric (stored_score ctx ip).

(** The invariant of the bulk loops for the symmetric range. *)
Definition bulk_state_ok (st : sauron_ctx * sauron_bulk_result) : Prop :=
  consistent (fst st) /\ cells_symmetric (fst st).

(** The factor 1.0 with the deadzone 0 gives the score [v] back. *)
Definition decay_one_exact (v : Z) : bool :=
  match decay_score float_one 0 v with
  | Some v' => v' =? v
  | None => false
  end.

(** A snapshot header with the version 2 and no entry. *)
Definition bad_version_snapshot : string :=
  String.append "SAUR"
    (String.append (le_bytes 4 2) (String.append (le_bytes 8 0) EmptyString)).

(** ** Allocation outcomes of a run *)

Section Allocation.
Context `{Platform}.

(** The write path gets the block of [ip]: the block exists, or the
    allocations [get_or_alloc_block] performs for it succeed. *)
Definition block_available (ctx : sauron_ctx) (ip : Z) : Prop :=
  is_Some (fst (get_or_alloc_block ctx ip)).

(** Every [sauron_set_u32] of the entry loop of [sauron_load] gets its
    block: the same walk as [load_entries]. *)
Fixpoint entries_allocated (ctx : sauron_ctx) (remaining : Z) (fp : string) {struct fp}
  : Prop :=
  if remaining <=? 0 then True
  else
    match fp with
    | String b0 (String b1 (String b2 (String b3 (String s0 (String s1 rest))))) =>
        let ip := le_value (String b0 (String b1 (String b2 (String b3 EmptyString)))) in
        let score := i16 (le_value (String s0 (String s1 EmptyString))) in
        if score =? 0 then entries_allocated ctx (remaining - 1) rest
        else block_available ctx ip /\
             entries_allocated (snd (sauron_set_u32 ctx ip score)) (remaining - 1) rest
    | _ => True
    end.

(** The same for a whole [sauron_load] of a file. *)
Definition load_allocated (ctx : sauron_ctx) (filename : string)
    (fs : gmap string string) : Prop :=
  match fs !! filename with
  | Some fp =>
      match fread 4 fp with
      | Some (_, fp) =>
          match fread 4 fp with
          | Some (_, fp) =>
              match fread 8 fp with
              | Some (entry_count, fp) =>
                  entries_allocated (clear_blocks ctx) (le_value entry_count) fp
              | None => True
              end
          | None => True
          end
      | None => True
      end
  | None => True
  end.

(** Every record of a list gets its block when the records are applied in
    order. *)
Fixpoint records_allocated (ctx : sauron_ctx) (es : list (Z * Z)) : Prop :=
  match es with
  | [] => True
  | e :: es => block_available ctx (fst e) /\ records_allocated (load_apply ctx e) es
  end.

End Allocation.

(** The platform [lp64] with a heap that holds the context and the bitmap
    and nothing more. *)
Definition lp64_tight : Platform :=
  {| sizeof_cidr_block := 520;
     sizeof_block_ptr := 8;
     sizeof_sauron_ctx := 525352;
     heap_ok := fun used size => used + size <=? 525352 + BITMAP_BYTES;
     cur_pid := 4242;
     PATH_MAX := 4096 |}.

(** The same with room for one block-pointer array and one block. *)
Definition lp64_one_block : Platform :=
  {| sizeof_cidr_block := 520;
     sizeof_block_ptr := 8;
     sizeof_sauron_ctx := 525352;
     heap_ok := fun used size => used + size <=? 525352 + BITMAP_BYTES + 2048 + 520;
     cur_pid := 4242;
     PATH_MAX := 4096 |}.

(** The engines [sauron_create] returns on these platforms. *)
Definition lp64_tight_fresh : sauron_ctx :=
  default (mk_ctx ∅ ∅ 0 0 0) (@sauron_create lp64_tight).

Definition lp64_one_block_fresh : sauron_ctx :=
  default (mk_ctx ∅ ∅ 0 0 0) (@sauron_create lp64_one_block).

(** The file the file loader reads in the comparison. *)
Definition long_record_file : gmap string string :=
  {[ "records.csv" := String.append long_record LF ]}.

(** ** Address formatting and the string interface *)

(** The text [snprintf] produces for ["%u.%u.%u.%u"]. *)
Definition format_ip (ip : Z) : string :=
  String.append (pretty (Z.land (Z.shiftr ip 24) 255)) (String "."
    (String.append (pretty (Z.land (Z.shiftr ip 16) 255)) (String "."
       (String.append (pretty (Z.land (Z.shiftr ip 8) 255)) (String "."
          (pretty (Z.land ip 255))))))).

(** [sauron_u32_to_ip]: [snprintf] into 16 bytes stores at most 15
    characters. *)
Definition sauron_u32_to_ip (ip : Z) : string :=
  String.substring 0 15 (format_ip ip).

(** [sauron_u32_to_ip_s]: the value returned and the content of the buffer,
    if written. *)
Definition sauron_u32_to_ip_s (ip buf_size : Z) : Z * option string :=
  if buf_size <? 16 then (0, None)
  else (Z.of_nat (String.length (format_ip ip)),
        Some (String.substring 0 (Z.to_nat (buf_size - 1)) (format_ip ip))).

Section StringInterface.
Context `{Platform}.

Definition sauron_get (ctx : sauron_ctx) (ip : string) : Z :=
  let ip_u32 := sauron_ip_to_u32 ip in
  if ip_u32 =? 0 then 0 else sauron_get_u32 ctx ip_u32.

Definition sauron_set (ctx : sauron_ctx) (ip : string) (score : Z) : Z * sauron_ctx :=
  let ip_u32 := sauron_ip_to_u32 ip in
  if ip_u32 =? 0 then (0, ctx) else sauron_set_u32 ctx ip_u32 score.

Definition sauron_incr (ctx : sauron_ctx) (ip : string) (delta : Z) : Z * sauron_ctx :=
  let ip_u32 := sauron_ip_to_u32 ip in
  if ip_u32 =? 0 then (0, ctx) else sauron_incr_u32 ctx ip_u32 delta.

Definition sauron_decr (ctx : sauron_ctx) (ip : string) (delta : Z) : Z * sauron_ctx :=
  if delta =? INT16_MIN then sauron_incr ctx ip INT16_MAX
  else sauron_incr ctx ip (i16 (- delta)).

Definition sauron_delete (ctx : sauron_ctx) (ip : string) : Z * sauron_ctx :=
  let ip_u32 := sauron_ip_to_u32 ip in
  if ip_u32 =? 0 then (SAURON_ERR_INVALID, ctx) else sauron_delete_u32 ctx ip_u32.

End StringInterface.

(** The bytes of a C string: those before the first NUL. *)
Fixpoint cstr (s : string) : string :=
  match s with
  | EmptyString => EmptyString
  | String c rest => if Ascii.eqb c NUL then EmptyString else String c (cstr rest)
  end.

(** The text [o1.o2.o3.o4]. *)
Definition dotted (o1 o2 o3 o4 : string) : string :=
  String.append o1 (String "." (String.append o2 (String "." (String.append o3
    (String "." o4))))).

(** The decimal text of an octet is a field of at most three digits that
    denotes it. *)
Definition octet_text_ok (a : Z) : bool :=
  negb (String.eqb (pretty a) EmptyString) && all_digits (pretty a)
  && (decimal (pretty a) =? a) && (Z.of_nat (String.length (pretty a)) <=? 3).

(** ** Allocation accounting *)

(** 1 when slot [(p, b)] holds a block. *)
Definition slot_present (ctx : sauron_ctx) (p b : Z) : Z :=
  match lookup_block ctx p b with Some _ => 1 | None => 0 end.

(** 1 when the directory entry [p] holds a block-pointer array. *)
Definition array_present (ctx : sauron_ctx) (p : Z) : Z :=
  match block_ptrs ctx !! p with Some _ => 1 | None => 0 end.

(** The number of allocated blocks and of allocated block-pointer arrays. *)
Definition allocated_blocks (ctx : sauron_ctx) : Z :=
  sumZ (fun p => sumZ (slot_present ctx p) (upto BLOCKS_PER_16)) (upto PREFIX16_COUNT).

Definition allocated_arrays (ctx : sauron_ctx) : Z :=
  sumZ (array_present ctx) (upto PREFIX16_COUNT).

(** Two states with the same allocations and the same statistics of
    them. *)
Definition same_shape (ctx ctx' : sauron_ctx) : Prop :=
  (forall p, array_present ctx' p = array_present ctx p) /\
  (forall p b, slot_present ctx' p b = slot_present ctx p b) /\
  block_count ctx' = block_count ctx /\ memory_used ctx' = memory_used ctx.

Section Accounting.
Context `{Platform}.

(** The statistics agree with the allocations: [block_count] is the number
    of blocks, and [memory_used] the size of the context, the bitmap, the
    arrays and the blocks, as a [size_t]. *)
Definition accounted (ctx : sauron_ctx) : Prop :=
  block_count ctx = allocated_blocks ctx /\
  memory_used ctx =
    u64 (sizeof_sauron_ctx + BITMAP_BYTES
         + allocated_arrays ctx * (BLOCKS_PER_16 * sizeof_block_ptr)
         + allocated_blocks ctx * sizeof_cidr_block).

End Accounting.

(** A block of 256 cells of type [int16_t]. *)
Definition cells_typed (block : cidr_block) : Prop :=
  length (scores block) = Z.to_nat SCORES_PER_BLOCK /\ Forall is_i16 (scores block).

(** ** Iteration

    [sauron_foreach] calls a function of the caller on every non-zero
    score.  The callback is a function of the address, the score and the
    caller's data that returns its [int] and the new data; it does not
    write to the engine it iterates over. *)

Section Foreach.
Context {U : Type}.
Variable callback : Z -> Z -> U -> Z * U.

(** Body of the loop over the hosts of one block.  The state is [count],
    [stop] and the caller's data. *)
Definition foreach_host (prefix16 block_idx : Z) (block : cidr_block)
    (st : Z * bool * U) (host_idx : Z) : Z * bool * U :=
  let '(count, stop, user_data) := st in
  if stop then st
  else
    let score := block_score block host_idx in
    if score =? 0 then st
    else
      let ip := make_ip prefix16 block_idx host_idx in
      let count := u64 (count + 1) in
      let '(r, user_data) := callback ip score user_data in
      (count, negb (r =? 0), user_data).

Definition foreach_block (ctx : sauron_ctx) (prefix16 : Z)
    (st : Z * bool * U) (block_idx : Z) : Z * bool * U :=
  let '(count, stop, user_data) := st in
  if stop then st
  else
    let prefix24 := make_prefix24 prefix16 block_idx in
    if bitmap_test ctx prefix24 =? 0 then st
    else
      match lookup_block ctx prefix16 block_idx with
      | None => st
      | Some block =>
          if active_count block =? 0 then st
          else fold_left (foreach_host prefix16 block_idx block)
                 (upto SCORES_PER_BLOCK) st
      end.

Definition foreach_prefix16 (ctx : sauron_ctx)
    (st : Z * bool * U) (prefix16 : Z) : Z * bool * U :=
  let '(count, stop, user_data) := st in
  if stop then st
  else
    match block_ptrs ctx !! prefix16 with
    | None => st
    | Some _ => fold_left (foreach_block ctx prefix16) (upto BLOCKS_PER_16) st
    end.

(** [sauron_foreach]: the count returned and the caller's data afterwards. *)
Definition sauron_foreach (ctx : sauron_ctx) (user_data : U) : Z * U :=
  let '(count, stop, user_data) :=
    fold_left (foreach_prefix16 ctx) (upto PREFIX16_COUNT) (0, false, user_data) in
  (count, user_data).

(** One call of the callback from the loop, on a record. *)
Definition foreach_entry (st : Z * bool * U) (e : Z * Z) : Z * bool * U :=
  let '(count, stop, user_data) := st in
  if stop then st
  else
    let '(r, user_data) := callback (fst e) (snd e) user_data in
    (u64 (count + 1), negb (r =? 0), user_data).

(** Calling the callback on a list of records, one after the other, until
    it returns non-zero; [count] counts the calls. *)
Fixpoint visit (es : list (Z * Z)) (count : Z) (user_data : U) : Z * U :=
  match es with
  | [] => (count, user_data)
  | (ip, score) :: es =>
      let '(r, user_data) := callback ip score user_data in
      if r =? 0 then visit es (count + 1) user_data
      else (count + 1, user_data)
  end.

End Foreach.

(** Records in strictly ascending order of address. *)
Definition ascending (es : list (Z * Z)) : Prop :=
  StronglySorted (fun e1 e2 => fst e1 < fst e2) es.

(** ** Lines of a bulk load *)

(** The test with which [sauron_bulk_load_buffer] passes over a line:
    empty, or a comment. *)
Definition buffer_line_ignored (line : string) : bool :=
  (Z.of_nat (String.length line) =? 0) || Ascii.eqb (peek line) "#".

(** The test of [sauron_bulk_load], whose lines keep their ['\n']. *)
Definition file_line_ignored (line : string) : bool :=
  (Z.of_nat (String.length line) =? 0) || Ascii.eqb (peek line) "#"
  || Ascii.eqb (peek line) "010".

(** The counters of a result account for [lines], of which those that
    satisfy [ignored] are passed over. *)
Definition counters_account (stats : sauron_bulk_result) (lines : list string)
    (ignored : string -> bool) : Prop :=
  lines_processed stats = Z.of_nat (length lines) /\
  lines_skipped stats = parse_errors stats /\
  0 <= sets stats /\ 0 <= updates stats /\ 0 <= parse_errors stats /\
  sets stats + updates stats + parse_errors stats =
    Z.of_nat (length (List.filter (fun l => negb (ignored l)) lines)).

(** The sign of a value field, as [parse_bulk_line] reads it:
    [is_relative], [negative] and the rest of the line. *)
Definition bulk_sign (p : string) : bool * bool * string :=
  match p with
  | String "+" p1 =>
      match p1 with
      | String "-" p2 => (true, true, p2)
      | _ => (true, false, p1)
      end
  | String "-" p1 => (false, true, p1)
  | _ => (false, false, p)
  end.

(** The part of [parse_bulk_line] after the comma. *)
Definition bulk_value_part (ip : Z) (p : string) : option (Z * Z * bool) :=
  let p := skip_blanks p in
  let '(is_relative, negative, p) := bulk_sign p in
  if negb (is_digit (peek p)) then None
  else
    let '(value, p) := parse_bulk_value p 0 in
    let value := if negative then - value else value in
    let p := skip_trailing p in
    if negb (Ascii.eqb (peek p) NUL) && negb (Ascii.eqb (peek p) "#") then None
    else Some (ip, i16 value, is_relative).

(** What one line does to the counters: it is counted, and passed over,
    or rejected, or applied as a set or as an update. *)
Definition counts_step (stats stats' : sauron_bulk_result) (ignored : bool) : Prop :=
  lines_processed stats' = u64 (lines_processed stats + 1) /\
  if ignored
  then lines_skipped stats' = lines_skipped stats /\ sets stats' = sets stats /\
       updates stats' = updates stats /\ parse_errors stats' = parse_errors stats
  else (lines_skipped stats' = u64 (lines_skipped stats + 1) /\
        parse_errors stats' = u64 (parse_errors stats + 1) /\
        sets stats' = sets stats /\ updates stats' = updates stats) \/
       (lines_skipped stats' = lines_skipped stats /\
        parse_errors stats' = parse_errors stats /\
        sets stats' = u64 (sets stats + 1) /\ updates stats' = updates stats) \/
       (lines_skipped stats' = lines_skipped stats /\
        parse_errors stats' = parse_errors stats /\
        sets stats' = sets stats /\ updates stats' = u64 (updates stats + 1)).

Definition newline : string := String "010" EmptyString.

Fixpoint no_newline (s : string) : bool :=
  match s with
  | EmptyString => true
  | String c rest => negb (Ascii.eqb c "010") && no_newline rest
  end.

(** ** Snapshots as a user sees them *)

(** The bytes of a snapshot with [entry_count] in its header, followed by
    the records [es]. *)
Definition snapshot_bytes (entry_count : Z) (es : list (Z * Z)) : string :=
  String.append SAURON_MAGIC
    (String.append (le_bytes 4 SAURON_ARCHIVE_VERSION)
       (String.append (le_bytes 8 entry_count) (entries_bytes es))).


(** [INT_MAX], the largest value of the counter of [sauron_incr_batch]. *)
Definition INT_MAX : Z := 2147483647.

(** 1 when a cell holds another value than before. *)
Definition cell_changed (v v' : Z) : Z := if v =? v' then 0 else 1.

(** The number of addresses that store another score in [ctx'] than in
    [ctx], counted over the whole address space. *)
Definition changed_addresses (ctx ctx' : sauron_ctx) : Z :=
  sumZ (fun prefix16 =>
    sumZ (fun block_idx =>
      sumZ (fun host_idx =>
              cell_changed (stored_score ctx (make_ip prefix16 block_idx host_idx))
                (stored_score ctx' (make_ip prefix16 block_idx host_idx)))
        (upto SCORES_PER_BLOCK))
      (upto BLOCKS_PER_16))
    (upto PREFIX16_COUNT).

(** ** Inputs of the instances *)

(** The factor 0.5. *)
Definition float_half : spec_float := S754_finite false 8388608 (-24).

(** A callback that adds up the scores and never stops the iteration. *)
Definition sum_scores (ip score : Z) (total : Z) : Z * Z := (0, total + score).

(** Three records, a comment and an empty line; the last line has no
    newline. *)
Definition short_lines_buffer : string :=
  String.append "10.0.0.1,100" (String.append LF
    (String.append "# comment" (String.append LF
      (String.append LF
        (String.append "10.0.0.2,+200" (String.append LF "bad line")))))).

Definition short_lines_file : gmap string string :=
  {[ "records.csv" := short_lines_buffer ]}.


(** * Properties *)

(** * Verification *)

(** ** Integers and loop counters *)

Lemma i16_id x : -32768 <= x <= 32767 -> i16 x = x.
Proof. intros Hx. unfold i16. rewrite Z.mod_small; lia. Qed.

Lemma i16_range x : is_i16 (i16 x).
Proof.
  unfold i16, is_i16. pose proof (Z.mod_pos_bound (x + 2 ^ 15) (2 ^ 16)). lia.
Qed.

Lemma count_from_In lo n x : In x (count_from lo n) <-> lo <= x < lo + Z.of_nat n.
Proof.
  revert lo. induction n as [|n IH]; intros lo; simpl.
  - lia.
  - rewrite IH. lia.
Qed.

Lemma count_from_NoDup lo n : List.NoDup (count_from lo n).
Proof.
  revert lo. induction n as [|n IH]; intros lo; simpl; constructor.
  - rewrite count_from_In. lia.
  - apply IH.
Qed.

Lemma count_from_length lo n : length (count_from lo n) = n.
Proof. revert lo. induction n; intros; simpl; auto. Qed.

Lemma upto_In n x : In x (upto n) <-> 0 <= x < n.
Proof. unfold upto. rewrite count_from_In. lia. Qed.

Lemma upto_NoDup n : List.NoDup (upto n).
Proof. apply count_from_NoDup. Qed.

Lemma upto_length n : 0 <= n -> Z.of_nat (length (upto n)) = n.
Proof. intros. unfold upto. rewrite count_from_length. lia. Qed.

(** ** Sums over a loop range *)

Lemma sumZ_ext f g l : (forall x, In x l -> f x = g x) -> sumZ f l = sumZ g l.
Proof.
  induction l as [|a l IH]; simpl; intros Hfg; [reflexivity|].
  rewrite Hfg by auto. rewrite IH; auto.
Qed.

Lemma sumZ_zero f l : (forall x, In x l -> f x = 0) -> sumZ f l = 0.
Proof.
  induction l as [|a l IH]; simpl; intros Hf; [reflexivity|].
  rewrite Hf by auto. rewrite IH; auto.
Qed.

Lemma sumZ_bounds f l c :
  (forall x, In x l -> 0 <= f x <= c) -> 0 <= sumZ f l <= c * Z.of_nat (length l).
Proof.
  induction l as [|a l IH]; simpl length; simpl sumZ; intros Hf; [lia|].
  specialize (IH (fun x Hx => Hf x (or_intror Hx))).
  pose proof (Hf a (or_introl eq_refl)). lia.
Qed.

(** Changing the summand at one index of the range. *)
Lemma sumZ_update f g l k :
  List.NoDup l -> In k l -> (forall x, x <> k -> f x = g x) ->
  sumZ g l = sumZ f l - f k + g k.
Proof.
  induction l as [|a l IH]; simpl; intros Hnd Hin Hfg; [contradiction|].
  inversion Hnd as [|? ? Hnotin Hnd']; subst.
  destruct Hin as [->|Hin].
  - rewrite (sumZ_ext g f l); [lia|].
    intros x Hx. symmetry. apply Hfg. intros ->. contradiction.
  - rewrite IH by assumption.
    rewrite (Hfg a); [lia|]. intros ->. contradiction.
Qed.

(** ** Address arithmetic *)

Lemma land_255 x : Z.land x 255 = x mod 256.
Proof. change 255 with (Z.ones 8). rewrite Z.land_ones by lia. reflexivity. Qed.

Lemma lor_shiftl_add a b n :
  0 <= n -> 0 <= b < 2 ^ n -> Z.lor (Z.shiftl a n) b = a * 2 ^ n + b.
Proof.
  intros Hn Hb. rewrite Z.shiftl_mul_pow2 by lia.
  symmetry. apply Z.add_nocarry_lor.
  apply Z.bits_inj'. intros k Hk. rewrite Z.land_spec, Z.bits_0.
  destruct (Z_lt_dec k n).
  - rewrite Z.mul_pow2_bits_low by lia. reflexivity.
  - replace (Z.testbit b k) with false; [apply andb_false_r|].
    symmetry. destruct (Z.eq_dec b 0) as [->|]; [apply Z.bits_0|].
    apply Z.bits_above_log2; try lia. apply Z.log2_lt_pow2; try lia.
    apply Z.lt_le_trans with (2 ^ n); try lia. apply Z.pow_le_mono_r; lia.
Qed.

Lemma prefix16_eq ip : is_u32 ip -> ip_to_prefix16 ip = ip / 65536.
Proof.
  unfold is_u32, ip_to_prefix16, u16. intros Hip.
  rewrite Z.shiftr_div_pow2 by lia. change (2 ^ 16) with 65536.
  apply Z.mod_small. split; [apply Z.div_pos; lia|].
  apply Z.div_lt_upper_bound; lia.
Qed.

Lemma block_idx_eq ip : ip_to_block_idx ip = (ip / 256) mod 256.
Proof.
  unfold ip_to_block_idx, u8. rewrite land_255, Z.shiftr_div_pow2 by lia.
  change (2 ^ 8) with 256. apply Z.mod_small. apply Z.mod_pos_bound. lia.
Qed.

Lemma host_idx_eq ip : ip_to_host_idx ip = ip mod 256.
Proof.
  unfold ip_to_host_idx, u8. rewrite land_255. change (2 ^ 8) with 256.
  apply Z.mod_small. apply Z.mod_pos_bound. lia.
Qed.

Lemma prefix24_eq ip : ip_to_prefix24 ip = ip / 256.
Proof. unfold ip_to_prefix24. rewrite Z.shiftr_div_pow2 by lia. reflexivity. Qed.

Lemma prefix16_range ip : is_u32 ip -> 0 <= ip_to_prefix16 ip < PREFIX16_COUNT.
Proof.
  intros Hip. rewrite (prefix16_eq ip Hip). unfold is_u32 in Hip.
  change PREFIX16_COUNT with 65536.
  split; [apply Z.div_pos; lia|apply Z.div_lt_upper_bound; lia].
Qed.

Lemma block_idx_range ip : 0 <= ip_to_block_idx ip < BLOCKS_PER_16.
Proof. rewrite block_idx_eq. apply Z.mod_pos_bound. reflexivity. Qed.

Lemma host_idx_range ip : 0 <= ip_to_host_idx ip < SCORES_PER_BLOCK.
Proof. rewrite host_idx_eq. apply Z.mod_pos_bound. reflexivity. Qed.

Lemma make_prefix24_eq p16 bi :
  0 <= p16 < PREFIX16_COUNT -> 0 <= bi < BLOCKS_PER_16 ->
  make_prefix24 p16 bi = p16 * 256 + bi.
Proof.
  change PREFIX16_COUNT with 65536. change BLOCKS_PER_16 with 256.
  intros Hp Hb. unfold make_prefix24, u32.
  rewrite Z.shiftl_mul_pow2 by lia. rewrite Z.mod_small by lia.
  rewrite <- Z.shiftl_mul_pow2 by lia. apply lor_shiftl_add; lia.
Qed.

Lemma make_ip_eq p16 bi h :
  0 <= p16 < PREFIX16_COUNT -> 0 <= bi < BLOCKS_PER_16 -> 0 <= h < SCORES_PER_BLOCK ->
  make_ip p16 bi h = p16 * 65536 + bi * 256 + h.
Proof.
  change PREFIX16_COUNT with 65536. change BLOCKS_PER_16 with 256.
  change SCORES_PER_BLOCK with 256.
  intros Hp Hb Hh. unfold make_ip, u32.
  rewrite (Z.mod_small (Z.shiftl p16 16))
    by (rewrite Z.shiftl_mul_pow2 by lia; change (2 ^ 16) with 65536; lia).
  rewrite (Z.mod_small (Z.shiftl bi 8))
    by (rewrite Z.shiftl_mul_pow2 by lia; change (2 ^ 8) with 256; lia).
  replace (Z.shiftl p16 16) with (Z.shiftl (Z.shiftl p16 8) 8)
    by (rewrite Z.shiftl_shiftl by lia; reflexivity).
  rewrite <- Z.shiftl_lor.
  rewrite (lor_shiftl_add p16 bi 8) by (change (2 ^ 8) with 256; lia).
  rewrite lor_shiftl_add by (change (2 ^ 8) with 256; lia).
  change (2 ^ 8) with 256. lia.
Qed.

Lemma prefix24_split ip :
  is_u32 ip -> ip_to_prefix24 ip = make_prefix24 (ip_to_prefix16 ip) (ip_to_block_idx ip).
Proof.
  intros Hip. rewrite make_prefix24_eq
    by (auto using prefix16_range, block_idx_range).
  rewrite prefix24_eq, block_idx_eq, (prefix16_eq ip Hip).
  pose proof (Z.div_mod (ip / 256) 256 ltac:(lia)) as Hd.
  rewrite Z.div_div in Hd by lia. change (256 * 256) with 65536 in Hd. lia.
Qed.

Lemma make_ip_parts p16 bi h :
  0 <= p16 < PREFIX16_COUNT -> 0 <= bi < BLOCKS_PER_16 -> 0 <= h < SCORES_PER_BLOCK ->
  is_u32 (make_ip p16 bi h) /\
  ip_to_prefix16 (make_ip p16 bi h) = p16 /\
  ip_to_block_idx (make_ip p16 bi h) = bi /\
  ip_to_host_idx (make_ip p16 bi h) = h.
Proof.
  intros Hp Hb Hh. rewrite make_ip_eq by assumption.
  change PREFIX16_COUNT with 65536 in Hp. change BLOCKS_PER_16 with 256 in Hb.
  change SCORES_PER_BLOCK with 256 in Hh.
  assert (Hu : is_u32 (p16 * 65536 + bi * 256 + h)) by (unfold is_u32; lia).
  split; [exact Hu|]. rewrite (prefix16_eq _ Hu), block_idx_eq, host_idx_eq.
  assert (H1 : (p16 * 65536 + bi * 256 + h) / 256 = p16 * 256 + bi).
  { symmetry. apply (Z.div_unique _ 256 _ h); lia. }
  split; [|split].
  - symmetry. apply (Z.div_unique _ 65536 _ (bi * 256 + h)); lia.
  - rewrite H1. symmetry. apply (Z.mod_unique _ 256 p16); lia.
  - symmetry. apply (Z.mod_unique _ 256 (p16 * 256 + bi)); lia.
Qed.

Lemma make_ip_surj ip :
  is_u32 ip -> make_ip (ip_to_prefix16 ip) (ip_to_block_idx ip) (ip_to_host_idx ip) = ip.
Proof.
  intros Hip. rewrite make_ip_eq
    by (auto using prefix16_range, block_idx_range, host_idx_range).
  rewrite (prefix16_eq ip Hip), block_idx_eq, host_idx_eq.
  pose proof (Z.div_mod ip 256 ltac:(lia)) as H1.
  pose proof (Z.div_mod (ip / 256) 256 ltac:(lia)) as H2.
  rewrite Z.div_div in H2 by lia. change (256 * 256) with 65536 in H2. lia.
Qed.

(** ** The bitmap filter *)

Lemma bitmap_test_testbit ctx p :
  bitmap_test ctx p = Z.b2z (Z.testbit (bitmap_byte ctx (p / 8)) (p mod 8)).
Proof.
  unfold bitmap_test, prefix24_to_bitmap_pos, u8.
  pose proof (Z.mod_pos_bound p 8 ltac:(lia)) as Hk.
  rewrite (Z.mod_small (p mod 8)) by (change (2 ^ 8) with 256; lia).
  change 1 with (Z.ones 1). rewrite Z.land_ones by lia.
  change (2 ^ 1) with 2. rewrite <- Z.bit0_mod.
  rewrite Z.shiftr_spec by lia. reflexivity.
Qed.

Lemma bitmap_test_bool ctx p : bitmap_test ctx p = 0 \/ bitmap_test ctx p = 1.
Proof. rewrite bitmap_test_testbit. destruct (Z.testbit _ _); auto. Qed.

Lemma bit_mask_set k : 0 <= k < 8 -> u8 (Z.shiftl 1 k) = 2 ^ k.
Proof.
  intros Hk. unfold u8. rewrite Z.shiftl_1_l. apply Z.mod_small.
  split; [apply Z.pow_nonneg; lia|]. apply Z.pow_lt_mono_r; lia.
Qed.

Lemma bit_mask_clear k j :
  0 <= k < 8 -> 0 <= j < 8 ->
  Z.testbit (u8 (Z.lnot (Z.shiftl 1 k))) j = negb (j =? k).
Proof.
  intros Hk Hj. unfold u8. rewrite Z.mod_pow2_bits_low by lia.
  rewrite Z.lnot_spec by lia. rewrite Z.shiftl_1_l.
  rewrite Z.pow2_bits_eqb by lia. rewrite Z.eqb_sym. reflexivity.
Qed.

Lemma bitmap_pos_inj p q : p / 8 = q / 8 -> p mod 8 = q mod 8 -> p = q.
Proof.
  intros Hd Hm. rewrite (Z.div_mod p 8), (Z.div_mod q 8) by lia. congruence.
Qed.

Lemma u8_bit_idx p : u8 (p mod 8) = p mod 8.
Proof.
  pose proof (Z.mod_pos_bound p 8 ltac:(lia)).
  unfold u8. apply Z.mod_small. change (2 ^ 8) with 256. lia.
Qed.

Lemma bitmap_byte_set ctx p i :
  bitmap_byte (bitmap_set ctx p) i =
  if decide (p / 8 = i) then Z.lor (bitmap_byte ctx (p / 8)) (2 ^ (p mod 8))
  else bitmap_byte ctx i.
Proof.
  unfold bitmap_set, prefix24_to_bitmap_pos, with_bitmap, bitmap_byte.
  cbn [bitmap]. rewrite u8_bit_idx.
  rewrite bit_mask_set by (apply Z.mod_pos_bound; lia).
  case_decide as Hi.
  - subst i. rewrite lookup_insert_eq. reflexivity.
  - rewrite lookup_insert_ne by assumption. reflexivity.
Qed.

Lemma bitmap_byte_clear ctx p i :
  bitmap_byte (bitmap_clear ctx p) i =
  if decide (p / 8 = i)
  then Z.land (bitmap_byte ctx (p / 8)) (u8 (Z.lnot (Z.shiftl 1 (p mod 8))))
  else bitmap_byte ctx i.
Proof.
  unfold bitmap_clear, prefix24_to_bitmap_pos, with_bitmap, bitmap_byte.
  cbn [bitmap]. rewrite u8_bit_idx.
  case_decide as Hi.
  - subst i. rewrite lookup_insert_eq. reflexivity.
  - rewrite lookup_insert_ne by assumption. reflexivity.
Qed.

Lemma bitmap_test_set ctx p q :
  bitmap_test (bitmap_set ctx p) q = if p =? q then 1 else bitmap_test ctx q.
Proof.
  rewrite !bitmap_test_testbit, bitmap_byte_set.
  pose proof (Z.mod_pos_bound p 8 ltac:(lia)) as Hp.
  pose proof (Z.mod_pos_bound q 8 ltac:(lia)) as Hq.
  case_decide as Hd.
  - rewrite Z.lor_spec, Z.pow2_bits_eqb by lia.
    destruct (Z.eqb_spec p q) as [->|Hne].
    + rewrite Z.eqb_refl, orb_true_r. reflexivity.
    + destruct (Z.eqb_spec (p mod 8) (q mod 8)) as [Hm|Hm].
      * exfalso. apply Hne. apply bitmap_pos_inj; assumption.
      * rewrite orb_false_r, Hd. reflexivity.
  - destruct (Z.eqb_spec p q) as [->|Hne]; [contradiction|reflexivity].
Qed.

Lemma bitmap_test_clear ctx p q :
  bitmap_test (bitmap_clear ctx p) q = if p =? q then 0 else bitmap_test ctx q.
Proof.
  rewrite !bitmap_test_testbit, bitmap_byte_clear.
  pose proof (Z.mod_pos_bound p 8 ltac:(lia)) as Hp.
  pose proof (Z.mod_pos_bound q 8 ltac:(lia)) as Hq.
  case_decide as Hd.
  - rewrite Z.land_spec, bit_mask_clear by lia.
    destruct (Z.eqb_spec p q) as [->|Hne].
    + rewrite Z.eqb_refl, andb_false_r. reflexivity.
    + destruct (Z.eqb_spec (q mod 8) (p mod 8)) as [Hm|Hm].
      * exfalso. apply Hne. apply bitmap_pos_inj; auto.
      * rewrite andb_true_r, Hd. reflexivity.
  - destruct (Z.eqb_spec p q) as [->|Hne]; [contradiction|reflexivity].
Qed.

Lemma make_prefix24_inj p16 bi p16' bi' :
  0 <= p16 < PREFIX16_COUNT -> 0 <= bi < BLOCKS_PER_16 ->
  0 <= p16' < PREFIX16_COUNT -> 0 <= bi' < BLOCKS_PER_16 ->
  make_prefix24 p16 bi = make_prefix24 p16' bi' -> p16 = p16' /\ bi = bi'.
Proof.
  intros Hp Hb Hp' Hb'. rewrite !make_prefix24_eq by assumption.
  change BLOCKS_PER_16 with 256 in *. lia.
Qed.

(** ** The directory *)

Lemma lookup_store_block_eq ctx p16 bi b :
  lookup_block (store_block ctx p16 bi b) p16 bi = Some b.
Proof.
  unfold lookup_block, store_block, with_block_ptrs. cbn [block_ptrs].
  rewrite lookup_insert_eq. apply lookup_insert_eq.
Qed.

Lemma lookup_store_block_ne ctx p16 bi b p16' bi' :
  (p16, bi) <> (p16', bi') ->
  lookup_block (store_block ctx p16 bi b) p16' bi' = lookup_block ctx p16' bi'.
Proof.
  intros Hne. unfold lookup_block, store_block, with_block_ptrs. cbn [block_ptrs].
  destruct (Z.eq_dec p16 p16') as [->|Hp].
  - rewrite lookup_insert_eq.
    rewrite lookup_insert_ne by congruence.
    destruct (block_ptrs ctx !! p16'); [reflexivity|apply lookup_empty].
  - rewrite lookup_insert_ne by assumption. reflexivity.
Qed.

Lemma lookup_store_block ctx p16 bi b p16' bi' :
  lookup_block (store_block ctx p16 bi b) p16' bi' =
  if decide ((p16, bi) = (p16', bi')) then Some b else lookup_block ctx p16' bi'.
Proof.
  case_decide as Heq.
  - inversion Heq; subst. apply lookup_store_block_eq.
  - apply lookup_store_block_ne. assumption.
Qed.

(** ** Counting non-zero cells *)

Lemma count_nz_bounds l : 0 <= count_nz l <= Z.of_nat (length l).
Proof.
  induction l as [|x l IH]; simpl count_nz; simpl length; [lia|].
  destruct (x =? 0); lia.
Qed.

Lemma count_nz_replicate n : count_nz (replicate n 0) = 0.
Proof. induction n; simpl; auto. Qed.

Lemma count_nz_insert l i v :
  (i < length l)%nat ->
  count_nz (<[i := v]> l) = count_nz l - nz (default 0 (l !! i)) + nz v.
Proof.
  revert i. induction l as [|x l IH]; intros i Hi; simpl in Hi; [lia|].
  destruct i as [|i]; simpl.
  - unfold nz. lia.
  - rewrite IH by lia. unfold nz. lia.
Qed.

Lemma count_nz_zero_lookup l i : count_nz l = 0 -> default 0 (l !! i) = 0.
Proof.
  revert i. induction l as [|x l IH]; intros i Hz; [destruct i; reflexivity|].
  simpl in Hz. pose proof (count_nz_bounds l).
  destruct (Z.eqb_spec x 0) as [->|]; [|lia].
  destruct i as [|i]; simpl; [reflexivity|]. apply IH. lia.
Qed.

Lemma count_nz_sum l :
  count_nz l = sumZ (fun h => nz (default 0 (l !! Z.to_nat h))) (upto (Z.of_nat (length l))).
Proof.
  unfold upto. rewrite Nat2Z.id.
  assert (Hgen : forall lo, 0 <= lo ->
    count_nz l = sumZ (fun h => nz (default 0 (l !! Z.to_nat (h - lo))))
                   (count_from lo (length l))).
  { induction l as [|x l IH]; intros lo Hlo; simpl; [reflexivity|].
    rewrite Z.sub_diag. simpl. fold (nz x). f_equal.
    rewrite (IH (lo + 1)) by lia. apply sumZ_ext. intros h Hh.
    apply count_from_In in Hh.
    replace (Z.to_nat (h - lo)) with (S (Z.to_nat (h - (lo + 1)))) by lia.
    reflexivity. }
  rewrite (Hgen 0) by lia. apply sumZ_ext. intros h _. rewrite Z.sub_0_r. reflexivity.
Qed.

(** ** The engine invariant *)

Lemma block_ok_bounds b : block_ok b -> 0 <= active_count b <= 256.
Proof.
  intros (Hlen & _ & Hac). pose proof (count_nz_bounds (scores b)) as Hb.
  rewrite Hlen in Hb. change (Z.to_nat SCORES_PER_BLOCK) with 256%nat in Hb. lia.
Qed.

Lemma block_ok_zero : block_ok zero_block.
Proof.
  unfold block_ok, zero_block. cbn [scores active_count].
  split; [apply length_replicate|]. split.
  - apply Forall_forall. intros x Hx. apply elem_of_replicate in Hx as [-> _].
    unfold is_i16. lia.
  - symmetry. apply count_nz_replicate.
Qed.

Lemma block_score_store b h v h' :
  0 <= h -> 0 <= h' -> (Z.to_nat h < length (scores b))%nat ->
  block_score (block_store b h v) h' = if h =? h' then v else block_score b h'.
Proof.
  intros Hh Hh' Hlen. unfold block_score, block_store. cbn [scores].
  destruct (Z.eqb_spec h h') as [->|Hne].
  - rewrite list_lookup_insert_eq by assumption. reflexivity.
  - rewrite list_lookup_insert_ne by lia. reflexivity.
Qed.

Lemma block_score_i16 b h : block_ok b -> is_i16 (block_score b h).
Proof.
  intros (_ & Hall & _). unfold block_score.
  destruct (scores b !! Z.to_nat h) as [x|] eqn:Hx; simpl.
  - eapply Forall_lookup_1; eassumption.
  - unfold is_i16. lia.
Qed.

Lemma block_score_active_zero b h :
  block_ok b -> active_count b = 0 -> block_score b h = 0.
Proof.
  intros (_ & _ & Hac) Hz. unfold block_score.
  apply count_nz_zero_lookup. congruence.
Qed.

(** Writing one cell of a block and adjusting its [active_count]. *)
Lemma block_ok_write b h v :
  block_ok b -> 0 <= h < SCORES_PER_BLOCK -> is_i16 v ->
  block_ok (with_active_count (block_store b h v)
              (active_count b - nz (block_score b h) + nz v)).
Proof.
  intros (Hlen & Hall & Hac) Hh Hv.
  unfold block_ok, with_active_count, block_store. cbn [scores active_count].
  split; [rewrite length_insert; assumption|]. split.
  - apply Forall_insert; assumption.
  - rewrite count_nz_insert.
    + unfold block_score. lia.
    + rewrite Hlen. change SCORES_PER_BLOCK with 256 in *. lia.
Qed.

Lemma sumZ_total_update (f g : Z -> Z -> Z) p16 bi :
  0 <= p16 < PREFIX16_COUNT -> 0 <= bi < BLOCKS_PER_16 ->
  (forall p b, (p, b) <> (p16, bi) -> f p b = g p b) ->
  sumZ (fun p => sumZ (g p) (upto BLOCKS_PER_16)) (upto PREFIX16_COUNT) =
  sumZ (fun p => sumZ (f p) (upto BLOCKS_PER_16)) (upto PREFIX16_COUNT)
    - f p16 bi + g p16 bi.
Proof.
  intros Hp Hb Hfg.
  rewrite (sumZ_update (fun p => sumZ (f p) (upto BLOCKS_PER_16))
             (fun p => sumZ (g p) (upto BLOCKS_PER_16)) _ p16).
  - rewrite (sumZ_update (f p16) (g p16) _ bi).
    + lia.
    + apply upto_NoDup.
    + apply upto_In. assumption.
    + intros x Hx. apply Hfg. congruence.
  - apply upto_NoDup.
  - apply upto_In. assumption.
  - intros x Hx. apply sumZ_ext. intros y _. apply Hfg. congruence.
Qed.

Lemma total_active_update ctx ctx' p16 bi :
  0 <= p16 < PREFIX16_COUNT -> 0 <= bi < BLOCKS_PER_16 ->
  (forall p b, (p, b) <> (p16, bi) -> lookup_block ctx' p b = lookup_block ctx p b) ->
  total_active ctx' = total_active ctx - slot_active ctx p16 bi + slot_active ctx' p16 bi.
Proof.
  intros Hp Hb Hsame. unfold total_active.
  apply (sumZ_total_update (slot_active ctx) (slot_active ctx')); try assumption.
  intros p b Hne. unfold slot_active. rewrite Hsame by assumption. reflexivity.
Qed.

Lemma total_active_same ctx ctx' :
  (forall p b, lookup_block ctx' p b = lookup_block ctx p b) ->
  total_active ctx' = total_active ctx.
Proof.
  intros Hsame. unfold total_active. apply sumZ_ext. intros p _.
  apply sumZ_ext. intros b _. unfold slot_active. rewrite Hsame. reflexivity.
Qed.

Lemma total_active_bounds ctx :
  (forall p bi b, lookup_block ctx p bi = Some b -> 0 <= active_count b <= 256) ->
  0 <= total_active ctx <= 2 ^ 32.
Proof.
  intros Hb. unfold total_active.
  pose proof (sumZ_bounds
    (fun p => sumZ (slot_active ctx p) (upto BLOCKS_PER_16)) (upto PREFIX16_COUNT) 65536) as Ho.
  rewrite upto_length in Ho by (change PREFIX16_COUNT with 65536; lia).
  change PREFIX16_COUNT with 65536 in Ho at 3.
  change (2 ^ 32) with (65536 * 65536). apply Ho. intros p _.
  pose proof (sumZ_bounds (slot_active ctx p) (upto BLOCKS_PER_16) 256) as Hi.
  rewrite upto_length in Hi by (change BLOCKS_PER_16 with 256; lia).
  change BLOCKS_PER_16 with 256 in Hi at 3. change 65536 with (256 * 256).
  apply Hi. intros bi _. unfold slot_active.
  destruct (lookup_block ctx p bi) as [b|] eqn:Hl; [eapply Hb; eassumption|lia].
Qed.

Lemma consistent_count_bounds ctx : consistent ctx -> 0 <= score_count ctx <= 2 ^ 32.
Proof.
  intros Hc. rewrite (cons_count _ Hc). apply total_active_bounds.
  intros p bi b Hl. apply block_ok_bounds. eapply cons_block; eassumption.
Qed.

(** The invariant survives when the observable parts stay the same and
    bits of the bitmap are only set. *)
Lemma consistent_transfer ctx ctx' :
  consistent ctx ->
  (forall p b, lookup_block ctx' p b = lookup_block ctx p b) ->
  (forall q, bitmap_test ctx' q = 0 -> bitmap_test ctx q = 0) ->
  score_count ctx' = score_count ctx ->
  consistent ctx'.
Proof.
  intros Hc Hsame Hbits Hsc. constructor.
  - intros p bi b Hl. rewrite Hsame in Hl. eapply cons_keys; eassumption.
  - intros p bi b Hl. rewrite Hsame in Hl. eapply cons_block; eassumption.
  - intros p bi b Hl Hbit. rewrite Hsame in Hl.
    eapply cons_bitmap; [eassumption..|]. apply Hbits. assumption.
  - rewrite Hsc, (cons_count _ Hc). symmetry. apply total_active_same. assumption.
Qed.

(** The invariant survives the replacement of the block of one slot, when
    [score_count] follows the [active_count] of that block. *)
Lemma consistent_update ctx ctx' p16 bi b' :
  consistent ctx ->
  0 <= p16 < PREFIX16_COUNT -> 0 <= bi < BLOCKS_PER_16 ->
  block_ok b' ->
  lookup_block ctx' p16 bi = Some b' ->
  (forall p b, (p, b) <> (p16, bi) -> lookup_block ctx' p b = lookup_block ctx p b) ->
  (forall q, q <> make_prefix24 p16 bi -> bitmap_test ctx' q = 0 -> bitmap_test ctx q = 0) ->
  (bitmap_test ctx' (make_prefix24 p16 bi) = 0 -> active_count b' = 0) ->
  score_count ctx' = score_count ctx - slot_active ctx p16 bi + active_count b' ->
  consistent ctx'.
Proof.
  intros Hc Hp Hb Hok Hl' Hsame Hbits Hbit Hsc. constructor.
  - intros p bi0 b Hl. destruct (decide ((p, bi0) = (p16, bi))) as [Heq|Hne].
    + inversion Heq; subst. auto.
    + rewrite Hsame in Hl by assumption. eapply cons_keys; eassumption.
  - intros p bi0 b Hl. destruct (decide ((p, bi0) = (p16, bi))) as [Heq|Hne].
    + inversion Heq; subst. congruence.
    + rewrite Hsame in Hl by assumption. eapply cons_block; eassumption.
  - intros p bi0 b Hl Hz. destruct (decide ((p, bi0) = (p16, bi))) as [Heq|Hne].
    + inversion Heq; subst. rewrite Hl' in Hl. inversion Hl; subst. auto.
    + rewrite Hsame in Hl by assumption.
      eapply cons_bitmap; [eassumption..|]. apply Hbits; [|assumption].
      intros Heq. apply Hne.
      destruct (cons_keys _ Hc _ _ _ Hl) as [Hp' Hb'].
      apply make_prefix24_inj in Heq as [-> ->]; auto.
  - rewrite Hsc, (cons_count _ Hc).
    rewrite (total_active_update ctx ctx' p16 bi) by assumption.
    unfold slot_active at 3. rewrite Hl'. reflexivity.
Qed.

Lemma count_after_bounds ctx p16 bi b' :
  consistent ctx -> 0 <= p16 < PREFIX16_COUNT -> 0 <= bi < BLOCKS_PER_16 ->
  0 <= active_count b' <= 256 ->
  0 <= score_count ctx - slot_active ctx p16 bi + active_count b' <= 2 ^ 32.
Proof.
  intros Hc Hp Hb Hok.
  pose proof (total_active_update ctx (store_block ctx p16 bi b') p16 bi Hp Hb) as Hu.
  unfold slot_active at 2 in Hu. rewrite lookup_store_block_eq in Hu.
  rewrite (cons_count _ Hc), <- Hu.
  - apply total_active_bounds. intros p bi0 b Hl.
    rewrite lookup_store_block in Hl. case_decide.
    + inversion Hl; subst. assumption.
    + apply block_ok_bounds. eapply cons_block; eassumption.
  - intros p b Hne. apply lookup_store_block_ne. congruence.
Qed.

(** Under the invariant the bitmap never hides a non-zero cell: a lookup
    returns the stored score. *)
Lemma get_stored ctx ip :
  consistent ctx -> is_u32 ip -> sauron_get_u32 ctx ip = stored_score ctx ip.
Proof.
  intros Hc Hip. unfold sauron_get_u32, get_block, stored_score.
  destruct (Z.eqb_spec (bitmap_test ctx (ip_to_prefix24 ip)) 0) as [Hz|Hnz];
    [|reflexivity].
  destruct (lookup_block ctx (ip_to_prefix16 ip) (ip_to_block_idx ip)) as [b|] eqn:Hl;
    [|reflexivity].
  symmetry. apply block_score_active_zero.
  - eapply cons_block; eassumption.
  - eapply cons_bitmap; [eassumption..|]. rewrite <- prefix24_split; assumption.
Qed.

(** ** Frame rules: what each field update leaves alone *)

Lemma lookup_block_bitmap_set ctx q p b :
  lookup_block (bitmap_set ctx q) p b = lookup_block ctx p b.
Proof. reflexivity. Qed.
Lemma lookup_block_bitmap_clear ctx q p b :
  lookup_block (bitmap_clear ctx q) p b = lookup_block ctx p b.
Proof. reflexivity. Qed.
Lemma lookup_block_score_count ctx n p b :
  lookup_block (with_score_count ctx n) p b = lookup_block ctx p b.
Proof. reflexivity. Qed.
Lemma lookup_block_block_count ctx n p b :
  lookup_block (with_block_count ctx n) p b = lookup_block ctx p b.
Proof. reflexivity. Qed.
Lemma lookup_block_memory_used ctx n p b :
  lookup_block (with_memory_used ctx n) p b = lookup_block ctx p b.
Proof. reflexivity. Qed.
Lemma bitmap_test_store_block ctx p b x q :
  bitmap_test (store_block ctx p b x) q = bitmap_test ctx q.
Proof. reflexivity. Qed.
Lemma bitmap_test_score_count ctx n q :
  bitmap_test (with_score_count ctx n) q = bitmap_test ctx q.
Proof. reflexivity. Qed.
Lemma bitmap_test_block_count ctx n q :
  bitmap_test (with_block_count ctx n) q = bitmap_test ctx q.
Proof. reflexivity. Qed.
Lemma bitmap_test_memory_used ctx n q :
  bitmap_test (with_memory_used ctx n) q = bitmap_test ctx q.
Proof. reflexivity. Qed.
Lemma bitmap_test_block_ptrs ctx bp q :
  bitmap_test (with_block_ptrs ctx bp) q = bitmap_test ctx q.
Proof. reflexivity. Qed.
Lemma score_count_bitmap_set ctx q : score_count (bitmap_set ctx q) = score_count ctx.
Proof. reflexivity. Qed.
Lemma score_count_bitmap_clear ctx q : score_count (bitmap_clear ctx q) = score_count ctx.
Proof. reflexivity. Qed.
Lemma score_count_store_block ctx p b x :
  score_count (store_block ctx p b x) = score_count ctx.
Proof. reflexivity. Qed.

Create Rewrite HintDb engine_frame.
#[local] Hint Rewrite lookup_block_bitmap_set lookup_block_bitmap_clear
  lookup_block_score_count lookup_block_block_count lookup_block_memory_used
  bitmap_test_store_block bitmap_test_score_count bitmap_test_block_count
  bitmap_test_memory_used bitmap_test_block_ptrs score_count_bitmap_set
  score_count_bitmap_clear score_count_store_block : engine_frame.

Lemma lookup_block_new_array ctx p16 p b :
  block_ptrs ctx !! p16 = None ->
  lookup_block (with_block_ptrs ctx (<[p16 := ∅]> (block_ptrs ctx))) p b =
  lookup_block ctx p b.
Proof.
  intros Hnone. unfold lookup_block, with_block_ptrs. cbn [block_ptrs].
  destruct (decide (p16 = p)) as [->|Hne].
  - rewrite lookup_insert_eq, Hnone. apply lookup_empty.
  - rewrite lookup_insert_ne by assumption. reflexivity.
Qed.

Section EngineProofs.
Context `{Platform}.

(** ** Locating or allocating a block *)

Lemma get_or_alloc_block_spec ctx ip r ctx1 :
  get_or_alloc_block ctx ip = (r, ctx1) ->
  score_count ctx1 = score_count ctx /\
  (forall q, q <> ip_to_prefix24 ip -> bitmap_test ctx1 q = bitmap_test ctx q) /\
  (forall p b, (p, b) <> (ip_to_prefix16 ip, ip_to_block_idx ip) ->
               lookup_block ctx1 p b = lookup_block ctx p b) /\
  match r with
  | Some block =>
      lookup_block ctx1 (ip_to_prefix16 ip) (ip_to_block_idx ip) = Some block /\
      bitmap_test ctx1 (ip_to_prefix24 ip) = 1 /\
      block = default zero_block
                (lookup_block ctx (ip_to_prefix16 ip) (ip_to_block_idx ip))
  | None =>
      lookup_block ctx1 (ip_to_prefix16 ip) (ip_to_block_idx ip) = None /\
      lookup_block ctx (ip_to_prefix16 ip) (ip_to_block_idx ip) = None /\
      bitmap_test ctx1 (ip_to_prefix24 ip) = bitmap_test ctx (ip_to_prefix24 ip)
  end.
Proof.
  unfold get_or_alloc_block.
  destruct (lookup_block ctx (ip_to_prefix16 ip) (ip_to_block_idx ip)) as [b|] eqn:Hl.
  - (* fast path *)
    destruct (Z.eqb_spec (bitmap_test ctx (ip_to_prefix24 ip)) 0) as [Hz|Hnz];
      intros Heq; inversion Heq; subst; clear Heq.
    + split; [reflexivity|]. split.
      { intros q Hq. rewrite bitmap_test_set.
        destruct (Z.eqb_spec (ip_to_prefix24 ip) q); [congruence|reflexivity]. }
      split; [reflexivity|]. split; [exact Hl|]. split; [|reflexivity].
      rewrite bitmap_test_set, Z.eqb_refl. reflexivity.
    + split; [reflexivity|]. split; [reflexivity|]. split; [reflexivity|].
      split; [exact Hl|]. split; [|reflexivity].
      destruct (bitmap_test_bool ctx1 (ip_to_prefix24 ip)); congruence.
  - (* slow path *)
    unfold get_or_alloc_block_slow, alloc_block_ptr_array, alloc_cidr_block.
    unfold lookup_block in Hl.
    destruct (block_ptrs ctx !! ip_to_prefix16 ip) as [arr|] eqn:Harr.
    + rewrite Hl.
      destruct (heap_ok (memory_used ctx) sizeof_cidr_block);
        intros Heq; inversion Heq; subst; clear Heq.
      * split; [reflexivity|]. split.
        { intros q Hq. rewrite bitmap_test_set.
          destruct (Z.eqb_spec (ip_to_prefix24 ip) q); [congruence|reflexivity]. }
        split.
        { intros p b Hne. autorewrite with engine_frame.
          rewrite lookup_store_block_ne by congruence. reflexivity. }
        split.
        { autorewrite with engine_frame. apply lookup_store_block_eq. }
        split; [|reflexivity]. rewrite bitmap_test_set, Z.eqb_refl. reflexivity.
      * split; [reflexivity|]. split; [reflexivity|]. split; [reflexivity|].
        unfold lookup_block. rewrite Harr. auto.
    + destruct (heap_ok (memory_used ctx) (BLOCKS_PER_16 * sizeof_block_ptr)).
      * rewrite lookup_empty. cbn [memory_used with_block_ptrs with_memory_used].
        destruct (heap_ok _ sizeof_cidr_block);
          intros Heq; inversion Heq; subst; clear Heq.
        -- split; [reflexivity|]. split.
           { intros q Hq. rewrite bitmap_test_set.
             destruct (Z.eqb_spec (ip_to_prefix24 ip) q); [congruence|reflexivity]. }
           split.
           { intros p b Hne. autorewrite with engine_frame.
             rewrite lookup_store_block_ne by congruence.
             autorewrite with engine_frame.
             apply (lookup_block_new_array
                      (with_memory_used ctx _) (ip_to_prefix16 ip) p b Harr). }
           split.
           { autorewrite with engine_frame. apply lookup_store_block_eq. }
           split; [|reflexivity]. rewrite bitmap_test_set, Z.eqb_refl. reflexivity.
        -- split; [reflexivity|]. split; [reflexivity|]. split.
           { intros p b _.
             apply (lookup_block_new_array
                      (with_memory_used ctx _) (ip_to_prefix16 ip) p b Harr). }
           split.
           { rewrite (lookup_block_new_array
                      (with_memory_used ctx _) (ip_to_prefix16 ip) _ _ Harr).
             unfold lookup_block. cbn [block_ptrs with_memory_used].
             rewrite Harr. reflexivity. }
           unfold lookup_block. split; reflexivity.
      * intros Heq; inversion Heq; subst; clear Heq.
        split; [reflexivity|]. split; [reflexivity|]. split; [reflexivity|].
        unfold lookup_block. rewrite Harr. auto.
Qed.

Lemma get_or_alloc_block_consistent ctx ip r ctx1 :
  consistent ctx -> is_u32 ip ->
  get_or_alloc_block ctx ip = (r, ctx1) -> consistent ctx1.
Proof.
  intros Hc Hip Hg.
  destruct (get_or_alloc_block_spec ctx ip r ctx1 Hg) as (Hsc & Hbits & Hsame & Hr).
  pose proof (prefix16_range ip Hip) as Hp. pose proof (block_idx_range ip) as Hb.
  destruct r as [block|].
  - destruct Hr as (Hl1 & Hbit & Hblock).
    apply (consistent_update ctx ctx1 _ _ block Hc Hp Hb); try assumption.
    + subst block. destruct (lookup_block ctx _ _) eqn:Hl; simpl.
      * eapply cons_block; eassumption.
      * apply block_ok_zero.
    + intros q Hq. rewrite <- prefix24_split in Hq by assumption.
      rewrite Hbits by assumption. auto.
    + rewrite <- prefix24_split by assumption. rewrite Hbit. discriminate.
    + rewrite Hsc. subst block. unfold slot_active.
      destruct (lookup_block ctx _ _); simpl; lia.
  - destruct Hr as (Hl1 & Hl0 & Hbit).
    apply (consistent_transfer ctx ctx1 Hc); try assumption.
    + intros p b.
      destruct (decide ((p, b) = (ip_to_prefix16 ip, ip_to_block_idx ip))) as [Heq|Hne].
      * inversion Heq; subst. congruence.
      * apply Hsame. assumption.
    + intros q Hq.
      destruct (Z.eq_dec q (ip_to_prefix24 ip)) as [->|Hne]; [congruence|].
      rewrite <- Hbits; assumption.
Qed.

(** When the allocator does not fail a block is always returned. *)
Lemma get_or_alloc_block_succeeds ctx ip :
  (forall used size, heap_ok used size = true) ->
  exists block ctx1, get_or_alloc_block ctx ip = (Some block, ctx1).
Proof.
  intros Hheap. unfold get_or_alloc_block, get_or_alloc_block_slow,
    alloc_block_ptr_array, alloc_cidr_block.
  destruct (lookup_block ctx _ _) as [b|] eqn:Hl.
  - destruct (_ =? 0); eauto.
  - unfold lookup_block in Hl. rewrite !Hheap.
    destruct (block_ptrs ctx !! ip_to_prefix16 ip) as [arr|] eqn:Harr.
    + rewrite Hl. rewrite Hheap. eauto.
    + rewrite lookup_empty. rewrite Hheap. eauto.
Qed.
End EngineProofs.

(** ** Writing one cell *)

Lemma saturating_add_clamp a b : saturating_add a b = clamp (a + b).
Proof.
  unfold saturating_add, clamp, SAURON_SCORE_MAX, SAURON_SCORE_MIN.
  destruct (Z.gtb_spec (a + b) 32767); [lia|].
  destruct (Z.ltb_spec (a + b) (-32767)); [lia|].
  rewrite i16_id by lia. lia.
Qed.

Lemma clamp_range x : SAURON_SCORE_MIN <= clamp x <= SAURON_SCORE_MAX.
Proof. unfold clamp, SAURON_SCORE_MIN, SAURON_SCORE_MAX. lia. Qed.

Lemma clamp_i16 x : is_i16 (clamp x).
Proof. pose proof (clamp_range x). unfold is_i16, SAURON_SCORE_MIN, SAURON_SCORE_MAX in *. lia. Qed.

Lemma update_counts_spec ctx1 p16 bi block h new b' c' :
  consistent ctx1 ->
  0 <= p16 < PREFIX16_COUNT -> 0 <= bi < BLOCKS_PER_16 ->
  lookup_block ctx1 p16 bi = Some block ->
  0 <= h < SCORES_PER_BLOCK -> is_i16 new ->
  update_counts (block_score block h) new (block_store block h new) ctx1 = (b', c') ->
  block_ok b' /\
  scores b' = <[Z.to_nat h := new]> (scores block) /\
  score_count c' = score_count ctx1 - slot_active ctx1 p16 bi + active_count b' /\
  score_count c' = score_count ctx1 - nz (block_score block h) + nz new /\
  bitmap c' = bitmap ctx1 /\ block_ptrs c' = block_ptrs ctx1 /\
  block_count c' = block_count ctx1 /\ memory_used c' = memory_used ctx1.
Proof.
  intros Hc Hp Hb Hl Hh Hnew Hu.
  pose proof (cons_block _ Hc _ _ _ Hl) as Hok.
  pose proof (block_ok_write block h new Hok Hh Hnew) as Hok'.
  pose proof (block_ok_bounds _ Hok') as Hacb.
  pose proof (count_after_bounds ctx1 p16 bi _ Hc Hp Hb Hacb) as Hscb.
  cbn [active_count with_active_count] in Hacb, Hscb.
  assert (Hslot : slot_active ctx1 p16 bi = active_count block)
    by (unfold slot_active; rewrite Hl; reflexivity).
  rewrite Hslot in Hscb |- *.
  unfold update_counts, nz in *.
  destruct (Z.eqb_spec (block_score block h) 0) as [Hold|Hold];
    destruct (Z.eqb_spec new 0) as [Hn|Hn]; cbn [andb negb] in Hu;
    inversion Hu; subst b' c'; clear Hu;
    cbn [active_count with_active_count block_store scores score_count
         with_score_count bitmap block_ptrs block_count memory_used].
  - replace (active_count block - 0 + 0) with (active_count block) in Hok' by lia.
    split; [exact Hok'|]. repeat split; try reflexivity; lia.
  - unfold u32, u64. rewrite !Z.mod_small by lia.
    replace (active_count block - 0 + 1) with (active_count block + 1) in Hok' by lia.
    split; [exact Hok'|]. repeat split; try reflexivity; lia.
  - unfold u32, u64. rewrite !Z.mod_small by lia.
    replace (active_count block - 1 + 0) with (active_count block - 1) in Hok' by lia.
    split; [exact Hok'|]. repeat split; try reflexivity; lia.
  - replace (active_count block - 1 + 1) with (active_count block) in Hok' by lia.
    split; [exact Hok'|]. repeat split; try reflexivity; lia.
Qed.

Lemma stored_score_store_block ctx p16 bi b ip :
  stored_score (store_block ctx p16 bi b) ip =
  if decide ((p16, bi) = (ip_to_prefix16 ip, ip_to_block_idx ip))
  then block_score b (ip_to_host_idx ip) else stored_score ctx ip.
Proof.
  unfold stored_score. rewrite lookup_store_block. case_decide; reflexivity.
Qed.

Lemma same_blocks_stored ctx ctx' ip :
  block_ptrs ctx' = block_ptrs ctx -> stored_score ctx' ip = stored_score ctx ip.
Proof. intros Hbp. unfold stored_score, lookup_block. rewrite Hbp. reflexivity. Qed.

Lemma same_ip ip ip' :
  is_u32 ip -> is_u32 ip' ->
  ip_to_prefix16 ip = ip_to_prefix16 ip' -> ip_to_block_idx ip = ip_to_block_idx ip' ->
  ip_to_host_idx ip = ip_to_host_idx ip' -> ip = ip'.
Proof.
  intros Hip Hip' H1 H2 H3.
  rewrite <- (make_ip_surj ip Hip), <- (make_ip_surj ip' Hip'). congruence.
Qed.

(** [write_back] is the tail shared by the writers once the block is
    located: store the cell, adjust the counters and publish the block. *)
Lemma write_back_spec ctx1 ip block new b' c' :
  consistent ctx1 -> is_u32 ip ->
  lookup_block ctx1 (ip_to_prefix16 ip) (ip_to_block_idx ip) = Some block ->
  bitmap_test ctx1 (ip_to_prefix24 ip) = 1 -> is_i16 new ->
  update_counts (block_score block (ip_to_host_idx ip)) new
    (block_store block (ip_to_host_idx ip) new) ctx1 = (b', c') ->
  let ctx2 := store_block c' (ip_to_prefix16 ip) (ip_to_block_idx ip) b' in
  consistent ctx2 /\
  stored_score ctx2 ip = new /\
  (forall ip', is_u32 ip' -> ip' <> ip -> stored_score ctx2 ip' = stored_score ctx1 ip') /\
  (forall q, bitmap_test ctx2 q = bitmap_test ctx1 q) /\
  score_count ctx2 =
    score_count ctx1 - nz (block_score block (ip_to_host_idx ip)) + nz new /\
  block_count ctx2 = block_count ctx1 /\ memory_used ctx2 = memory_used ctx1.
Proof.
  intros Hc Hip Hl Hbit Hnew Hu ctx2.
  pose proof (prefix16_range ip Hip) as Hp. pose proof (block_idx_range ip) as Hb.
  pose proof (host_idx_range ip) as Hh.
  destruct (update_counts_spec _ _ _ _ _ _ _ _ Hc Hp Hb Hl Hh Hnew Hu)
    as (Hok' & Hsc' & Hcnt & Hcnt' & Hbm & Hbp & Hbc & Hmu).
  pose proof (cons_block _ Hc _ _ _ Hl) as Hok. destruct Hok as (Hlen & _ & _).
  assert (Hlk : forall p b, lookup_block c' p b = lookup_block ctx1 p b)
    by (intros; unfold lookup_block; rewrite Hbp; reflexivity).
  assert (Hbt : forall q, bitmap_test ctx2 q = bitmap_test ctx1 q).
  { intros q. unfold ctx2. rewrite bitmap_test_store_block.
    unfold bitmap_test, bitmap_byte. rewrite Hbm. reflexivity. }
  split; [|split; [|split; [|split; [|split; [|split]]]]].
  - apply (consistent_update ctx1 ctx2 _ _ b' Hc Hp Hb Hok').
    + apply lookup_store_block_eq.
    + intros p b Hne. unfold ctx2. rewrite lookup_store_block_ne by congruence. apply Hlk.
    + intros q _. rewrite Hbt. auto.
    + rewrite Hbt. rewrite <- prefix24_split by assumption. rewrite Hbit. discriminate.
    + exact Hcnt.
  - unfold ctx2. rewrite stored_score_store_block. rewrite decide_True by reflexivity.
    unfold block_score. rewrite Hsc'. rewrite list_lookup_insert_eq; [reflexivity|].
    rewrite Hlen. change SCORES_PER_BLOCK with 256 in *. lia.
  - intros ip' Hip' Hne. unfold ctx2. rewrite stored_score_store_block.
    case_decide as Heq.
    + inversion Heq as [[H1 H2]]. unfold stored_score. rewrite <- H1, <- H2, Hl.
      unfold block_score. rewrite Hsc'. rewrite list_lookup_insert_ne; [reflexivity|].
      intros Hhh. apply Hne. symmetry. apply same_ip; try assumption.
      pose proof (host_idx_range ip'). lia.
    + apply same_blocks_stored. assumption.
  - exact Hbt.
  - exact Hcnt'.
  - exact Hbc.
  - exact Hmu.
Qed.

Section WriterProofs.
Context `{Platform}.

(** ** [sauron_set_u32] *)

Lemma set_consistent ctx ip score :
  consistent ctx -> is_u32 ip -> is_i16 score ->
  consistent (snd (sauron_set_u32 ctx ip score)).
Proof.
  intros Hc Hip Hs. unfold sauron_set_u32.
  destruct (get_or_alloc_block ctx ip) as [[block|] ctx1] eqn:Hg.
  - pose proof (get_or_alloc_block_consistent _ _ _ _ Hc Hip Hg) as Hc1.
    destruct (get_or_alloc_block_spec _ _ _ _ Hg) as (_ & _ & _ & Hl & Hbit & _).
    destruct (update_counts _ _ _ _) as [b' c'] eqn:Hu. cbn [snd].
    apply (write_back_spec ctx1 ip block score b' c' Hc1 Hip Hl Hbit Hs Hu).
  - cbn [snd]. eapply get_or_alloc_block_consistent; eassumption.
Qed.

Lemma stored_score_alloc ctx ip r ctx1 ip' :
  get_or_alloc_block ctx ip = (r, ctx1) ->
  stored_score ctx1 ip' = stored_score ctx ip'.
Proof.
  intros Hg. destruct (get_or_alloc_block_spec _ _ _ _ Hg) as (_ & _ & Hsame & Hr).
  unfold stored_score.
  destruct (decide ((ip_to_prefix16 ip', ip_to_block_idx ip') =
                    (ip_to_prefix16 ip, ip_to_block_idx ip))) as [Heq|Hne].
  - inversion Heq as [[H1 H2]]. rewrite !H1, !H2.
    destruct r as [block|].
    + destruct Hr as (-> & _ & ->).
      destruct (lookup_block ctx _ _) as [b|]; [reflexivity|].
      cbn [default]. unfold block_score, zero_block. cbn [scores].
      destruct (replicate _ 0 !! _) as [x|] eqn:Hx; [|reflexivity].
      apply lookup_replicate in Hx as [-> _]. reflexivity.
    + destruct Hr as (-> & -> & _). reflexivity.
  - rewrite Hsame by assumption. reflexivity.
Qed.

(** The effect of a [set] whose block allocation succeeds. *)
Lemma set_effect ctx ip score :
  (forall used size, heap_ok used size = true) ->
  consistent ctx -> is_u32 ip -> is_i16 score ->
  let r := sauron_set_u32 ctx ip score in
  fst r = stored_score ctx ip /\
  stored_score (snd r) ip = score /\
  (forall ip', is_u32 ip' -> ip' <> ip -> stored_score (snd r) ip' = stored_score ctx ip') /\
  bitmap_test (snd r) (ip_to_prefix24 ip) = 1 /\
  score_count (snd r) = score_count ctx - nz (stored_score ctx ip) + nz score.
Proof.
  intros Hheap Hc Hip Hs. unfold sauron_set_u32.
  destruct (get_or_alloc_block_succeeds ctx ip Hheap) as (block & ctx1 & Hg).
  rewrite Hg.
  pose proof (get_or_alloc_block_consistent _ _ _ _ Hc Hip Hg) as Hc1.
  destruct (get_or_alloc_block_spec _ _ _ _ Hg) as (Hsc & _ & _ & Hl & Hbit & _).
  assert (Hold : block_score block (ip_to_host_idx ip) = stored_score ctx ip).
  { rewrite <- (stored_score_alloc _ _ _ _ ip Hg). unfold stored_score.
    rewrite Hl. reflexivity. }
  destruct (update_counts _ _ _ _) as [b' c'] eqn:Hu. cbn [fst snd].
  destruct (write_back_spec ctx1 ip block score b' c' Hc1 Hip Hl Hbit Hs Hu)
    as (_ & Hst & Hfr & Hbt & Hcnt & _).
  split; [exact Hold|]. split; [exact Hst|]. split.
  - intros ip' Hip' Hne. rewrite Hfr by assumption.
    eapply stored_score_alloc; eassumption.
  - split; [rewrite Hbt; exact Hbit|]. rewrite Hcnt, Hsc, Hold. reflexivity.
Qed.

(** ** [sauron_incr_u32], [sauron_decr_u32] *)

Lemma incr_consistent ctx ip delta :
  consistent ctx -> is_u32 ip ->
  consistent (snd (sauron_incr_u32 ctx ip delta)).
Proof.
  intros Hc Hip. unfold sauron_incr_u32.
  destruct (delta =? 0); [exact Hc|].
  destruct (get_or_alloc_block ctx ip) as [[block|] ctx1] eqn:Hg.
  - pose proof (get_or_alloc_block_consistent _ _ _ _ Hc Hip Hg) as Hc1.
    destruct (get_or_alloc_block_spec _ _ _ _ Hg) as (_ & _ & _ & Hl & Hbit & _).
    destruct (update_counts _ _ _ _) as [b' c'] eqn:Hu. cbn [snd].
    refine (proj1 (write_back_spec ctx1 ip block _ b' c' Hc1 Hip Hl Hbit _ Hu)).
    rewrite saturating_add_clamp. apply clamp_i16.
  - cbn [snd]. eapply get_or_alloc_block_consistent; eassumption.
Qed.

(** The effect of an [increment] by a non-zero delta whose block
    allocation succeeds. *)
Lemma incr_effect ctx ip delta :
  (forall used size, heap_ok used size = true) ->
  consistent ctx -> is_u32 ip -> delta <> 0 ->
  let r := sauron_incr_u32 ctx ip delta in
  fst r = clamp (stored_score ctx ip + delta) /\
  stored_score (snd r) ip = clamp (stored_score ctx ip + delta) /\
  (forall ip', is_u32 ip' -> ip' <> ip -> stored_score (snd r) ip' = stored_score ctx ip') /\
  bitmap_test (snd r) (ip_to_prefix24 ip) = 1.
Proof.
  intros Hheap Hc Hip Hd. unfold sauron_incr_u32.
  destruct (Z.eqb_spec delta 0); [contradiction|].
  destruct (get_or_alloc_block_succeeds ctx ip Hheap) as (block & ctx1 & Hg).
  rewrite Hg.
  pose proof (get_or_alloc_block_consistent _ _ _ _ Hc Hip Hg) as Hc1.
  destruct (get_or_alloc_block_spec _ _ _ _ Hg) as (Hsc & _ & _ & Hl & Hbit & _).
  assert (Hold : block_score block (ip_to_host_idx ip) = stored_score ctx ip).
  { rewrite <- (stored_score_alloc _ _ _ _ ip Hg). unfold stored_score.
    rewrite Hl. reflexivity. }
  destruct (update_counts _ _ _ _) as [b' c'] eqn:Hu. cbn [fst snd].
  assert (Hnew : is_i16 (saturating_add (block_score block (ip_to_host_idx ip)) delta))
    by (rewrite saturating_add_clamp; apply clamp_i16).
  destruct (write_back_spec ctx1 ip block _ b' c' Hc1 Hip Hl Hbit Hnew Hu)
    as (_ & Hst & Hfr & Hbt & _).
  rewrite saturating_add_clamp, Hold in *.
  split; [reflexivity|]. split; [exact Hst|]. split.
  - intros ip' Hip' Hne. rewrite Hfr by assumption.
    eapply stored_score_alloc; eassumption.
  - rewrite Hbt; exact Hbit.
Qed.

Lemma decr_consistent ctx ip delta :
  consistent ctx -> is_u32 ip ->
  consistent (snd (sauron_decr_u32 ctx ip delta)).
Proof.
  intros Hc Hip. unfold sauron_decr_u32.
  destruct (delta =? INT16_MIN); apply incr_consistent; assumption.
Qed.

(** ** [sauron_delete_u32] *)

Lemma get_block_Some ctx ip block :
  get_block ctx ip = Some block ->
  lookup_block ctx (ip_to_prefix16 ip) (ip_to_block_idx ip) = Some block /\
  bitmap_test ctx (ip_to_prefix24 ip) = 1.
Proof.
  unfold get_block. destruct (Z.eqb_spec (bitmap_test ctx (ip_to_prefix24 ip)) 0) as [|Hnz];
    [discriminate|].
  intros Hl. split; [exact Hl|].
  destruct (bitmap_test_bool ctx (ip_to_prefix24 ip)); congruence.
Qed.

Lemma delete_as_write ctx ip block :
  block_score block (ip_to_host_idx ip) <> 0 ->
  (with_active_count (block_store block (ip_to_host_idx ip) 0)
     (u32 (active_count (block_store block (ip_to_host_idx ip) 0) - 1)),
   with_score_count ctx (u64 (score_count ctx - 1))) =
  update_counts (block_score block (ip_to_host_idx ip)) 0
    (block_store block (ip_to_host_idx ip) 0) ctx.
Proof.
  intros Hnz. unfold update_counts.
  destruct (Z.eqb_spec (block_score block (ip_to_host_idx ip)) 0); [contradiction|].
  reflexivity.
Qed.

Lemma delete_consistent ctx ip :
  consistent ctx -> is_u32 ip ->
  consistent (snd (sauron_delete_u32 ctx ip)).
Proof.
  intros Hc Hip. unfold sauron_delete_u32.
  destruct (get_block ctx ip) as [block|] eqn:Hg; [|exact Hc].
  destruct (get_block_Some _ _ _ Hg) as [Hl Hbit].
  destruct (Z.eqb_spec (block_score block (ip_to_host_idx ip)) 0) as [|Hnz];
    [exact Hc|]. cbn [negb snd].
  refine (proj1 (write_back_spec ctx ip block 0 _ _ Hc Hip Hl Hbit _ _)).
  - unfold is_i16. lia.
  - symmetry. apply delete_as_write. assumption.
Qed.

End WriterProofs.

(** ** Clearing *)

Lemma zero_if_iff (c c' : Prop) `{Decision c} `{Decision c'} o :
  (c <-> c') -> zero_if c o = zero_if c' o.
Proof.
  intros Hcc. destruct o as [x|]; [|reflexivity]. unfold zero_if.
  destruct (decide c), (decide c'); tauto || reflexivity.
Qed.

Lemma zero_if_false (c : Prop) `{Decision c} o : ~ c -> zero_if c o = o.
Proof.
  intros Hn. destruct o as [x|]; [|reflexivity]. unfold zero_if.
  rewrite decide_False by assumption. reflexivity.
Qed.

Lemma zero_if_twice (c1 c2 : Prop) `{Decision c1} `{Decision c2} o :
  zero_if c1 (zero_if c2 o) = zero_if (c1 \/ c2) o.
Proof.
  destruct o as [x|]; [|reflexivity]. unfold zero_if.
  destruct (decide c1), (decide c2), (decide (c1 \/ c2)); tauto || reflexivity.
Qed.

Lemma clear_block_lookup p16 ctx bi p b :
  lookup_block (clear_block p16 ctx bi) p b =
  zero_if ((p, b) = (p16, bi)) (lookup_block ctx p b).
Proof.
  unfold clear_block.
  destruct (lookup_block ctx p16 bi) as [block|] eqn:Hl.
  - rewrite lookup_block_bitmap_clear, lookup_store_block.
    destruct (decide ((p16, bi) = (p, b))) as [Heq|Hne].
    + inversion Heq; subst. rewrite Hl. unfold zero_if.
      rewrite decide_True by reflexivity. reflexivity.
    + rewrite zero_if_false by congruence. reflexivity.
  - destruct (decide ((p, b) = (p16, bi))) as [Heq|Hne].
    + inversion Heq; subst. rewrite Hl. reflexivity.
    + rewrite zero_if_false by assumption. reflexivity.
Qed.

Lemma clear_block_fold_lookup p16 l ctx p b :
  lookup_block (fold_left (clear_block p16) l ctx) p b =
  zero_if (p = p16 /\ b ∈ l) (lookup_block ctx p b).
Proof.
  revert ctx. induction l as [|a l IH]; intros ctx; simpl fold_left.
  - rewrite zero_if_false; [reflexivity|]. rewrite elem_of_nil. tauto.
  - rewrite IH, clear_block_lookup, zero_if_twice.
    apply zero_if_iff. rewrite elem_of_cons. split.
    + intros [[-> Hin]|Heq]; [tauto|]. inversion Heq; subst. tauto.
    + intros [-> [->|Hin]]; [right; reflexivity|left; tauto].
Qed.

Lemma clear_prefix16_lookup ctx p16 p b :
  lookup_block (clear_prefix16 ctx p16) p b =
  zero_if (p = p16 /\ 0 <= b < BLOCKS_PER_16) (lookup_block ctx p b).
Proof.
  unfold clear_prefix16.
  destruct (block_ptrs ctx !! p16) as [arr|] eqn:Harr.
  - rewrite clear_block_fold_lookup. apply zero_if_iff.
    rewrite list_elem_of_In, upto_In. tauto.
  - destruct (decide (p = p16)) as [->|Hne].
    + unfold lookup_block. rewrite Harr. reflexivity.
    + rewrite zero_if_false by tauto. reflexivity.
Qed.

Lemma clear_prefix16_fold_lookup l ctx p b :
  lookup_block (fold_left clear_prefix16 l ctx) p b =
  zero_if (p ∈ l /\ 0 <= b < BLOCKS_PER_16) (lookup_block ctx p b).
Proof.
  revert ctx. induction l as [|a l IH]; intros ctx; simpl fold_left.
  - rewrite zero_if_false; [reflexivity|]. rewrite elem_of_nil. tauto.
  - rewrite IH, clear_prefix16_lookup, zero_if_twice.
    apply zero_if_iff. rewrite elem_of_cons. split.
    + intros [[Hin Hb]|[-> Hb]]; tauto.
    + intros [[->|Hin] Hb]; tauto.
Qed.

Lemma clear_blocks_lookup ctx p b :
  lookup_block (clear_blocks ctx) p b =
  zero_if (0 <= p < PREFIX16_COUNT /\ 0 <= b < BLOCKS_PER_16) (lookup_block ctx p b).
Proof.
  unfold clear_blocks. rewrite lookup_block_score_count, clear_prefix16_fold_lookup.
  apply zero_if_iff. rewrite list_elem_of_In, upto_In. tauto.
Qed.

Lemma clear_blocks_consistent ctx : consistent ctx -> consistent (clear_blocks ctx).
Proof.
  intros Hc.
  assert (Hz : forall p bi b, lookup_block (clear_blocks ctx) p bi = Some b ->
                 b = zero_block /\ is_Some (lookup_block ctx p bi)).
  { intros p bi b Hl. rewrite clear_blocks_lookup in Hl.
    destruct (lookup_block ctx p bi) as [x|] eqn:Hx; [|discriminate].
    split; [|eauto]. unfold zero_if in Hl.
    rewrite decide_True in Hl by (eapply cons_keys; eassumption). congruence. }
  constructor.
  - intros p bi b Hl. destruct (Hz _ _ _ Hl) as [_ [x Hx]].
    eapply cons_keys; eassumption.
  - intros p bi b Hl. destruct (Hz _ _ _ Hl) as [-> _]. apply block_ok_zero.
  - intros p bi b Hl _. destruct (Hz _ _ _ Hl) as [-> _]. reflexivity.
  - unfold clear_blocks at 1. cbn [score_count with_score_count].
    symmetry. unfold total_active. apply sumZ_zero. intros p _.
    apply sumZ_zero. intros bi _. unfold slot_active.
    destruct (lookup_block (clear_blocks ctx) p bi) as [b|] eqn:Hl; [|reflexivity].
    destruct (Hz _ _ _ Hl) as [-> _]. reflexivity.
Qed.

Lemma block_score_zero_block h : block_score zero_block h = 0.
Proof.
  unfold block_score, zero_block. cbn [scores].
  destruct (replicate _ 0 !! _) as [x|] eqn:Hx; [|reflexivity].
  apply lookup_replicate in Hx as [-> _]. reflexivity.
Qed.

Lemma clear_blocks_stored ctx ip :
  consistent ctx -> stored_score (clear_blocks ctx) ip = 0.
Proof.
  intros Hc. unfold stored_score. rewrite clear_blocks_lookup.
  destruct (lookup_block ctx _ _) as [x|] eqn:Hx; [|reflexivity].
  unfold zero_if. rewrite decide_True by (eapply cons_keys; eassumption).
  apply block_score_zero_block.
Qed.

Lemma clear_blocks_count ctx : score_count (clear_blocks ctx) = 0.
Proof. reflexivity. Qed.

(** ** Loop invariants *)

Lemma foldl_opt_inv {A B : Type} (f : A -> B -> option A) (P : list B -> A -> Prop) l :
  List.NoDup l ->
  (forall done x a a', ~ In x done -> In x l -> P done a -> f a x = Some a' ->
                       P (done ++ [x]) a') ->
  forall a r, P [] a -> foldl_opt f a l = Some r -> P l r.
Proof.
  intros Hnd Hstep.
  assert (Hgen : forall rest pre a r,
            pre ++ rest = l -> P pre a -> foldl_opt f a rest = Some r -> P l r).
  { induction rest as [|x rest IH]; intros pre a r Hl Hp Hf; simpl in Hf.
    - rewrite app_nil_r in Hl. subst. inversion Hf; subst. assumption.
    - destruct (f a x) as [a'|] eqn:Hfa; [|discriminate].
      apply (IH (pre ++ [x]) a' r).
      + rewrite <- app_assoc. exact Hl.
      + apply (Hstep pre x a a'); try assumption.
        * subst l. apply NoDup_remove_2 in Hnd. intros Hin. apply Hnd.
          apply in_or_app. left. assumption.
        * subst l. apply in_or_app. right. left. reflexivity.
      + assumption. }
  intros a r. apply (Hgen l [] a r). reflexivity.
Qed.

Lemma fold_left_inv {A B : Type} (f : A -> B -> A) (P : list B -> A -> Prop) l :
  List.NoDup l ->
  (forall done x a, ~ In x done -> In x l -> P done a -> P (done ++ [x]) (f a x)) ->
  forall a, P [] a -> P l (fold_left f l a).
Proof.
  intros Hnd Hstep.
  assert (Hgen : forall rest pre a,
            pre ++ rest = l -> P pre a -> P l (fold_left f rest a)).
  { induction rest as [|x rest IH]; intros pre a Hl Hp; simpl.
    - rewrite app_nil_r in Hl. subst. assumption.
    - apply (IH (pre ++ [x])).
      + rewrite <- app_assoc. exact Hl.
      + apply Hstep; try assumption.
        * subst l. apply NoDup_remove_2 in Hnd. intros Hin. apply Hnd.
          apply in_or_app. left. assumption.
        * subst l. apply in_or_app. right. left. reflexivity. }
  intros a. apply (Hgen l [] a). reflexivity.
Qed.

(** ** Decay *)

Lemma stored_score_slot ctx ip :
  stored_score ctx ip =
  slot_cell ctx (ip_to_prefix16 ip) (ip_to_block_idx ip) (ip_to_host_idx ip).
Proof. reflexivity. Qed.

Lemma float_to_int16_range x t : float_to_int16 x = Some t -> is_i16 t.
Proof.
  unfold float_to_int16, is_i16, INT16_MIN, INT16_MAX.
  destruct x as [s|s| |s m e]; try discriminate.
  - intros Heq; inversion Heq; subst. lia.
  - destruct (Z.leb_spec (-32768) (float_trunc s m e)); [|discriminate].
    destruct (Z.leb_spec (float_trunc s m e) 32767); [|discriminate].
    intros Heq; inversion Heq; subst. lia.
Qed.

Lemma decay_score_i16 f adz v v' : decay_score f adz v = Some v' -> is_i16 v'.
Proof.
  unfold decay_score.
  destruct (float_to_int16 _) as [t|] eqn:Ht; [|discriminate].
  apply float_to_int16_range in Ht.
  intros Heq; inversion Heq; subst.
  destruct (_ && _); [unfold is_i16; lia|].
  destruct (_ && _); [unfold is_i16; lia|assumption].
Qed.

Lemma decay_host_step f adz base block ctx m h block' ctx' m' :
  block_ok block -> 0 <= h < SCORES_PER_BLOCK ->
  (forall n, 0 <= n <= 256 -> 0 <= base + n <= 2 ^ 32) ->
  score_count ctx = base + active_count block ->
  decay_host f adz (block, ctx, m) h = Some (block', ctx', m') ->
  block_ok block' /\ score_count ctx' = base + active_count block' /\
  bitmap ctx' = bitmap ctx /\ block_ptrs ctx' = block_ptrs ctx /\
  block_count ctx' = block_count ctx /\ memory_used ctx' = memory_used ctx /\
  cell_rel f adz (block_score block h) (block_score block' h) /\
  (forall h', 0 <= h' -> h' <> h -> block_score block' h' = block_score block h').
Proof.
  intros Hok Hh Hbase Hsc. unfold decay_host.
  destruct (Z.eqb_spec (block_score block h) 0) as [Hold|Hold].
  { intros Heq; inversion Heq; subst. repeat split; try assumption; try reflexivity.
    - apply Hok. - apply Hok. - apply Hok.
    - left. auto. }
  destruct (decay_score f adz (block_score block h)) as [new|] eqn:Hd; [|discriminate].
  pose proof (decay_score_i16 _ _ _ _ Hd) as Hnew.
  destruct (Z.eqb_spec new (block_score block h)) as [Hsame|Hdiff]; cbn [negb].
  { intros Heq; inversion Heq; subst. repeat split; try assumption; try reflexivity.
    - apply Hok. - apply Hok. - apply Hok.
    - right. split; [assumption|]. congruence. }
  pose proof (block_ok_write block h new Hok Hh Hnew) as Hok'.
  pose proof (block_ok_bounds _ Hok') as Hacb.
  cbn [active_count with_active_count] in Hacb.
  assert (Hlen : (Z.to_nat h < length (scores block))%nat).
  { destruct Hok as (Hlen & _). rewrite Hlen.
    change SCORES_PER_BLOCK with 256 in *. lia. }
  assert (Hcell : block_score (block_store block h new) h = new).
  { rewrite block_score_store by (try assumption; lia). rewrite Z.eqb_refl. reflexivity. }
  assert (Hother : forall h', 0 <= h' -> h' <> h ->
             block_score (block_store block h new) h' = block_score block h').
  { intros h' Hh' Hne. rewrite block_score_store by (try assumption; lia).
    destruct (Z.eqb_spec h h'); [congruence|reflexivity]. }
  unfold nz in Hok', Hacb.
  destruct (Z.eqb_spec (block_score block h) 0) as [|_]; [contradiction|].
  destruct (Z.eqb_spec new 0) as [Hz|Hnz].
  - intros Heq; inversion Heq; subst block' ctx' m'; clear Heq.
    cbn [active_count with_active_count block_store score_count with_score_count
         bitmap block_ptrs block_count memory_used].
    replace (active_count block - 1 + 0) with (active_count block - 1) in * by lia.
    pose proof (Hbase (active_count block - 1) Hacb) as Hb1.
    unfold u32, u64. rewrite !Z.mod_small by lia.
    split; [exact Hok'|]. split; [lia|].
    repeat split; try reflexivity.
    + right. split; [assumption|]. rewrite Hd. f_equal. symmetry. exact Hcell.
    + exact Hother.
  - intros Heq; inversion Heq; subst block' ctx' m'; clear Heq.
    replace (active_count block - 1 + 1) with (active_count block) in * by lia.
    split; [exact Hok'|]. split; [exact Hsc|].
    repeat split; try reflexivity.
    + right. split; [assumption|]. rewrite Hd. f_equal. symmetry. exact Hcell.
    + exact Hother.
Qed.

Lemma decay_hosts_spec f adz base hosts :
  (forall n, 0 <= n <= 256 -> 0 <= base + n <= 2 ^ 32) ->
  List.NoDup hosts -> (forall h, In h hosts -> 0 <= h < SCORES_PER_BLOCK) ->
  forall block ctx m block' ctx' m',
  block_ok block -> score_count ctx = base + active_count block ->
  foldl_opt (decay_host f adz) (block, ctx, m) hosts = Some (block', ctx', m') ->
  block_ok block' /\ score_count ctx' = base + active_count block' /\
  bitmap ctx' = bitmap ctx /\ block_ptrs ctx' = block_ptrs ctx /\
  block_count ctx' = block_count ctx /\ memory_used ctx' = memory_used ctx /\
  (forall h, In h hosts -> cell_rel f adz (block_score block h) (block_score block' h)) /\
  (forall h, 0 <= h -> ~ In h hosts -> block_score block' h = block_score block h).
Proof.
  intros Hbase. induction hosts as [|a hosts IH];
    intros Hnd Hrange block ctx m block' ctx' m' Hok Hsc Hf; cbn [foldl_opt] in Hf.
  - inversion Hf; subst. repeat split; try assumption; try reflexivity.
    + apply Hok. + apply Hok. + apply Hok. + intros h [].
  - destruct (decay_host f adz (block, ctx, m) a) as [[[b1 c1] m1]|] eqn:Hstep;
      [|discriminate Hf].
    inversion Hnd as [|? ? Hnotin Hnd']; subst.
    destruct (decay_host_step _ _ _ _ _ _ _ _ _ _ Hok
                (Hrange a (or_introl eq_refl)) Hbase Hsc Hstep)
      as (Hok1 & Hsc1 & Hbm1 & Hbp1 & Hbc1 & Hmu1 & Hrel1 & Hoth1).
    destruct (IH Hnd' (fun h Hh => Hrange h (or_intror Hh)) _ _ _ _ _ _ Hok1 Hsc1 Hf)
      as (Hok2 & Hsc2 & Hbm2 & Hbp2 & Hbc2 & Hmu2 & Hrel2 & Hoth2).
    split; [exact Hok2|]. split; [exact Hsc2|].
    split; [congruence|]. split; [congruence|]. split; [congruence|].
    split; [congruence|]. split.
    + intros h Hin. simpl in Hin. destruct Hin as [Heq|Hin].
      * subst h. rewrite Hoth2; [exact Hrel1| |assumption].
        apply (Hrange a (or_introl eq_refl)).
      * rewrite <- (Hoth1 h); [apply Hrel2; assumption| |].
        -- apply (Hrange h (or_intror Hin)).
        -- intros ->. contradiction.
    + intros h Hh Hnot. rewrite Hoth2, Hoth1; auto.
      * intros ->. apply Hnot. left. reflexivity.
      * intros Hin. apply Hnot. right. assumption.
Qed.

Lemma cell_rel_zero f adz : cell_rel f adz 0 0.
Proof. left. auto. Qed.

Lemma decay_block_spec f adz p16 bi ctx m ctx' m' :
  consistent ctx -> 0 <= p16 < PREFIX16_COUNT -> 0 <= bi < BLOCKS_PER_16 ->
  decay_block f adz p16 (ctx, m) bi = Some (ctx', m') ->
  consistent ctx' /\
  (forall p b, (p, b) <> (p16, bi) -> lookup_block ctx' p b = lookup_block ctx p b) /\
  (forall h, 0 <= h < SCORES_PER_BLOCK ->
             cell_rel f adz (slot_cell ctx p16 bi h) (slot_cell ctx' p16 bi h)) /\
  block_count ctx' = block_count ctx /\ memory_used ctx' = memory_used ctx.
Proof.
  intros Hc Hp Hb. unfold decay_block.
  destruct (lookup_block ctx p16 bi) as [block|] eqn:Hl.
  2:{ assert (Hnone : forall h, cell_rel f adz (slot_cell ctx p16 bi h)
                                  (slot_cell ctx p16 bi h))
        by (intros h; unfold slot_cell; rewrite Hl; apply cell_rel_zero).
      destruct (_ =? 0); intros Heq; inversion Heq; subst; auto. }
  assert (Hzero : active_count block = 0 ->
            forall h, cell_rel f adz (slot_cell ctx p16 bi h) (slot_cell ctx p16 bi h)).
  { intros Hz h. unfold slot_cell. rewrite Hl.
    rewrite block_score_active_zero; [apply cell_rel_zero| |assumption].
    eapply cons_block; eassumption. }
  destruct (Z.eqb_spec (bitmap_test ctx (make_prefix24 p16 bi)) 0) as [Hbit|Hbit].
  { intros Heq; inversion Heq; subst. split; [assumption|]. split; [auto|].
    split; [|auto]. intros h _.
    apply Hzero. eapply cons_bitmap; eassumption. }
  pose proof (cons_block _ Hc _ _ _ Hl) as Hok.
  assert (Hslot : slot_active ctx p16 bi = active_count block)
    by (unfold slot_active; rewrite Hl; reflexivity).
  destruct (Z.eqb_spec (active_count block) 0) as [Hac|Hac].
  { intros Heq; inversion Heq; subst ctx' m'. split; [|split; [|split]].
    - apply (consistent_update ctx _ p16 bi block Hc Hp Hb Hok).
      + exact Hl.
      + reflexivity.
      + intros q Hq. rewrite bitmap_test_clear.
        destruct (Z.eqb_spec (make_prefix24 p16 bi) q); [congruence|auto].
      + auto.
      + rewrite score_count_bitmap_clear. lia.
    - reflexivity.
    - intros h _. apply (Hzero Hac).
    - auto. }
  destruct (foldl_opt _ _ _) as [[[block1 ctx1] m1]|] eqn:Hloop; [|discriminate].
  intros Heq; inversion Heq; subst ctx' m'; clear Heq.
  assert (Hbase : forall n, 0 <= n <= 256 ->
            0 <= score_count ctx - active_count block + n <= 2 ^ 32).
  { intros n Hn. rewrite <- Hslot.
    apply (count_after_bounds ctx p16 bi (mk_block [] n) Hc Hp Hb). exact Hn. }
  assert (Hsc0 : score_count ctx =
                 score_count ctx - active_count block + active_count block) by lia.
  destruct (decay_hosts_spec f adz (score_count ctx - active_count block)
              (upto SCORES_PER_BLOCK) Hbase (upto_NoDup _)
              (fun h Hh => proj1 (upto_In _ h) Hh)
              _ _ _ _ _ _ Hok Hsc0 Hloop)
    as (Hok1 & Hsc1 & Hbm1 & Hbp1 & Hbc1 & Hmu1 & Hrel & _).
  assert (Hlk : forall p b, lookup_block ctx1 p b = lookup_block ctx p b)
    by (intros; unfold lookup_block; rewrite Hbp1; reflexivity).
  assert (Hbt : forall q, bitmap_test ctx1 q = bitmap_test ctx q)
    by (intros; unfold bitmap_test, bitmap_byte; rewrite Hbm1; reflexivity).
  set (ctx2 := store_block ctx1 p16 bi block1).
  set (ctx3 := if active_count block1 =? 0
               then bitmap_clear ctx2 (make_prefix24 p16 bi) else ctx2).
  assert (Hlk3 : forall p b, lookup_block ctx3 p b = lookup_block ctx2 p b)
    by (intros; unfold ctx3; destruct (_ =? 0); reflexivity).
  split; [|split; [|split]].
  - apply (consistent_update ctx ctx3 p16 bi block1 Hc Hp Hb Hok1).
    + rewrite Hlk3. apply lookup_store_block_eq.
    + intros p b Hne. rewrite Hlk3. unfold ctx2.
      rewrite lookup_store_block_ne by congruence. apply Hlk.
    + intros q Hq. unfold ctx3. destruct (_ =? 0).
      * rewrite bitmap_test_clear.
        destruct (Z.eqb_spec (make_prefix24 p16 bi) q); [congruence|].
        unfold ctx2. rewrite bitmap_test_store_block, Hbt. auto.
      * unfold ctx2. rewrite bitmap_test_store_block, Hbt. auto.
    + unfold ctx3. destruct (Z.eqb_spec (active_count block1) 0); [auto|].
      unfold ctx2. rewrite bitmap_test_store_block, Hbt. intros; contradiction.
    + replace (score_count ctx3) with (score_count ctx1)
        by (unfold ctx3; destruct (_ =? 0); reflexivity).
      rewrite Hsc1, Hslot. reflexivity.
  - intros p b Hne. rewrite Hlk3. unfold ctx2.
    rewrite lookup_store_block_ne by congruence. apply Hlk.
  - intros h Hh. unfold slot_cell. rewrite Hlk3. unfold ctx2.
    rewrite lookup_store_block_eq, Hl. apply Hrel. apply upto_In. assumption.
  - unfold ctx3. destruct (_ =? 0); cbn; auto.
Qed.

Lemma decay_prefix16_spec f adz p16 ctx m ctx' m' :
  consistent ctx -> 0 <= p16 < PREFIX16_COUNT ->
  decay_prefix16 f adz (ctx, m) p16 = Some (ctx', m') ->
  consistent ctx' /\
  (forall p b, p <> p16 -> lookup_block ctx' p b = lookup_block ctx p b) /\
  (forall b h, 0 <= b < BLOCKS_PER_16 -> 0 <= h < SCORES_PER_BLOCK ->
               cell_rel f adz (slot_cell ctx p16 b h) (slot_cell ctx' p16 b h)) /\
  block_count ctx' = block_count ctx /\ memory_used ctx' = memory_used ctx.
Proof.
  intros Hc Hp. unfold decay_prefix16. cbn [fst].
  destruct (block_ptrs ctx !! p16) as [arr|] eqn:Harr.
  - intros Hf.
    pose (Q := fun (done : list Z) (st : sauron_ctx * Z) =>
      consistent (fst st) /\
      (forall p b, ~ (p = p16 /\ In b done) ->
                   lookup_block (fst st) p b = lookup_block ctx p b) /\
      (forall b h, In b done -> 0 <= h < SCORES_PER_BLOCK ->
                   cell_rel f adz (slot_cell ctx p16 b h) (slot_cell (fst st) p16 b h)) /\
      block_count (fst st) = block_count ctx /\ memory_used (fst st) = memory_used ctx).
    assert (HQ : Q (upto BLOCKS_PER_16) (ctx', m')).
    { apply (foldl_opt_inv (decay_block f adz p16) Q (upto BLOCKS_PER_16)
               (upto_NoDup _)) with (a := (ctx, m)); [|unfold Q; cbn; tauto|exact Hf].
      intros done x [c1 m1] [c2 m2] Hnot Hin (Hc1 & Hfr1 & Hrel1 & Hbc1 & Hmu1) Hstep.
      cbn [fst] in *. apply upto_In in Hin.
      destruct (decay_block_spec _ _ _ _ _ _ _ _ Hc1 Hp Hin Hstep)
        as (Hc2 & Hfr2 & Hrel2 & Hbc2 & Hmu2).
      unfold Q. cbn [fst]. split; [exact Hc2|]. split; [|split; [|split; congruence]].
      - intros p b Hnb. rewrite Hfr2.
        + apply Hfr1. intros [-> Hd]. apply Hnb. split; [reflexivity|].
          apply in_or_app. left. assumption.
        + intros Heq. inversion Heq; subst. apply Hnb. split; [reflexivity|].
          apply in_or_app. right. left. reflexivity.
      - intros b h Hb Hh. apply in_app_or in Hb as [Hb|[<-|[]]].
        + unfold slot_cell at 2. rewrite Hfr2.
          * apply Hrel1; assumption.
          * intros Heq. inversion Heq; subst. contradiction.
        + unfold slot_cell at 1. rewrite <- Hfr1.
          * apply Hrel2. assumption.
          * intros [_ Hd]. contradiction. }
    destruct HQ as (Hc' & Hfr & Hrel & Hbc & Hmu). cbn [fst] in *.
    split; [exact Hc'|]. split; [|split; [|split; assumption]].
    + intros p b Hne. apply Hfr. tauto.
    + intros b h Hb Hh. apply Hrel; [|assumption]. apply upto_In. assumption.
  - intros Heq; inversion Heq; subst. split; [assumption|]. split; [auto|].
    split; [|auto]. intros b h _ _. unfold slot_cell, lookup_block.
    rewrite Harr. apply cell_rel_zero.
Qed.

Lemma decay_sweep_spec f adz ctx m ctx' m' :
  consistent ctx ->
  foldl_opt (decay_prefix16 f adz) (ctx, m) (upto PREFIX16_COUNT) = Some (ctx', m') ->
  consistent ctx' /\
  (forall ip, is_u32 ip -> cell_rel f adz (stored_score ctx ip) (stored_score ctx' ip)) /\
  block_count ctx' = block_count ctx /\ memory_used ctx' = memory_used ctx.
Proof.
  intros Hc Hf.
  pose (Q := fun (done : list Z) (st : sauron_ctx * Z) =>
    consistent (fst st) /\
    (forall p b, ~ In p done -> lookup_block (fst st) p b = lookup_block ctx p b) /\
    (forall p b h, In p done -> 0 <= b < BLOCKS_PER_16 -> 0 <= h < SCORES_PER_BLOCK ->
                   cell_rel f adz (slot_cell ctx p b h) (slot_cell (fst st) p b h)) /\
    block_count (fst st) = block_count ctx /\ memory_used (fst st) = memory_used ctx).
  assert (HQ : Q (upto PREFIX16_COUNT) (ctx', m')).
  { apply (foldl_opt_inv (decay_prefix16 f adz) Q (upto PREFIX16_COUNT)
             (upto_NoDup _)) with (a := (ctx, m)); [|unfold Q; cbn; tauto|exact Hf].
    intros done x [c1 m1] [c2 m2] Hnot Hin (Hc1 & Hfr1 & Hrel1 & Hbc1 & Hmu1) Hstep.
    cbn [fst] in *. apply upto_In in Hin.
    destruct (decay_prefix16_spec _ _ _ _ _ _ _ Hc1 Hin Hstep)
      as (Hc2 & Hfr2 & Hrel2 & Hbc2 & Hmu2).
    unfold Q. cbn [fst]. split; [exact Hc2|]. split; [|split; [|split; congruence]].
    - intros p b Hnb. rewrite Hfr2.
      + apply Hfr1. intros Hd. apply Hnb. apply in_or_app. left. assumption.
      + intros ->. apply Hnb. apply in_or_app. right. left. reflexivity.
    - intros p b h Hpd Hb Hh. apply in_app_or in Hpd as [Hpd|[<-|[]]].
      + unfold slot_cell at 2. rewrite Hfr2.
        * apply Hrel1; assumption.
        * intros ->. contradiction.
      + unfold slot_cell at 1. rewrite <- Hfr1 by assumption.
        apply Hrel2; assumption. }
  destruct HQ as (Hc' & Hfr & Hrel & Hbc & Hmu). cbn [fst] in *.
  split; [exact Hc'|]. split; [|split; assumption].
  intros ip Hip. rewrite !stored_score_slot. apply Hrel.
  - apply upto_In. apply prefix16_range. assumption.
  - apply block_idx_range.
  - apply host_idx_range.
Qed.

Lemma sauron_decay_rejects ctx f d :
  SFltb f float_zero || SFltb float_one f = true ->
  sauron_decay ctx f d = Some (0, ctx).
Proof. intros Hbad. unfold sauron_decay. rewrite Hbad. reflexivity. Qed.

Lemma sauron_decay_spec ctx f d n ctx' :
  consistent ctx -> sauron_decay ctx f d = Some (n, ctx') ->
  consistent ctx' /\
  block_count ctx' = block_count ctx /\ memory_used ctx' = memory_used ctx /\
  (SFltb f float_zero || SFltb float_one f = false ->
   forall ip, is_u32 ip ->
     cell_rel f (abs_deadzone_of d) (stored_score ctx ip) (stored_score ctx' ip)).
Proof.
  intros Hc. unfold sauron_decay.
  destruct (SFltb f float_zero || SFltb float_one f) eqn:Hbad.
  - intros Heq; inversion Heq; subst.
    split; [assumption|]. split; [reflexivity|]. split; [reflexivity|].
    intros Hf; discriminate Hf.
  - destruct (foldl_opt _ _ _) as [[c1 m1]|] eqn:Hf;
      intros Heq; cbn in Heq; [|discriminate Heq].
    inversion Heq; subst.
    destruct (decay_sweep_spec _ _ _ _ _ _ Hc Hf) as (Hc' & Hrel & Hbc & Hmu).
    split; [assumption|]. split; [assumption|]. split; [assumption|].
    intros _. exact Hrel.
Qed.

(** ** Counting the live addresses *)

Lemma nonzero_addresses_total ctx :
  consistent ctx -> nonzero_addresses ctx = total_active ctx.
Proof.
  intros Hc. unfold nonzero_addresses, total_active.
  apply sumZ_ext. intros p Hp. apply upto_In in Hp.
  apply sumZ_ext. intros b Hb. apply upto_In in Hb.
  rewrite (sumZ_ext _ (fun h => nz (slot_cell ctx p b h))).
  2:{ intros h Hh. apply upto_In in Hh.
      destruct (make_ip_parts p b h Hp Hb Hh) as (_ & H1 & H2 & H3).
      rewrite stored_score_slot, H1, H2, H3. reflexivity. }
  unfold slot_active, slot_cell.
  destruct (lookup_block ctx p b) as [x|] eqn:Hl.
  - destruct (cons_block _ Hc _ _ _ Hl) as (Hlen & _ & Hac).
    rewrite Hac, count_nz_sum, Hlen.
    change (Z.of_nat (Z.to_nat SCORES_PER_BLOCK)) with SCORES_PER_BLOCK. reflexivity.
  - apply sumZ_zero. reflexivity.
Qed.

Lemma count_is_nonzero_addresses ctx :
  consistent ctx -> sauron_count ctx = nonzero_addresses ctx.
Proof.
  intros Hc. unfold sauron_count.
  rewrite nonzero_addresses_total by assumption. apply cons_count. assumption.
Qed.

(** ** Bytes *)

Lemma char_code_range c : 0 <= char_code c < 256.
Proof.
  unfold char_code. pose proof (N_ascii_bounded c). lia.
Qed.

Lemma le_value_4_u32 b0 b1 b2 b3 :
  is_u32 (le_value (String b0 (String b1 (String b2 (String b3 EmptyString))))).
Proof.
  cbn [le_value]. pose proof (char_code_range b0). pose proof (char_code_range b1).
  pose proof (char_code_range b2). pose proof (char_code_range b3).
  unfold is_u32. lia.
Qed.

Section LoaderProofs.
Context `{Platform}.

(** ** The loaders keep the invariant *)

Lemma load_entries_consistent fp :
  forall ctx remaining, consistent ctx ->
  consistent (snd (load_entries ctx remaining fp)).
Proof.
  assert (Hgen : forall n fp, (String.length fp < n)%nat ->
            forall ctx remaining, consistent ctx ->
            consistent (snd (load_entries ctx remaining fp))).
  { induction n as [|n IH]; intros fp0 Hlen ctx remaining Hc; [lia|].
    destruct fp0 as [|b0 [|b1 [|b2 [|b3 [|s0 [|s1 rest]]]]]];
      cbn [load_entries]; destruct (remaining <=? 0); try exact Hc.
    apply IH; [cbn [String.length] in Hlen; lia|].
    destruct (_ =? 0); [exact Hc|].
    apply set_consistent; [exact Hc|apply le_value_4_u32|apply i16_range]. }
  intros ctx remaining. apply (Hgen (S (String.length fp))). lia.
Qed.

Lemma load_consistent ctx filename fs :
  consistent ctx -> consistent (snd (sauron_load ctx filename fs)).
Proof.
  intros Hc. unfold sauron_load.
  destruct (fs !! filename) as [fp|]; [|exact Hc].
  destruct (fread 4 fp) as [[magic fp1]|]; [|exact Hc].
  destruct (fread 4 fp1) as [[version fp2]|]; [|exact Hc].
  destruct (negb _); [exact Hc|].
  destruct (_ || _); [exact Hc|].
  destruct (fread 8 fp2) as [[entry_count fp3]|]; [|exact Hc].
  destruct (_ >? _); [exact Hc|].
  apply load_entries_consistent. apply clear_blocks_consistent. exact Hc.
Qed.

Lemma parse_bulk_line_typed line ip value is_relative :
  parse_bulk_line line = Some (ip, value, is_relative) -> is_u32 ip /\ is_i16 value.
Proof.
  unfold parse_bulk_line.
  destruct (parse_bulk_ip _ 0 0 0 0) as [[[[[ip0 octet] dots] digits] p]|]; [|discriminate].
  destruct (_ || _); [discriminate|].
  destruct (skip_blanks p) as [|c p1]; [discriminate|].
  destruct (Ascii.eqb_spec c ","%char) as [->|Hne].
  2:{ intros Hx. exfalso.
      destruct c as [[] [] [] [] [] [] [] []]; try discriminate Hx. congruence. }
  destruct (match skip_blanks p1 with
            | String "+"%char p2 =>
                match p2 with
                | String "-"%char p3 => (true, true, p3)
                | _ => (true, false, p2)
                end
            | String "-"%char p2 => (false, true, p2)
            | _ => (false, false, skip_blanks p1)
            end) as [[rel neg] p4].
  destruct (negb (is_digit (peek p4))); [discriminate|].
  destruct (parse_bulk_value p4 0) as [value0 p5].
  destruct (_ && _); [discriminate|].
  intros Heq; inversion Heq; subst. split.
  - unfold is_u32, u32. apply Z.mod_pos_bound. lia.
  - apply i16_range.
Qed.

Lemma bulk_apply_consistent ctx stats ip value is_relative :
  consistent ctx -> is_u32 ip -> is_i16 value ->
  consistent (fst (bulk_apply (ctx, stats) ip value is_relative)).
Proof.
  intros Hc Hip Hv. unfold bulk_apply. destruct is_relative; cbn [fst].
  - apply incr_consistent; assumption.
  - apply set_consistent; assumption.
Qed.

Lemma bulk_buffer_line_consistent st line :
  consistent (fst st) -> consistent (fst (bulk_buffer_line st line)).
Proof.
  destruct st as [ctx stats]. cbn [fst]. intros Hc. unfold bulk_buffer_line.
  destruct (_ || _); [exact Hc|].
  destruct (parse_bulk_line _) as [[[ip value] rel]|] eqn:Hp; [|exact Hc].
  apply parse_bulk_line_typed in Hp as [Hip Hv].
  apply bulk_apply_consistent; assumption.
Qed.

Lemma bulk_file_line_consistent st line :
  consistent (fst st) -> consistent (fst (bulk_file_line st line)).
Proof.
  destruct st as [ctx stats]. cbn [fst]. intros Hc. unfold bulk_file_line.
  destruct (_ || _); [exact Hc|].
  destruct (parse_bulk_line _) as [[[ip value] rel]|] eqn:Hp; [|exact Hc].
  apply parse_bulk_line_typed in Hp as [Hip Hv].
  apply bulk_apply_consistent; assumption.
Qed.

Lemma fold_left_preserves {A B : Type} (f : A -> B -> A) (P : A -> Prop) l :
  (forall a x, P a -> P (f a x)) -> forall a, P a -> P (fold_left f l a).
Proof.
  intros Hstep. induction l as [|x l IH]; intros a Ha; simpl; auto.
Qed.

Lemma bulk_load_buffer_consistent ctx data :
  consistent ctx -> consistent (snd (fst (sauron_bulk_load_buffer ctx data))).
Proof.
  intros Hc. unfold sauron_bulk_load_buffer.
  pose proof (fold_left_preserves bulk_buffer_line (fun st => consistent (fst st))
                (buffer_lines data EmptyString) bulk_buffer_line_consistent
                (ctx, bulk_result_zero) Hc) as Hfold.
  destruct (fold_left _ _ _) as [ctx' stats]. exact Hfold.
Qed.

Lemma bulk_load_consistent ctx filename fs :
  consistent ctx -> consistent (snd (fst (sauron_bulk_load ctx filename fs))).
Proof.
  intros Hc. unfold sauron_bulk_load.
  destruct (fs !! filename) as [data|]; [|exact Hc].
  destruct (heap_ok _ _); [|exact Hc].
  pose proof (fold_left_preserves bulk_file_line (fun st => consistent (fst st))
                (getline_lines data EmptyString) bulk_file_line_consistent
                (ctx, bulk_result_zero) Hc) as Hfold.
  destruct (fold_left _ _ _) as [ctx' stats]. exact Hfold.
Qed.

Lemma incr_batch_consistent ctx items :
  consistent ctx -> Forall (fun it => is_u32 (fst it) /\ is_i16 (snd it)) items ->
  consistent (snd (sauron_incr_batch ctx items)).
Proof.
  unfold sauron_incr_batch. generalize 0 as k. revert ctx.
  induction items as [|it items IH]; intros ctx k Hc Hall; simpl; [exact Hc|].
  inversion Hall as [|? ? [Hip _] Hall']; subst.
  apply IH; [|assumption]. cbn [snd]. apply incr_consistent; assumption.
Qed.

(** ** Reachable states satisfy the invariant *)

Lemma create_consistent ctx : sauron_create = Some ctx -> consistent ctx.
Proof.
  unfold sauron_create. destruct (heap_ok _ _); [|discriminate].
  intros Heq; inversion Heq; subst. constructor.
  - intros p b x Hl. unfold lookup_block in Hl. cbn [block_ptrs] in Hl.
    rewrite lookup_empty in Hl. discriminate.
  - intros p b x Hl. unfold lookup_block in Hl. cbn [block_ptrs] in Hl.
    rewrite lookup_empty in Hl. discriminate.
  - intros p b x Hl. unfold lookup_block in Hl. cbn [block_ptrs] in Hl.
    rewrite lookup_empty in Hl. discriminate.
  - cbn [score_count]. symmetry. unfold total_active. apply sumZ_zero. intros p _.
    apply sumZ_zero. intros b _. unfold slot_active, lookup_block. cbn [block_ptrs].
    rewrite lookup_empty. reflexivity.
Qed.

Lemma run_op_consistent ctx o ctx' :
  consistent ctx -> op_typed o -> run_op ctx o = Some ctx' -> consistent ctx'.
Proof.
  intros Hc Hty. destruct o; cbn [run_op op_typed] in *.
  - destruct Hty. intros Heq; inversion Heq; subst. apply set_consistent; assumption.
  - destruct Hty. intros Heq; inversion Heq; subst. apply incr_consistent; assumption.
  - destruct Hty. intros Heq; inversion Heq; subst. apply decr_consistent; assumption.
  - intros Heq; inversion Heq; subst. apply delete_consistent; assumption.
  - intros Heq; inversion Heq; subst. apply incr_batch_consistent; assumption.
  - destruct (sauron_decay ctx decay_factor deadzone) as [[n c]|] eqn:Hd; [|discriminate].
    intros Heq; inversion Heq; subst.
    apply (sauron_decay_spec _ _ _ _ _ Hc Hd).
  - intros Heq; inversion Heq; subst. apply clear_blocks_consistent; assumption.
  - intros Heq; inversion Heq; subst. apply load_consistent; assumption.
  - intros Heq; inversion Heq; subst. apply bulk_load_consistent; assumption.
  - intros Heq; inversion Heq; subst. apply bulk_load_buffer_consistent; assumption.
Qed.

Lemma reachable_by_consistent allowed ctx :
  (forall o, allowed o -> op_typed o) ->
  reachable_by allowed ctx -> consistent ctx.
Proof.
  intros Hty Hr. induction Hr as [ctx Hcr|ctx o ctx' _ IH Hal Hrun].
  - apply create_consistent. assumption.
  - eapply run_op_consistent; eauto.
Qed.

Lemma reachable_consistent ctx : reachable ctx -> consistent ctx.
Proof. apply reachable_by_consistent. auto. Qed.

End LoaderProofs.

(** * Saturating writes and the count invariant *)

Lemma lp64_create : @sauron_create lp64 = Some lp64_fresh.
Proof. reflexivity. Qed.

Lemma lp64_heap : forall used size, @heap_ok lp64 used size = true.
Proof. reflexivity. Qed.

Lemma lp64_fresh_reachable : @reachable lp64 lp64_fresh.
Proof. apply reach_create. exact lp64_create. Qed.

(** ** Writes that get their block *)

Section LocalAllocation.
Context `{Platform}.

(** A block that exists is found without any allocation. *)
Lemma block_available_present ctx ip :
  is_Some (lookup_block ctx (ip_to_prefix16 ip) (ip_to_block_idx ip)) ->
  block_available ctx ip.
Proof.
  intros [b Hl]. unfold block_available, get_or_alloc_block. rewrite Hl.
  destruct (_ =? 0); cbn [fst]; eauto.
Qed.

Lemma block_available_heap ctx ip :
  (forall used size, heap_ok used size = true) -> block_available ctx ip.
Proof.
  intros Hheap. destruct (get_or_alloc_block_succeeds ctx ip Hheap) as (b & c & Hg).
  unfold block_available. rewrite Hg. cbn [fst]. eauto.
Qed.

Lemma block_available_Some ctx ip :
  block_available ctx ip ->
  exists block ctx1, get_or_alloc_block ctx ip = (Some block, ctx1).
Proof.
  unfold block_available.
  destruct (get_or_alloc_block ctx ip) as [[block|] ctx1]; cbn [fst].
  - eauto.
  - intros [x Hx]. discriminate Hx.
Qed.

Lemma block_unavailable_None ctx ip :
  ~ block_available ctx ip ->
  exists ctx1, get_or_alloc_block ctx ip = (None, ctx1).
Proof.
  unfold block_available.
  destruct (get_or_alloc_block ctx ip) as [[block|] ctx1]; cbn [fst].
  - intros Hno. exfalso. apply Hno. eauto.
  - eauto.
Qed.

(** The effect of a [set] that gets its block. *)
Lemma set_effect_local ctx ip score :
  consistent ctx -> is_u32 ip -> is_i16 score -> block_available ctx ip ->
  let r := sauron_set_u32 ctx ip score in
  fst r = stored_score ctx ip /\
  stored_score (snd r) ip = score /\
  (forall ip', is_u32 ip' -> ip' <> ip -> stored_score (snd r) ip' = stored_score ctx ip') /\
  bitmap_test (snd r) (ip_to_prefix24 ip) = 1 /\
  score_count (snd r) = score_count ctx - nz (stored_score ctx ip) + nz score /\
  is_Some (lookup_block (snd r) (ip_to_prefix16 ip) (ip_to_block_idx ip)).
Proof.
  intros Hc Hip Hs Hav. unfold sauron_set_u32.
  destruct (block_available_Some ctx ip Hav) as (block & ctx1 & Hg).
  rewrite Hg.
  pose proof (get_or_alloc_block_consistent _ _ _ _ Hc Hip Hg) as Hc1.
  destruct (get_or_alloc_block_spec _ _ _ _ Hg) as (Hsc & _ & _ & Hl & Hbit & _).
  assert (Hold : block_score block (ip_to_host_idx ip) = stored_score ctx ip).
  { rewrite <- (stored_score_alloc _ _ _ _ ip Hg). unfold stored_score.
    rewrite Hl. reflexivity. }
  destruct (update_counts _ _ _ _) as [b' c'] eqn:Hu. cbn [fst snd].
  destruct (write_back_spec ctx1 ip block score b' c' Hc1 Hip Hl Hbit Hs Hu)
    as (_ & Hst & Hfr & Hbt & Hcnt & _).
  split; [exact Hold|]. split; [exact Hst|]. split.
  { intros ip' Hip' Hne. rewrite Hfr by assumption.
    eapply stored_score_alloc; eassumption. }
  split; [rewrite Hbt; exact Hbit|].
  split; [rewrite Hcnt, Hsc, Hold; reflexivity|].
  rewrite lookup_store_block_eq. eauto.
Qed.

(** The effect of an [increment] by a non-zero delta that gets its
    block. *)
Lemma incr_effect_local ctx ip delta :
  consistent ctx -> is_u32 ip -> delta <> 0 -> block_available ctx ip ->
  let r := sauron_incr_u32 ctx ip delta in
  fst r = clamp (stored_score ctx ip + delta) /\
  stored_score (snd r) ip = clamp (stored_score ctx ip + delta) /\
  (forall ip', is_u32 ip' -> ip' <> ip -> stored_score (snd r) ip' = stored_score ctx ip') /\
  bitmap_test (snd r) (ip_to_prefix24 ip) = 1.
Proof.
  intros Hc Hip Hd Hav. unfold sauron_incr_u32.
  destruct (Z.eqb_spec delta 0); [contradiction|].
  destruct (block_available_Some ctx ip Hav) as (block & ctx1 & Hg).
  rewrite Hg.
  pose proof (get_or_alloc_block_consistent _ _ _ _ Hc Hip Hg) as Hc1.
  destruct (get_or_alloc_block_spec _ _ _ _ Hg) as (Hsc & _ & _ & Hl & Hbit & _).
  assert (Hold : block_score block (ip_to_host_idx ip) = stored_score ctx ip).
  { rewrite <- (stored_score_alloc _ _ _ _ ip Hg). unfold stored_score.
    rewrite Hl. reflexivity. }
  destruct (update_counts _ _ _ _) as [b' c'] eqn:Hu. cbn [fst snd].
  assert (Hnew : is_i16 (saturating_add (block_score block (ip_to_host_idx ip)) delta))
    by (rewrite saturating_add_clamp; apply clamp_i16).
  destruct (write_back_spec ctx1 ip block _ b' c' Hc1 Hip Hl Hbit Hnew Hu)
    as (_ & Hst & Hfr & Hbt & _).
  rewrite saturating_add_clamp, Hold in *.
  split; [reflexivity|]. split; [exact Hst|]. split.
  - intros ip' Hip' Hne. rewrite Hfr by assumption.
    eapply stored_score_alloc; eassumption.
  - rewrite Hbt; exact Hbit.
Qed.

(** An [increment] by a non-zero delta that does not get its block returns
    0 and changes no score. *)
Lemma incr_effect_failed ctx ip delta :
  consistent ctx -> is_u32 ip -> delta <> 0 -> ~ block_available ctx ip ->
  let r := sauron_incr_u32 ctx ip delta in
  fst r = 0 /\ consistent (snd r) /\
  forall ip', stored_score (snd r) ip' = stored_score ctx ip'.
Proof.
  intros Hc Hip Hd Hno. unfold sauron_incr_u32.
  destruct (Z.eqb_spec delta 0); [contradiction|].
  destruct (block_unavailable_None ctx ip Hno) as (ctx1 & Hg). rewrite Hg.
  cbn [fst snd]. split; [reflexivity|]. split.
  - eapply get_or_alloc_block_consistent; eassumption.
  - intros ip'. eapply stored_score_alloc; eassumption.
Qed.

End LocalAllocation.

Section WritePath.
Context `{Platform}.

(** The state after a [set] whose score is 0 or whose allocation failed
    still reads 0 where nothing else was stored. *)
Lemma set_keeps_others ctx ip score ip' :
  consistent ctx -> is_u32 ip -> is_i16 score -> is_u32 ip' -> ip' <> ip ->
  stored_score (snd (sauron_set_u32 ctx ip score)) ip' = stored_score ctx ip'.
Proof.
  intros Hc Hip Hs Hip' Hne. unfold sauron_set_u32.
  destruct (get_or_alloc_block ctx ip) as [[block|] ctx1] eqn:Hg.
  - pose proof (get_or_alloc_block_consistent _ _ _ _ Hc Hip Hg) as Hc1.
    destruct (get_or_alloc_block_spec _ _ _ _ Hg) as (_ & _ & _ & Hl & Hbit & _).
    destruct (update_counts _ _ _ _) as [b' c'] eqn:Hu. cbn [snd].
    destruct (write_back_spec ctx1 ip block score b' c' Hc1 Hip Hl Hbit Hs Hu)
      as (_ & _ & Hfr & _).
    rewrite Hfr by assumption. eapply stored_score_alloc; eassumption.
  - cbn [snd]. eapply stored_score_alloc; eassumption.
Qed.

Lemma set_zero_stored ctx ip :
  consistent ctx -> is_u32 ip ->
  stored_score (snd (sauron_set_u32 ctx ip 0)) ip = 0.
Proof.
  intros Hc Hip. unfold sauron_set_u32.
  destruct (get_or_alloc_block ctx ip) as [[block|] ctx1] eqn:Hg.
  - pose proof (get_or_alloc_block_consistent _ _ _ _ Hc Hip Hg) as Hc1.
    destruct (get_or_alloc_block_spec _ _ _ _ Hg) as (_ & _ & _ & Hl & Hbit & _).
    destruct (update_counts _ _ _ _) as [b' c'] eqn:Hu. cbn [snd].
    assert (Hz : is_i16 0) by (unfold is_i16; lia).
    apply (write_back_spec ctx1 ip block 0 b' c' Hc1 Hip Hl Hbit Hz Hu).
  - cbn [snd].
    destruct (get_or_alloc_block_spec _ _ _ _ Hg) as (_ & _ & _ & Hl & _).
    unfold stored_score. rewrite Hl. reflexivity.
Qed.

(** C1, as amended: after [set(a, x)] with x in [-32767, 32767] that gets
    the block of a (the block exists or its allocation succeeds),
    [increment(a, y)] returns x + y clamped to [-32767, 32767], and a
    following [get(a)] returns the same value. *)
Theorem C1_set_increment_get ctx a x y :
  reachable ctx -> is_u32 a ->
  SAURON_SCORE_MIN <= x <= SAURON_SCORE_MAX -> is_i16 y ->
  block_available ctx a ->
  let ctx1 := snd (sauron_set_u32 ctx a x) in
  fst (sauron_incr_u32 ctx1 a y) = clamp (x + y) /\
  sauron_get_u32 (snd (sauron_incr_u32 ctx1 a y)) a = clamp (x + y).
Proof.
  intros Hr Ha Hx Hy Hav ctx1.
  pose proof (reachable_consistent _ Hr) as Hc.
  assert (Hxi : is_i16 x)
    by (unfold is_i16, SAURON_SCORE_MIN, SAURON_SCORE_MAX in *; lia).
  pose proof (set_consistent ctx a x Hc Ha Hxi) as Hc1. fold ctx1 in Hc1.
  destruct (set_effect_local ctx a x Hc Ha Hxi Hav) as (_ & Hst & _ & _ & _ & Hsome).
  fold ctx1 in Hst, Hsome.
  destruct (Z.eq_dec y 0) as [->|Hy0].
  - unfold sauron_incr_u32. cbn [Z.eqb fst snd].
    rewrite get_stored, Hst by assumption.
    unfold clamp, SAURON_SCORE_MIN, SAURON_SCORE_MAX in *. lia.
  - pose proof (block_available_present ctx1 a Hsome) as Hav1.
    destruct (incr_effect_local ctx1 a y Hc1 Ha Hy0 Hav1) as (Hret & Hst2 & _).
    rewrite Hst in Hret, Hst2. split; [exact Hret|].
    rewrite get_stored; [exact Hst2| |exact Ha].
    apply incr_consistent; assumption.
Qed.

(** C7, as amended: [decrement(a, INT16_MIN)] is [increment(a, INT16_MAX)]:
    the delta handed to the saturating addition is 32767, a value of
    [int16_t].  When the call gets the block of a, the result is the old
    score plus 32767, clamped, and [get(a)] reads it afterwards; when the
    block cannot be allocated, the result is 0 and no score changes. *)
Theorem C7_decrement_int16_min ctx a :
  sauron_decr_u32 ctx a INT16_MIN = sauron_incr_u32 ctx a INT16_MAX /\
  is_i16 INT16_MAX /\
  (reachable ctx -> is_u32 a ->
   (block_available ctx a ->
    fst (sauron_decr_u32 ctx a INT16_MIN) = clamp (sauron_get_u32 ctx a + 32767) /\
    sauron_get_u32 (snd (sauron_decr_u32 ctx a INT16_MIN)) a =
      clamp (sauron_get_u32 ctx a + 32767)) /\
   (~ block_available ctx a ->
    fst (sauron_decr_u32 ctx a INT16_MIN) = 0 /\
    forall a', is_u32 a' ->
      sauron_get_u32 (snd (sauron_decr_u32 ctx a INT16_MIN)) a' = sauron_get_u32 ctx a')).
Proof.
  split; [reflexivity|]. split; [unfold is_i16, INT16_MAX; lia|].
  intros Hr Ha. pose proof (reachable_consistent _ Hr) as Hc.
  change (sauron_decr_u32 ctx a INT16_MIN) with (sauron_incr_u32 ctx a INT16_MAX).
  assert (Hne : INT16_MAX <> 0) by discriminate.
  split.
  - intros Hav.
    destruct (incr_effect_local ctx a INT16_MAX Hc Ha Hne Hav) as (Hret & Hst & _).
    rewrite get_stored by assumption. split; [exact Hret|].
    rewrite get_stored; [exact Hst| |exact Ha]. apply incr_consistent; assumption.
  - intros Hno.
    destruct (incr_effect_failed ctx a INT16_MAX Hc Ha Hne Hno) as (Hret & Hc' & Hsame).
    split; [exact Hret|]. intros a' Ha'.
    rewrite !get_stored by assumption. apply Hsame.
Qed.

(** C4: in every reachable state [count()] is the number of addresses whose
    stored score is not 0, and the [active_count] of every block is the
    number of its non-zero cells. *)
Theorem C4_count_invariant ctx :
  reachable ctx ->
  sauron_count ctx = nonzero_addresses ctx /\
  forall prefix16 block_idx b,
    lookup_block ctx prefix16 block_idx = Some b ->
    active_count b = count_nz (scores b).
Proof.
  intros Hr. pose proof (reachable_consistent _ Hr) as Hc. split.
  - apply count_is_nonzero_addresses. assumption.
  - intros p bi b Hl. apply (cons_block _ Hc _ _ _ Hl).
Qed.

End WritePath.

(** The scenario [set(10.0.0.1, 32000); increment(10.0.0.1, 1000)] on the
    reference platform. *)
Lemma C1_witness :
  @reachable lp64 lp64_fresh /\ is_u32 167772161 /\
  SAURON_SCORE_MIN <= 32000 <= SAURON_SCORE_MAX /\ is_i16 1000 /\
  @block_available lp64 lp64_fresh 167772161 /\
  let ctx1 := snd (@sauron_set_u32 lp64 lp64_fresh 167772161 32000) in
  fst (@sauron_incr_u32 lp64 ctx1 167772161 1000) = clamp (32000 + 1000) /\
  sauron_get_u32 (snd (@sauron_incr_u32 lp64 ctx1 167772161 1000)) 167772161 =
    clamp (32000 + 1000).
Proof.
  assert (H2 : @reachable lp64 lp64_fresh)
    by (apply reach_create; reflexivity).
  assert (H3 : is_u32 167772161) by (unfold is_u32; lia).
  assert (H4 : SAURON_SCORE_MIN <= 32000 <= SAURON_SCORE_MAX)
    by (unfold SAURON_SCORE_MIN, SAURON_SCORE_MAX; lia).
  assert (H5 : is_i16 1000) by (unfold is_i16; lia).
  assert (H6 : @block_available lp64 lp64_fresh 167772161)
    by (vm_compute; eexists; reflexivity).
  split; [exact H2|]. split; [exact H3|].
  split; [exact H4|]. split; [exact H5|]. split; [exact H6|].
  exact (@C1_set_increment_get lp64 lp64_fresh 167772161 32000 1000 H2 H3 H4 H5 H6).
Defined.

(** C1 as stated fails: on a heap that holds the context and the bitmap
    only, [set(10.0.0.1, 5)] and [increment(10.0.0.1, 1)] both return 0 and
    [get] reads 0, not 6. *)
Lemma C1_counterexample :
  let ctx1 := snd (@sauron_set_u32 lp64_tight lp64_tight_fresh 167772161 5) in
  let r := @sauron_incr_u32 lp64_tight ctx1 167772161 1 in
  @reachable lp64_tight lp64_tight_fresh /\
  clamp (5 + 1) = 6 /\
  fst (@sauron_set_u32 lp64_tight lp64_tight_fresh 167772161 5) = 0 /\
  fst r = 0 /\ sauron_get_u32 (snd r) 167772161 = 0 /\
  fst r <> clamp (5 + 1).
Proof.
  intros ctx1 r. split; [apply reach_create; reflexivity|].
  vm_compute. repeat split; try reflexivity. discriminate.
Qed.

(** The counts after [set(10.0.0.1, 5)] on the reference platform. *)
Lemma C4_witness :
  let ctx := snd (@sauron_set_u32 lp64 lp64_fresh 167772161 5) in
  @reachable lp64 ctx /\
  sauron_count ctx = nonzero_addresses ctx /\
  forall prefix16 block_idx b,
    lookup_block ctx prefix16 block_idx = Some b ->
    active_count b = count_nz (scores b).
Proof.
  intros ctx.
  assert (H2 : @reachable lp64 ctx).
  { apply (@reach_step lp64 op_typed lp64_fresh (op_set 167772161 5)).
    - apply reach_create. reflexivity.
    - unfold op_typed, is_u32, is_i16. lia.
    - reflexivity. }
  split; [exact H2|]. exact (@C4_count_invariant lp64 ctx H2).
Defined.

(** * Reading, saving and loading *)

(** ** Byte strings *)

Lemma char_code_byte_of x : char_code (byte_of x) = x mod 256.
Proof.
  unfold char_code, byte_of. pose proof (Z.mod_pos_bound x 256 ltac:(lia)).
  rewrite N_ascii_embedding by lia. lia.
Qed.

Lemma le_value_le_bytes n x : 0 <= x < 256 ^ Z.of_nat n -> le_value (le_bytes n x) = x.
Proof.
  revert x. induction n as [|n IH]; intros x Hx.
  - simpl in *. lia.
  - cbn [le_bytes le_value]. rewrite char_code_byte_of.
    rewrite Nat2Z.inj_succ, Z.pow_succ_r in Hx by lia.
    rewrite IH.
    + pose proof (Z.div_mod x 256 ltac:(lia)). lia.
    + split; [apply Z.div_pos; lia|apply Z.div_lt_upper_bound; lia].
Qed.

Lemma le_bytes_length n x : String.length (le_bytes n x) = n.
Proof. revert x. induction n; intros; simpl; auto. Qed.

Lemma fread_append bytes rest :
  fread (String.length bytes) (String.append bytes rest) = Some (bytes, rest).
Proof.
  induction bytes as [|c bytes IH]; [reflexivity|].
  simpl. rewrite IH. reflexivity.
Qed.

Lemma fread_append_n n bytes rest :
  String.length bytes = n -> fread n (String.append bytes rest) = Some (bytes, rest).
Proof. intros <-. apply fread_append. Qed.

Section ReadPath.
Context `{Platform}.

(** ** The read path and the snapshot header *)

Lemma get_ex_by_get ctx ip :
  sauron_get_ex ctx ip =
  if sauron_get_u32 ctx ip =? 0
  then (SAURON_ERR_INVALID,
        match get_block ctx ip with Some _ => None | None => Some 0 end)
  else (SAURON_OK, Some (sauron_get_u32 ctx ip)).
Proof.
  unfold sauron_get_ex, sauron_get_u32.
  destruct (get_block ctx ip) as [block|]; [|reflexivity].
  destruct (_ =? 0); reflexivity.
Qed.

(** C6, as amended: [get_checked] reports success, with the score, exactly
    when the score read is not 0; after [set(a, 0)] it reports not-found,
    as it does for an address that was never written. *)
Theorem C6_get_checked_zero_is_not_found ctx a :
  reachable ctx -> is_u32 a ->
  (sauron_get_u32 ctx a <> 0 ->
   sauron_get_ex ctx a = (SAURON_OK, Some (sauron_get_u32 ctx a))) /\
  (sauron_get_u32 ctx a = 0 -> fst (sauron_get_ex ctx a) = SAURON_ERR_INVALID) /\
  fst (sauron_get_ex (snd (sauron_set_u32 ctx a 0)) a) = SAURON_ERR_INVALID.
Proof.
  intros Hr Ha. pose proof (reachable_consistent _ Hr) as Hc.
  split; [|split].
  - intros Hnz. rewrite get_ex_by_get.
    destruct (Z.eqb_spec (sauron_get_u32 ctx a) 0); [contradiction|reflexivity].
  - intros Hz. rewrite get_ex_by_get, Hz. reflexivity.
  - rewrite get_ex_by_get. rewrite get_stored; [|apply set_consistent|]; try assumption.
    + rewrite set_zero_stored by assumption. reflexivity.
    + unfold is_i16. lia.
Qed.

(** C9: a snapshot whose header carries a wrong magic, version 0, a
    version above 1 or an entry count above 2^32 makes [load] return the
    invalid-argument status with the engine state untouched, whatever
    follows the header. *)
Theorem C9_load_rejects_bad_header ctx filename fs magic version entry_count entries :
  fs !! filename =
    Some (String.append magic
            (String.append (le_bytes 4 version)
               (String.append (le_bytes 8 entry_count) entries))) ->
  String.length magic = 4%nat ->
  0 <= version < 2 ^ 32 -> 0 <= entry_count < 2 ^ 64 ->
  magic <> SAURON_MAGIC \/ version = 0 \/ version > 1 \/ entry_count > 2 ^ 32 ->
  sauron_load ctx filename fs = (SAURON_ERR_INVALID, ctx).
Proof.
  intros Hfile Hlen Hv Hn Hbad. unfold sauron_load. rewrite Hfile.
  rewrite (fread_append_n 4 magic _ Hlen).
  rewrite (fread_append_n 4 (le_bytes 4 version) _ (le_bytes_length 4 version)).
  rewrite (le_value_le_bytes 4 version) by (change (256 ^ Z.of_nat 4) with (2 ^ 32); lia).
  destruct (String.eqb_spec magic SAURON_MAGIC) as [Hm|Hm]; cbn [negb]; [|reflexivity].
  unfold SAURON_ARCHIVE_VERSION.
  destruct (Z.eqb_spec version 0) as [Hv0|Hv0]; [reflexivity|].
  destruct (Z.gtb_spec version 1) as [Hv1|Hv1]; [reflexivity|]. cbn [orb].
  rewrite (fread_append_n 8 (le_bytes 8 entry_count) _ (le_bytes_length 8 entry_count)).
  rewrite (le_value_le_bytes 8 entry_count)
    by (change (256 ^ Z.of_nat 8) with (2 ^ 64); lia).
  unfold MAX_ARCHIVE_ENTRIES.
  destruct (Z.gtb_spec entry_count 4294967296) as [Hc|Hc]; [reflexivity|].
  exfalso. change (2 ^ 32) with 4294967296 in Hbad.
  destruct Hbad as [Hb|Hb]; [contradiction|lia].
Qed.

Lemma update_counts_block_count old new block ctx :
  block_count (snd (update_counts old new block ctx)) = block_count ctx /\
  memory_used (snd (update_counts old new block ctx)) = memory_used ctx.
Proof. unfold update_counts. destruct (_ && _); [|destruct (_ && _)]; auto. Qed.

(** A [set] that allocates the block of its address. *)
Lemma set_allocates ctx a v :
  lookup_block ctx (ip_to_prefix16 a) (ip_to_block_idx a) = None ->
  block_available ctx a ->
  let ctx' := snd (sauron_set_u32 ctx a v) in
  is_Some (lookup_block ctx' (ip_to_prefix16 a) (ip_to_block_idx a)) /\
  sauron_block_count ctx' = u64 (sauron_block_count ctx + 1).
Proof.
  intros Habs Hav ctx'.
  destruct (block_available_Some ctx a Hav) as (block & ctx1 & Hg).
  unfold ctx', sauron_set_u32. rewrite Hg.
  assert (Hbc1 : block_count ctx1 = u64 (block_count ctx + 1)).
  { revert Hg. unfold get_or_alloc_block. rewrite Habs.
    unfold get_or_alloc_block_slow, alloc_block_ptr_array, alloc_cidr_block.
    unfold lookup_block in Habs.
    destruct (block_ptrs ctx !! ip_to_prefix16 a) as [arr|] eqn:Harr.
    - rewrite Habs. destruct (heap_ok _ _); intros Heq; inversion Heq; subst.
      reflexivity.
    - destruct (heap_ok _ _); [|intros Heq; inversion Heq].
      rewrite lookup_empty. destruct (heap_ok _ _); intros Heq; inversion Heq; subst.
      reflexivity. }
  destruct (update_counts _ _ _ _) as [b' c'] eqn:Hu. cbn [snd].
  split; [rewrite lookup_store_block_eq; eauto|].
  pose proof (update_counts_block_count
                (block_score block (ip_to_host_idx a)) v
                (block_store block (ip_to_host_idx a) v) ctx1) as Hbc.
  rewrite Hu in Hbc. cbn [snd] in Hbc. destruct Hbc as [Hbc _].
  unfold sauron_block_count. cbn [block_count store_block with_block_ptrs].
  rewrite Hbc. exact Hbc1.
Qed.

(** C10: [increment(a, 0)] returns what [get(a)] returns and leaves the
    whole engine state as it is.  The value returned is the score stored
    in the cell of a: the score v right after a [set(a, v)], and 0 when
    the block of a is absent, in which case nothing is allocated, unlike
    [set(a, 0)], which allocates the block (when its allocation
    succeeds). *)
Theorem C10_increment_zero_is_a_read ctx a :
  sauron_incr_u32 ctx a 0 = (sauron_get_u32 ctx a, ctx) /\
  (reachable ctx -> is_u32 a ->
   fst (sauron_incr_u32 ctx a 0) = stored_score ctx a /\
   forall v, is_i16 v -> block_available ctx a ->
     sauron_incr_u32 (snd (sauron_set_u32 ctx a v)) a 0 =
     (v, snd (sauron_set_u32 ctx a v))) /\
  (lookup_block ctx (ip_to_prefix16 a) (ip_to_block_idx a) = None ->
   sauron_get_u32 ctx a = 0 /\ stored_score ctx a = 0 /\
   (block_available ctx a ->
    let ctx' := snd (sauron_set_u32 ctx a 0) in
    is_Some (lookup_block ctx' (ip_to_prefix16 a) (ip_to_block_idx a)) /\
    sauron_block_count ctx' = u64 (sauron_block_count ctx + 1))).
Proof.
  split; [reflexivity|]. split.
  - intros Hr Ha. pose proof (reachable_consistent _ Hr) as Hc.
    split; [cbn [sauron_incr_u32 Z.eqb fst]; apply get_stored; assumption|].
    intros v Hv Hav. unfold sauron_incr_u32 at 1. cbn [Z.eqb]. f_equal.
    rewrite get_stored; [|apply set_consistent; assumption|exact Ha].
    apply (set_effect_local ctx a v Hc Ha Hv Hav).
  - intros Habs. split; [|split].
    + unfold sauron_get_u32, get_block. rewrite Habs. destruct (_ =? 0); reflexivity.
    + unfold stored_score. rewrite Habs. reflexivity.
    + intros Hav. apply set_allocates; assumption.
Qed.

End ReadPath.

(** ** What [sauron_save] writes *)

Lemma save_entries_app st es1 es2 :
  save_entries st (es1 ++ es2) = save_entries (save_entries st es1) es2.
Proof. unfold save_entries. apply fold_left_app. Qed.

Lemma fold_left_flat_map {A B C : Type} (f : A -> B -> A) (g : C -> list B)
    (step : A -> C -> A) l :
  (forall a x, step a x = fold_left f (g x) a) ->
  forall a, fold_left step l a = fold_left f (flat_map g l) a.
Proof.
  intros Hstep. induction l as [|x l IH]; intros a; simpl; [reflexivity|].
  rewrite fold_left_app, IH, Hstep. reflexivity.
Qed.

Lemma save_hosts_entries p b block hosts st :
  fold_left (save_host p b block) hosts st = save_entries st (host_entries p b block hosts).
Proof.
  unfold save_entries, host_entries.
  apply (fold_left_flat_map (fun st e => save_entry st (fst e) (snd e))).
  intros a h. unfold save_host. destruct (_ =? 0); reflexivity.
Qed.

Lemma save_block_entries ctx p st b :
  save_block ctx p st b = save_entries st (block_entries ctx p b).
Proof.
  unfold save_block, block_entries.
  destruct (lookup_block ctx p b) as [block|]; [|reflexivity].
  destruct (_ =? 0); [reflexivity|]. apply save_hosts_entries.
Qed.

Lemma save_prefix16_entries ctx st p :
  save_prefix16 ctx st p = save_entries st (prefix16_entries ctx p).
Proof.
  unfold save_prefix16, prefix16_entries.
  destruct (block_ptrs ctx !! p); [|reflexivity].
  unfold save_entries.
  apply (fold_left_flat_map (fun st e => save_entry st (fst e) (snd e))).
  intros a b. apply save_block_entries.
Qed.

Lemma save_sweep_entries ctx st :
  fold_left (save_prefix16 ctx) (upto PREFIX16_COUNT) st =
  save_entries st (live_entries ctx).
Proof.
  unfold save_entries, live_entries.
  apply (fold_left_flat_map (fun st e => save_entry st (fst e) (snd e))).
  intros a p. apply save_prefix16_entries.
Qed.

Lemma append_cons c (a b : string) :
  String.append (String c a) b = String c (String.append a b).
Proof. reflexivity. Qed.

Lemma append_nil_l (b : string) : String.append EmptyString b = b.
Proof. reflexivity. Qed.

Lemma string_app_assoc (a b c : string) :
  String.append (String.append a b) c = String.append a (String.append b c).
Proof.
  induction a as [|x a IH]; [reflexivity|]. rewrite !append_cons, IH. reflexivity.
Qed.

Lemma string_app_nil_r (a : string) : String.append a EmptyString = a.
Proof.
  induction a as [|x a IH]; [reflexivity|]. rewrite append_cons, IH. reflexivity.
Qed.

Lemma entries_bytes_app es1 es2 :
  entries_bytes (es1 ++ es2) = String.append (entries_bytes es1) (entries_bytes es2).
Proof.
  induction es1 as [|e es1 IH]; [reflexivity|].
  cbn [entries_bytes app]. rewrite IH. symmetry. apply string_app_assoc.
Qed.

(** Buffering does not change what reaches the file. *)
Lemma save_entries_spec es : forall fp buf cnt fp' buf' cnt',
  0 <= cnt < 2 ^ 64 ->
  save_entries (fp, buf, cnt) es = (fp', buf', cnt') ->
  String.append fp' (entries_bytes buf') =
    String.append fp (entries_bytes (buf ++ es)) /\
  cnt' = u64 (cnt + Z.of_nat (length es)).
Proof.
  induction es as [|e es IH]; intros fp buf cnt fp' buf' cnt' Hc Hs.
  - unfold save_entries in Hs. simpl in Hs. inversion Hs; subst.
    rewrite app_nil_r. split; [reflexivity|].
    unfold u64. rewrite Z.add_0_r, Z.mod_small; lia.
  - unfold save_entries in Hs. cbn [fold_left] in Hs. fold (save_entries) in Hs.
    unfold save_entry at 2 in Hs.
    assert (Hcnt : u64 (u64 (cnt + 1) + Z.of_nat (length es)) =
                   u64 (cnt + Z.of_nat (length (e :: es)))).
    { unfold u64. rewrite Zplus_mod_idemp_l. f_equal. cbn [length]. lia. }
    assert (Hr : 0 <= u64 (cnt + 1) < 2 ^ 64) by (apply Z.mod_pos_bound; lia).
    destruct (Z.of_nat (length (buf ++ [(fst e, snd e)])) >=? WRITE_BUFFER_ENTRIES).
    + apply (IH _ _ _ _ _ _ Hr) in Hs as [Hfp Hc']. rewrite Hfp, Hc', Hcnt.
      split; [|reflexivity]. rewrite string_app_assoc, <- entries_bytes_app.
      cbn [app]. rewrite <- app_assoc. destruct e. reflexivity.
    + apply (IH _ _ _ _ _ _ Hr) in Hs as [Hfp Hc']. rewrite Hfp, Hc', Hcnt.
      split; [|reflexivity]. rewrite <- app_assoc. destruct e. reflexivity.
Qed.

Lemma substring_all s : String.substring 0 (String.length s) s = s.
Proof. induction s as [|c s IH]; simpl; [reflexivity|]. rewrite IH. reflexivity. Qed.

Lemma patch_count body n :
  overwrite_at 8 (le_bytes 8 n)
    (String.append
       (String.append SAURON_MAGIC
          (String.append (le_bytes 4 SAURON_ARCHIVE_VERSION) (le_bytes 8 0))) body) =
  String.append SAURON_MAGIC
    (String.append (le_bytes 4 SAURON_ARCHIVE_VERSION)
       (String.append (le_bytes 8 n) body)).
Proof.
  unfold SAURON_MAGIC. cbn [le_bytes].
  rewrite !append_cons, !append_nil_l. cbn [overwrite_at].
  rewrite !append_cons, !append_nil_l. cbn [String.length Nat.sub String.substring].
  repeat f_equal. rewrite Nat.sub_0_r. apply substring_all.
Qed.

Lemma final_flush fp (buf : list (Z * Z)) :
  (if 0 <? Z.of_nat (length buf)
   then String.append fp (entries_bytes buf) else fp) =
  String.append fp (entries_bytes buf).
Proof.
  destruct buf; [|reflexivity]. cbn [length entries_bytes].
  rewrite string_app_nil_r. reflexivity.
Qed.

Lemma archive_of_entries header es fp buf cnt :
  save_entries (header, [], 0) es = (fp, buf, cnt) ->
  (if 0 <? Z.of_nat (length buf)
   then String.append fp (entries_bytes buf) else fp) =
    String.append header (entries_bytes es) /\
  cnt = u64 (Z.of_nat (length es)).
Proof.
  intros Hs. apply save_entries_spec in Hs as [Hfp Hcnt]; [|lia].
  rewrite final_flush, Hfp, Hcnt. split; reflexivity.
Qed.

(** The archive: the header with the final count, then the records. *)
Lemma archive_bytes_spec ctx :
  archive_bytes ctx =
  String.append SAURON_MAGIC
    (String.append (le_bytes 4 SAURON_ARCHIVE_VERSION)
       (String.append (le_bytes 8 (u64 (Z.of_nat (length (live_entries ctx)))))
          (entries_bytes (live_entries ctx)))).
Proof.
  unfold archive_bytes. rewrite save_sweep_entries.
  destruct (save_entries _ _) as [[fp buf] cnt] eqn:Hs.
  apply archive_of_entries in Hs as [Hfp Hcnt].
  rewrite Hfp, Hcnt. apply patch_count.
Qed.

(** ** The records of the live cells *)

Lemma in_host_entries p b block hosts ip s :
  In (ip, s) (host_entries p b block hosts) <->
  exists h, In h hosts /\ block_score block h <> 0 /\
            ip = make_ip p b h /\ s = block_score block h.
Proof.
  unfold host_entries. rewrite in_flat_map. split.
  - intros (h & Hh & Hin). exists h.
    destruct (Z.eqb_spec (block_score block h) 0) as [|Hnz]; [destruct Hin|].
    destruct Hin as [Heq|[]]. inversion Heq; subst. auto.
  - intros (h & Hh & Hnz & -> & ->). exists h. split; [assumption|].
    destruct (Z.eqb_spec (block_score block h) 0); [contradiction|]. left. reflexivity.
Qed.

Lemma in_live_entries ctx ip s :
  In (ip, s) (live_entries ctx) <->
  exists p b h block,
    0 <= p < PREFIX16_COUNT /\ 0 <= b < BLOCKS_PER_16 /\ 0 <= h < SCORES_PER_BLOCK /\
    lookup_block ctx p b = Some block /\ active_count block <> 0 /\
    block_score block h <> 0 /\ ip = make_ip p b h /\ s = block_score block h.
Proof.
  unfold live_entries. rewrite in_flat_map. split.
  - intros (p & Hp & Hin). apply upto_In in Hp. unfold prefix16_entries in Hin.
    destruct (block_ptrs ctx !! p) as [arr|] eqn:Harr; [|destruct Hin].
    apply in_flat_map in Hin as (b & Hb & Hin). apply upto_In in Hb.
    unfold block_entries in Hin.
    destruct (lookup_block ctx p b) as [block|] eqn:Hl; [|destruct Hin].
    destruct (Z.eqb_spec (active_count block) 0) as [|Hac]; [destruct Hin|].
    apply in_host_entries in Hin as (h & Hh & Hnz & -> & ->). apply upto_In in Hh.
    exists p, b, h, block. auto 10.
  - intros (p & b & h & block & Hp & Hb & Hh & Hl & Hac & Hnz & -> & ->).
    exists p. split; [apply upto_In; assumption|]. unfold prefix16_entries.
    assert (Harr : block_ptrs ctx !! p <> None).
    { unfold lookup_block in Hl. destruct (block_ptrs ctx !! p); congruence. }
    destruct (block_ptrs ctx !! p) as [arr|]; [|congruence].
    apply in_flat_map. exists b. split; [apply upto_In; assumption|].
    unfold block_entries. rewrite Hl.
    destruct (Z.eqb_spec (active_count block) 0); [contradiction|].
    apply in_host_entries. exists h. split; [apply upto_In; assumption|]. auto.
Qed.

(** Every record carries an address and the non-zero score stored there;
    every address storing a non-zero score has a record. *)
Lemma live_entries_sound ctx ip s :
  consistent ctx -> In (ip, s) (live_entries ctx) ->
  is_u32 ip /\ is_i16 s /\ s <> 0 /\ s = stored_score ctx ip.
Proof.
  intros Hc Hin.
  apply in_live_entries in Hin
    as (p & b & h & block & Hp & Hb & Hh & Hl & Hac & Hnz & -> & ->).
  destruct (make_ip_parts p b h Hp Hb Hh) as (Hu & H1 & H2 & H3).
  split; [exact Hu|]. split; [|split; [exact Hnz|]].
  - apply block_score_i16. eapply cons_block; eassumption.
  - unfold stored_score. rewrite H1, H2, H3, Hl. reflexivity.
Qed.

Lemma live_entries_complete ctx ip :
  consistent ctx -> is_u32 ip -> stored_score ctx ip <> 0 ->
  In (ip, stored_score ctx ip) (live_entries ctx).
Proof.
  intros Hc Hip Hnz. apply in_live_entries. unfold stored_score in *.
  destruct (lookup_block ctx (ip_to_prefix16 ip) (ip_to_block_idx ip))
    as [block|] eqn:Hl; [|congruence].
  exists (ip_to_prefix16 ip), (ip_to_block_idx ip), (ip_to_host_idx ip), block.
  split; [apply prefix16_range; assumption|].
  split; [apply block_idx_range|]. split; [apply host_idx_range|].
  split; [exact Hl|]. split; [|split; [exact Hnz|split; [|reflexivity]]].
  - intros Hz. apply Hnz. apply block_score_active_zero; [|assumption].
    eapply cons_block; eassumption.
  - symmetry. apply make_ip_surj. assumption.
Qed.

Lemma flat_map_length_sum {A : Type} (f : Z -> list A) l :
  Z.of_nat (length (flat_map f l)) = sumZ (fun x => Z.of_nat (length (f x))) l.
Proof.
  induction l as [|x l IH]; simpl; [reflexivity|].
  rewrite length_app, Nat2Z.inj_add, IH. reflexivity.
Qed.

Lemma live_entries_length ctx :
  consistent ctx -> Z.of_nat (length (live_entries ctx)) = total_active ctx.
Proof.
  intros Hc. unfold live_entries, total_active. rewrite flat_map_length_sum.
  apply sumZ_ext. intros p _. unfold prefix16_entries.
  destruct (block_ptrs ctx !! p) as [arr|] eqn:Harr.
  - rewrite flat_map_length_sum. apply sumZ_ext. intros b _.
    unfold block_entries, slot_active.
    destruct (lookup_block ctx p b) as [block|] eqn:Hl; [|reflexivity].
    destruct (cons_block _ Hc _ _ _ Hl) as (Hlen & _ & Hac).
    destruct (Z.eqb_spec (active_count block) 0) as [Hz|Hz]; [rewrite Hz; reflexivity|].
    unfold host_entries. rewrite flat_map_length_sum, Hac, count_nz_sum, Hlen.
    change (Z.of_nat (Z.to_nat SCORES_PER_BLOCK)) with SCORES_PER_BLOCK.
    apply sumZ_ext. intros h _. fold (block_score block h). unfold nz.
    destruct (_ =? 0); reflexivity.
  - symmetry. apply sumZ_zero. intros b _. unfold slot_active, lookup_block.
    rewrite Harr. reflexivity.
Qed.

(** ** Decoding the records *)

Lemma le_value_le_bytes_mod n x : le_value (le_bytes n x) = x mod 256 ^ Z.of_nat n.
Proof.
  revert x. induction n as [|n IH]; intros x.
  - simpl. rewrite Z.mod_1_r. reflexivity.
  - cbn [le_bytes le_value]. rewrite char_code_byte_of, IH.
    rewrite Nat2Z.inj_succ, Z.pow_succ_r by lia.
    rewrite Z.rem_mul_r by (try lia; apply Z.pow_nonzero; lia). reflexivity.
Qed.

Lemma i16_le_bytes s : is_i16 s -> i16 (le_value (le_bytes 2 s)) = s.
Proof.
  intros Hs. rewrite le_value_le_bytes_mod. unfold i16, is_i16 in *.
  change (256 ^ Z.of_nat 2) with (2 ^ 16). rewrite Zplus_mod_idemp_l.
  rewrite Z.mod_small; lia.
Qed.

Section RoundTrip.
Context `{Platform}.

Lemma load_entries_cons ctx n ip s rest :
  0 < n -> is_u32 ip -> is_i16 s -> s <> 0 ->
  load_entries ctx n (String.append (entry_bytes (ip, s)) rest) =
  load_entries (load_apply ctx (ip, s)) (n - 1) rest.
Proof.
  intros Hn Hip Hs Hnz. unfold entry_bytes. cbn [fst snd le_bytes].
  rewrite !append_cons, !append_nil_l, !append_cons, !append_nil_l.
  cbn [load_entries]. destruct (Z.leb_spec n 0); [lia|].
  pose proof (le_value_le_bytes 4 ip) as H4. cbn [le_bytes] in H4.
  rewrite H4 by (unfold is_u32 in Hip; change (256 ^ Z.of_nat 4) with (2 ^ 32); lia).
  pose proof (i16_le_bytes s Hs) as H2. cbn [le_bytes] in H2. rewrite H2.
  destruct (Z.eqb_spec s 0); [contradiction|]. reflexivity.
Qed.

Lemma load_entries_all es : forall ctx,
  Forall (fun e => is_u32 (fst e) /\ is_i16 (snd e) /\ snd e <> 0) es ->
  load_entries ctx (Z.of_nat (length es)) (entries_bytes es) =
  (SAURON_OK, fold_left load_apply es ctx).
Proof.
  induction es as [|[ip s] es IH]; intros ctx Hall.
  - reflexivity.
  - inversion Hall as [|? ? (Hip & Hs & Hnz) Hall']; subst. cbn [fst snd] in *.
    cbn [entries_bytes length fold_left].
    rewrite load_entries_cons by (try assumption; lia).
    replace (Z.of_nat (S (length es)) - 1) with (Z.of_nat (length es)) by lia.
    apply IH. assumption.
Qed.

Lemma entries_allocated_cons ctx n ip s rest :
  0 < n -> is_u32 ip -> is_i16 s -> s <> 0 ->
  entries_allocated ctx n (String.append (entry_bytes (ip, s)) rest) ->
  block_available ctx ip /\ entries_allocated (load_apply ctx (ip, s)) (n - 1) rest.
Proof.
  intros Hn Hip Hs Hnz. unfold entry_bytes. cbn [fst snd le_bytes].
  rewrite !append_cons, !append_nil_l, !append_cons, !append_nil_l.
  cbn [entries_allocated]. destruct (Z.leb_spec n 0); [lia|].
  pose proof (le_value_le_bytes 4 ip) as H4. cbn [le_bytes] in H4.
  rewrite H4 by (unfold is_u32 in Hip; change (256 ^ Z.of_nat 4) with (2 ^ 32); lia).
  pose proof (i16_le_bytes s Hs) as H2. cbn [le_bytes] in H2. rewrite H2.
  destruct (Z.eqb_spec s 0); [contradiction|]. intros Hall. exact Hall.
Qed.

Lemma entries_allocated_all es : forall ctx,
  Forall (fun e => is_u32 (fst e) /\ is_i16 (snd e) /\ snd e <> 0) es ->
  entries_allocated ctx (Z.of_nat (length es)) (entries_bytes es) ->
  records_allocated ctx es.
Proof.
  induction es as [|[ip s] es IH]; intros ctx Hall Hrun.
  - exact I.
  - inversion Hall as [|? ? (Hip & Hs & Hnz) Hall']; subst. cbn [fst snd] in *.
    cbn [entries_bytes length] in Hrun.
    apply entries_allocated_cons in Hrun; try assumption; [|lia].
    destruct Hrun as [Hav Hrest].
    replace (Z.of_nat (S (length es)) - 1) with (Z.of_nat (length es)) in Hrest by lia.
    cbn [records_allocated fst]. split; [exact Hav|]. apply IH; assumption.
Qed.

(** The scores read back after the records were applied in order, each
    getting its block. *)
Lemma stored_after_records (g : Z -> Z) es :
  forall ctx, consistent ctx ->
  Forall (fun e => is_u32 (fst e) /\ is_i16 (snd e) /\ snd e = g (fst e)) es ->
  records_allocated ctx es ->
  consistent (fold_left load_apply es ctx) /\
  forall a, is_u32 a ->
    (In a (map fst es) -> stored_score (fold_left load_apply es ctx) a = g a) /\
    (~ In a (map fst es) ->
     stored_score (fold_left load_apply es ctx) a = stored_score ctx a).
Proof.
  induction es as [|[ip s] es IH]; intros ctx Hc Hall Hrun.
  - cbn. split; [assumption|]. intros a _. split; [intros []|reflexivity].
  - inversion Hall as [|? ? (Hip & Hs & Hg) Hall']; subst. cbn [fst snd] in *.
    cbn [records_allocated fst] in Hrun. destruct Hrun as [Hav Hrest].
    cbn [fold_left map]. unfold load_apply at 2 4 6. cbn [fst snd].
    unfold load_apply in Hrest at 1. cbn [fst snd] in Hrest.
    pose proof (set_consistent ctx ip s Hc Hip Hs) as Hc1.
    destruct (set_effect_local ctx ip s Hc Hip Hs Hav) as (_ & Hst & Hfr & _).
    destruct (IH _ Hc1 Hall' Hrest) as [Hc2 Hcells]. split; [exact Hc2|].
    intros a Ha. destruct (Hcells a Ha) as [Hin Hout]. split.
    + intros Hmem.
      destruct (in_dec Z.eq_dec a (map fst es)) as [Hlater|Hlater]; [auto|].
      rewrite Hout by assumption.
      destruct Hmem as [<-|Hmem]; [|contradiction]. cbn [fst]. congruence.
    + intros Hno. rewrite Hout by (intros Hx; apply Hno; right; assumption).
      apply Hfr; [assumption|]. intros ->. apply Hno. left. reflexivity.
Qed.

End RoundTrip.

Section SaveThenLoad.
Context `{Platform}.

(** Loading an archive made of a good header and [es]. *)
Lemma load_archive ctx filename (fs : gmap string string) es :
  Z.of_nat (length es) <= 2 ^ 32 ->
  Forall (fun e => is_u32 (fst e) /\ is_i16 (snd e) /\ snd e <> 0) es ->
  fs !! filename =
    Some (String.append SAURON_MAGIC
            (String.append (le_bytes 4 SAURON_ARCHIVE_VERSION)
               (String.append (le_bytes 8 (u64 (Z.of_nat (length es))))
                  (entries_bytes es)))) ->
  sauron_load ctx filename fs = (SAURON_OK, fold_left load_apply es (clear_blocks ctx)).
Proof.
  intros Hlen Hall Hfile. unfold sauron_load. rewrite Hfile.
  rewrite (fread_append_n 4 SAURON_MAGIC _ eq_refl).
  rewrite (fread_append_n 4 (le_bytes 4 SAURON_ARCHIVE_VERSION) _ eq_refl).
  change (le_value (le_bytes 4 SAURON_ARCHIVE_VERSION)) with 1.
  change (negb (String.eqb SAURON_MAGIC SAURON_MAGIC)) with false.
  change ((1 =? 0) || (1 >? SAURON_ARCHIVE_VERSION)) with false. cbv iota.
  rewrite (fread_append_n 8 (le_bytes 8 _) _ (le_bytes_length 8 _)).
  assert (Hu : u64 (Z.of_nat (length es)) = Z.of_nat (length es))
    by (unfold u64; apply Z.mod_small; lia).
  rewrite Hu.
  rewrite le_value_le_bytes by (change (256 ^ Z.of_nat 8) with (2 ^ 64); lia).
  unfold MAX_ARCHIVE_ENTRIES.
  destruct (Z.gtb_spec (Z.of_nat (length es)) 4294967296) as [Hgt|_];
    [change (2 ^ 32) with 4294967296 in Hlen; lia|].
  apply load_entries_all. assumption.
Qed.

Lemma save_ok io ctx filename fs fs' :
  sauron_save io ctx filename fs = (SAURON_OK, fs') ->
  fs' !! filename = Some (archive_bytes ctx).
Proof.
  unfold sauron_save. destruct io; intros Heq; inversion Heq; subst.
  apply lookup_insert_eq.
Qed.

Lemma nonzero_addresses_ext ctx ctx' :
  (forall a, is_u32 a -> stored_score ctx' a = stored_score ctx a) ->
  nonzero_addresses ctx' = nonzero_addresses ctx.
Proof.
  intros Hsame. unfold nonzero_addresses.
  apply sumZ_ext. intros p Hp. apply upto_In in Hp.
  apply sumZ_ext. intros b Hb. apply upto_In in Hb.
  apply sumZ_ext. intros h Hh. apply upto_In in Hh.
  rewrite Hsame; [reflexivity|]. apply make_ip_parts; assumption.
Qed.

Lemma load_allocated_archive ctx filename (fs : gmap string string) es :
  Z.of_nat (length es) <= 2 ^ 32 ->
  Forall (fun e => is_u32 (fst e) /\ is_i16 (snd e) /\ snd e <> 0) es ->
  fs !! filename =
    Some (String.append SAURON_MAGIC
            (String.append (le_bytes 4 SAURON_ARCHIVE_VERSION)
               (String.append (le_bytes 8 (u64 (Z.of_nat (length es))))
                  (entries_bytes es)))) ->
  load_allocated ctx filename fs -> records_allocated (clear_blocks ctx) es.
Proof.
  intros Hlen Hall Hfile. unfold load_allocated. rewrite Hfile.
  rewrite (fread_append_n 4 SAURON_MAGIC _ eq_refl).
  rewrite (fread_append_n 4 (le_bytes 4 SAURON_ARCHIVE_VERSION) _ eq_refl).
  rewrite (fread_append_n 8 (le_bytes 8 _) _ (le_bytes_length 8 _)).
  assert (Hu : u64 (Z.of_nat (length es)) = Z.of_nat (length es))
    by (unfold u64; apply Z.mod_small; lia).
  rewrite Hu.
  rewrite le_value_le_bytes by (change (256 ^ Z.of_nat 8) with (2 ^ 64); lia).
  apply entries_allocated_all. assumption.
Qed.

(** C3, as amended: when [save] of a reachable engine E succeeds, a [load]
    of that file into an engine succeeds and every [set] of that load gets
    its block, the loaded engine returns for every address the score E
    returns, and has the same count. *)
Theorem C3_save_load_round_trip E E0 E' io filename fs fs' :
  reachable E -> reachable E0 ->
  sauron_save io E filename fs = (SAURON_OK, fs') ->
  sauron_load E0 filename fs' = (SAURON_OK, E') ->
  load_allocated E0 filename fs' ->
  (forall a, is_u32 a -> sauron_get_u32 E' a = sauron_get_u32 E a) /\
  sauron_count E' = sauron_count E.
Proof.
  intros HrE HrE0 Hsave Hload Halloc.
  pose proof (reachable_consistent _ HrE) as Hc.
  pose proof (reachable_consistent _ HrE0) as Hc0.
  apply save_ok in Hsave. rewrite archive_bytes_spec in Hsave.
  assert (Hall : Forall (fun e => is_u32 (fst e) /\ is_i16 (snd e) /\
                                  snd e = stored_score E (fst e) /\ snd e <> 0)
                   (live_entries E)).
  { apply Forall_forall. intros [ip s] Hin. apply list_elem_of_In in Hin.
    destruct (live_entries_sound E ip s Hc Hin) as (H1 & H2 & H3 & H4). auto. }
  assert (Hlen : Z.of_nat (length (live_entries E)) <= 2 ^ 32).
  { rewrite live_entries_length by assumption.
    rewrite <- (cons_count _ Hc). apply consistent_count_bounds. assumption. }
  assert (Hnz : Forall (fun e => is_u32 (fst e) /\ is_i16 (snd e) /\ snd e <> 0)
                  (live_entries E)).
  { eapply Forall_impl; [exact Hall|]. cbn. tauto. }
  rewrite (load_archive E0 filename fs' (live_entries E) Hlen Hnz Hsave) in Hload.
  apply (load_allocated_archive E0 filename fs' (live_entries E) Hlen Hnz Hsave) in Halloc.
  assert (HE' : fold_left load_apply (live_entries E) (clear_blocks E0) = E')
    by congruence.
  clear Hload.
  destruct (stored_after_records (stored_score E) (live_entries E)
              (clear_blocks E0) (clear_blocks_consistent _ Hc0)) as [Hc' Hcells].
  { eapply Forall_impl; [exact Hall|]. cbn. tauto. }
  { exact Halloc. }
  rewrite HE' in Hc', Hcells.
  assert (Hst : forall a, is_u32 a -> stored_score E' a = stored_score E a).
  { intros a Ha. destruct (Hcells a Ha) as [Hin Hout].
    destruct (Z.eq_dec (stored_score E a) 0) as [Hz|Hnz'].
    - destruct (in_dec Z.eq_dec a (map fst (live_entries E))) as [Hmem|Hmem];
        [apply Hin; assumption|].
      rewrite Hout by assumption. rewrite clear_blocks_stored by assumption.
      symmetry. exact Hz.
    - apply Hin. apply in_map_iff. exists (a, stored_score E a).
      split; [reflexivity|]. apply live_entries_complete; assumption. }
  split.
  - intros a Ha. rewrite (get_stored E' a Hc' Ha), (get_stored E a Hc Ha).
    apply Hst. assumption.
  - rewrite (count_is_nonzero_addresses E' Hc'), (count_is_nonzero_addresses E Hc).
    apply nonzero_addresses_ext. assumption.
Qed.

End SaveThenLoad.

(** An engine holding one score, saved and loaded into a new engine. *)
Lemma C3_witness :
  let E := snd (@sauron_set_u32 lp64 lp64_fresh 16909060 111) in
  let fs' := snd (@sauron_save lp64 io_ok E "f" ∅) in
  let E' := snd (@sauron_load lp64 lp64_fresh "f" fs') in
  @reachable lp64 E /\ @reachable lp64 lp64_fresh /\
  @sauron_save lp64 io_ok E "f" ∅ = (SAURON_OK, fs') /\
  @sauron_load lp64 lp64_fresh "f" fs' = (SAURON_OK, E') /\
  @load_allocated lp64 lp64_fresh "f" fs' /\
  (forall a, is_u32 a -> sauron_get_u32 E' a = sauron_get_u32 E a) /\
  sauron_count E' = sauron_count E.
Proof.
  intros E fs' E'.
  assert (H2 : @reachable lp64 E).
  { apply (@reach_step lp64 op_typed lp64_fresh (op_set 16909060 111)).
    - apply reach_create. reflexivity.
    - unfold op_typed, is_u32, is_i16. lia.
    - reflexivity. }
  assert (H3 : @reachable lp64 lp64_fresh) by (apply reach_create; reflexivity).
  assert (H4 : @sauron_save lp64 io_ok E "f" ∅ = (SAURON_OK, fs')) by reflexivity.
  assert (H5 : @sauron_load lp64 lp64_fresh "f" fs' = (SAURON_OK, E'))
    by (vm_compute; reflexivity).
  assert (H6 : @load_allocated lp64 lp64_fresh "f" fs').
  { vm_compute. split; [eexists; reflexivity|exact I]. }
  split; [exact H2|]. split; [exact H3|].
  split; [exact H4|]. split; [exact H5|]. split; [exact H6|].
  exact (@C3_save_load_round_trip lp64 E lp64_fresh E' io_ok "f" ∅ fs' H2 H3 H4 H5 H6).
Defined.

(** C3 as stated fails: on a heap with room for one block, an engine
    holding 111 at 1.2.3.4 is saved and loaded into an engine that holds a
    score at 9.9.9.9.  Both calls succeed, but the [set] of the load finds
    no memory for the block of 1.2.3.4 and the entry is dropped. *)
Lemma C3_counterexample :
  let E := snd (@sauron_set_u32 lp64_one_block lp64_one_block_fresh 16909060 111) in
  let E0 := snd (@sauron_set_u32 lp64_one_block lp64_one_block_fresh 151587081 7) in
  let saved := @sauron_save lp64_one_block io_ok E "f" ∅ in
  let loaded := @sauron_load lp64_one_block E0 "f" (snd saved) in
  @reachable lp64_one_block E /\ @reachable lp64_one_block E0 /\
  fst saved = SAURON_OK /\ fst loaded = SAURON_OK /\
  sauron_get_u32 E 16909060 = 111 /\ sauron_get_u32 (snd loaded) 16909060 = 0 /\
  sauron_count E = 1 /\ sauron_count (snd loaded) = 0.
Proof.
  intros E E0 saved loaded.
  assert (Hfresh : @sauron_create lp64_one_block = Some lp64_one_block_fresh)
    by reflexivity.
  split.
  { apply (@reach_step lp64_one_block op_typed lp64_one_block_fresh (op_set 16909060 111)).
    - apply reach_create. exact Hfresh.
    - unfold op_typed, is_u32, is_i16. lia.
    - reflexivity. }
  split.
  { apply (@reach_step lp64_one_block op_typed lp64_one_block_fresh (op_set 151587081 7)).
    - apply reach_create. exact Hfresh.
    - unfold op_typed, is_u32, is_i16. lia.
    - reflexivity. }
  vm_compute. repeat split; reflexivity.
Qed.

(** * Bulk loading *)

(** ** The CSV grammar *)

Lemma is_digit_code c : is_digit c = true -> 0 <= char_code c - char_code "0" <= 9.
Proof.
  unfold is_digit. change (char_code "0") with 48. change (char_code "9") with 57.
  intros Hd. apply andb_true_iff in Hd as [H1 H2].
  apply Z.leb_le in H1, H2. lia.
Qed.

Lemma decimal_from_ge acc s : all_digits s = true -> 0 <= acc -> acc <= decimal_from acc s.
Proof.
  revert acc. induction s as [|c s IH]; intros acc Hd Hacc; cbn [decimal_from]; [lia|].
  cbn [all_digits] in Hd. apply andb_true_iff in Hd as [Hc Hs].
  pose proof (is_digit_code c Hc).
  specialize (IH (acc * 10 + (char_code c - char_code "0")) Hs). lia.
Qed.

Lemma digit_not_special c :
  is_digit c = true ->
  Ascii.eqb c NUL = false /\ Ascii.eqb c "," = false /\ Ascii.eqb c "." = false /\
  is_blank c = false /\ Ascii.eqb c "#" = false /\ Ascii.eqb c "010" = false /\
  Ascii.eqb c "+" = false /\ Ascii.eqb c "-" = false.
Proof.
  intros Hd. pose proof (is_digit_code c Hd) as Hr. change (char_code "0") with 48 in Hr.
  assert (Hne : forall c', (char_code c' < 48 \/ 57 < char_code c') -> Ascii.eqb c c' = false).
  { intros c' Hc'. destruct (Ascii.eqb_spec c c') as [->|]; [lia|reflexivity]. }
  unfold is_blank.
  rewrite !Hne by (vm_compute; intuition congruence). auto 10.
Qed.

(** The address loop consumes a field of digits. *)
Lemma parse_bulk_ip_digits ds : forall rest ip octet dots digits,
  all_digits ds = true -> 0 <= octet -> decimal_from octet ds <= 255 ->
  parse_bulk_ip (String.append ds rest) ip octet dots digits =
  parse_bulk_ip rest ip (decimal_from octet ds) dots (digits + Z.of_nat (String.length ds)).
Proof.
  induction ds as [|c ds IH]; intros rest ip octet dots digits Hd Ho Hv.
  - rewrite append_nil_l. cbn [decimal_from String.length]. rewrite Z.add_0_r. reflexivity.
  - cbn [all_digits] in Hd. apply andb_true_iff in Hd as [Hc Hs].
    pose proof (is_digit_code c Hc) as Hr.
    destruct (digit_not_special c Hc) as (H0 & H1 & _).
    cbn [decimal_from] in Hv |- *.
    pose proof (decimal_from_ge (octet * 10 + (char_code c - char_code "0")) ds Hs
                  ltac:(lia)) as Hge.
    rewrite append_cons. cbn [parse_bulk_ip]. rewrite H0, H1, Hc. cbn [orb].
    unfold u32. rewrite Z.mod_small by lia.
    destruct (Z.gtb_spec (octet * 10 + (char_code c - char_code "0")) 255); [lia|].
    rewrite IH by (try assumption; lia). f_equal. cbn [String.length]. lia.
Qed.

Lemma parse_bulk_ip_dot rest ip octet dots digits :
  digits <> 0 -> dots < 3 ->
  parse_bulk_ip (String "." rest) ip octet dots digits =
  parse_bulk_ip rest (u32 (Z.lor (Z.shiftl ip 8) octet)) 0 (dots + 1) 0.
Proof.
  intros Hd Hdots. cbn [parse_bulk_ip].
  change (Ascii.eqb "." NUL || Ascii.eqb "." ",") with false.
  change (is_digit ".") with false. change (Ascii.eqb "." ".") with true. cbv iota.
  destruct (Z.eqb_spec digits 0); [contradiction|].
  destruct (Z.geb_spec dots 3); [lia|]. reflexivity.
Qed.

Lemma digit_field_length s : digit_field s -> 0 < Z.of_nat (String.length s).
Proof. intros [Hne _]. destruct s; [congruence|]. cbn [String.length]. lia. Qed.

Lemma octet_step ip o :
  0 <= ip < 2 ^ 24 -> 0 <= o <= 255 ->
  u32 (Z.lor (Z.shiftl ip 8) o) = ip * 2 ^ 8 + o.
Proof.
  intros Hip Ho. rewrite lor_shiftl_add by (change (2 ^ 8) with 256; lia).
  unfold u32. apply Z.mod_small. change (2 ^ 8) with 256.
  change (2 ^ 24) with 16777216 in Hip. change (2 ^ 32) with 4294967296. lia.
Qed.

Lemma parse_bulk_ip_dotted o1 o2 o3 o4 rest :
  digit_field o1 -> digit_field o2 -> digit_field o3 -> digit_field o4 ->
  decimal o1 <= 255 -> decimal o2 <= 255 -> decimal o3 <= 255 -> decimal o4 <= 255 ->
  parse_bulk_ip
    (String.append o1 (String "." (String.append o2 (String "." (String.append o3
       (String "." (String.append o4 (String "," rest)))))))) 0 0 0 0 =
  Some (ipv4 (decimal o1) (decimal o2) (decimal o3) 0 / 2 ^ 8, decimal o4, 3,
        Z.of_nat (String.length o4), String "," rest).
Proof.
  intros F1 F2 F3 F4 V1 V2 V3 V4. unfold decimal in *.
  pose proof (digit_field_length _ F1). pose proof (digit_field_length _ F2).
  pose proof (digit_field_length _ F3). pose proof (digit_field_length _ F4).
  pose proof (decimal_from_ge 0 o1 (proj2 F1) ltac:(lia)).
  pose proof (decimal_from_ge 0 o2 (proj2 F2) ltac:(lia)).
  pose proof (decimal_from_ge 0 o3 (proj2 F3) ltac:(lia)).
  rewrite parse_bulk_ip_digits by (try apply F1; lia).
  rewrite parse_bulk_ip_dot by lia.
  rewrite parse_bulk_ip_digits by (try apply F2; lia).
  rewrite parse_bulk_ip_dot by lia.
  rewrite parse_bulk_ip_digits by (try apply F3; lia).
  rewrite parse_bulk_ip_dot by lia.
  rewrite parse_bulk_ip_digits by (try apply F4; lia).
  cbn [parse_bulk_ip]. change (Ascii.eqb "," NUL || Ascii.eqb "," ",") with true.
  cbv iota.
  rewrite (octet_step 0) by (change (2 ^ 24) with 16777216; lia).
  rewrite (octet_step (0 * 2 ^ 8 + decimal_from 0 o1))
    by (change (2 ^ 24) with 16777216; change (2 ^ 8) with 256; lia).
  rewrite (octet_step ((0 * 2 ^ 8 + decimal_from 0 o1) * 2 ^ 8 + decimal_from 0 o2))
    by (change (2 ^ 24) with 16777216; change (2 ^ 8) with 256; lia).
  repeat f_equal; try lia.
  unfold ipv4. apply (Z.div_unique _ _ _ 0); [lia|].
  change (2 ^ 24) with (2 ^ 8 * 2 ^ 8 * 2 ^ 8). change (2 ^ 16) with (2 ^ 8 * 2 ^ 8). lia.
Qed.

(** The value loop saturates at 32767. *)
Lemma parse_bulk_value_digits ds : forall v,
  all_digits ds = true -> 0 <= v <= 32767 ->
  parse_bulk_value ds v = (Z.min (decimal_from v ds) 32767, EmptyString).
Proof.
  induction ds as [|c ds IH]; intros v Hd Hv.
  - cbn. f_equal. lia.
  - cbn [all_digits] in Hd. apply andb_true_iff in Hd as [Hc Hs].
    pose proof (is_digit_code c Hc) as Hr.
    cbn [parse_bulk_value decimal_from]. rewrite Hc.
    destruct (Z.gtb_spec (v * 10 + (char_code c - char_code "0")) 32767) as [Hgt|Hle].
    + rewrite IH by (try assumption; lia). f_equal.
      pose proof (decimal_from_ge 32767 ds Hs ltac:(lia)).
      pose proof (decimal_from_ge (v * 10 + (char_code c - char_code "0")) ds Hs
                    ltac:(lia)). lia.
    + rewrite IH by (try assumption; lia). reflexivity.
Qed.

Lemma skip_blanks_digit s : digit_field s -> forall rest,
  skip_blanks (String.append s rest) = String.append s rest.
Proof.
  intros [Hne Hd] rest. destruct s as [|c s]; [congruence|].
  cbn [all_digits] in Hd. apply andb_true_iff in Hd as [Hc _].
  destruct (digit_not_special c Hc) as (_ & _ & _ & Hb & _).
  rewrite append_cons. cbn [skip_blanks]. rewrite Hb. reflexivity.
Qed.

Lemma peek_digit_field s rest : digit_field s -> is_digit (peek (String.append s rest)) = true.
Proof.
  intros [Hne Hd]. destruct s as [|c s]; [congruence|].
  cbn [all_digits] in Hd. apply andb_true_iff in Hd as [Hc _]. exact Hc.
Qed.

(** What [parse_bulk_line] makes of a well-formed record. *)
Lemma parse_bulk_line_csv o1 o2 o3 o4 f ds :
  digit_field o1 -> digit_field o2 -> digit_field o3 -> digit_field o4 ->
  decimal o1 <= 255 -> decimal o2 <= 255 -> decimal o3 <= 255 -> decimal o4 <= 255 ->
  digit_field ds ->
  parse_bulk_line (csv_line o1 o2 o3 o4 f ds) =
  Some (ipv4 (decimal o1) (decimal o2) (decimal o3) (decimal o4),
        form_value f (Z.min (decimal ds) 32767), form_relative f).
Proof.
  intros F1 F2 F3 F4 V1 V2 V3 V4 Fd. unfold parse_bulk_line, csv_line.
  rewrite skip_blanks_digit by assumption.
  rewrite parse_bulk_ip_dotted by assumption.
  change (negb (3 =? 3)) with false. cbn [orb].
  pose proof (digit_field_length _ F4) as Hl4.
  destruct (Z.eqb_spec (Z.of_nat (String.length o4)) 0); [lia|].
  assert (Hip : u32 (Z.lor (Z.shiftl
                  (ipv4 (decimal o1) (decimal o2) (decimal o3) 0 / 2 ^ 8) 8) (decimal o4)) =
                ipv4 (decimal o1) (decimal o2) (decimal o3) (decimal o4)).
  { unfold decimal in *.
    pose proof (decimal_from_ge 0 o1 (proj2 F1) ltac:(lia)).
    pose proof (decimal_from_ge 0 o2 (proj2 F2) ltac:(lia)).
    pose proof (decimal_from_ge 0 o3 (proj2 F3) ltac:(lia)).
    pose proof (decimal_from_ge 0 o4 (proj2 F4) ltac:(lia)).
    assert (Hq : ipv4 (decimal_from 0 o1) (decimal_from 0 o2) (decimal_from 0 o3) 0 / 2 ^ 8 =
                 decimal_from 0 o1 * 2 ^ 16 + decimal_from 0 o2 * 2 ^ 8 + decimal_from 0 o3).
    { unfold ipv4. symmetry. apply (Z.div_unique _ _ _ 0); [lia|].
      change (2 ^ 24) with (2 ^ 8 * 2 ^ 8 * 2 ^ 8).
      change (2 ^ 16) with (2 ^ 8 * 2 ^ 8). lia. }
    rewrite Hq. rewrite octet_step.
    - unfold ipv4. change (2 ^ 24) with (2 ^ 8 * 2 ^ 8 * 2 ^ 8).
      change (2 ^ 16) with (2 ^ 8 * 2 ^ 8). lia.
    - change (2 ^ 24) with 16777216. change (2 ^ 16) with 65536.
      change (2 ^ 8) with 256. lia.
    - lia. }
  rewrite Hip. cbn [skip_blanks]. change (is_blank ",") with false.
  cbv beta iota zeta.
  assert (Hv : parse_bulk_value ds 0 = (Z.min (decimal ds) 32767, EmptyString))
    by (apply parse_bulk_value_digits; [apply Fd|lia]).
  assert (Hpk : is_digit (peek ds) = true).
  { rewrite <- (string_app_nil_r ds). apply peek_digit_field. assumption. }
  assert (Hsk : skip_blanks ds = ds).
  { rewrite <- (string_app_nil_r ds). apply skip_blanks_digit. assumption. }
  assert (Hm : 0 <= Z.min (decimal ds) 32767 <= 32767).
  { unfold decimal. pose proof (decimal_from_ge 0 ds (proj2 Fd) ltac:(lia)). lia. }
  destruct f; cbn [form_prefix form_value form_relative].
  - rewrite append_nil_l, Hsk.
    destruct ds as [|c ds']; [destruct Fd; congruence|].
    assert (Hc : is_digit c = true) by exact Hpk.
    destruct c as [[] [] [] [] [] [] [] []]; try (cbv in Hc; discriminate Hc);
      cbv beta iota zeta; rewrite Hpk; cbn [negb]; rewrite Hv; cbn [skip_trailing peek];
      change (negb (Ascii.eqb NUL NUL) && negb (Ascii.eqb NUL "#")) with false;
      cbv iota; rewrite i16_id by lia; reflexivity.
  - rewrite append_cons, append_nil_l. cbn [skip_blanks].
    change (is_blank "-") with false. cbv beta iota zeta.
    rewrite Hpk. cbn [negb]. rewrite Hv. cbn [skip_trailing peek].
    change (negb (Ascii.eqb NUL NUL) && negb (Ascii.eqb NUL "#")) with false. cbv iota.
    rewrite i16_id by lia. reflexivity.
  - rewrite append_cons, append_nil_l. cbn [skip_blanks].
    change (is_blank "+") with false. cbv beta iota zeta.
    destruct ds as [|c ds']; [destruct Fd; congruence|].
    assert (Hc : is_digit c = true) by exact Hpk.
    destruct c as [[] [] [] [] [] [] [] []]; try (cbv in Hc; discriminate Hc);
      cbv beta iota zeta; rewrite Hpk; cbn [negb]; rewrite Hv; cbn [skip_trailing peek];
      change (negb (Ascii.eqb NUL NUL) && negb (Ascii.eqb NUL "#")) with false;
      cbv iota; rewrite i16_id by lia; reflexivity.
  - rewrite !append_cons, append_nil_l. cbn [skip_blanks].
    change (is_blank "+") with false. cbv beta iota zeta.
    rewrite Hpk. cbn [negb]. rewrite Hv. cbn [skip_trailing peek].
    change (negb (Ascii.eqb NUL NUL) && negb (Ascii.eqb NUL "#")) with false. cbv iota.
    rewrite i16_id by lia. reflexivity.
Qed.

Lemma substring_whole n s :
  (String.length s <= n)%nat -> String.substring 0 n s = s.
Proof.
  revert n. induction s as [|c s IH]; intros n Hn.
  - destruct n; reflexivity.
  - destruct n as [|n]; cbn [String.length] in Hn; [lia|].
    cbn [String.substring]. rewrite IH by lia. reflexivity.
Qed.

Section BulkBuffer.
Context `{Platform}.

(** The body of the buffer loop on a well-formed record that fits the line
    buffer. *)
Lemma bulk_buffer_line_csv ctx stats o1 o2 o3 o4 f ds :
  digit_field o1 -> digit_field o2 -> digit_field o3 -> digit_field o4 ->
  decimal o1 <= 255 -> decimal o2 <= 255 -> decimal o3 <= 255 -> decimal o4 <= 255 ->
  digit_field ds ->
  Z.of_nat (String.length (csv_line o1 o2 o3 o4 f ds)) < BULK_LINE_MAX ->
  bulk_buffer_line (ctx, stats) (csv_line o1 o2 o3 o4 f ds) =
  bulk_apply (ctx, bulk_count_line stats)
    (ipv4 (decimal o1) (decimal o2) (decimal o3) (decimal o4))
    (form_value f (Z.min (decimal ds) 32767)) (form_relative f).
Proof.
  intros F1 F2 F3 F4 V1 V2 V3 V4 Fd Hlen. unfold bulk_buffer_line.
  assert (Htr : truncate_line (csv_line o1 o2 o3 o4 f ds) = csv_line o1 o2 o3 o4 f ds).
  { unfold truncate_line. apply substring_whole.
    unfold BULK_LINE_MAX in *. lia. }
  rewrite Htr.
  destruct (Z.geb_spec (Z.of_nat (String.length (csv_line o1 o2 o3 o4 f ds)))
              BULK_LINE_MAX) as [|_]; [lia|].
  assert (Hhead : exists c rest, csv_line o1 o2 o3 o4 f ds = String c rest /\
                                 is_digit c = true).
  { destruct F1 as [Hne Hd]. destruct o1 as [|c o1']; [congruence|].
    cbn [all_digits] in Hd. apply andb_true_iff in Hd as [Hc _].
    unfold csv_line. rewrite append_cons. eauto. }
  destruct Hhead as (c & rest & Hline & Hc).
  rewrite parse_bulk_line_csv by assumption.
  rewrite Hline. cbn [String.length peek].
  destruct (digit_not_special c Hc) as (_ & _ & _ & _ & Hhash & _).
  rewrite Hhash.
  destruct (Z.eqb_spec (Z.of_nat (S (String.length rest))) 0); [lia|]. reflexivity.
Qed.

End BulkBuffer.

(** A CSV record [ip,value] of fewer than 64 bytes with a dotted-decimal
    address is applied by the buffer loader as [parse_bulk_line] reads it:
    a set adds one to [sets], an increment one to [updates], and every
    line one to [lines_processed]. *)
Lemma bulk_buffer_record (P : Platform) ctx stats o1 o2 o3 o4 f ds :
  digit_field o1 -> digit_field o2 -> digit_field o3 -> digit_field o4 ->
  decimal o1 <= 255 -> decimal o2 <= 255 -> decimal o3 <= 255 -> decimal o4 <= 255 ->
  digit_field ds ->
  Z.of_nat (String.length (csv_line o1 o2 o3 o4 f ds)) < BULK_LINE_MAX ->
  let ip := ipv4 (decimal o1) (decimal o2) (decimal o3) (decimal o4) in
  let value := form_value f (Z.min (decimal ds) 32767) in
  let r := @bulk_buffer_line P (ctx, stats) (csv_line o1 o2 o3 o4 f ds) in
  fst r = (if form_relative f then snd (@sauron_incr_u32 P ctx ip value)
           else snd (@sauron_set_u32 P ctx ip value)) /\
  lines_processed (snd r) = u64 (lines_processed stats + 1) /\
  sets (snd r) = (if form_relative f then sets stats else u64 (sets stats + 1)) /\
  updates (snd r) = (if form_relative f then u64 (updates stats + 1) else updates stats) /\
  lines_skipped (snd r) = lines_skipped stats /\
  parse_errors (snd r) = parse_errors stats.
Proof.
  intros F1 F2 F3 F4 V1 V2 V3 V4 Fd Hlen ip value r.
  unfold r. rewrite bulk_buffer_line_csv by assumption. fold ip value.
  unfold bulk_apply, bulk_count_line.
  destruct (form_relative f); cbn [fst snd lines_processed sets updates
                                   lines_skipped parse_errors];
    repeat split; reflexivity.
Qed.

(** The scenario buffer loaded into a new engine gives the scores 100, 200
    and -50 with 3 lines processed, 2 sets and 1 update. *)
Lemma bulk_scenario :
  let loaded := @sauron_bulk_load_buffer lp64 lp64_fresh scenario_buffer in
  fst (fst loaded) = SAURON_OK /\
  sauron_get_u32 (snd (fst loaded)) (ipv4 10 0 0 1) = 100 /\
  sauron_get_u32 (snd (fst loaded)) (ipv4 10 0 0 2) = 200 /\
  sauron_get_u32 (snd (fst loaded)) (ipv4 10 0 0 3) = -50 /\
  lines_processed (snd loaded) = 3 /\ sets (snd loaded) = 2 /\ updates (snd loaded) = 1.
Proof. vm_compute. repeat split; reflexivity. Qed.

(** C8: the buffer loader and the file loader part on a record of 64
    bytes or more.  The record of 70 bytes [10.0.0.1,0...05] is well
    formed and denotes a set to 5; [sauron_bulk_load] sets the score to 5,
    but [sauron_bulk_load_buffer] copies the first 63 bytes of the line
    before it parses them and sets the score to 0. *)
Theorem C8_buffer_loader_truncates_long_record :
  let a := ipv4 10 0 0 1 in
  let start := snd (@sauron_set_u32 lp64 lp64_fresh a 77) in
  let by_buffer := @sauron_bulk_load_buffer lp64 start (String.append long_record LF) in
  let by_file := @sauron_bulk_load lp64 start "records.csv" long_record_file in
  Z.of_nat (String.length long_record) = 70 /\
  parse_bulk_line long_record = Some (a, 5, false) /\
  parse_bulk_line (truncate_line long_record) = Some (a, 0, false) /\
  fst (fst by_file) = SAURON_OK /\ sets (snd by_file) = 1 /\
  sauron_get_u32 (snd (fst by_file)) a = 5 /\
  fst (fst by_buffer) = SAURON_OK /\ sets (snd by_buffer) = 1 /\
  sauron_get_u32 (snd (fst by_buffer)) a = 0.
Proof.
  intros a start by_buffer by_file.
  split; [reflexivity|].
  split; [vm_compute; reflexivity|].
  split; [vm_compute; reflexivity|].
  repeat split; vm_compute; reflexivity.
Qed.

(** * Binary32 arithmetic of the decay

    Rounding a product that does not exceed an integer.

    The facts on binary32 multiplication the decay needs: the product of a
    score v with a factor of at most 1, rounded to nearest and truncated,
    has a magnitude of at most |v|. *)

Lemma iter_pos_nat {A : Type} (f : A -> A) p x :
  SpecFloat.iter_pos f p x = Nat.iter (Pos.to_nat p) f x.
Proof.
  revert x. induction p as [p IH|p IH|]; intros x; cbn [SpecFloat.iter_pos].
  - rewrite !IH. rewrite Pos2Nat.inj_xI.
    replace (S (2 * Pos.to_nat p)) with (Pos.to_nat p + Pos.to_nat p + 1)%nat by lia.
    rewrite !Nat.iter_add. reflexivity.
  - rewrite !IH. rewrite Pos2Nat.inj_xO.
    replace (2 * Pos.to_nat p)%nat with (Pos.to_nat p + Pos.to_nat p)%nat by lia.
    rewrite Nat.iter_add. reflexivity.
  - reflexivity.
Qed.

Lemma shr_1_spec m r s :
  0 <= m ->
  shr_m (shr_1 (Build_shr_record m r s)) = m / 2 /\
  shr_r (shr_1 (Build_shr_record m r s)) = Z.odd m /\
  shr_s (shr_1 (Build_shr_record m r s)) = r || s.
Proof.
  intros Hm. destruct m as [|p|p]; [| |lia].
  - repeat split.
  - destruct p as [p|p|]; cbn [shr_1 shr_m shr_r shr_s Z.odd]; repeat split.
    + rewrite Pos2Z.inj_xI. apply (Z.div_unique _ _ _ 1); lia.
    + rewrite Pos2Z.inj_xO. apply (Z.div_unique _ _ _ 0); lia.
Qed.

(** [k] shifts of a mantissa: the quotient, and whether anything was lost. *)
Lemma shr_iter_spec M k :
  0 <= M ->
  let mrs := Nat.iter k shr_1 (Build_shr_record M false false) in
  shr_m mrs = M / 2 ^ Z.of_nat k /\
  (shr_r mrs || shr_s mrs = false <-> M mod 2 ^ Z.of_nat k = 0).
Proof.
  intros HM. induction k as [|k IH]; cbn zeta.
  - change (Nat.iter 0 shr_1 (Build_shr_record M false false))
      with (Build_shr_record M false false).
    cbn [shr_m shr_r shr_s Z.of_nat]. rewrite Z.pow_0_r, Z.div_1_r, Z.mod_1_r. tauto.
  - rewrite Nat.iter_succ. cbn zeta in IH. destruct IH as [Hm Hrs].
    destruct (Nat.iter k shr_1 (Build_shr_record M false false)) as [m r s] eqn:Hit.
    cbn [shr_m shr_r shr_s] in Hm, Hrs.
    assert (Hm0 : 0 <= m) by (rewrite Hm; apply Z.div_pos; lia).
    destruct (shr_1_spec m r s Hm0) as (H1 & H2 & H3). rewrite H1, H2, H3.
    rewrite Nat2Z.inj_succ, Z.pow_succ_r by lia.
    assert (Hp : 0 < 2 ^ Z.of_nat k) by (apply Z.pow_pos_nonneg; lia).
    split.
    + rewrite Hm. rewrite Z.div_div by lia. f_equal. lia.
    + rewrite (Z.mul_comm 2), Z.rem_mul_r by lia. rewrite <- Hm.
      pose proof (Z.mod_pos_bound M (2 ^ Z.of_nat k) Hp) as Hb1.
      pose proof (Z.mod_pos_bound m 2 ltac:(lia)) as Hb2.
      assert (Hodd : Z.b2z (Z.odd m) = m mod 2)
        by (rewrite <- Z.bit0_odd; apply Z.bit0_mod).
      rewrite orb_false_iff, Hrs.
      destruct (Z.odd m); cbn [Z.b2z] in Hodd.
      * split; [intros [? ?]; discriminate|]. nia.
      * split.
        -- intros [_ Hz]. rewrite Hz. lia.
        -- intros Hz. split; [reflexivity|]. nia.
Qed.

Lemma digits2_lower p : 2 ^ (Zpos (digits2_pos p) - 1) <= Zpos p.
Proof.
  induction p as [p IH|p IH|]; cbn [digits2_pos].
  - rewrite Pos2Z.inj_succ. replace (Z.succ (Zpos (digits2_pos p)) - 1)
      with (Z.succ (Zpos (digits2_pos p) - 1)) by lia.
    rewrite Z.pow_succ_r by lia. lia.
  - rewrite Pos2Z.inj_succ. replace (Z.succ (Zpos (digits2_pos p)) - 1)
      with (Z.succ (Zpos (digits2_pos p) - 1)) by lia.
    rewrite Z.pow_succ_r by lia. lia.
  - reflexivity.
Qed.

Lemma digits2_le m k : 0 <= m < 2 ^ k -> 0 <= k -> Zdigits2 m <= k.
Proof.
  intros Hm Hk. destruct m as [|p|p]; [cbn; lia| |lia].
  cbn [Zdigits2]. pose proof (digits2_lower p) as Hl.
  destruct (Z_le_gt_dec (Zpos (digits2_pos p)) k) as [|Hgt]; [assumption|].
  exfalso. assert (2 ^ k <= 2 ^ (Zpos (digits2_pos p) - 1))
    by (apply Z.pow_le_mono_r; lia). lia.
Qed.

Lemma round_nearest_even_bounds q l :
  q <= round_nearest_even q l <= q + 1 /\
  (l = loc_Exact -> round_nearest_even q l = q).
Proof.
  split; [|intros ->; reflexivity].
  destruct l as [|[]]; cbn [round_nearest_even]; try lia.
  destruct (Z.even q); lia.
Qed.

Lemma loc_exact_iff mrs :
  loc_of_shr_record mrs = loc_Exact <-> shr_r mrs || shr_s mrs = false.
Proof.
  destruct mrs as [m [] []]; cbn; split; intros Heq; try reflexivity; discriminate.
Qed.

(** One normalisation step keeps a mantissa below an integer bound [V]:
    the exponent stays negative, so [V] is on the rounding grid. *)
Lemma shr_fexp_bound m e V :
  0 <= m -> e <= 0 -> 0 <= V < 2 ^ 16 -> m <= V * 2 ^ (- e) ->
  let r := shr_fexp 24 128 m e loc_Exact in
  snd r <= 0 /\ 0 <= shr_m (fst r) /\
  shr_m (fst r) <= round_nearest_even (shr_m (fst r)) (loc_of_shr_record (fst r)) /\
  round_nearest_even (shr_m (fst r)) (loc_of_shr_record (fst r)) <= V * 2 ^ (- snd r).
Proof.
  intros Hm He HV Hb r. unfold r, shr_fexp, shr. cbn [shr_record_of_loc].
  assert (Hp2 : 0 < 2 ^ (- e)) by (apply Z.pow_pos_nonneg; lia).
  assert (Hdig : Zdigits2 m + e <= 16).
  { assert (Hlt : m < 2 ^ (16 - e)).
    { replace (16 - e) with (16 + - e) by lia. rewrite Z.pow_add_r by lia. nia. }
    pose proof (digits2_le m (16 - e) (conj Hm Hlt) ltac:(lia)). lia. }
  destruct (fexp 24 128 (Zdigits2 m + e) - e) as [|p|p] eqn:Hn.
  - cbn [fst snd shr_m loc_of_shr_record round_nearest_even]. lia.
  - cbn [fst snd]. rewrite iter_pos_nat.
    pose proof (shr_iter_spec m (Pos.to_nat p) Hm) as Hit. cbn zeta in Hit.
    rewrite positive_nat_Z in Hit. destruct Hit as [Hq Hex].
    set (mrs := Nat.iter (Pos.to_nat p) shr_1 (Build_shr_record m false false)) in *.
    assert (He' : e + Zpos p <= -8).
    { unfold fexp, emin in Hn. lia. }
    assert (Hpp : 0 < 2 ^ Zpos p) by (apply Z.pow_pos_nonneg; lia).
    assert (Hsplit : 2 ^ (- e) = 2 ^ (- (e + Zpos p)) * 2 ^ Zpos p).
    { rewrite <- Z.pow_add_r by lia. f_equal. lia. }
    set (K := V * 2 ^ (- (e + Zpos p))).
    assert (HmK : m <= 2 ^ Zpos p * K) by (unfold K; rewrite Hsplit in Hb; lia).
    assert (Hq0 : 0 <= shr_m mrs) by (rewrite Hq; apply Z.div_pos; lia).
    destruct (round_nearest_even_bounds (shr_m mrs) (loc_of_shr_record mrs))
      as [[Hlo Hhi] Hexact].
    split; [lia|]. split; [exact Hq0|]. split; [exact Hlo|].
    destruct (Z.eq_dec (m mod 2 ^ Zpos p) 0) as [Hz|Hnz].
    + rewrite Hexact by (apply loc_exact_iff, Hex; assumption).
      rewrite Hq. apply Z.div_le_upper_bound; lia.
    + assert (Hlt : m < 2 ^ Zpos p * K).
      { destruct (Z.eq_dec m (2 ^ Zpos p * K)) as [Heq|]; [|lia].
        exfalso. apply Hnz. rewrite Heq, Z.mul_comm. apply Z.mod_mul. lia. }
      assert (shr_m mrs < K) by (rewrite Hq; apply Z.div_lt_upper_bound; lia).
      lia.
  - cbn [fst snd shr_m loc_of_shr_record round_nearest_even]. lia.
Qed.

Lemma round_aux_bound sx M E V :
  0 <= M -> E <= 0 -> 0 <= V < 2 ^ 16 -> M <= V * 2 ^ (- E) ->
  match binary_round_aux 24 128 sx M E loc_Exact with
  | S754_finite _ m2 e2 => e2 <= 0 /\ Zpos m2 <= V * 2 ^ (- e2)
  | _ => True
  end.
Proof.
  intros HM HE HV Hb. unfold binary_round_aux.
  pose proof (shr_fexp_bound M E V HM HE HV Hb) as H1. cbn zeta in H1.
  destruct (shr_fexp 24 128 M E loc_Exact) as [mrs1 e1]. cbn [fst snd] in H1.
  destruct H1 as (He1 & Hq1 & Hlo1 & Hhi1).
  pose proof (shr_fexp_bound
                (round_nearest_even (shr_m mrs1) (loc_of_shr_record mrs1)) e1 V
                ltac:(lia) He1 HV Hhi1) as H2. cbn zeta in H2.
  destruct (shr_fexp 24 128 _ e1 loc_Exact) as [mrs2 e2]. cbn [fst snd] in H2.
  destruct H2 as (He2 & Hq2 & Hlo2 & Hhi2).
  destruct (shr_m mrs2) as [|m2|m2]; [exact I| |exact I].
  destruct (e2 <=? 128 - 24); [|exact I]. split; [exact He2|lia].
Qed.

Lemma float_trunc_bound s m e V :
  e <= 0 -> 0 <= V -> Zpos m <= V * 2 ^ (- e) -> Z.abs (float_trunc s m e) <= V.
Proof.
  intros He HV Hb. unfold float_trunc.
  rewrite Z.shiftl_div_pow2 by lia.
  assert (Hp : 0 < 2 ^ (- e)) by (apply Z.pow_pos_nonneg; lia).
  assert (Hq : 0 <= Zpos m / 2 ^ (- e) <= V).
  { split; [apply Z.div_pos; lia|apply Z.div_le_upper_bound; lia]. }
  destruct s; cbn [cond_Zopp]; lia.
Qed.

(** Checked on every value of [int16_t]. *)
Lemma float_of_int16_checked :
  forallb float_of_int16_exact (count_from (-32768) (Z.to_nat 65536)) = true.
Proof. vm_compute. reflexivity. Qed.

Lemma float_of_int16_spec v : is_i16 v -> float_of_int16_exact v = true.
Proof.
  intros Hv. pose proof float_of_int16_checked as Hall.
  rewrite forallb_forall in Hall. apply Hall. apply count_from_In.
  unfold is_i16 in Hv. change (2 ^ 15) with 32768 in Hv. lia.
Qed.

Lemma digits2_upper p : Zpos p < 2 ^ Zpos (digits2_pos p).
Proof.
  induction p as [p IH|p IH|]; cbn [digits2_pos];
    try (rewrite Pos2Z.inj_succ, Z.pow_succ_r by lia; lia).
  reflexivity.
Qed.

(** A binary32 factor accepted by [sauron_decay] is a NaN, a zero, or a
    positive number of at most 1. *)
Lemma factor_at_most_one f :
  valid_binary 24 128 f = true ->
  SFltb f float_zero || SFltb float_one f = false ->
  match f with
  | S754_zero _ | S754_nan => True
  | S754_infinity _ => False
  | S754_finite s m e => s = false /\ e <= 0 /\ Zpos m <= 2 ^ (- e)
  end.
Proof.
  intros Hvalid Hrange. apply orb_false_iff in Hrange as [Hneg Hgt].
  destruct f as [s|s| |s m e]; try exact I.
  - destruct s; cbn in Hneg, Hgt; discriminate.
  - destruct s; [cbn in Hneg; discriminate|]. split; [reflexivity|].
    unfold SFltb, SFcompare, float_one in Hgt.
    cbn [valid_binary] in Hvalid. unfold bounded, canonical_mantissa in Hvalid.
    apply andb_true_iff in Hvalid as [Hcan _]. apply Z.eqb_eq in Hcan.
    unfold fexp, emin in Hcan.
    pose proof (digits2_upper m) as Hup.
    destruct (Z.compare_spec (-23) e) as [Heq|Hlt|Hgt'].
    + subst e. split; [lia|].
      change (Pos.compare_cont Eq 8388608 m) with (Pos.compare 8388608 m) in Hgt.
      change (2 ^ (- -23)) with 8388608.
      destruct (Pos.compare 8388608 m) eqn:Hcmp; [| discriminate Hgt |].
      * apply Pos.compare_eq in Hcmp. subst m. apply Z.le_refl.
      * apply Pos.compare_gt_iff in Hcmp. apply Z.lt_le_incl. exact Hcmp.
    + discriminate.
    + split; [lia|].
      assert (Hd : Zpos (digits2_pos m) <= 24) by lia.
      assert (2 ^ Zpos (digits2_pos m) <= 2 ^ 24) by (apply Z.pow_le_mono_r; lia).
      assert (2 ^ 24 <= 2 ^ (- e)) by (apply Z.pow_le_mono_r; lia). lia.
Qed.

(** The decayed score before the deadzone: no larger than the old score. *)
Lemma decay_product_bound f v t :
  valid_binary 24 128 f = true ->
  SFltb f float_zero || SFltb float_one f = false ->
  is_i16 v ->
  float_to_int16 (float_mul (float_of_int16 v) f) = Some t ->
  Z.abs t <= Z.abs v.
Proof.
  intros Hvalid Hrange Hv Ht.
  pose proof (factor_at_most_one f Hvalid Hrange) as Hf.
  pose proof (float_of_int16_spec v Hv) as Hx. unfold float_of_int16_exact in Hx.
  unfold float_mul in Ht.
  destruct (float_of_int16 v) as [sx|sx| |sx mx ex]; try discriminate.
  - destruct f as [s|s| |s m e]; cbn in Ht; try discriminate; try contradiction;
      inversion Ht; subst; lia.
  - apply andb_true_iff in Hx as [Hx Hmx]. apply andb_true_iff in Hx as [_ Hex].
    apply Z.leb_le in Hex. apply Z.eqb_eq in Hmx.
    destruct f as [s|s| |s m e]; try contradiction.
    + cbn in Ht. inversion Ht; subst. lia.
    + cbn in Ht. discriminate.
    + destruct Hf as (-> & He & Hm).
      cbn [SFmul] in Ht.
      assert (HV : 0 <= Z.abs v < 2 ^ 16).
      { unfold is_i16 in Hv. change (2 ^ 15) with 32768 in Hv.
        change (2 ^ 16) with 65536. lia. }
      assert (Hb : Zpos (mx * m) <= Z.abs v * 2 ^ (- (ex + e))).
      { rewrite Pos2Z.inj_mul, Hmx.
        replace (- (ex + e)) with (- ex + - e) by lia.
        rewrite Z.pow_add_r by lia.
        assert (0 <= Z.abs v * 2 ^ (- ex)) by (rewrite <- Hmx; lia).
        nia. }
      pose proof (round_aux_bound (xorb sx false) (Zpos (mx * m)) (ex + e) (Z.abs v)
                    ltac:(lia) ltac:(lia) HV Hb) as Hr.
      destruct (binary_round_aux 24 128 (xorb sx false) (Zpos (mx * m)) (ex + e) loc_Exact)
        as [s2|s2| |s2 m2 e2]; cbn [float_to_int16] in Ht; try discriminate.
      * inversion Ht; subst. lia.
      * destruct Hr as [He2 Hm2].
        destruct (_ && _); [|discriminate]. inversion Ht; subst.
        apply float_trunc_bound; lia.
Qed.

Lemma decay_score_bound f adz v v' :
  valid_binary 24 128 f = true ->
  SFltb f float_zero || SFltb float_one f = false ->
  is_i16 v -> decay_score f adz v = Some v' -> Z.abs v' <= Z.abs v.
Proof.
  intros Hvalid Hrange Hv. unfold decay_score.
  destruct (float_to_int16 _) as [t|] eqn:Ht; [|discriminate].
  apply (decay_product_bound f v t Hvalid Hrange Hv) in Ht.
  intros Heq; inversion Heq; subst.
  destruct (_ && _); [lia|]. destruct (_ && _); lia.
Qed.

(** * The symmetric score range *)

Lemma symmetric_zero : symmetric 0.
Proof. unfold symmetric, SAURON_SCORE_MIN, SAURON_SCORE_MAX. lia. Qed.

Lemma symmetric_clamp x : symmetric (clamp x).
Proof. apply clamp_range. Qed.

Lemma symmetric_i16 v : is_i16 v -> v <> INT16_MIN -> symmetric v.
Proof.
  unfold is_i16, INT16_MIN, symmetric, SAURON_SCORE_MIN, SAURON_SCORE_MAX.
  change (2 ^ 15) with 32768. lia.
Qed.

Lemma symmetric_is_i16 v : symmetric v -> is_i16 v.
Proof.
  unfold is_i16, symmetric, SAURON_SCORE_MIN, SAURON_SCORE_MAX.
  change (2 ^ 15) with 32768. lia.
Qed.

(** The cells of the blocks are the scores the addresses read. *)
Lemma cells_scores ctx : consistent ctx -> cells_symmetric ctx -> scores_symmetric ctx.
Proof.
  intros Hc Hcells p b blk Hl.
  destruct (cons_keys _ Hc _ _ _ Hl) as [Hp Hb].
  destruct (cons_block _ Hc _ _ _ Hl) as (Hlen & _ & _).
  apply Forall_lookup. intros i x Hx.
  assert (Hi : (i < Z.to_nat SCORES_PER_BLOCK)%nat).
  { rewrite <- Hlen. eapply lookup_lt_Some. eassumption. }
  assert (Hh : 0 <= Z.of_nat i < SCORES_PER_BLOCK) by lia.
  destruct (make_ip_parts p b (Z.of_nat i) Hp Hb Hh) as (Hu & H16 & Hbi & Hhi).
  pose proof (Hcells _ Hu) as Hs. unfold stored_score in Hs.
  rewrite H16, Hbi, Hhi, Hl in Hs. unfold block_score in Hs.
  rewrite Nat2Z.id, Hx in Hs. exact Hs.
Qed.

Section SymmetricProofs.
Context `{Platform}.

Lemma set_cells ctx ip score ip' :
  consistent ctx -> is_u32 ip -> is_i16 score -> is_u32 ip' ->
  stored_score (snd (sauron_set_u32 ctx ip score)) ip' = score \/
  stored_score (snd (sauron_set_u32 ctx ip score)) ip' = stored_score ctx ip'.
Proof.
  intros Hc Hip Hs Hip'. unfold sauron_set_u32.
  destruct (get_or_alloc_block ctx ip) as [[block|] ctx1] eqn:Hg.
  - pose proof (get_or_alloc_block_consistent _ _ _ _ Hc Hip Hg) as Hc1.
    destruct (get_or_alloc_block_spec _ _ _ _ Hg) as (_ & _ & _ & Hl & Hbit & _).
    destruct (update_counts _ _ _ _) as [b' c'] eqn:Hu. cbn [snd].
    destruct (write_back_spec ctx1 ip block score b' c' Hc1 Hip Hl Hbit Hs Hu)
      as (_ & Hst & Hfr & _).
    destruct (Z.eq_dec ip' ip) as [->|Hne]; [left; exact Hst|right].
    rewrite Hfr by assumption. eapply stored_score_alloc; eassumption.
  - right. cbn [snd]. eapply stored_score_alloc; eassumption.
Qed.

Lemma incr_cells ctx ip delta ip' :
  consistent ctx -> is_u32 ip -> is_u32 ip' ->
  (exists x, stored_score (snd (sauron_incr_u32 ctx ip delta)) ip' = clamp x) \/
  stored_score (snd (sauron_incr_u32 ctx ip delta)) ip' = stored_score ctx ip'.
Proof.
  intros Hc Hip Hip'. unfold sauron_incr_u32.
  destruct (delta =? 0); [right; reflexivity|].
  destruct (get_or_alloc_block ctx ip) as [[block|] ctx1] eqn:Hg.
  - pose proof (get_or_alloc_block_consistent _ _ _ _ Hc Hip Hg) as Hc1.
    destruct (get_or_alloc_block_spec _ _ _ _ Hg) as (_ & _ & _ & Hl & Hbit & _).
    destruct (update_counts _ _ _ _) as [b' c'] eqn:Hu. cbn [snd].
    assert (Hnew : is_i16 (saturating_add (block_score block (ip_to_host_idx ip)) delta))
      by (rewrite saturating_add_clamp; apply clamp_i16).
    destruct (write_back_spec ctx1 ip block _ b' c' Hc1 Hip Hl Hbit Hnew Hu)
      as (_ & Hst & Hfr & _).
    destruct (Z.eq_dec ip' ip) as [->|Hne].
    + left. rewrite Hst, saturating_add_clamp. eauto.
    + right. rewrite Hfr by assumption. eapply stored_score_alloc; eassumption.
  - right. cbn [snd]. eapply stored_score_alloc; eassumption.
Qed.

Lemma delete_cells ctx ip ip' :
  consistent ctx -> is_u32 ip -> is_u32 ip' ->
  stored_score (snd (sauron_delete_u32 ctx ip)) ip' = 0 \/
  stored_score (snd (sauron_delete_u32 ctx ip)) ip' = stored_score ctx ip'.
Proof.
  intros Hc Hip Hip'. unfold sauron_delete_u32.
  destruct (get_block ctx ip) as [block|] eqn:Hg; [|right; reflexivity].
  destruct (get_block_Some _ _ _ Hg) as [Hl Hbit].
  destruct (Z.eqb_spec (block_score block (ip_to_host_idx ip)) 0) as [|Hnz];
    [right; reflexivity|]. cbn [negb snd].
  assert (Hz : is_i16 0) by (unfold is_i16; lia).
  pose proof (write_back_spec ctx ip block 0 _ _ Hc Hip Hl Hbit Hz
                (eq_sym (delete_as_write ctx ip block Hnz))) as Hw.
  cbn zeta in Hw. destruct Hw as (_ & Hst & Hfr & _).
  destruct (Z.eq_dec ip' ip) as [->|Hne]; [left; exact Hst|right].
  apply Hfr; assumption.
Qed.

Lemma set_symmetric ctx ip score :
  consistent ctx -> is_u32 ip -> symmetric score ->
  cells_symmetric ctx -> cells_symmetric (snd (sauron_set_u32 ctx ip score)).
Proof.
  intros Hc Hip Hs Hcells ip' Hip'.
  destruct (set_cells ctx ip score ip' Hc Hip (symmetric_is_i16 _ Hs) Hip') as [->| ->];
    auto.
Qed.

Lemma incr_symmetric ctx ip delta :
  consistent ctx -> is_u32 ip ->
  cells_symmetric ctx -> cells_symmetric (snd (sauron_incr_u32 ctx ip delta)).
Proof.
  intros Hc Hip Hcells ip' Hip'.
  destruct (incr_cells ctx ip delta ip' Hc Hip Hip') as [[x ->]| ->];
    auto using symmetric_clamp.
Qed.

Lemma decr_symmetric ctx ip delta :
  consistent ctx -> is_u32 ip ->
  cells_symmetric ctx -> cells_symmetric (snd (sauron_decr_u32 ctx ip delta)).
Proof.
  intros Hc Hip Hcells. unfold sauron_decr_u32.
  destruct (delta =? INT16_MIN); apply incr_symmetric; assumption.
Qed.

Lemma delete_symmetric ctx ip :
  consistent ctx -> is_u32 ip ->
  cells_symmetric ctx -> cells_symmetric (snd (sauron_delete_u32 ctx ip)).
Proof.
  intros Hc Hip Hcells ip' Hip'.
  destruct (delete_cells ctx ip ip' Hc Hip Hip') as [->| ->];
    auto using symmetric_zero.
Qed.

Lemma incr_batch_symmetric ctx items :
  consistent ctx -> Forall (fun it => is_u32 (fst it) /\ is_i16 (snd it)) items ->
  cells_symmetric ctx -> cells_symmetric (snd (sauron_incr_batch ctx items)).
Proof.
  unfold sauron_incr_batch. generalize 0 as k. revert ctx.
  induction items as [|it items IH]; intros ctx k Hc Hall Hcells; simpl; [exact Hcells|].
  inversion Hall as [|? ? [Hip _] Hall']; subst.
  apply IH; [| assumption |]; cbn [snd].
  - apply incr_consistent; assumption.
  - apply incr_symmetric; assumption.
Qed.

Lemma clear_symmetric ctx : consistent ctx -> cells_symmetric (clear_blocks ctx).
Proof.
  intros Hc ip _. rewrite clear_blocks_stored by assumption. apply symmetric_zero.
Qed.

(** Decay never grows a score. *)
Lemma decay_symmetric ctx f d n ctx' :
  consistent ctx -> valid_binary 24 128 f = true ->
  sauron_decay ctx f d = Some (n, ctx') ->
  cells_symmetric ctx -> cells_symmetric ctx'.
Proof.
  intros Hc Hvalid Hd Hcells.
  destruct (SFltb f float_zero || SFltb float_one f) eqn:Hrange.
  - rewrite (sauron_decay_rejects ctx f d Hrange) in Hd.
    inversion Hd; subst. exact Hcells.
  - destruct (sauron_decay_spec ctx f d n ctx' Hc Hd) as (_ & _ & _ & Hrel).
    intros ip Hip. specialize (Hrel Hrange ip Hip). specialize (Hcells ip Hip).
    destruct Hrel as [[_ ->]|[_ Hdec]]; [apply symmetric_zero|].
    apply (decay_score_bound f _ _ _ Hvalid Hrange (symmetric_is_i16 _ Hcells)) in Hdec.
    unfold symmetric, SAURON_SCORE_MIN, SAURON_SCORE_MAX in *. lia.
Qed.

Lemma load_entries_symmetric fp :
  forall ctx remaining, consistent ctx -> entries_symmetric remaining fp ->
  cells_symmetric ctx -> cells_symmetric (snd (load_entries ctx remaining fp)).
Proof.
  assert (Hgen : forall n fp, (String.length fp < n)%nat ->
            forall ctx remaining, consistent ctx -> entries_symmetric remaining fp ->
            cells_symmetric ctx ->
            cells_symmetric (snd (load_entries ctx remaining fp))).
  { induction n as [|n IH]; intros fp0 Hlen ctx remaining Hc Hsym Hcells; [lia|].
    destruct fp0 as [|b0 [|b1 [|b2 [|b3 [|s0 [|s1 rest]]]]]];
      cbn [load_entries entries_symmetric] in *;
      destruct (remaining <=? 0); try exact Hcells.
    destruct Hsym as [Hs Hrest].
    assert (Hi : is_i16 (i16 (le_value (String s0 (String s1 EmptyString)))))
      by apply i16_range.
    apply IH; [cbn [String.length] in Hlen; lia| |exact Hrest|].
    - destruct (_ =? 0); [exact Hc|].
      apply set_consistent; [exact Hc|apply le_value_4_u32|exact Hi].
    - destruct (_ =? 0); [exact Hcells|].
      apply set_symmetric; [exact Hc|apply le_value_4_u32| |exact Hcells].
      apply symmetric_i16; assumption. }
  intros ctx remaining. apply (Hgen (S (String.length fp))). lia.
Qed.

Lemma load_symmetric ctx filename fs :
  consistent ctx ->
  match fs !! filename with Some fp => archive_symmetric fp | None => True end ->
  cells_symmetric ctx -> cells_symmetric (snd (sauron_load ctx filename fs)).
Proof.
  intros Hc Hsym Hcells. unfold sauron_load.
  destruct (fs !! filename) as [fp|]; [|exact Hcells].
  unfold archive_symmetric in Hsym.
  destruct (fread 4 fp) as [[magic fp1]|]; [|exact Hcells].
  destruct (fread 4 fp1) as [[version fp2]|]; [|exact Hcells].
  destruct (negb _); [exact Hcells|].
  destruct (_ || _); [exact Hcells|].
  destruct (fread 8 fp2) as [[entry_count fp3]|]; [|exact Hcells].
  destruct (_ >? _); [exact Hcells|].
  apply load_entries_symmetric;
    [apply clear_blocks_consistent; exact Hc|exact Hsym|apply clear_symmetric; exact Hc].
Qed.

(** The value loop of the bulk parser saturates at 32767. *)
Lemma parse_bulk_value_range p :
  forall v, 0 <= v <= 32767 -> 0 <= fst (parse_bulk_value p v) <= 32767.
Proof.
  induction p as [|c p IH]; intros v Hv; cbn [parse_bulk_value fst]; [exact Hv|].
  destruct (is_digit c) eqn:Hd; [|exact Hv].
  apply IH. unfold is_digit in Hd. apply andb_true_iff in Hd as [H0 H9].
  apply Z.leb_le in H0, H9.
  destruct (Z.gtb_spec (v * 10 + (char_code c - char_code "0")) 32767); lia.
Qed.

Lemma parse_bulk_line_symmetric line ip value is_relative :
  parse_bulk_line line = Some (ip, value, is_relative) -> symmetric value.
Proof.
  unfold parse_bulk_line.
  destruct (parse_bulk_ip _ 0 0 0 0) as [[[[[ip0 octet] dots] digits] p]|]; [|discriminate].
  destruct (_ || _); [discriminate|].
  destruct (skip_blanks p) as [|c p1]; [discriminate|].
  destruct (Ascii.eqb_spec c ","%char) as [->|Hne].
  2:{ intros Hx. exfalso.
      destruct c as [[] [] [] [] [] [] [] []]; try discriminate Hx. congruence. }
  destruct (match skip_blanks p1 with
            | String "+"%char p2 =>
                match p2 with
                | String "-"%char p3 => (true, true, p3)
                | _ => (true, false, p2)
                end
            | String "-"%char p2 => (false, true, p2)
            | _ => (false, false, skip_blanks p1)
            end) as [[rel neg] p4].
  destruct (negb (is_digit (peek p4))); [discriminate|].
  pose proof (parse_bulk_value_range p4 0 ltac:(lia)) as Hv.
  destruct (parse_bulk_value p4 0) as [value0 p5]. cbn [fst] in Hv.
  destruct (_ && _); [discriminate|].
  intros Heq; inversion Heq; subst.
  unfold symmetric, SAURON_SCORE_MIN, SAURON_SCORE_MAX.
  destruct neg; rewrite i16_id by (unfold is_i16; change (2 ^ 15) with 32768; lia); lia.
Qed.

Lemma bulk_apply_symmetric ctx stats ip value is_relative :
  is_u32 ip -> symmetric value ->
  bulk_state_ok (ctx, stats) ->
  bulk_state_ok (bulk_apply (ctx, stats) ip value is_relative).
Proof.
  intros Hip Hv [Hc Hcells]. cbn [fst] in *. unfold bulk_apply, bulk_state_ok.
  destruct is_relative; cbn [fst]; split.
  - apply incr_consistent; assumption.
  - apply incr_symmetric; assumption.
  - apply set_consistent; auto using symmetric_is_i16.
  - apply set_symmetric; assumption.
Qed.

Lemma bulk_buffer_line_symmetric st line :
  bulk_state_ok st -> bulk_state_ok (bulk_buffer_line st line).
Proof.
  destruct st as [ctx stats]. intros Hok. unfold bulk_buffer_line.
  destruct (_ || _); [exact Hok|].
  destruct (parse_bulk_line _) as [[[ip value] rel]|] eqn:Hp; [|exact Hok].
  pose proof (parse_bulk_line_symmetric _ _ _ _ Hp) as Hv.
  apply parse_bulk_line_typed in Hp as [Hip _].
  apply bulk_apply_symmetric; assumption.
Qed.

Lemma bulk_file_line_symmetric st line :
  bulk_state_ok st -> bulk_state_ok (bulk_file_line st line).
Proof.
  destruct st as [ctx stats]. intros Hok. unfold bulk_file_line.
  destruct (_ || _); [exact Hok|].
  destruct (parse_bulk_line _) as [[[ip value] rel]|] eqn:Hp; [|exact Hok].
  pose proof (parse_bulk_line_symmetric _ _ _ _ Hp) as Hv.
  apply parse_bulk_line_typed in Hp as [Hip _].
  apply bulk_apply_symmetric; assumption.
Qed.

Lemma bulk_load_buffer_symmetric ctx data :
  consistent ctx -> cells_symmetric ctx ->
  cells_symmetric (snd (fst (sauron_bulk_load_buffer ctx data))).
Proof.
  intros Hc Hcells. unfold sauron_bulk_load_buffer.
  pose proof (fold_left_preserves bulk_buffer_line bulk_state_ok
                (buffer_lines data EmptyString) bulk_buffer_line_symmetric
                (ctx, bulk_result_zero) (conj Hc Hcells)) as Hfold.
  destruct (fold_left _ _ _) as [ctx' stats]. exact (proj2 Hfold).
Qed.

Lemma bulk_load_symmetric ctx filename fs :
  consistent ctx -> cells_symmetric ctx ->
  cells_symmetric (snd (fst (sauron_bulk_load ctx filename fs))).
Proof.
  intros Hc Hcells. unfold sauron_bulk_load.
  destruct (fs !! filename) as [data|]; [|exact Hcells].
  destruct (heap_ok _ _); [|exact Hcells].
  pose proof (fold_left_preserves bulk_file_line bulk_state_ok
                (getline_lines data EmptyString) bulk_file_line_symmetric
                (ctx, bulk_result_zero) (conj Hc Hcells)) as Hfold.
  destruct (fold_left _ _ _) as [ctx' stats]. exact (proj2 Hfold).
Qed.

Lemma create_symmetric ctx : sauron_create = Some ctx -> cells_symmetric ctx.
Proof.
  unfold sauron_create. destruct (heap_ok _ _); [|discriminate].
  intros Heq; inversion Heq; subst. intros ip _.
  unfold stored_score, lookup_block. cbn [block_ptrs]. rewrite lookup_empty.
  apply symmetric_zero.
Qed.

Lemma run_op_symmetric ctx o ctx' :
  consistent ctx -> op_typed o -> op_symmetric o -> run_op ctx o = Some ctx' ->
  cells_symmetric ctx -> cells_symmetric ctx'.
Proof.
  intros Hc Hty Hsym. destruct o; cbn [run_op op_typed op_symmetric] in *.
  - destruct Hty. intros Heq; inversion Heq; subst.
    apply set_symmetric; auto using symmetric_i16.
  - destruct Hty. intros Heq; inversion Heq; subst. apply incr_symmetric; assumption.
  - destruct Hty. intros Heq; inversion Heq; subst. apply decr_symmetric; assumption.
  - intros Heq; inversion Heq; subst. apply delete_symmetric; assumption.
  - intros Heq; inversion Heq; subst. apply incr_batch_symmetric; assumption.
  - destruct Hty as [Hvalid _].
    destruct (sauron_decay ctx decay_factor deadzone) as [[n c]|] eqn:Hd; [|discriminate].
    intros Heq; inversion Heq; subst.
    eapply decay_symmetric; eassumption.
  - intros Heq; inversion Heq; subst. intros _. apply clear_symmetric; assumption.
  - intros Heq; inversion Heq; subst. apply load_symmetric; assumption.
  - intros Heq; inversion Heq; subst. apply bulk_load_symmetric; assumption.
  - intros Heq; inversion Heq; subst. apply bulk_load_buffer_symmetric; assumption.
Qed.

(** C5, as amended: when no [set] is given the score [INT16_MIN] and no
    loaded snapshot holds it, every cell of every block, after any
    sequence of operations, lies in [-32767, 32767], and so does every
    score read. *)
Theorem C5_cells_in_symmetric_range ctx :
  reachable_by (fun o => op_typed o /\ op_symmetric o) ctx ->
  scores_symmetric ctx /\
  forall a, is_u32 a -> SAURON_SCORE_MIN <= sauron_get_u32 ctx a <= SAURON_SCORE_MAX.
Proof.
  intros Hr.
  assert (Hty : forall o, op_typed o /\ op_symmetric o -> op_typed o) by (intros o [Ho _]; exact Ho).
  pose proof (reachable_by_consistent _ ctx Hty Hr) as Hc.
  assert (Hcells : cells_symmetric ctx).
  { clear Hc. induction Hr as [ctx Hcr|ctx o ctx' Hr IH [Ho Hs] Hrun].
    - apply create_symmetric. assumption.
    - apply (run_op_symmetric ctx o ctx'); try assumption.
      apply (reachable_by_consistent _ ctx Hty Hr). }
  split; [apply cells_scores; assumption|].
  intros a Ha. rewrite get_stored by assumption. apply Hcells. assumption.
Qed.

End SymmetricProofs.

(** The state after [set(10.0.0.1, -32767)]. *)
Lemma C5_witness :
  let ctx := snd (@sauron_set_u32 lp64 lp64_fresh 167772161 (-32767)) in
  @reachable_by lp64 (fun o => op_typed o /\ op_symmetric o) ctx /\
  scores_symmetric ctx /\
  forall a, is_u32 a ->
    SAURON_SCORE_MIN <= sauron_get_u32 ctx a <= SAURON_SCORE_MAX.
Proof.
  intros ctx.
  assert (H1 : @reachable_by lp64 (fun o => op_typed o /\ op_symmetric o) ctx).
  { apply (@reach_step lp64 _ lp64_fresh (op_set 167772161 (-32767))).
    - apply reach_create. reflexivity.
    - unfold op_typed, op_symmetric, is_u32, is_i16, INT16_MIN. lia.
    - reflexivity. }
  split; [exact H1|]. exact (@C5_cells_in_symmetric_range lp64 ctx H1).
Defined.

(** C5 as stated fails: [set] stores the score -32768 as it is. *)
Lemma C5_counterexample :
  let ctx := snd (@sauron_set_u32 lp64 lp64_fresh 167772161 INT16_MIN) in
  @reachable lp64 ctx /\
  sauron_get_u32 ctx 167772161 = -32768 /\
  ~ scores_symmetric ctx.
Proof.
  intros ctx.
  assert (Hget : sauron_get_u32 ctx 167772161 = -32768) by (vm_compute; reflexivity).
  split; [|split; [exact Hget|]].
  - apply (@reach_step lp64 op_typed lp64_fresh (op_set 167772161 INT16_MIN)).
    + apply reach_create. reflexivity.
    + unfold op_typed, is_u32, is_i16, INT16_MIN. lia.
    + reflexivity.
  - intros Hsym.
    destruct (lookup_block ctx 2560 0) as [b|] eqn:Hl; [|vm_compute in Hl; discriminate Hl].
    pose proof (Hsym 2560 0 b Hl) as Hall.
    assert (Hb : scores b !! 1%nat = Some (-32768)).
    { vm_compute in Hl. inversion Hl; subst. reflexivity. }
    rewrite Forall_lookup in Hall. specialize (Hall _ _ Hb).
    unfold SAURON_SCORE_MIN in Hall. lia.
Qed.

(** * Decay against its specification *)

Lemma abs_deadzone_abs d : is_i16 d -> d <> INT16_MIN -> abs_deadzone_of d = Z.abs d.
Proof.
  unfold is_i16, INT16_MIN, abs_deadzone_of. change (2 ^ 15) with 32768. intros Hd Hne.
  destruct (Z.ltb_spec d 0); [|lia].
  rewrite i16_id by (unfold is_i16; change (2 ^ 15) with 32768; lia). lia.
Qed.

(** For every deadzone but [INT16_MIN] the code snaps as specified. *)
Lemma decay_score_follows_spec f d v :
  is_i16 d -> d <> INT16_MIN ->
  decay_score f (abs_deadzone_of d) v = decayed_score_spec f d v.
Proof.
  intros Hd Hne. unfold decay_score, decayed_score_spec.
  rewrite (abs_deadzone_abs d Hd Hne).
  destruct (float_to_int16 _) as [t|]; [|reflexivity]. f_equal.
  destruct (Z.geb_spec t 0), (Z.leb_spec t (Z.abs d)), (Z.ltb_spec t 0),
    (Z.geb_spec t (- Z.abs d)), (Z.leb_spec (Z.abs t) (Z.abs d));
    cbn [andb]; try reflexivity; lia.
Qed.

(** With the deadzone [INT16_MIN] nothing is snapped. *)
Lemma decay_score_int16_min f v :
  decay_score f (abs_deadzone_of INT16_MIN) v =
  float_to_int16 (float_mul (float_of_int16 v) f).
Proof.
  unfold decay_score. change (abs_deadzone_of INT16_MIN) with (-32768).
  destruct (float_to_int16 _) as [t|] eqn:Ht; [|reflexivity]. f_equal.
  apply float_to_int16_range in Ht. unfold is_i16 in Ht.
  change (2 ^ 15) with 32768 in Ht.
  destruct (Z.geb_spec t 0), (Z.leb_spec t (-32768)), (Z.ltb_spec t 0),
    (Z.geb_spec t (- -32768)); cbn [andb]; try reflexivity; lia.
Qed.

Lemma decay_follows_spec ctx f d n ctx' :
  consistent ctx -> is_i16 d -> d <> INT16_MIN ->
  SFltb f float_zero || SFltb float_one f = false ->
  sauron_decay ctx f d = Some (n, ctx') ->
  forall a, is_u32 a -> sauron_get_u32 ctx a <> 0 ->
    decayed_score_spec f d (sauron_get_u32 ctx a) = Some (sauron_get_u32 ctx' a).
Proof.
  intros Hc Hd Hne Hrange Hdec a Ha Hnz.
  destruct (sauron_decay_spec ctx f d n ctx' Hc Hdec) as (Hc' & _ & _ & Hrel).
  specialize (Hrel Hrange a Ha).
  rewrite !get_stored in * by assumption.
  destruct Hrel as [[Hz _]|[_ Hs]]; [contradiction|].
  rewrite <- decay_score_follows_spec by assumption. exact Hs.
Qed.

(** Checked on every value of [int16_t]. *)
Lemma decay_one_checked :
  forallb decay_one_exact (count_from (-32768) (Z.to_nat 65536)) = true.
Proof. vm_compute. reflexivity. Qed.

Lemma decay_one_zero_score v : is_i16 v -> decay_score float_one 0 v = Some v.
Proof.
  intros Hv. pose proof decay_one_checked as Hall.
  rewrite forallb_forall in Hall.
  assert (Hin : In v (count_from (-32768) (Z.to_nat 65536))).
  { apply count_from_In. unfold is_i16 in Hv. change (2 ^ 15) with 32768 in Hv. lia. }
  specialize (Hall v Hin). unfold decay_one_exact in Hall.
  destruct (decay_score float_one 0 v) as [v'|]; [|discriminate Hall].
  apply Z.eqb_eq in Hall. congruence.
Qed.

Lemma stored_score_i16 ctx ip : consistent ctx -> is_i16 (stored_score ctx ip).
Proof.
  intros Hc. unfold stored_score.
  destruct (lookup_block ctx _ _) as [b|] eqn:Hl; [|unfold is_i16; lia].
  apply block_score_i16. eapply cons_block; eassumption.
Qed.

Lemma decay_one_zero_keeps_scores ctx n ctx' :
  consistent ctx -> sauron_decay ctx float_one 0 = Some (n, ctx') ->
  forall a, is_u32 a -> sauron_get_u32 ctx' a = sauron_get_u32 ctx a.
Proof.
  intros Hc Hdec a Ha.
  destruct (sauron_decay_spec ctx float_one 0 n ctx' Hc Hdec) as (Hc' & _ & _ & Hrel).
  specialize (Hrel eq_refl a Ha). rewrite !get_stored by assumption.
  change (abs_deadzone_of 0) with 0 in Hrel.
  destruct Hrel as [[-> ->]|[_ Hs]]; [reflexivity|].
  rewrite decay_one_zero_score in Hs by (apply stored_score_i16; assumption).
  congruence.
Qed.

(** C2: with the deadzone [INT16_MIN] the code and the specification part.
    [abs_deadzone] is computed as [(int16_t)(-deadzone)], which is -32768
    again, so no score is snapped: after [set(10.0.0.1, 5)],
    [decay(1.0, INT16_MIN)] modifies nothing and [get] still reads 5, where
    the specified deadzone of 32768 snaps the score to 0.  With the
    deadzone -32767 the same score is snapped. *)
Theorem C2_decay_deadzone_int16_min :
  let ctx := snd (@sauron_set_u32 lp64 lp64_fresh 167772161 5) in
  let observe r := (fst r, sauron_get_u32 (snd r) 167772161, sauron_count (snd r)) in
  abs_deadzone_of INT16_MIN = INT16_MIN /\
  decayed_score_spec float_one INT16_MIN 5 = Some 0 /\
  observe <$> sauron_decay ctx float_one INT16_MIN = Some (0, 5, 1) /\
  observe <$> sauron_decay ctx float_one (-32767) = Some (1, 0, 0).
Proof.
  intros ctx observe. split; [reflexivity|]. split; [reflexivity|].
  split; vm_compute; reflexivity.
Qed.

(** * Instances on the reference platform *)

(** [get_checked] on the new engine, before and after [set(10.0.0.1, 0)]. *)
Lemma C6_witness :
  @reachable lp64 lp64_fresh /\ is_u32 167772161 /\
  (sauron_get_u32 lp64_fresh 167772161 <> 0 ->
   sauron_get_ex lp64_fresh 167772161 =
     (SAURON_OK, Some (sauron_get_u32 lp64_fresh 167772161))) /\
  (sauron_get_u32 lp64_fresh 167772161 = 0 ->
   fst (sauron_get_ex lp64_fresh 167772161) = SAURON_ERR_INVALID) /\
  fst (sauron_get_ex (snd (@sauron_set_u32 lp64 lp64_fresh 167772161 0)) 167772161) =
    SAURON_ERR_INVALID.
Proof.
  assert (H1 : @reachable lp64 lp64_fresh) by (apply reach_create; reflexivity).
  assert (H2 : is_u32 167772161) by (unfold is_u32; lia).
  split; [exact H1|]. split; [exact H2|].
  exact (@C6_get_checked_zero_is_not_found lp64 lp64_fresh 167772161 H1 H2).
Defined.

(** C6 as stated fails: after [set(a, 0)], [get_checked(a)] reports
    not-found, the status it reports for an address never written. *)
Lemma C6_counterexample :
  let ctx := snd (@sauron_set_u32 lp64 lp64_fresh 167772161 0) in
  @reachable lp64 ctx /\
  sauron_get_ex ctx 167772161 = (SAURON_ERR_INVALID, None) /\
  sauron_get_ex ctx 167772161 <> (SAURON_OK, Some 0) /\
  fst (sauron_get_ex lp64_fresh 167772161) = SAURON_ERR_INVALID.
Proof.
  intros ctx.
  assert (Hget : sauron_get_ex ctx 167772161 = (SAURON_ERR_INVALID, None))
    by (vm_compute; reflexivity).
  split; [|split; [exact Hget|split]].
  - apply (@reach_step lp64 op_typed lp64_fresh (op_set 167772161 0)).
    + apply reach_create. reflexivity.
    + unfold op_typed, is_u32, is_i16. lia.
    + reflexivity.
  - rewrite Hget. discriminate.
  - vm_compute. reflexivity.
Qed.

(** [decrement(10.0.0.1, INT16_MIN)] on a new engine and on a state that
    holds a score there. *)
Lemma C7_witness :
  let ctx := snd (@sauron_set_u32 lp64 lp64_fresh 167772161 (-5)) in
  @reachable lp64 ctx /\ is_u32 167772161 /\
  @block_available lp64 ctx 167772161 /\
  fst (@sauron_decr_u32 lp64 ctx 167772161 INT16_MIN) =
    clamp (sauron_get_u32 ctx 167772161 + 32767) /\
  sauron_get_u32 (snd (@sauron_decr_u32 lp64 ctx 167772161 INT16_MIN)) 167772161 =
    clamp (sauron_get_u32 ctx 167772161 + 32767).
Proof.
  intros ctx.
  assert (H2 : @reachable lp64 ctx).
  { apply (@reach_step lp64 op_typed lp64_fresh (op_set 167772161 (-5))).
    - apply reach_create. reflexivity.
    - unfold op_typed, is_u32, is_i16. lia.
    - reflexivity. }
  assert (H3 : is_u32 167772161) by (unfold is_u32; lia).
  assert (H4 : @block_available lp64 ctx 167772161)
    by (vm_compute; eexists; reflexivity).
  split; [exact H2|]. split; [exact H3|]. split; [exact H4|].
  exact (proj1 (proj2 (proj2 (@C7_decrement_int16_min lp64 ctx 167772161)) H2 H3) H4).
Defined.

(** C7 as stated fails: on a heap that holds the context and the bitmap
    only, [decrement(10.0.0.1, INT16_MIN)] returns 0, not 32767, and [get]
    reads 0 afterwards. *)
Lemma C7_counterexample :
  let r := @sauron_decr_u32 lp64_tight lp64_tight_fresh 167772161 INT16_MIN in
  @reachable lp64_tight lp64_tight_fresh /\
  clamp (sauron_get_u32 lp64_tight_fresh 167772161 + 32767) = 32767 /\
  fst r = 0 /\ sauron_get_u32 (snd r) 167772161 = 0 /\
  fst r <> clamp (sauron_get_u32 lp64_tight_fresh 167772161 + 32767).
Proof.
  intros r. split; [apply reach_create; reflexivity|].
  vm_compute. repeat split; try reflexivity. discriminate.
Qed.

(** A snapshot of version 2 is rejected and the score stored before stays. *)
Lemma C9_witness :
  let fs : gmap string string := {[ "scores.dat" := bad_version_snapshot ]} in
  let ctx := snd (@sauron_set_u32 lp64 lp64_fresh 167772161 5) in
  fs !! "scores.dat" = Some bad_version_snapshot /\
  @sauron_load lp64 ctx "scores.dat" fs = (SAURON_ERR_INVALID, ctx).
Proof.
  intros fs ctx.
  assert (H1 : fs !! "scores.dat" = Some bad_version_snapshot) by reflexivity.
  split; [exact H1|].
  apply (@C9_load_rejects_bad_header lp64 ctx "scores.dat" fs "SAUR" 2 0 EmptyString).
  - exact H1.
  - reflexivity.
  - lia.
  - lia.
  - right. right. left. lia.
Defined.

(** [increment(10.0.0.1, 0)] after [set(10.0.0.1, 7)] returns 7 and changes
    nothing; on the new engine it returns 0 and allocates nothing, where
    [set(10.0.0.1, 0)] allocates the block. *)
Lemma C10_witness :
  let ctx := snd (@sauron_set_u32 lp64 lp64_fresh 167772161 7) in
  @reachable lp64 lp64_fresh /\ is_u32 167772161 /\ is_i16 7 /\
  @block_available lp64 lp64_fresh 167772161 /\
  lookup_block lp64_fresh (ip_to_prefix16 167772161) (ip_to_block_idx 167772161) = None /\
  @sauron_incr_u32 lp64 ctx 167772161 0 = (7, ctx) /\
  @sauron_incr_u32 lp64 lp64_fresh 167772161 0 = (0, lp64_fresh) /\
  let ctx' := snd (@sauron_set_u32 lp64 lp64_fresh 167772161 0) in
  is_Some (lookup_block ctx' (ip_to_prefix16 167772161) (ip_to_block_idx 167772161)) /\
  sauron_block_count ctx' = u64 (sauron_block_count lp64_fresh + 1).
Proof.
  intros ctx.
  assert (H1 : @reachable lp64 lp64_fresh) by (apply reach_create; reflexivity).
  assert (H2 : is_u32 167772161) by (unfold is_u32; lia).
  assert (H3 : is_i16 7) by (unfold is_i16; lia).
  assert (H4 : @block_available lp64 lp64_fresh 167772161)
    by (vm_compute; eexists; reflexivity).
  assert (H5 : lookup_block lp64_fresh (ip_to_prefix16 167772161)
                 (ip_to_block_idx 167772161) = None) by reflexivity.
  destruct (@C10_increment_zero_is_a_read lp64 lp64_fresh 167772161)
    as (Hread & Hvalue & Habsent).
  destruct (Hvalue H1 H2) as [_ Hafter].
  destruct (Habsent H5) as (Hzero & _ & Halloc).
  split; [exact H1|]. split; [exact H2|]. split; [exact H3|]. split; [exact H4|].
  split; [exact H5|]. split; [exact (Hafter 7 H3 H4)|].
  split; [rewrite Hread, Hzero; reflexivity|]. exact (Halloc H4).
Defined.

(** * Addresses as text *)

(** ** [sauron_ip_to_u32] *)

Lemma ip_loop_digits ds : forall rest result octet dots digits,
  all_digits ds = true -> 0 <= octet -> decimal_from octet ds <= 255 ->
  ip_to_u32_loop (String.append ds rest) result octet dots digits =
  ip_to_u32_loop rest result (decimal_from octet ds) dots
    (digits + Z.of_nat (String.length ds)).
Proof.
  induction ds as [|c ds IH]; intros rest result octet dots digits Hd Ho Hv.
  - rewrite append_nil_l. cbn [decimal_from String.length]. rewrite Z.add_0_r. reflexivity.
  - cbn [all_digits] in Hd. apply andb_true_iff in Hd as [Hc Hs].
    pose proof (is_digit_code c Hc) as Hr.
    destruct (digit_not_special c Hc) as (H0 & _).
    cbn [decimal_from] in Hv |- *.
    pose proof (decimal_from_ge (octet * 10 + (char_code c - char_code "0")) ds Hs
                  ltac:(lia)) as Hge.
    rewrite append_cons. cbn [ip_to_u32_loop]. rewrite H0, Hc.
    unfold u32. rewrite Z.mod_small by lia.
    destruct (Z.gtb_spec (octet * 10 + (char_code c - char_code "0")) 255); [lia|].
    rewrite IH by (try assumption; lia). f_equal. cbn [String.length]. lia.
Qed.

Lemma ip_loop_dot rest result octet dots digits :
  digits <> 0 -> dots < 3 ->
  ip_to_u32_loop (String "." rest) result octet dots digits =
  ip_to_u32_loop rest (u32 (Z.lor (Z.shiftl result 8) octet)) 0 (dots + 1) 0.
Proof.
  intros Hd Hdots. cbn [ip_to_u32_loop].
  change (Ascii.eqb "." NUL) with false.
  change (is_digit ".") with false. change (Ascii.eqb "." ".") with true. cbv iota.
  destruct (Z.eqb_spec digits 0); [contradiction|].
  destruct (Z.geb_spec dots 3); [lia|]. reflexivity.
Qed.

Lemma ipv4_octets a b c d :
  0 <= a <= 255 -> 0 <= b <= 255 -> 0 <= c <= 255 -> 0 <= d <= 255 ->
  u32 (Z.lor (Z.shiftl
         (u32 (Z.lor (Z.shiftl
            (u32 (Z.lor (Z.shiftl (u32 (Z.lor (Z.shiftl 0 8) a)) 8) b)) 8) c)) 8) d) =
  ipv4 a b c d.
Proof.
  intros Ha Hb Hc Hd.
  rewrite (octet_step 0) by (change (2 ^ 24) with 16777216; lia).
  rewrite (octet_step (0 * 2 ^ 8 + a))
    by (change (2 ^ 24) with 16777216; change (2 ^ 8) with 256; lia).
  rewrite (octet_step ((0 * 2 ^ 8 + a) * 2 ^ 8 + b))
    by (change (2 ^ 24) with 16777216; change (2 ^ 8) with 256; lia).
  rewrite (octet_step (((0 * 2 ^ 8 + a) * 2 ^ 8 + b) * 2 ^ 8 + c))
    by (change (2 ^ 24) with 16777216; change (2 ^ 8) with 256; lia).
  unfold ipv4.
  change (2 ^ 24) with (2 ^ 8 * 2 ^ 8 * 2 ^ 8). change (2 ^ 16) with (2 ^ 8 * 2 ^ 8). lia.
Qed.

Lemma parse_dotted o1 o2 o3 o4 :
  digit_field o1 -> digit_field o2 -> digit_field o3 -> digit_field o4 ->
  decimal o1 <= 255 -> decimal o2 <= 255 -> decimal o3 <= 255 -> decimal o4 <= 255 ->
  sauron_ip_to_u32 (dotted o1 o2 o3 o4) =
  ipv4 (decimal o1) (decimal o2) (decimal o3) (decimal o4).
Proof.
  intros F1 F2 F3 F4 V1 V2 V3 V4. unfold sauron_ip_to_u32, dotted, decimal in *.
  pose proof (digit_field_length _ F1). pose proof (digit_field_length _ F2).
  pose proof (digit_field_length _ F3). pose proof (digit_field_length _ F4).
  pose proof (decimal_from_ge 0 o1 (proj2 F1) ltac:(lia)).
  pose proof (decimal_from_ge 0 o2 (proj2 F2) ltac:(lia)).
  pose proof (decimal_from_ge 0 o3 (proj2 F3) ltac:(lia)).
  pose proof (decimal_from_ge 0 o4 (proj2 F4) ltac:(lia)).
  rewrite ip_loop_digits by (try apply F1; lia).
  rewrite ip_loop_dot by lia.
  rewrite ip_loop_digits by (try apply F2; lia).
  rewrite ip_loop_dot by lia.
  rewrite ip_loop_digits by (try apply F3; lia).
  rewrite ip_loop_dot by lia.
  match goal with
  | |- context [ip_to_u32_loop o4 ?r 0 ?d 0] =>
      pose proof (ip_loop_digits o4 EmptyString r 0 d 0 (proj2 F4) ltac:(lia) V4) as Hlast
  end.
  rewrite string_app_nil_r in Hlast. rewrite Hlast.
  cbn [ip_to_u32_loop].
  destruct (Z.eqb_spec (0 + Z.of_nat (String.length o4)) 0); [lia|].
  change (0 + 1 + 1 + 1 =? 3) with true. cbn [negb].
  apply ipv4_octets; lia.
Qed.

(** X1: A dotted quad of decimal octets is converted to its address. *)
Theorem ip_to_u32_dotted o1 o2 o3 o4 :
  digit_field o1 -> digit_field o2 -> digit_field o3 -> digit_field o4 ->
  decimal o1 <= 255 -> decimal o2 <= 255 -> decimal o3 <= 255 -> decimal o4 <= 255 ->
  sauron_ip_to_u32 (dotted o1 o2 o3 o4) =
  ipv4 (decimal o1) (decimal o2) (decimal o3) (decimal o4).
Proof. exact (parse_dotted o1 o2 o3 o4). Qed.

Lemma cstr_digits ds : all_digits ds = true -> cstr ds = ds.
Proof.
  induction ds as [|c ds IH]; intros Hd; cbn [cstr]; [reflexivity|].
  cbn [all_digits] in Hd. apply andb_true_iff in Hd as [Hc Hs].
  destruct (digit_not_special c Hc) as (-> & _). rewrite IH by assumption. reflexivity.
Qed.

(** One field of the loop of [sauron_ip_to_u32]: digits up to the end of
    the string or up to a dot. *)
Lemma ip_loop_shape s : forall result octet dots digits r' o' d' g',
  0 <= octet <= 255 ->
  ip_to_u32_loop s result octet dots digits = Some (r', o', d', g') ->
  exists ds tail,
    cstr s = String.append ds tail /\ all_digits ds = true /\
    decimal_from octet ds <= 255 /\
    ((tail = EmptyString /\ r' = result /\ o' = decimal_from octet ds /\ d' = dots /\
      g' = digits + Z.of_nat (String.length ds)) \/
     (exists s', tail = String "." (cstr s') /\
        digits + Z.of_nat (String.length ds) <> 0 /\ dots < 3 /\
        ip_to_u32_loop s' (u32 (Z.lor (Z.shiftl result 8) (decimal_from octet ds)))
          0 (dots + 1) 0 = Some (r', o', d', g'))).
Proof.
  induction s as [|c s IH]; intros result octet dots digits r' o' d' g' Ho Hloop.
  - cbn [ip_to_u32_loop] in Hloop. inversion Hloop; subst.
    exists EmptyString, EmptyString. cbn [cstr decimal_from all_digits String.length].
    split; [reflexivity|]. split; [reflexivity|]. split; [lia|]. left.
    repeat split; try reflexivity; lia.
  - cbn [ip_to_u32_loop cstr] in *.
    destruct (Ascii.eqb c NUL) eqn:Hnul.
    { inversion Hloop; subst. exists EmptyString, EmptyString.
      cbn [decimal_from all_digits String.length].
      split; [reflexivity|]. split; [reflexivity|]. split; [lia|]. left.
      repeat split; try reflexivity; lia. }
    destruct (is_digit c) eqn:Hc.
    + pose proof (is_digit_code c Hc) as Hr.
      unfold u32 in Hloop. rewrite Z.mod_small in Hloop by lia.
      destruct (Z.gtb_spec (octet * 10 + (char_code c - char_code "0")) 255) as [|Hle];
        [discriminate Hloop|].
      assert (Ho' : 0 <= octet * 10 + (char_code c - char_code "0") <= 255) by lia.
      destruct (IH _ _ _ _ _ _ _ _ Ho' Hloop)
        as (ds & tail & Hs & Hd & Hv & Hcases).
      exists (String c ds), tail. rewrite Hs, append_cons.
      cbn [all_digits decimal_from String.length]. rewrite Hc, Hd.
      split; [reflexivity|]. split; [reflexivity|]. split; [exact Hv|].
      destruct Hcases as [(-> & -> & -> & -> & ->)|(s' & -> & Hg & Hdots & Hrest)].
      * left. repeat split; try reflexivity; lia.
      * right. exists s'. repeat split; try assumption; lia.
    + destruct (Ascii.eqb_spec c ".") as [->|Hne]; [|discriminate Hloop].
      destruct (Z.eqb_spec digits 0) as [|Hg]; [discriminate Hloop|].
      destruct (Z.geb_spec dots 3) as [|Hdots]; [discriminate Hloop|].
      exists EmptyString, (String "." (cstr s)).
      cbn [decimal_from all_digits String.length]. rewrite append_nil_l.
      split; [reflexivity|]. split; [reflexivity|]. split; [lia|]. right.
      exists s. repeat split; try assumption; lia.
Qed.

Lemma nonempty_digits ds :
  all_digits ds = true -> 0 + Z.of_nat (String.length ds) <> 0 -> digit_field ds.
Proof.
  intros Hd Hlen. split; [|exact Hd]. intros ->. cbn [String.length] in Hlen. lia.
Qed.

Lemma parse_only_dotted s :
  sauron_ip_to_u32 s <> 0 ->
  exists o1 o2 o3 o4,
    cstr s = dotted o1 o2 o3 o4 /\
    digit_field o1 /\ digit_field o2 /\ digit_field o3 /\ digit_field o4 /\
    decimal o1 <= 255 /\ decimal o2 <= 255 /\ decimal o3 <= 255 /\ decimal o4 <= 255 /\
    sauron_ip_to_u32 s = ipv4 (decimal o1) (decimal o2) (decimal o3) (decimal o4).
Proof.
  unfold sauron_ip_to_u32.
  destruct (ip_to_u32_loop s 0 0 0 0) as [[[[r o] d] g]|] eqn:Hloop; [|congruence].
  destruct (Z.eqb_spec g 0) as [|Hg]; [congruence|].
  destruct (Z.eqb_spec d 3) as [->|]; cbn [negb]; [|congruence]. intros _.
  assert (Hz : 0 <= 0 <= 255) by lia.
  destruct (ip_loop_shape _ _ _ _ _ _ _ _ _ Hz Hloop)
    as (o1 & t1 & Hs1 & D1 & V1 & [(_ & _ & _ & Hbad & _)|(s1 & -> & G1 & _ & L1)]);
    [discriminate Hbad|].
  destruct (ip_loop_shape _ _ _ _ _ _ _ _ _ Hz L1)
    as (o2 & t2 & Hs2 & D2 & V2 & [(_ & _ & _ & Hbad & _)|(s2 & -> & G2 & _ & L2)]);
    [discriminate Hbad|].
  destruct (ip_loop_shape _ _ _ _ _ _ _ _ _ Hz L2)
    as (o3 & t3 & Hs3 & D3 & V3 & [(_ & _ & _ & Hbad & _)|(s3 & -> & G3 & _ & L3)]);
    [discriminate Hbad|].
  destruct (ip_loop_shape _ _ _ _ _ _ _ _ _ Hz L3)
    as (o4 & t4 & Hs4 & D4 & V4 & [(-> & -> & -> & _ & ->)|(s4 & _ & _ & Hbad & _)]);
    [|lia].
  pose proof (decimal_from_ge 0 o1 D1 ltac:(lia)).
  pose proof (decimal_from_ge 0 o2 D2 ltac:(lia)).
  pose proof (decimal_from_ge 0 o3 D3 ltac:(lia)).
  pose proof (decimal_from_ge 0 o4 D4 ltac:(lia)).
  exists o1, o2, o3, o4. unfold decimal, dotted.
  split.
  { rewrite Hs1, Hs2, Hs3, Hs4, string_app_nil_r. reflexivity. }
  repeat (split; [auto using nonempty_digits|]).
  apply ipv4_octets; lia.
Qed.

(** X2: Whatever [sauron_ip_to_u32] does not reject is a dotted quad of decimal
    octets, and the value returned is the address it denotes. *)
Theorem ip_to_u32_accepts_only_dotted s :
  sauron_ip_to_u32 s <> 0 ->
  exists o1 o2 o3 o4,
    cstr s = dotted o1 o2 o3 o4 /\
    digit_field o1 /\ digit_field o2 /\ digit_field o3 /\ digit_field o4 /\
    decimal o1 <= 255 /\ decimal o2 <= 255 /\ decimal o3 <= 255 /\ decimal o4 <= 255 /\
    sauron_ip_to_u32 s = ipv4 (decimal o1) (decimal o2) (decimal o3) (decimal o4).
Proof. exact (parse_only_dotted s). Qed.

(** ** [sauron_u32_to_ip] *)

Lemma string_length_app (a b : string) :
  String.length (String.append a b) = (String.length a + String.length b)%nat.
Proof.
  induction a as [|c a IH]; [rewrite append_nil_l; reflexivity|].
  rewrite append_cons. cbn [String.length]. rewrite IH. reflexivity.
Qed.

(** Checked on every octet. *)
Lemma octet_text_checked : forallb octet_text_ok (upto 256) = true.
Proof. vm_compute. reflexivity. Qed.

Lemma octet_text a :
  0 <= a <= 255 ->
  digit_field (pretty a) /\ decimal (pretty a) = a /\
  1 <= Z.of_nat (String.length (pretty a)) <= 3.
Proof.
  intros Ha. pose proof octet_text_checked as Hall. rewrite forallb_forall in Hall.
  assert (Hin : In a (upto 256)) by (apply upto_In; lia).
  specialize (Hall a Hin). unfold octet_text_ok in Hall.
  apply andb_true_iff in Hall as [Hall Hlen]. apply andb_true_iff in Hall as [Hall Hdec].
  apply andb_true_iff in Hall as [Hne Hd].
  apply Z.leb_le in Hlen. apply Z.eqb_eq in Hdec.
  assert (Hf : digit_field (pretty a)).
  { split; [|exact Hd]. intros Heq. rewrite Heq in Hne. discriminate Hne. }
  split; [exact Hf|]. split; [exact Hdec|].
  pose proof (digit_field_length _ Hf). lia.
Qed.

Lemma octets_of_address ip :
  is_u32 ip ->
  let a := Z.land (Z.shiftr ip 24) 255 in
  let b := Z.land (Z.shiftr ip 16) 255 in
  let c := Z.land (Z.shiftr ip 8) 255 in
  let d := Z.land ip 255 in
  0 <= a <= 255 /\ 0 <= b <= 255 /\ 0 <= c <= 255 /\ 0 <= d <= 255 /\
  ipv4 a b c d = ip.
Proof.
  intros Hip a b c d. unfold is_u32 in Hip. change (2 ^ 32) with 4294967296 in Hip.
  unfold a, b, c, d, ipv4. rewrite !land_255, !Z.shiftr_div_pow2 by lia.
  change (2 ^ 24) with 16777216. change (2 ^ 16) with 65536. change (2 ^ 8) with 256.
  pose proof (Z.mod_pos_bound (ip / 16777216) 256 ltac:(lia)).
  pose proof (Z.mod_pos_bound (ip / 65536) 256 ltac:(lia)).
  pose proof (Z.mod_pos_bound (ip / 256) 256 ltac:(lia)).
  pose proof (Z.mod_pos_bound ip 256 ltac:(lia)).
  repeat (split; [lia|]).
  pose proof (Z.div_mod ip 256 ltac:(lia)) as E0.
  pose proof (Z.div_mod (ip / 256) 256 ltac:(lia)) as E1.
  pose proof (Z.div_mod (ip / 65536) 256 ltac:(lia)) as E2.
  pose proof (Z.div_mod (ip / 16777216) 256 ltac:(lia)) as E3.
  rewrite Z.div_div in E1, E2, E3 by lia.
  change (256 * 256) with 65536 in E1. change (65536 * 256) with 16777216 in E2.
  change (16777216 * 256) with 4294967296 in E3.
  rewrite (Z.div_small ip 4294967296) in E3 by lia. lia.
Qed.

Lemma format_ip_dotted ip :
  format_ip ip =
  dotted (pretty (Z.land (Z.shiftr ip 24) 255)) (pretty (Z.land (Z.shiftr ip 16) 255))
    (pretty (Z.land (Z.shiftr ip 8) 255)) (pretty (Z.land ip 255)).
Proof. reflexivity. Qed.

Lemma dotted_length o1 o2 o3 o4 :
  Z.of_nat (String.length (dotted o1 o2 o3 o4)) =
  Z.of_nat (String.length o1) + Z.of_nat (String.length o2) +
  Z.of_nat (String.length o3) + Z.of_nat (String.length o4) + 3.
Proof.
  unfold dotted.
  repeat (rewrite string_length_app; cbn [String.length]). lia.
Qed.

Lemma format_then_parse ip :
  is_u32 ip ->
  sauron_u32_to_ip ip = format_ip ip /\
  7 <= Z.of_nat (String.length (sauron_u32_to_ip ip)) <= 15 /\
  sauron_ip_to_u32 (sauron_u32_to_ip ip) = ip.
Proof.
  intros Hip.
  destruct (octets_of_address ip Hip) as (Ha & Hb & Hc & Hd & Hval).
  destruct (octet_text _ Ha) as (Fa & Da & La).
  destruct (octet_text _ Hb) as (Fb & Db & Lb).
  destruct (octet_text _ Hc) as (Fc & Dc & Lc).
  destruct (octet_text _ Hd) as (Fd & Dd & Ld).
  assert (Hlen : 7 <= Z.of_nat (String.length (format_ip ip)) <= 15).
  { rewrite format_ip_dotted, dotted_length. lia. }
  assert (Hsame : sauron_u32_to_ip ip = format_ip ip).
  { unfold sauron_u32_to_ip. apply substring_whole. lia. }
  rewrite Hsame. split; [reflexivity|]. split; [exact Hlen|].
  rewrite format_ip_dotted, parse_dotted by (try assumption; lia).
  rewrite Da, Db, Dc, Dd. exact Hval.
Qed.

(** X3: The text of an address has between 7 and 15 characters, so the 16-byte
    buffer of [sauron_u32_to_ip] holds all of it, and [sauron_ip_to_u32]
    reads the address back. *)
Theorem u32_to_ip_round_trip ip :
  is_u32 ip ->
  sauron_u32_to_ip ip = format_ip ip /\
  7 <= Z.of_nat (String.length (sauron_u32_to_ip ip)) <= 15 /\
  sauron_ip_to_u32 (sauron_u32_to_ip ip) = ip.
Proof. exact (format_then_parse ip). Qed.

(** X4: [sauron_u32_to_ip_s] refuses a buffer of fewer than 16 bytes and
    otherwise writes the whole text and returns its length. *)
Theorem u32_to_ip_s_spec ip buf_size :
  is_u32 ip ->
  (buf_size < 16 -> sauron_u32_to_ip_s ip buf_size = (0, None)) /\
  (16 <= buf_size ->
   sauron_u32_to_ip_s ip buf_size =
     (Z.of_nat (String.length (sauron_u32_to_ip ip)), Some (sauron_u32_to_ip ip)) /\
   sauron_ip_to_u32 (sauron_u32_to_ip ip) = ip).
Proof.
  intros Hip. destruct (format_then_parse ip Hip) as (Hsame & Hlen & Hback).
  unfold sauron_u32_to_ip_s. split; intros Hb.
  - destruct (Z.ltb_spec buf_size 16); [reflexivity|lia].
  - destruct (Z.ltb_spec buf_size 16); [lia|]. split; [|exact Hback].
    rewrite Hsame in *. rewrite substring_whole by lia. reflexivity.
Qed.

(** ** The string interface *)

Section StringInterfaceProofs.
Context `{Platform}.

Lemma string_interface_at ctx s v :
  let a := sauron_ip_to_u32 s in
  (a <> 0 ->
   sauron_get ctx s = sauron_get_u32 ctx a /\
   sauron_set ctx s v = sauron_set_u32 ctx a v /\
   sauron_incr ctx s v = sauron_incr_u32 ctx a v /\
   sauron_decr ctx s v = sauron_decr_u32 ctx a v /\
   sauron_delete ctx s = sauron_delete_u32 ctx a) /\
  (a = 0 ->
   sauron_get ctx s = 0 /\
   sauron_set ctx s v = (0, ctx) /\
   sauron_incr ctx s v = (0, ctx) /\
   sauron_decr ctx s v = (0, ctx) /\
   sauron_delete ctx s = (SAURON_ERR_INVALID, ctx)).
Proof.
  intros a. unfold sauron_get, sauron_set, sauron_decr, sauron_incr, sauron_delete,
    sauron_decr_u32. fold a. split; intros Ha.
  - destruct (Z.eqb_spec a 0); [contradiction|].
    destruct (v =? INT16_MIN); auto.
  - rewrite Ha. cbn [Z.eqb]. destruct (v =? INT16_MIN); auto.
Qed.

(** X5: On a dotted quad of decimal octets other than [0.0.0.0] the string
    functions are the [uint32_t] functions at the address it denotes. *)
Theorem string_interface_dotted ctx o1 o2 o3 o4 v :
  digit_field o1 -> digit_field o2 -> digit_field o3 -> digit_field o4 ->
  decimal o1 <= 255 -> decimal o2 <= 255 -> decimal o3 <= 255 -> decimal o4 <= 255 ->
  let a := ipv4 (decimal o1) (decimal o2) (decimal o3) (decimal o4) in
  a <> 0 ->
  sauron_get ctx (dotted o1 o2 o3 o4) = sauron_get_u32 ctx a /\
  sauron_set ctx (dotted o1 o2 o3 o4) v = sauron_set_u32 ctx a v /\
  sauron_incr ctx (dotted o1 o2 o3 o4) v = sauron_incr_u32 ctx a v /\
  sauron_decr ctx (dotted o1 o2 o3 o4) v = sauron_decr_u32 ctx a v /\
  sauron_delete ctx (dotted o1 o2 o3 o4) = sauron_delete_u32 ctx a.
Proof.
  intros F1 F2 F3 F4 V1 V2 V3 V4 a Ha.
  pose proof (parse_dotted o1 o2 o3 o4 F1 F2 F3 F4 V1 V2 V3 V4) as Hparse.
  fold a in Hparse.
  destruct (string_interface_at ctx (dotted o1 o2 o3 o4) v) as [Hok _].
  cbv zeta in Hok. rewrite Hparse in Hok. apply Hok. exact Ha.
Qed.

(** X6: A text that is not a dotted quad of decimal octets, and the text of
    the address 0, is refused by the string functions: the getter and the
    writers return 0, [sauron_delete] returns the invalid-argument status,
    and the engine is left as it is. *)
Theorem string_interface_rejects ctx s v :
  (forall o1 o2 o3 o4,
     cstr s = dotted o1 o2 o3 o4 ->
     digit_field o1 -> digit_field o2 -> digit_field o3 -> digit_field o4 ->
     decimal o1 <= 255 -> decimal o2 <= 255 -> decimal o3 <= 255 -> decimal o4 <= 255 ->
     ipv4 (decimal o1) (decimal o2) (decimal o3) (decimal o4) = 0) ->
  sauron_get ctx s = 0 /\
  sauron_set ctx s v = (0, ctx) /\
  sauron_incr ctx s v = (0, ctx) /\
  sauron_decr ctx s v = (0, ctx) /\
  sauron_delete ctx s = (SAURON_ERR_INVALID, ctx).
Proof.
  intros Hbad.
  assert (Hzero : sauron_ip_to_u32 s = 0).
  { destruct (Z.eq_dec (sauron_ip_to_u32 s) 0) as [Hz|Hnz]; [exact Hz|].
    destruct (parse_only_dotted s Hnz)
      as (o1 & o2 & o3 & o4 & Hs & F1 & F2 & F3 & F4 & V1 & V2 & V3 & V4 & Hval).
    rewrite Hval. eapply Hbad; eassumption. }
  apply (string_interface_at ctx s v). exact Hzero.
Qed.

End StringInterfaceProofs.

(** * The writers, address by address *)

Section WriterEffects.
Context `{Platform}.

(** X7: [set] either stores the score at its address and returns the score
    that was there, or, when the block cannot be allocated, returns 0 and
    changes no score; in both cases every other address keeps its score. *)
Theorem set_writes_one_address ctx a v :
  reachable ctx -> is_u32 a -> is_i16 v ->
  let r := sauron_set_u32 ctx a v in
  (forall a', is_u32 a' -> a' <> a ->
     sauron_get_u32 (snd r) a' = sauron_get_u32 ctx a') /\
  (block_available ctx a ->
   fst r = sauron_get_u32 ctx a /\ sauron_get_u32 (snd r) a = v /\
   sauron_count (snd r) = sauron_count ctx - nz (sauron_get_u32 ctx a) + nz v) /\
  (~ block_available ctx a ->
   fst r = 0 /\ sauron_get_u32 (snd r) a = 0 /\ sauron_get_u32 ctx a = 0 /\
   sauron_count (snd r) = sauron_count ctx).
Proof.
  intros Hr Ha Hv r. pose proof (reachable_consistent _ Hr) as Hc.
  pose proof (set_consistent ctx a v Hc Ha Hv) as Hc'. fold r in Hc'.
  split; [|split].
  - intros a' Ha' Hne. rewrite !get_stored by assumption.
    apply set_keeps_others; assumption.
  - intros Hav.
    destruct (set_effect_local ctx a v Hc Ha Hv Hav) as (Hold & Hst & _ & _ & Hcnt & _).
    fold r in Hold, Hst, Hcnt. rewrite !get_stored by assumption.
    unfold sauron_count. auto.
  - intros Hno. destruct (block_unavailable_None ctx a Hno) as (ctx1 & Hg).
    unfold r, sauron_set_u32 in *. rewrite Hg in *. cbn [fst snd] in *.
    destruct (get_or_alloc_block_spec _ _ _ _ Hg) as (Hsc & _ & _ & _ & Hl0 & _).
    rewrite !get_stored by assumption.
    rewrite (stored_score_alloc _ _ _ _ a Hg). unfold sauron_count.
    assert (Hz : stored_score ctx a = 0) by (unfold stored_score; rewrite Hl0; reflexivity).
    rewrite Hz. auto.
Qed.

Lemma get_u32_block ctx a block :
  get_block ctx a = Some block ->
  sauron_get_u32 ctx a = block_score block (ip_to_host_idx a).
Proof. unfold sauron_get_u32. intros ->. reflexivity. Qed.

Lemma get_u32_none ctx a : get_block ctx a = None -> sauron_get_u32 ctx a = 0.
Proof. unfold sauron_get_u32. intros ->. reflexivity. Qed.

Lemma delete_u32_effect ctx a :
  reachable ctx -> is_u32 a ->
  let r := sauron_delete_u32 ctx a in
  fst r = SAURON_OK /\
  sauron_get_u32 (snd r) a = 0 /\
  (forall a', is_u32 a' -> a' <> a ->
     sauron_get_u32 (snd r) a' = sauron_get_u32 ctx a') /\
  sauron_count (snd r) = sauron_count ctx - nz (sauron_get_u32 ctx a) /\
  sauron_block_count (snd r) = sauron_block_count ctx /\
  sauron_memory_usage (snd r) = sauron_memory_usage ctx.
Proof.
  intros Hr Ha r. pose proof (reachable_consistent _ Hr) as Hc.
  pose proof (delete_consistent ctx a Hc Ha) as Hc'. fold r in Hc'.
  unfold r, sauron_delete_u32 in *.
  destruct (get_block ctx a) as [block|] eqn:Hg.
  - destruct (get_block_Some _ _ _ Hg) as [Hl Hbit].
    pose proof (get_u32_block _ _ _ Hg) as Hget.
    destruct (Z.eqb_spec (block_score block (ip_to_host_idx a)) 0) as [Hz|Hnz];
      cbn [negb fst snd] in *.
    + rewrite Hget, Hz. unfold nz. cbn [Z.eqb].
      repeat split; try reflexivity. lia.
    + assert (Hzero : is_i16 0) by (unfold is_i16; lia).
      pose proof (write_back_spec ctx a block 0 _ _ Hc Ha Hl Hbit Hzero
                    (eq_sym (delete_as_write ctx a block Hnz))) as Hw.
      cbn zeta in Hw. destruct Hw as (_ & Hst & Hfr & _ & Hcnt & Hbc & Hmem).
      split; [reflexivity|]. rewrite (get_stored _ a Hc') by assumption.
      split; [exact Hst|]. split.
      { intros a' Ha' Hne. rewrite !get_stored by assumption. apply Hfr; assumption. }
      unfold sauron_count, sauron_block_count, sauron_memory_usage.
      split; [|split; assumption]. rewrite Hcnt, Hget. unfold nz.
      destruct (Z.eqb_spec (block_score block (ip_to_host_idx a)) 0); [contradiction|].
      cbn [Z.eqb]. lia.
  - cbn [fst snd] in *. rewrite (get_u32_none _ _ Hg). unfold nz. cbn [Z.eqb].
    repeat split; try reflexivity. lia.
Qed.

(** X8: [delete] zeroes its address and no other, lowers the count by one when
    a score was stored, succeeds in every case, and neither allocates nor
    frees. *)
Theorem delete_effect ctx a :
  reachable ctx -> is_u32 a ->
  let r := sauron_delete_u32 ctx a in
  fst r = SAURON_OK /\
  sauron_get_u32 (snd r) a = 0 /\
  (forall a', is_u32 a' -> a' <> a ->
     sauron_get_u32 (snd r) a' = sauron_get_u32 ctx a') /\
  sauron_count (snd r) = sauron_count ctx - nz (sauron_get_u32 ctx a) /\
  sauron_block_count (snd r) = sauron_block_count ctx /\
  sauron_memory_usage (snd r) = sauron_memory_usage ctx.
Proof. exact (delete_u32_effect ctx a). Qed.

Lemma delete_of_zero ctx a :
  sauron_get_u32 ctx a = 0 -> sauron_delete_u32 ctx a = (SAURON_OK, ctx).
Proof.
  unfold sauron_get_u32, sauron_delete_u32.
  destruct (get_block ctx a) as [block|]; [|reflexivity].
  intros ->. reflexivity.
Qed.

(** X9: A second [delete] of the same address changes nothing. *)
Theorem delete_twice ctx a :
  reachable ctx -> is_u32 a ->
  sauron_delete_u32 (snd (sauron_delete_u32 ctx a)) a =
  (SAURON_OK, snd (sauron_delete_u32 ctx a)).
Proof.
  intros Hr Ha. apply delete_of_zero.
  apply (delete_u32_effect ctx a Hr Ha).
Qed.

Lemma incr_block_present ctx a d :
  d <> 0 -> block_available ctx a ->
  is_Some (lookup_block (snd (sauron_incr_u32 ctx a d))
             (ip_to_prefix16 a) (ip_to_block_idx a)).
Proof.
  intros Hd Hav. unfold sauron_incr_u32.
  destruct (Z.eqb_spec d 0); [contradiction|].
  destruct (block_available_Some ctx a Hav) as (block & c1 & Hg). rewrite Hg.
  destruct (update_counts _ _ _ _) as [b' c']. cbn [snd].
  rewrite lookup_store_block_eq. eauto.
Qed.

(** X10: An increment that gets its block and does not saturate is undone by
    the decrement of the same delta. *)
Theorem incr_then_decr ctx a d :
  reachable ctx -> is_u32 a -> is_i16 d -> d <> INT16_MIN ->
  block_available ctx a ->
  SAURON_SCORE_MIN <= sauron_get_u32 ctx a <= SAURON_SCORE_MAX ->
  SAURON_SCORE_MIN <= sauron_get_u32 ctx a + d <= SAURON_SCORE_MAX ->
  let ctx1 := snd (sauron_incr_u32 ctx a d) in
  fst (sauron_decr_u32 ctx1 a d) = sauron_get_u32 ctx a /\
  sauron_get_u32 (snd (sauron_decr_u32 ctx1 a d)) a = sauron_get_u32 ctx a.
Proof.
  intros Hr Ha Hd Hmin Hav Hx Hxd ctx1.
  pose proof (reachable_consistent _ Hr) as Hc.
  pose proof (incr_consistent ctx a d Hc Ha) as Hc1. fold ctx1 in Hc1.
  unfold sauron_decr_u32.
  destruct (Z.eqb_spec d INT16_MIN); [contradiction|].
  unfold is_i16, INT16_MIN in *. change (2 ^ 15) with 32768 in Hd.
  rewrite i16_id by (unfold is_i16; change (2 ^ 15) with 32768; lia).
  destruct (Z.eq_dec d 0) as [->|Hd0].
  - unfold ctx1, sauron_incr_u32. cbn [Z.eqb Z.opp fst snd]. split; reflexivity.
  - destruct (incr_effect_local ctx a d Hc Ha Hd0 Hav) as (_ & Hst & _).
    fold ctx1 in Hst.
    assert (Hav1 : block_available ctx1 a)
      by (apply block_available_present, incr_block_present; assumption).
    assert (Hneg : - d <> 0) by lia.
    destruct (incr_effect_local ctx1 a (- d) Hc1 Ha Hneg Hav1) as (Hret & Hst2 & _).
    rewrite get_stored in Hx, Hxd |- * by assumption.
    assert (Hval : clamp (stored_score ctx1 a + - d) = stored_score ctx a).
    { rewrite Hst. unfold clamp, SAURON_SCORE_MIN, SAURON_SCORE_MAX in *. lia. }
    split; [rewrite Hret; exact Hval|].
    rewrite get_stored; [rewrite Hst2; exact Hval| |exact Ha].
    apply incr_consistent; assumption.
Qed.

End WriterEffects.

(** * Allocation accounting *)

Lemma slot_present_bounds ctx p b : 0 <= slot_present ctx p b <= 1.
Proof. unfold slot_present. destruct (lookup_block ctx p b); lia. Qed.

Lemma array_present_bounds ctx p : 0 <= array_present ctx p <= 1.
Proof. unfold array_present. destruct (block_ptrs ctx !! p); lia. Qed.

Lemma allocated_blocks_bounds ctx : 0 <= allocated_blocks ctx <= 2 ^ 24.
Proof.
  unfold allocated_blocks.
  pose proof (sumZ_bounds (fun p => sumZ (slot_present ctx p) (upto BLOCKS_PER_16))
                (upto PREFIX16_COUNT) 256) as Hb.
  rewrite upto_length in Hb by (vm_compute; discriminate).
  change (256 * PREFIX16_COUNT) with (2 ^ 24) in Hb. apply Hb. intros p _.
  pose proof (sumZ_bounds (slot_present ctx p) (upto BLOCKS_PER_16) 1) as Hb1.
  rewrite upto_length in Hb1 by (vm_compute; discriminate).
  change (1 * BLOCKS_PER_16) with 256 in Hb1. apply Hb1. intros b _.
  apply slot_present_bounds.
Qed.

Lemma allocated_arrays_bounds ctx : 0 <= allocated_arrays ctx <= 2 ^ 16.
Proof.
  unfold allocated_arrays.
  pose proof (sumZ_bounds (array_present ctx) (upto PREFIX16_COUNT) 1) as Hb.
  rewrite upto_length in Hb by (vm_compute; discriminate).
  change (1 * PREFIX16_COUNT) with (2 ^ 16) in Hb. apply Hb. intros p _.
  apply array_present_bounds.
Qed.

Lemma allocated_blocks_update ctx ctx' p16 bi :
  0 <= p16 < PREFIX16_COUNT -> 0 <= bi < BLOCKS_PER_16 ->
  (forall p b, (p, b) <> (p16, bi) -> lookup_block ctx' p b = lookup_block ctx p b) ->
  allocated_blocks ctx' =
  allocated_blocks ctx - slot_present ctx p16 bi + slot_present ctx' p16 bi.
Proof.
  intros Hp Hb Hsame. unfold allocated_blocks.
  apply (sumZ_total_update (slot_present ctx) (slot_present ctx') p16 bi Hp Hb).
  intros p b Hne. unfold slot_present. rewrite Hsame by assumption. reflexivity.
Qed.

Lemma allocated_blocks_same ctx ctx' :
  (forall p b, slot_present ctx' p b = slot_present ctx p b) ->
  allocated_blocks ctx' = allocated_blocks ctx.
Proof.
  intros Hsame. unfold allocated_blocks.
  apply sumZ_ext. intros p _. apply sumZ_ext. intros b _. apply Hsame.
Qed.

Lemma allocated_arrays_same ctx ctx' :
  (forall p, array_present ctx' p = array_present ctx p) ->
  allocated_arrays ctx' = allocated_arrays ctx.
Proof. intros Hsame. unfold allocated_arrays. apply sumZ_ext. intros p _. apply Hsame. Qed.

Lemma allocated_arrays_update ctx ctx' p16 :
  0 <= p16 < PREFIX16_COUNT ->
  (forall p, p <> p16 -> array_present ctx' p = array_present ctx p) ->
  allocated_arrays ctx' =
  allocated_arrays ctx - array_present ctx p16 + array_present ctx' p16.
Proof.
  intros Hp Hsame. unfold allocated_arrays.
  apply (sumZ_update (array_present ctx) (array_present ctx') (upto PREFIX16_COUNT) p16).
  - apply upto_NoDup.
  - apply upto_In. assumption.
  - intros p Hne. symmetry. apply Hsame. assumption.
Qed.

(** ** States of the same shape *)

Lemma same_shape_refl ctx : same_shape ctx ctx.
Proof. repeat split. Qed.

Lemma same_shape_trans ctx1 ctx2 ctx3 :
  same_shape ctx1 ctx2 -> same_shape ctx2 ctx3 -> same_shape ctx1 ctx3.
Proof.
  intros (A1 & B1 & C1 & D1) (A2 & B2 & C2 & D2). repeat split.
  - intros p. rewrite A2. apply A1.
  - intros p b. rewrite B2. apply B1.
  - congruence.
  - congruence.
Qed.

Lemma same_shape_fields ctx ctx' :
  block_ptrs ctx' = block_ptrs ctx -> block_count ctx' = block_count ctx ->
  memory_used ctx' = memory_used ctx -> same_shape ctx ctx'.
Proof.
  intros Hbp Hbc Hmem. repeat split; try assumption.
  - intros p. unfold array_present. rewrite Hbp. reflexivity.
  - intros p b. unfold slot_present, lookup_block. rewrite Hbp. reflexivity.
Qed.

Lemma same_shape_score_count ctx n : same_shape ctx (with_score_count ctx n).
Proof. apply same_shape_fields; reflexivity. Qed.

Lemma same_shape_bitmap_clear ctx q : same_shape ctx (bitmap_clear ctx q).
Proof. apply same_shape_fields; reflexivity. Qed.

Lemma same_shape_bitmap_set ctx q : same_shape ctx (bitmap_set ctx q).
Proof. apply same_shape_fields; reflexivity. Qed.

(** Writing through an existing block pointer allocates nothing. *)
Lemma same_shape_store ctx p16 bi b :
  is_Some (lookup_block ctx p16 bi) -> same_shape ctx (store_block ctx p16 bi b).
Proof.
  intros [old Hold]. repeat split.
  - intros p. unfold array_present, store_block. cbn [block_ptrs with_block_ptrs].
    destruct (decide (p16 = p)) as [->|Hne].
    + rewrite lookup_insert_eq. unfold lookup_block in Hold.
      destruct (block_ptrs ctx !! p); [reflexivity|discriminate].
    + rewrite lookup_insert_ne by assumption. reflexivity.
  - intros p b'. unfold slot_present. rewrite lookup_store_block.
    destruct (decide ((p16, bi) = (p, b'))) as [Heq|Hne]; [|reflexivity].
    inversion Heq; subst. rewrite Hold. reflexivity.
Qed.

Lemma same_shape_present ctx ctx' p b :
  same_shape ctx ctx' ->
  (is_Some (lookup_block ctx' p b) <-> is_Some (lookup_block ctx p b)).
Proof.
  intros (_ & Hs & _). specialize (Hs p b). unfold slot_present in Hs.
  destruct (lookup_block ctx' p b), (lookup_block ctx p b); try discriminate;
    split; intros [x Hx]; try discriminate; eauto.
Qed.

Lemma same_shape_array ctx ctx' p :
  same_shape ctx ctx' ->
  (is_Some (block_ptrs ctx' !! p) <-> is_Some (block_ptrs ctx !! p)).
Proof.
  intros (Hs & _). specialize (Hs p). unfold array_present in Hs.
  destruct (block_ptrs ctx' !! p), (block_ptrs ctx !! p); try discriminate;
    split; intros [x Hx]; try discriminate; eauto.
Qed.

Lemma foldl_opt_preserves {A B : Type} (f : A -> B -> option A) (P : A -> Prop) l :
  (forall a x a', P a -> f a x = Some a' -> P a') ->
  forall a r, P a -> foldl_opt f a l = Some r -> P r.
Proof.
  intros Hstep. induction l as [|x l IH]; intros a r Ha; cbn [foldl_opt].
  - intros Heq; inversion Heq; subst. exact Ha.
  - destruct (f a x) as [a'|] eqn:Hf; [|discriminate]. apply IH. eauto.
Qed.

Lemma array_present_bitmap_set ctx q p :
  array_present (bitmap_set ctx q) p = array_present ctx p.
Proof. reflexivity. Qed.
Lemma array_present_memory_used ctx n p :
  array_present (with_memory_used ctx n) p = array_present ctx p.
Proof. reflexivity. Qed.
Lemma array_present_block_count ctx n p :
  array_present (with_block_count ctx n) p = array_present ctx p.
Proof. reflexivity. Qed.
Lemma array_present_store ctx p16 bi b p :
  array_present (store_block ctx p16 bi b) p =
  if decide (p16 = p) then 1 else array_present ctx p.
Proof.
  unfold array_present, store_block. cbn [block_ptrs with_block_ptrs].
  destruct (decide (p16 = p)) as [->|Hne].
  - rewrite lookup_insert_eq. reflexivity.
  - rewrite lookup_insert_ne by assumption. reflexivity.
Qed.
Lemma array_present_new_array ctx ctx0 p16 p :
  array_present (with_block_ptrs ctx (<[p16 := ∅]> (block_ptrs ctx0))) p =
  if decide (p16 = p) then 1 else array_present ctx0 p.
Proof.
  unfold array_present. cbn [block_ptrs with_block_ptrs].
  destruct (decide (p16 = p)) as [->|Hne].
  - rewrite lookup_insert_eq. reflexivity.
  - rewrite lookup_insert_ne by assumption. reflexivity.
Qed.

Section AccountingProofs.
Context `{Platform}.

Lemma accounted_same_shape ctx ctx' : same_shape ctx ctx' -> accounted ctx -> accounted ctx'.
Proof.
  intros (Ha & Hb & Hbc & Hmem) [Hc Hm]. unfold accounted.
  rewrite Hbc, Hmem, (allocated_blocks_same _ _ Hb), (allocated_arrays_same _ _ Ha).
  split; assumption.
Qed.

Lemma accounted_step ctx ctx' da db :
  accounted ctx ->
  allocated_arrays ctx' = allocated_arrays ctx + da ->
  allocated_blocks ctx' = allocated_blocks ctx + db ->
  block_count ctx' = u64 (block_count ctx + db) ->
  memory_used ctx' =
    u64 (memory_used ctx + da * (BLOCKS_PER_16 * sizeof_block_ptr) + db * sizeof_cidr_block) ->
  accounted ctx'.
Proof.
  intros [Hc Hm] Ha Hb Hbc Hmem. unfold accounted. split.
  - rewrite Hbc, Hc, <- Hb. unfold u64. apply Z.mod_small.
    pose proof (allocated_blocks_bounds ctx').
    change (2 ^ 24) with 16777216 in *. change (2 ^ 64) with 18446744073709551616. lia.
  - rewrite Hmem, Hm, Ha, Hb. unfold u64.
    rewrite <- Z.add_assoc, Zplus_mod_idemp_l. f_equal. lia.
Qed.

(** ** Allocation *)

Lemma alloc_block_accounted ctx p16 bi block :
  accounted ctx -> 0 <= p16 < PREFIX16_COUNT -> 0 <= bi < BLOCKS_PER_16 ->
  is_Some (block_ptrs ctx !! p16) -> lookup_block ctx p16 bi = None ->
  accounted
    (store_block
       (with_memory_used (with_block_count ctx (u64 (block_count ctx + 1)))
          (u64 (memory_used ctx + sizeof_cidr_block))) p16 bi block).
Proof.
  intros Hacc Hp Hb [arr Harr] Hl.
  apply (accounted_step ctx _ 0 1 Hacc).
  - rewrite Z.add_0_r. apply allocated_arrays_same. intros p.
    rewrite array_present_store, array_present_memory_used, array_present_block_count.
    destruct (decide (p16 = p)) as [<-|Hne]; [|reflexivity].
    unfold array_present. rewrite Harr. reflexivity.
  - rewrite (allocated_blocks_update ctx _ _ _ Hp Hb).
    + unfold slot_present. rewrite lookup_store_block_eq, Hl. lia.
    + intros p b Hne. rewrite lookup_store_block_ne by congruence. reflexivity.
  - reflexivity.
  - transitivity (u64 (memory_used ctx + sizeof_cidr_block)); [reflexivity|].
    f_equal. lia.
Qed.

Lemma alloc_array_accounted ctx p16 :
  accounted ctx -> 0 <= p16 < PREFIX16_COUNT -> block_ptrs ctx !! p16 = None ->
  accounted
    (with_block_ptrs
       (with_memory_used ctx (u64 (memory_used ctx + BLOCKS_PER_16 * sizeof_block_ptr)))
       (<[p16 := ∅]> (block_ptrs ctx))).
Proof.
  intros Hacc Hp Harr.
  apply (accounted_step ctx _ 1 0 Hacc).
  - rewrite (allocated_arrays_update ctx _ _ Hp).
    + rewrite array_present_new_array, decide_True by reflexivity.
      unfold array_present. rewrite Harr. lia.
    + intros p Hne. rewrite array_present_new_array, decide_False by congruence.
      reflexivity.
  - rewrite Z.add_0_r. apply allocated_blocks_same. intros p b.
    unfold slot_present.
    rewrite (lookup_block_new_array (with_memory_used ctx _) _ p b Harr).
    reflexivity.
  - transitivity (block_count ctx); [reflexivity|].
    rewrite Z.add_0_r. destruct Hacc as [Hc _]. rewrite Hc. unfold u64.
    symmetry. apply Z.mod_small. pose proof (allocated_blocks_bounds ctx).
    change (2 ^ 24) with 16777216 in *.
    change (2 ^ 64) with 18446744073709551616. lia.
  - transitivity (u64 (memory_used ctx + BLOCKS_PER_16 * sizeof_block_ptr));
      [reflexivity|]. f_equal. lia.
Qed.

Lemma get_or_alloc_block_accounted ctx ip r ctx1 :
  is_u32 ip -> accounted ctx ->
  get_or_alloc_block ctx ip = (r, ctx1) -> accounted ctx1.
Proof.
  intros Hip Hacc. pose proof (prefix16_range ip Hip) as Hp.
  pose proof (block_idx_range ip) as Hb.
  unfold get_or_alloc_block.
  destruct (lookup_block ctx (ip_to_prefix16 ip) (ip_to_block_idx ip)) as [b|] eqn:Hl.
  - destruct (_ =? 0); intros Heq; inversion Heq; subst; [|exact Hacc].
    apply (accounted_same_shape ctx); [|exact Hacc]. apply same_shape_bitmap_set.
  - unfold get_or_alloc_block_slow, alloc_block_ptr_array, alloc_cidr_block.
    pose proof Hl as Hl'. unfold lookup_block in Hl'.
    destruct (block_ptrs ctx !! ip_to_prefix16 ip) as [arr|] eqn:Harr.
    + rewrite Hl'.
      destruct (heap_ok (memory_used ctx) sizeof_cidr_block);
        intros Heq; inversion Heq as [[Hr Hctx]]; clear Heq; [|subst; exact Hacc].
      eapply accounted_same_shape; [apply same_shape_bitmap_set|].
      apply alloc_block_accounted; try assumption. rewrite Harr. eauto.
    + destruct (heap_ok (memory_used ctx) (BLOCKS_PER_16 * sizeof_block_ptr)).
      2:{ intros Heq; inversion Heq; subst. exact Hacc. }
      rewrite lookup_empty.
      pose proof (alloc_array_accounted ctx _ Hacc Hp Harr) as Hacca.
      set (ctxa := with_block_ptrs
                     (with_memory_used ctx
                        (u64 (memory_used ctx + BLOCKS_PER_16 * sizeof_block_ptr)))
                     (<[ip_to_prefix16 ip := ∅]> (block_ptrs ctx))) in *.
      assert (Hla : lookup_block ctxa (ip_to_prefix16 ip) (ip_to_block_idx ip) = None).
      { unfold ctxa. rewrite (lookup_block_new_array (with_memory_used ctx _) _ _ _ Harr).
        exact Hl. }
      assert (Hsa : is_Some (block_ptrs ctxa !! ip_to_prefix16 ip)).
      { unfold ctxa. cbn [block_ptrs with_block_ptrs]. rewrite lookup_insert_eq. eauto. }
      pose proof (alloc_block_accounted ctxa _ _
                    (mk_block (replicate (Z.to_nat SCORES_PER_BLOCK) 0) 0)
                    Hacca Hp Hb Hsa Hla) as Haccb.
      destruct (heap_ok _ sizeof_cidr_block);
        intros Heq; inversion Heq as [[Hr Hctx]]; clear Heq; [|exact Hacca].
      eapply accounted_same_shape; [apply same_shape_bitmap_set|]. exact Haccb.
Qed.
End AccountingProofs.

Section AccountingOfOperations.
Context `{Platform}.

Lemma update_counts_same_shape old new block ctx :
  same_shape ctx (snd (update_counts old new block ctx)).
Proof.
  unfold update_counts. destruct (_ && _); [|destruct (_ && _)]; cbn [snd];
    try apply same_shape_score_count. apply same_shape_refl.
Qed.

Lemma write_back_same_shape ctx p16 bi old new block b' c' :
  is_Some (lookup_block ctx p16 bi) ->
  update_counts old new block ctx = (b', c') ->
  same_shape ctx (store_block c' p16 bi b').
Proof.
  intros Hsome Hu.
  pose proof (update_counts_same_shape old new block ctx) as Hs. rewrite Hu in Hs.
  cbn [snd] in Hs. apply (same_shape_trans ctx c'); [exact Hs|].
  apply same_shape_store. apply (same_shape_present _ _ _ _ Hs). exact Hsome.
Qed.

Lemma set_accounted ctx ip score :
  is_u32 ip -> accounted ctx -> accounted (snd (sauron_set_u32 ctx ip score)).
Proof.
  intros Hip Hacc. unfold sauron_set_u32.
  destruct (get_or_alloc_block ctx ip) as [[block|] ctx1] eqn:Hg.
  - pose proof (get_or_alloc_block_accounted _ _ _ _ Hip Hacc Hg) as Hacc1.
    destruct (get_or_alloc_block_spec _ _ _ _ Hg) as (_ & _ & _ & Hl & _).
    destruct (update_counts _ _ _ _) as [b' c'] eqn:Hu. cbn [snd].
    apply (accounted_same_shape ctx1); [|exact Hacc1].
    eapply write_back_same_shape; [|exact Hu]. rewrite Hl. eauto.
  - cbn [snd]. eapply get_or_alloc_block_accounted; eassumption.
Qed.

Lemma incr_accounted ctx ip delta :
  is_u32 ip -> accounted ctx -> accounted (snd (sauron_incr_u32 ctx ip delta)).
Proof.
  intros Hip Hacc. unfold sauron_incr_u32.
  destruct (delta =? 0); [exact Hacc|].
  destruct (get_or_alloc_block ctx ip) as [[block|] ctx1] eqn:Hg.
  - pose proof (get_or_alloc_block_accounted _ _ _ _ Hip Hacc Hg) as Hacc1.
    destruct (get_or_alloc_block_spec _ _ _ _ Hg) as (_ & _ & _ & Hl & _).
    destruct (update_counts _ _ _ _) as [b' c'] eqn:Hu. cbn [snd].
    apply (accounted_same_shape ctx1); [|exact Hacc1].
    eapply write_back_same_shape; [|exact Hu]. rewrite Hl. eauto.
  - cbn [snd]. eapply get_or_alloc_block_accounted; eassumption.
Qed.

Lemma decr_accounted ctx ip delta :
  is_u32 ip -> accounted ctx -> accounted (snd (sauron_decr_u32 ctx ip delta)).
Proof.
  intros Hip Hacc. unfold sauron_decr_u32.
  destruct (delta =? INT16_MIN); apply incr_accounted; assumption.
Qed.

(** ** Operations that allocate nothing *)

Lemma delete_same_shape ctx ip : same_shape ctx (snd (sauron_delete_u32 ctx ip)).
Proof.
  unfold sauron_delete_u32.
  destruct (get_block ctx ip) as [block|] eqn:Hg; [|apply same_shape_refl].
  destruct (get_block_Some _ _ _ Hg) as [Hl _].
  destruct (negb _); [|apply same_shape_refl]. cbn [snd].
  apply (same_shape_trans ctx (with_score_count ctx (u64 (score_count ctx - 1))));
    [apply same_shape_score_count|].
  apply same_shape_store. rewrite lookup_block_score_count, Hl. eauto.
Qed.

Lemma clear_block_same_shape p16 ctx bi : same_shape ctx (clear_block p16 ctx bi).
Proof.
  unfold clear_block.
  destruct (lookup_block ctx p16 bi) as [block|] eqn:Hl; [|apply same_shape_refl].
  eapply same_shape_trans; [|apply same_shape_bitmap_clear].
  apply same_shape_store. rewrite Hl. eauto.
Qed.

Lemma fold_left_same_shape {B : Type} (f : sauron_ctx -> B -> sauron_ctx) (l : list B) :
  (forall c x, same_shape c (f c x)) -> forall ctx, same_shape ctx (fold_left f l ctx).
Proof.
  intros Hstep. induction l as [|x l IH]; intros ctx; cbn [fold_left].
  - apply same_shape_refl.
  - apply (same_shape_trans ctx (f ctx x)); [apply Hstep|apply IH].
Qed.

Lemma clear_prefix16_same_shape ctx p16 : same_shape ctx (clear_prefix16 ctx p16).
Proof.
  unfold clear_prefix16. destruct (block_ptrs ctx !! p16); [|apply same_shape_refl].
  apply fold_left_same_shape. intros c b. apply clear_block_same_shape.
Qed.

Lemma clear_blocks_same_shape ctx : same_shape ctx (clear_blocks ctx).
Proof.
  unfold clear_blocks.
  apply (same_shape_trans ctx (fold_left clear_prefix16 (upto PREFIX16_COUNT) ctx));
    [|apply same_shape_score_count].
  apply fold_left_same_shape. intros c p. apply clear_prefix16_same_shape.
Qed.

Lemma foldl_opt_same_shape {A B : Type} (f : A -> B -> option A) (g : A -> sauron_ctx)
    (l : list B) :
  (forall a x a', f a x = Some a' -> same_shape (g a) (g a')) ->
  forall a r, foldl_opt f a l = Some r -> same_shape (g a) (g r).
Proof.
  intros Hstep. induction l as [|x l IH]; intros a r; cbn [foldl_opt].
  - intros Heq; inversion Heq; subst. apply same_shape_refl.
  - destruct (f a x) as [a'|] eqn:Hf; [|discriminate]. intros Hrest.
    apply (same_shape_trans (g a) (g a')); [eapply Hstep; exact Hf|].
    apply IH. exact Hrest.
Qed.

Lemma decay_host_same_shape f adz st h st' :
  decay_host f adz st h = Some st' -> same_shape (snd (fst st)) (snd (fst st')).
Proof.
  destruct st as [[block ctx] m]. cbn [fst snd]. unfold decay_host.
  destruct (_ =? 0); [intros Heq; inversion Heq; subst; apply same_shape_refl|].
  destruct (decay_score _ _ _) as [v|]; [|discriminate].
  destruct (negb _); [|intros Heq; inversion Heq; subst; apply same_shape_refl].
  destruct (v =? 0); intros Heq; inversion Heq; subst; cbn [fst snd].
  - apply same_shape_score_count.
  - apply same_shape_refl.
Qed.

Lemma decay_block_same_shape f adz p16 st bi st' :
  decay_block f adz p16 st bi = Some st' -> same_shape (fst st) (fst st').
Proof.
  destruct st as [ctx m]. cbn [fst]. unfold decay_block.
  destruct (_ =? 0); [intros Heq; inversion Heq; subst; apply same_shape_refl|].
  destruct (lookup_block ctx p16 bi) as [block|] eqn:Hl;
    [|intros Heq; inversion Heq; subst; apply same_shape_refl].
  destruct (active_count block =? 0).
  { intros Heq; inversion Heq; subst. cbn [fst]. apply same_shape_bitmap_clear. }
  destruct (foldl_opt _ _ _) as [[[block' ctx'] m']|] eqn:Hf; [|discriminate].
  pose proof (foldl_opt_same_shape (decay_host f adz) (fun st => snd (fst st))
                (upto SCORES_PER_BLOCK) (decay_host_same_shape f adz)
                (block, ctx, m) (block', ctx', m') Hf) as Hloop.
  cbn [fst snd] in Hloop.
  assert (Hst : same_shape ctx (store_block ctx' p16 bi block')).
  { apply (same_shape_trans ctx ctx'); [exact Hloop|]. apply same_shape_store.
    apply (same_shape_present _ _ _ _ Hloop). rewrite Hl. eauto. }
  intros Heq; inversion Heq; subst. cbn [fst].
  destruct (active_count block' =? 0); [|exact Hst].
  eapply same_shape_trans; [exact Hst|]. apply same_shape_bitmap_clear.
Qed.

Lemma decay_prefix16_same_shape f adz st p16 st' :
  decay_prefix16 f adz st p16 = Some st' -> same_shape (fst st) (fst st').
Proof.
  unfold decay_prefix16.
  destruct (block_ptrs (fst st) !! p16);
    [|intros Heq; inversion Heq; subst; apply same_shape_refl].
  apply (foldl_opt_same_shape (decay_block f adz p16) fst (upto BLOCKS_PER_16)).
  intros a x a'. apply decay_block_same_shape.
Qed.

Lemma decay_same_shape ctx f d n ctx' :
  sauron_decay ctx f d = Some (n, ctx') -> same_shape ctx ctx'.
Proof.
  unfold sauron_decay. destruct (_ || _).
  { intros Heq; inversion Heq; subst. apply same_shape_refl. }
  destruct (foldl_opt _ _ _) as [[c m]|] eqn:Hf; [|discriminate].
  intros Heq; inversion Heq; subst.
  apply (foldl_opt_same_shape (decay_prefix16 f (abs_deadzone_of d)) fst
           (upto PREFIX16_COUNT)
           (fun a x a' => decay_prefix16_same_shape f (abs_deadzone_of d) a x a')
           (ctx, 0) (ctx', n) Hf).
Qed.

(** ** The loaders *)

Lemma load_entries_accounted fp :
  forall ctx remaining, accounted ctx ->
  accounted (snd (load_entries ctx remaining fp)).
Proof.
  assert (Hgen : forall n fp, (String.length fp < n)%nat ->
            forall ctx remaining, accounted ctx ->
            accounted (snd (load_entries ctx remaining fp))).
  { induction n as [|n IH]; intros fp0 Hlen ctx remaining Hc; [lia|].
    destruct fp0 as [|b0 [|b1 [|b2 [|b3 [|s0 [|s1 rest]]]]]];
      cbn [load_entries]; destruct (remaining <=? 0); try exact Hc.
    apply IH; [cbn [String.length] in Hlen; lia|].
    destruct (_ =? 0); [exact Hc|].
    apply set_accounted; [apply le_value_4_u32|exact Hc]. }
  intros ctx remaining. apply (Hgen (S (String.length fp))). lia.
Qed.

Lemma load_accounted ctx filename fs :
  accounted ctx -> accounted (snd (sauron_load ctx filename fs)).
Proof.
  intros Hc. unfold sauron_load.
  destruct (fs !! filename) as [fp|]; [|exact Hc].
  destruct (fread 4 fp) as [[magic fp1]|]; [|exact Hc].
  destruct (fread 4 fp1) as [[version fp2]|]; [|exact Hc].
  destruct (negb _); [exact Hc|].
  destruct (_ || _); [exact Hc|].
  destruct (fread 8 fp2) as [[entry_count fp3]|]; [|exact Hc].
  destruct (_ >? _); [exact Hc|].
  apply load_entries_accounted.
  apply (accounted_same_shape ctx); [apply clear_blocks_same_shape|exact Hc].
Qed.

Lemma bulk_apply_accounted ctx stats ip value is_relative :
  is_u32 ip -> accounted ctx ->
  accounted (fst (bulk_apply (ctx, stats) ip value is_relative)).
Proof.
  intros Hip Hc. unfold bulk_apply. destruct is_relative; cbn [fst].
  - apply incr_accounted; assumption.
  - apply set_accounted; assumption.
Qed.

Lemma bulk_buffer_line_accounted st line :
  accounted (fst st) -> accounted (fst (bulk_buffer_line st line)).
Proof.
  destruct st as [ctx stats]. cbn [fst]. intros Hc. unfold bulk_buffer_line.
  destruct (_ || _); [exact Hc|].
  destruct (parse_bulk_line _) as [[[ip value] rel]|] eqn:Hp; [|exact Hc].
  apply parse_bulk_line_typed in Hp as [Hip Hv].
  apply bulk_apply_accounted; assumption.
Qed.

Lemma bulk_file_line_accounted st line :
  accounted (fst st) -> accounted (fst (bulk_file_line st line)).
Proof.
  destruct st as [ctx stats]. cbn [fst]. intros Hc. unfold bulk_file_line.
  destruct (_ || _); [exact Hc|].
  destruct (parse_bulk_line _) as [[[ip value] rel]|] eqn:Hp; [|exact Hc].
  apply parse_bulk_line_typed in Hp as [Hip Hv].
  apply bulk_apply_accounted; assumption.
Qed.

Lemma bulk_load_buffer_accounted ctx data :
  accounted ctx -> accounted (snd (fst (sauron_bulk_load_buffer ctx data))).
Proof.
  intros Hc. unfold sauron_bulk_load_buffer.
  pose proof (fold_left_preserves bulk_buffer_line (fun st => accounted (fst st))
                (buffer_lines data EmptyString) bulk_buffer_line_accounted
                (ctx, bulk_result_zero) Hc) as Hfold.
  destruct (fold_left _ _ _) as [ctx' stats]. exact Hfold.
Qed.

Lemma bulk_load_accounted ctx filename fs :
  accounted ctx -> accounted (snd (fst (sauron_bulk_load ctx filename fs))).
Proof.
  intros Hc. unfold sauron_bulk_load.
  destruct (fs !! filename) as [data|]; [|exact Hc].
  destruct (heap_ok _ _); [|exact Hc].
  pose proof (fold_left_preserves bulk_file_line (fun st => accounted (fst st))
                (getline_lines data EmptyString) bulk_file_line_accounted
                (ctx, bulk_result_zero) Hc) as Hfold.
  destruct (fold_left _ _ _) as [ctx' stats]. exact Hfold.
Qed.

Lemma incr_batch_accounted ctx items :
  accounted ctx -> Forall (fun it => is_u32 (fst it) /\ is_i16 (snd it)) items ->
  accounted (snd (sauron_incr_batch ctx items)).
Proof.
  unfold sauron_incr_batch. generalize 0 as k. revert ctx.
  induction items as [|it items IH]; intros ctx k Hc Hall; simpl; [exact Hc|].
  inversion Hall as [|? ? [Hip _] Hall']; subst.
  apply IH; [|assumption]. cbn [snd]. apply incr_accounted; assumption.
Qed.

Lemma create_accounted ctx : sauron_create = Some ctx -> accounted ctx.
Proof.
  unfold sauron_create. destruct (heap_ok _ _); [|discriminate].
  intros Heq; inversion Heq; subst. unfold accounted.
  assert (Hb : allocated_blocks (mk_ctx ∅ ∅ 0 0 (u64 (sizeof_sauron_ctx + BITMAP_BYTES))) = 0).
  { unfold allocated_blocks. apply sumZ_zero. intros p _. apply sumZ_zero. intros b _.
    unfold slot_present, lookup_block. cbn [block_ptrs]. rewrite lookup_empty.
    reflexivity. }
  assert (Ha : allocated_arrays (mk_ctx ∅ ∅ 0 0 (u64 (sizeof_sauron_ctx + BITMAP_BYTES))) = 0).
  { unfold allocated_arrays. apply sumZ_zero. intros p _.
    unfold array_present. cbn [block_ptrs]. rewrite lookup_empty. reflexivity. }
  rewrite Ha, Hb. cbn [block_count memory_used]. split; [reflexivity|]. f_equal. lia.
Qed.

Lemma run_op_accounted ctx o ctx' :
  accounted ctx -> op_typed o -> run_op ctx o = Some ctx' -> accounted ctx'.
Proof.
  intros Hc Hty. destruct o; cbn [run_op op_typed] in *.
  - destruct Hty. intros Heq; inversion Heq; subst. apply set_accounted; assumption.
  - destruct Hty. intros Heq; inversion Heq; subst. apply incr_accounted; assumption.
  - destruct Hty. intros Heq; inversion Heq; subst. apply decr_accounted; assumption.
  - intros Heq; inversion Heq; subst.
    apply (accounted_same_shape ctx); [apply delete_same_shape|exact Hc].
  - intros Heq; inversion Heq; subst. apply incr_batch_accounted; assumption.
  - destruct (sauron_decay ctx decay_factor deadzone) as [[n c]|] eqn:Hd; [|discriminate].
    intros Heq; inversion Heq; subst.
    apply (accounted_same_shape ctx); [eapply decay_same_shape; exact Hd|exact Hc].
  - intros Heq; inversion Heq; subst.
    apply (accounted_same_shape ctx); [apply clear_blocks_same_shape|exact Hc].
  - intros Heq; inversion Heq; subst. apply load_accounted; assumption.
  - intros Heq; inversion Heq; subst. apply bulk_load_accounted; assumption.
  - intros Heq; inversion Heq; subst. apply bulk_load_buffer_accounted; assumption.
Qed.

(** X11: In every reachable state [block_count] is the number of allocated
    blocks (at most 2^24) and [memory_usage] is the size of the context and
    the bitmap plus the sizes of the allocated block-pointer arrays and
    blocks, as a [size_t]. *)
Theorem statistics_account_for_allocations ctx :
  reachable ctx ->
  sauron_block_count ctx = allocated_blocks ctx /\
  0 <= allocated_blocks ctx <= 2 ^ 24 /\ 0 <= allocated_arrays ctx <= 2 ^ 16 /\
  sauron_memory_usage ctx =
    u64 (sizeof_sauron_ctx + BITMAP_BYTES
         + allocated_arrays ctx * (BLOCKS_PER_16 * sizeof_block_ptr)
         + allocated_blocks ctx * sizeof_cidr_block).
Proof.
  intros Hr.
  assert (Hacc : accounted ctx).
  { induction Hr as [ctx Hcr|ctx o ctx' _ IH Ho Hrun].
    - apply create_accounted. assumption.
    - eapply run_op_accounted; eassumption. }
  destruct Hacc as [Hc Hm].
  split; [exact Hc|]. split; [apply allocated_blocks_bounds|].
  split; [apply allocated_arrays_bounds|exact Hm].
Qed.

(** X12: [delete], [clear] and [decay] neither allocate nor free: the same
    slots hold blocks afterwards, and [block_count] and [memory_usage] are
    unchanged. *)
Theorem delete_clear_decay_keep_allocations ctx ctx' :
  (exists a, ctx' = snd (sauron_delete_u32 ctx a)) \/
  ctx' = snd (sauron_clear ctx) \/
  (exists f d n, sauron_decay ctx f d = Some (n, ctx')) ->
  (forall p b, is_Some (lookup_block ctx' p b) <-> is_Some (lookup_block ctx p b)) /\
  sauron_block_count ctx' = sauron_block_count ctx /\
  sauron_memory_usage ctx' = sauron_memory_usage ctx.
Proof.
  intros Hop.
  assert (Hs : same_shape ctx ctx').
  { destruct Hop as [[a ->]|[->|(f & d & n & Hd)]].
    - apply delete_same_shape.
    - apply clear_blocks_same_shape.
    - eapply decay_same_shape. exact Hd. }
  split; [intros p b; apply same_shape_present; exact Hs|].
  destruct Hs as (_ & _ & Hbc & Hmem). split; assumption.
Qed.

End AccountingOfOperations.

(** * The conversions of the decay are defined *)

(** The rounded product of a 16-bit integer and a factor of at most 1 is a
    zero or a finite number with the sign of the integer. *)
Lemma round_aux_finite sx M E V :
  0 <= M -> E <= 0 -> 0 <= V < 2 ^ 16 -> M <= V * 2 ^ (- E) ->
  match binary_round_aux 24 128 sx M E loc_Exact with
  | S754_zero s => s = sx
  | S754_finite s m2 e2 => s = sx /\ e2 <= 0 /\ Zpos m2 <= V * 2 ^ (- e2)
  | _ => False
  end.
Proof.
  intros HM HE HV Hb. unfold binary_round_aux.
  pose proof (shr_fexp_bound M E V HM HE HV Hb) as H1. cbn zeta in H1.
  destruct (shr_fexp 24 128 M E loc_Exact) as [mrs1 e1]. cbn [fst snd] in H1.
  destruct H1 as (He1 & Hq1 & Hlo1 & Hhi1).
  pose proof (shr_fexp_bound
                (round_nearest_even (shr_m mrs1) (loc_of_shr_record mrs1)) e1 V
                ltac:(lia) He1 HV Hhi1) as H2. cbn zeta in H2.
  destruct (shr_fexp 24 128 _ e1 loc_Exact) as [mrs2 e2]. cbn [fst snd] in H2.
  destruct H2 as (He2 & Hq2 & Hlo2 & Hhi2).
  destruct (shr_m mrs2) as [|m2|m2]; [reflexivity| |lia].
  destruct (Z.leb_spec e2 (128 - 24)); [|lia].
  split; [reflexivity|]. split; [exact He2|lia].
Qed.

Lemma float_trunc_sign (s : bool) m e :
  if s then float_trunc s m e <= 0 else 0 <= float_trunc s m e.
Proof.
  unfold float_trunc.
  assert (0 <= Z.shiftl (Zpos m) e) by (apply Z.shiftl_nonneg; lia).
  destruct s; cbn [cond_Zopp]; lia.
Qed.

Lemma decay_product_defined f v :
  valid_binary 24 128 f = true -> f <> S754_nan ->
  SFltb f float_zero || SFltb float_one f = false ->
  is_i16 v ->
  exists t, float_to_int16 (float_mul (float_of_int16 v) f) = Some t.
Proof.
  intros Hvalid Hnan Hrange Hv.
  pose proof (factor_at_most_one f Hvalid Hrange) as Hf.
  pose proof (float_of_int16_spec v Hv) as Hx. unfold float_of_int16_exact in Hx.
  unfold float_mul.
  destruct (float_of_int16 v) as [sx|sx| |sx mx ex]; try discriminate.
  - destruct f as [s|s| |s m e]; try contradiction; try congruence;
      cbn; eexists; reflexivity.
  - apply andb_true_iff in Hx as [Hx Hmx]. apply andb_true_iff in Hx as [Hsx Hex].
    apply Z.leb_le in Hex. apply Z.eqb_eq in Hmx. apply Bool.eqb_prop in Hsx.
    destruct f as [s|s| |s m e]; try contradiction; try congruence.
    + cbn. eexists; reflexivity.
    + destruct Hf as (-> & He & Hm). cbn [SFmul]. rewrite xorb_false_r.
      assert (HV : 0 <= Z.abs v < 2 ^ 16).
      { unfold is_i16 in Hv. change (2 ^ 15) with 32768 in Hv.
        change (2 ^ 16) with 65536. lia. }
      assert (Hb : Zpos (mx * m) <= Z.abs v * 2 ^ (- (ex + e))).
      { rewrite Pos2Z.inj_mul, Hmx.
        replace (- (ex + e)) with (- ex + - e) by lia.
        rewrite Z.pow_add_r by lia.
        assert (0 <= Z.abs v * 2 ^ (- ex)) by (rewrite <- Hmx; lia).
        nia. }
      pose proof (round_aux_finite sx (Zpos (mx * m)) (ex + e) (Z.abs v)
                    ltac:(lia) ltac:(lia) HV Hb) as Hr.
      destruct (binary_round_aux 24 128 sx (Zpos (mx * m)) (ex + e) loc_Exact)
        as [s2|s2| |s2 m2 e2]; try contradiction.
      * cbn. eexists; reflexivity.
      * destruct Hr as (-> & He2 & Hm2). cbn [float_to_int16].
        pose proof (float_trunc_bound sx m2 e2 (Z.abs v) He2 ltac:(lia) Hm2) as Hab.
        pose proof (float_trunc_sign sx m2 e2) as Hsg.
        assert (Hin : INT16_MIN <= float_trunc sx m2 e2 <= INT16_MAX).
        { unfold INT16_MIN, INT16_MAX. unfold is_i16 in Hv.
          change (2 ^ 15) with 32768 in Hv. subst sx.
          destruct (Z.ltb_spec v 0); lia. }
        destruct (Z.leb_spec INT16_MIN (float_trunc sx m2 e2)); [|lia].
        destruct (Z.leb_spec (float_trunc sx m2 e2) INT16_MAX); [|lia].
        cbn [andb]. eexists; reflexivity.
Qed.

Lemma decay_score_defined f adz v :
  valid_binary 24 128 f = true -> f <> S754_nan ->
  SFltb f float_zero || SFltb float_one f = false ->
  is_i16 v ->
  exists v', decay_score f adz v = Some v'.
Proof.
  intros Hvalid Hnan Hrange Hv. unfold decay_score.
  destruct (decay_product_defined f v Hvalid Hnan Hrange Hv) as [t ->].
  eexists; reflexivity.
Qed.

Lemma decay_score_nan adz v : decay_score S754_nan adz v = None.
Proof.
  unfold decay_score, float_mul. destruct (float_of_int16 v); reflexivity.
Qed.

(** A loop whose body is defined on every state of an invariant runs to
    its end. *)
Lemma foldl_opt_progress {A B : Type} (step : A -> B -> option A)
    (Inv : A -> Prop) (P : B -> Prop) l :
  (forall a x, Inv a -> P x -> exists a', step a x = Some a' /\ Inv a') ->
  (forall x, In x l -> P x) ->
  forall a, Inv a -> exists a', foldl_opt step a l = Some a' /\ Inv a'.
Proof.
  intros Hstep. induction l as [|x l IH]; intros HP a Ha; cbn [foldl_opt].
  - exists a. split; [reflexivity|assumption].
  - destruct (Hstep a x Ha (HP x (or_introl eq_refl))) as (a1 & -> & Ha1).
    apply IH; [|assumption]. intros y Hy. apply HP. right. assumption.
Qed.

Lemma cells_typed_score block h : cells_typed block -> is_i16 (block_score block h).
Proof.
  intros [_ Hall]. unfold block_score.
  destruct (scores block !! Z.to_nat h) as [x|] eqn:Hx; cbn [default].
  - eapply Forall_lookup_1; eassumption.
  - unfold is_i16. lia.
Qed.

Lemma cells_typed_store block h v n :
  cells_typed block -> is_i16 v ->
  cells_typed (with_active_count (block_store block h v) n) /\
  cells_typed (block_store block h v).
Proof.
  intros [Hlen Hall] Hv. unfold cells_typed, with_active_count, block_store.
  cbn [scores]. rewrite length_insert.
  split; (split; [assumption|apply Forall_insert; assumption]).
Qed.

Section DecayDefined.
Variable f : spec_float.
Variable adz : Z.
Hypothesis Hvalid : valid_binary 24 128 f = true.
Hypothesis Hnan : f <> S754_nan.
Hypothesis Hrange : SFltb f float_zero || SFltb float_one f = false.

Lemma decay_host_defined st h :
  cells_typed (fst (fst st)) ->
  exists st', decay_host f adz st h = Some st' /\ cells_typed (fst (fst st')).
Proof.
  destruct st as [[block ctx] m]. cbn [fst]. intros Ht. unfold decay_host.
  destruct (block_score block h =? 0); [eexists; split; [reflexivity|assumption]|].
  destruct (decay_score_defined f adz (block_score block h) Hvalid Hnan Hrange
              (cells_typed_score block h Ht)) as [new Hnew].
  rewrite Hnew. pose proof (decay_score_i16 _ _ _ _ Hnew) as Hi.
  destruct (negb (new =? block_score block h));
    [|eexists; split; [reflexivity|assumption]].
  destruct (new =? 0); eexists; (split; [reflexivity|]); cbn [fst];
    apply cells_typed_store; assumption.
Qed.

Lemma decay_block_defined p ctx m b :
  consistent ctx -> 0 <= p < PREFIX16_COUNT -> 0 <= b < BLOCKS_PER_16 ->
  exists st', decay_block f adz p (ctx, m) b = Some st' /\ consistent (fst st').
Proof.
  intros Hc Hp Hb.
  assert (Hdef : exists st', decay_block f adz p (ctx, m) b = Some st').
  { unfold decay_block.
    destruct (bitmap_test ctx (make_prefix24 p b) =? 0); [eexists; reflexivity|].
    destruct (lookup_block ctx p b) as [block|] eqn:Hl; [|eexists; reflexivity].
    destruct (active_count block =? 0); [eexists; reflexivity|].
    destruct (foldl_opt_progress (decay_host f adz)
                (fun st => cells_typed (fst (fst st))) (fun _ => True)
                (upto SCORES_PER_BLOCK)
                (fun st h Hst _ => decay_host_defined st h Hst)
                (fun _ _ => I) (block, ctx, m)) as ([[block' ctx'] m'] & -> & _).
    - cbn [fst]. destruct (cons_block _ Hc _ _ _ Hl) as (Hlen & Hall & _).
      split; assumption.
    - eexists; reflexivity. }
  destruct Hdef as [[ctx' m'] Hst]. exists (ctx', m'). split; [exact Hst|].
  cbn [fst]. apply (decay_block_spec f adz p b ctx m ctx' m' Hc Hp Hb Hst).
Qed.

Lemma decay_prefix16_defined ctx m p :
  consistent ctx -> 0 <= p < PREFIX16_COUNT ->
  exists st', decay_prefix16 f adz (ctx, m) p = Some st' /\ consistent (fst st').
Proof.
  intros Hc Hp. unfold decay_prefix16. cbn [fst].
  destruct (block_ptrs ctx !! p); [|eexists; split; [reflexivity|assumption]].
  apply (foldl_opt_progress (decay_block f adz p)
           (fun st => consistent (fst st)) (fun b => 0 <= b < BLOCKS_PER_16)).
  - intros [c m0] b Hst Hb. apply decay_block_defined; assumption.
  - intros b Hb. apply upto_In. assumption.
  - assumption.
Qed.

Lemma decay_sweep_defined ctx m :
  consistent ctx ->
  exists st', foldl_opt (decay_prefix16 f adz) (ctx, m) (upto PREFIX16_COUNT) = Some st'.
Proof.
  intros Hc.
  destruct (foldl_opt_progress (decay_prefix16 f adz)
              (fun st => consistent (fst st)) (fun p => 0 <= p < PREFIX16_COUNT)
              (upto PREFIX16_COUNT)) with (a := (ctx, m)) as (st' & Hst & _).
  - intros [c m0] p Hst Hp. apply decay_prefix16_defined; assumption.
  - intros p Hp. apply upto_In. assumption.
  - assumption.
  - exists st'. exact Hst.
Qed.

End DecayDefined.

Lemma sauron_decay_defined ctx f d :
  consistent ctx -> valid_binary 24 128 f = true -> f <> S754_nan ->
  exists n ctx', sauron_decay ctx f d = Some (n, ctx').
Proof.
  intros Hc Hvalid Hnan. unfold sauron_decay.
  destruct (SFltb f float_zero || SFltb float_one f) eqn:Hrange;
    [eexists; eexists; reflexivity|].
  destruct (decay_sweep_defined f (abs_deadzone_of d) Hvalid Hnan Hrange ctx 0 Hc)
    as [[ctx' n] ->].
  eexists; eexists; reflexivity.
Qed.

Section DecayTheorems.
Context `{Platform}.

(** X13: With a factor that is a number, every conversion [sauron_decay]
    performs is defined: the call returns, whatever the deadzone.  The
    product of a score and a factor of [0, 1], rounded to binary32, never
    leaves the range of [int16_t]. *)
Theorem decay_is_defined ctx f d :
  reachable ctx -> valid_binary 24 128 f = true -> f <> S754_nan ->
  exists n ctx', sauron_decay ctx f d = Some (n, ctx').
Proof.
  intros Hr Hvalid Hnan. apply sauron_decay_defined; try assumption.
  apply reachable_consistent. assumption.
Qed.

(** X14: A NaN factor passes the range check of [sauron_decay], since both
    comparisons are false; the conversion of the product to [int16_t] is
    then undefined as soon as the engine holds one non-zero score. *)
Theorem decay_nan_is_undefined ctx a d :
  reachable ctx -> is_u32 a -> sauron_get_u32 ctx a <> 0 ->
  sauron_decay ctx S754_nan d = None.
Proof.
  intros Hr Ha Hnz. pose proof (reachable_consistent _ Hr) as Hc.
  destruct (sauron_decay ctx S754_nan d) as [[n ctx']|] eqn:Hd; [|reflexivity].
  exfalso.
  destruct (sauron_decay_spec ctx S754_nan d n ctx' Hc Hd) as (_ & _ & _ & Hrel).
  specialize (Hrel eq_refl a Ha).
  rewrite get_stored in Hnz by assumption.
  destruct Hrel as [[Hz _]|[_ Hs]]; [contradiction|].
  rewrite decay_score_nan in Hs. discriminate.
Qed.

End DecayTheorems.

(** * Clearing and decaying, as a user sees them *)

Lemma sumZ_le f g l : (forall x, In x l -> f x <= g x) -> sumZ f l <= sumZ g l.
Proof.
  induction l as [|x l IH]; intros Hle; cbn [sumZ fold_right]; [lia|].
  assert (Hx : f x <= g x) by (apply Hle; left; reflexivity).
  assert (Hl : sumZ f l <= sumZ g l) by (apply IH; intros y Hy; apply Hle; right; exact Hy).
  unfold sumZ in Hl. lia.
Qed.

(** Fewer non-zero cells when every zero cell stays zero. *)
Lemma nonzero_addresses_le ctx ctx' :
  (forall a, is_u32 a -> stored_score ctx a = 0 -> stored_score ctx' a = 0) ->
  nonzero_addresses ctx' <= nonzero_addresses ctx.
Proof.
  intros Hzero. unfold nonzero_addresses.
  apply sumZ_le. intros p Hp. apply upto_In in Hp.
  apply sumZ_le. intros b Hb. apply upto_In in Hb.
  apply sumZ_le. intros h Hh. apply upto_In in Hh.
  destruct (make_ip_parts p b h Hp Hb Hh) as (Hu & _).
  specialize (Hzero _ Hu).
  destruct (Z.eqb_spec (stored_score ctx (make_ip p b h)) 0) as [Hz|Hnz].
  - rewrite Hzero by assumption. cbn [Z.eqb]. lia.
  - destruct (_ =? 0); lia.
Qed.

Section ClearAndDecay.
Context `{Platform}.

(** X15: After [clear] every address reads 0, [get_checked] finds nothing, the
    count is 0, and the blocks stay allocated: the same slots hold blocks
    and [block_count] and [memory_usage] are unchanged. *)
Theorem clear_effect ctx :
  reachable ctx ->
  let r := sauron_clear ctx in
  fst r = SAURON_OK /\
  (forall a, is_u32 a ->
     sauron_get_u32 (snd r) a = 0 /\ fst (sauron_get_ex (snd r) a) = SAURON_ERR_INVALID) /\
  sauron_count (snd r) = 0 /\
  (forall p b, is_Some (lookup_block (snd r) p b) <-> is_Some (lookup_block ctx p b)) /\
  sauron_block_count (snd r) = sauron_block_count ctx /\
  sauron_memory_usage (snd r) = sauron_memory_usage ctx.
Proof.
  intros Hr r. pose proof (reachable_consistent _ Hr) as Hc.
  pose proof (clear_blocks_consistent ctx Hc) as Hc'.
  pose proof (clear_blocks_same_shape ctx) as Hs.
  unfold r, sauron_clear. cbn [fst snd].
  split; [reflexivity|]. split.
  { intros a Ha.
    assert (Hget : sauron_get_u32 (clear_blocks ctx) a = 0).
    { rewrite get_stored by assumption. apply clear_blocks_stored. assumption. }
    split; [exact Hget|]. rewrite get_ex_by_get, Hget. reflexivity. }
  split; [apply clear_blocks_count|].
  split; [intros p b; apply same_shape_present; exact Hs|].
  destruct Hs as (_ & _ & Hbc & Hmem). split; assumption.
Qed.

Lemma decay_shrinks_scores ctx f d n ctx' :
  reachable ctx -> valid_binary 24 128 f = true ->
  sauron_decay ctx f d = Some (n, ctx') ->
  (forall a, is_u32 a -> Z.abs (sauron_get_u32 ctx' a) <= Z.abs (sauron_get_u32 ctx a)) /\
  sauron_count ctx' <= sauron_count ctx.
Proof.
  intros Hr Hvalid Hd. pose proof (reachable_consistent _ Hr) as Hc.
  destruct (sauron_decay_spec ctx f d n ctx' Hc Hd) as (Hc' & _ & _ & Hrel).
  assert (Hcells : forall a, is_u32 a ->
            Z.abs (stored_score ctx' a) <= Z.abs (stored_score ctx a)).
  { destruct (SFltb f float_zero || SFltb float_one f) eqn:Hrange.
    - rewrite (sauron_decay_rejects ctx f d Hrange) in Hd.
      inversion Hd; subst. intros a _. lia.
    - intros a Ha. destruct (Hrel eq_refl a Ha) as [[-> ->]|[_ Hdec]]; [lia|].
      apply (decay_score_bound f _ _ _ Hvalid Hrange (stored_score_i16 ctx a Hc) Hdec). }
  split.
  - intros a Ha. rewrite !get_stored by assumption. apply Hcells. assumption.
  - rewrite (count_is_nonzero_addresses ctx' Hc'), (count_is_nonzero_addresses ctx Hc).
    apply nonzero_addresses_le. intros a Ha Hz.
    specialize (Hcells a Ha). rewrite Hz in Hcells. lia.
Qed.

(** X16: A decay never raises the magnitude of a score and never raises the
    count. *)
Theorem decay_never_grows ctx f d :
  reachable ctx -> valid_binary 24 128 f = true -> f <> S754_nan ->
  exists n ctx',
    sauron_decay ctx f d = Some (n, ctx') /\
    (forall a, is_u32 a ->
       Z.abs (sauron_get_u32 ctx' a) <= Z.abs (sauron_get_u32 ctx a)) /\
    sauron_count ctx' <= sauron_count ctx.
Proof.
  intros Hr Hvalid Hnan.
  destruct (sauron_decay_defined ctx f d (reachable_consistent _ Hr) Hvalid Hnan)
    as (n & ctx' & Hd).
  exists n, ctx'. split; [exact Hd|].
  apply (decay_shrinks_scores ctx f d n ctx' Hr Hvalid Hd).
Qed.

Lemma decay_score_zero_factor adz v v' :
  decay_score float_zero adz v = Some v' -> v' = 0.
Proof.
  unfold decay_score, float_mul, float_zero.
  destruct (float_of_int16 v) as [s|s| |s m e]; cbn [SFmul float_to_int16];
    try discriminate; intros Heq; injection Heq as <-;
    repeat match goal with
           | |- context [if ?c then _ else _] => destruct c
           end; reflexivity.
Qed.

Lemma decay_zero_factor_clears ctx d n ctx' :
  reachable ctx ->
  sauron_decay ctx float_zero d = Some (n, ctx') ->
  (forall a, is_u32 a -> sauron_get_u32 ctx' a = 0) /\ sauron_count ctx' = 0.
Proof.
  intros Hr Hd. pose proof (reachable_consistent _ Hr) as Hc.
  destruct (sauron_decay_spec ctx float_zero d n ctx' Hc Hd) as (Hc' & _ & _ & Hrel).
  assert (Hcells : forall a, is_u32 a -> stored_score ctx' a = 0).
  { intros a Ha. destruct (Hrel eq_refl a Ha) as [[_ ->]|[_ Hdec]]; [reflexivity|].
    eapply decay_score_zero_factor. exact Hdec. }
  split.
  - intros a Ha. rewrite get_stored by assumption. apply Hcells. assumption.
  - rewrite (count_is_nonzero_addresses ctx' Hc').
    unfold nonzero_addresses. apply sumZ_zero. intros p Hp. apply upto_In in Hp.
    apply sumZ_zero. intros b Hb. apply upto_In in Hb.
    apply sumZ_zero. intros h Hh. apply upto_In in Hh.
    destruct (make_ip_parts p b h Hp Hb Hh) as (Hu & _).
    rewrite (Hcells _ Hu). reflexivity.
Qed.

(** X17: The factor 0.0 zeroes every score, whatever the deadzone. *)
Theorem decay_by_zero_clears ctx d :
  reachable ctx ->
  exists n ctx',
    sauron_decay ctx float_zero d = Some (n, ctx') /\
    (forall a, is_u32 a -> sauron_get_u32 ctx' a = 0) /\ sauron_count ctx' = 0.
Proof.
  intros Hr.
  destruct (sauron_decay_defined ctx float_zero d (reachable_consistent _ Hr) eq_refl)
    as (n & ctx' & Hd); [discriminate|].
  exists n, ctx'. split; [exact Hd|].
  apply (decay_zero_factor_clears ctx d n ctx' Hr Hd).
Qed.

End ClearAndDecay.

(** * Iteration *)

Section ForeachProofs.
Context {U : Type}.
Variable callback : Z -> Z -> U -> Z * U.

Lemma foreach_entries_stopped es count u :
  fold_left (foreach_entry callback) es (count, true, u) = (count, true, u).
Proof. induction es as [|e es IH]; [reflexivity|]. cbn [fold_left]. exact IH. Qed.

Lemma foreach_hosts_entries p b block hosts st :
  fold_left (foreach_host callback p b block) hosts st =
  fold_left (foreach_entry callback) (host_entries p b block hosts) st.
Proof.
  unfold host_entries. apply (fold_left_flat_map (foreach_entry callback)).
  intros [[count stop] u] h. unfold foreach_host.
  destruct stop.
  - symmetry. apply foreach_entries_stopped.
  - destruct (_ =? 0); reflexivity.
Qed.

Lemma foreach_block_entries ctx p st b :
  consistent ctx ->
  foreach_block callback ctx p st b = fold_left (foreach_entry callback) (block_entries ctx p b) st.
Proof.
  intros Hc. destruct st as [[count stop] u]. unfold foreach_block, block_entries.
  destruct stop; [symmetry; apply foreach_entries_stopped|].
  destruct (lookup_block ctx p b) as [block|] eqn:Hl.
  - destruct (Z.eqb_spec (bitmap_test ctx (make_prefix24 p b)) 0) as [Hz|Hnz].
    + rewrite (cons_bitmap _ Hc _ _ _ Hl Hz). reflexivity.
    + destruct (_ =? 0); [reflexivity|]. apply foreach_hosts_entries.
  - destruct (_ =? 0); reflexivity.
Qed.

Lemma foreach_prefix16_entries ctx st p :
  consistent ctx ->
  foreach_prefix16 callback ctx st p = fold_left (foreach_entry callback) (prefix16_entries ctx p) st.
Proof.
  intros Hc. destruct st as [[count stop] u]. unfold foreach_prefix16, prefix16_entries.
  destruct stop; [symmetry; apply foreach_entries_stopped|].
  destruct (block_ptrs ctx !! p); [|reflexivity].
  apply (fold_left_flat_map (foreach_entry callback)).
  intros a b. apply foreach_block_entries. assumption.
Qed.

Lemma foreach_sweep_entries ctx st :
  consistent ctx ->
  fold_left (foreach_prefix16 callback ctx) (upto PREFIX16_COUNT) st =
  fold_left (foreach_entry callback) (live_entries ctx) st.
Proof.
  intros Hc. unfold live_entries. apply (fold_left_flat_map (foreach_entry callback)).
  intros a p. apply foreach_prefix16_entries. assumption.
Qed.

Lemma foreach_entries_visit es : forall count u,
  0 <= count -> count + Z.of_nat (length es) < 2 ^ 64 ->
  (let '(c, _, u') := fold_left (foreach_entry callback) es (count, false, u) in (c, u')) =
  visit callback es count u.
Proof.
  induction es as [|[ip s] es IH]; intros count u Hc Hlen; [reflexivity|].
  cbn [fold_left visit foreach_entry fst snd length] in *.
  destruct (callback ip s u) as [r u'].
  assert (Hu : u64 (count + 1) = count + 1) by (unfold u64; apply Z.mod_small; lia).
  rewrite Hu. destruct (r =? 0); cbn [negb].
  - apply IH; lia.
  - rewrite foreach_entries_stopped. reflexivity.
Qed.

Lemma visit_all es : forall count u,
  (forall ip s u', fst (callback ip s u') = 0) ->
  visit callback es count u =
  (count + Z.of_nat (length es),
   fold_left (fun u e => snd (callback (fst e) (snd e) u)) es u).
Proof.
  induction es as [|[ip s] es IH]; intros count u Hgo.
  - cbn. f_equal. lia.
  - cbn [visit fold_left fst snd length].
    pose proof (Hgo ip s u) as Hr. destruct (callback ip s u) as [r u'].
    cbn [fst snd] in *. subst r. cbn [Z.eqb].
    rewrite IH by assumption. f_equal. lia.
Qed.

End ForeachProofs.

(** ** The order of the records *)

Lemma ascending_app l1 l2 :
  ascending l1 -> ascending l2 ->
  (forall x y, In x l1 -> In y l2 -> fst x < fst y) ->
  ascending (l1 ++ l2).
Proof.
  unfold ascending. induction l1 as [|x l1 IH]; intros H1 H2 Hlt; [exact H2|].
  cbn [app]. inversion H1 as [|? ? Hs Hf]; subst. constructor.
  - apply IH; [assumption|assumption|]. intros x' y Hx Hy. apply Hlt; [right; exact Hx|exact Hy].
  - apply Forall_app. split; [assumption|].
    apply Stdlib.Lists.List.Forall_forall. intros y Hy. apply Hlt; [left; reflexivity|assumption].
Qed.

(** Sub-lists laid out in consecutive windows of width [w] from [base]. *)
Lemma ascending_flat_map (g : Z -> list (Z * Z)) base w n : forall lo,
  0 <= w ->
  (forall k, In k (count_from lo n) -> ascending (g k)) ->
  (forall k e, In k (count_from lo n) -> In e (g k) ->
     base + k * w <= fst e < base + (k + 1) * w) ->
  ascending (flat_map g (count_from lo n)).
Proof.
  induction n as [|n IH]; intros lo Hw Hasc Hwin; [constructor|].
  cbn [count_from flat_map]. apply ascending_app.
  - apply Hasc. left. reflexivity.
  - apply IH; [assumption| |].
    + intros k Hk. apply Hasc. right. assumption.
    + intros k e Hk. apply Hwin. right. assumption.
  - intros x y Hx Hy. apply in_flat_map in Hy as (k & Hk & Hy).
    pose proof (Hwin lo x (or_introl eq_refl) Hx) as Hbx.
    pose proof (Hwin k y (or_intror Hk) Hy) as Hby.
    apply count_from_In in Hk. nia.
Qed.

Lemma host_entries_ascending p b block :
  0 <= p < PREFIX16_COUNT -> 0 <= b < BLOCKS_PER_16 ->
  ascending (host_entries p b block (upto SCORES_PER_BLOCK)).
Proof.
  intros Hp Hb. unfold host_entries, upto.
  apply (ascending_flat_map _ (p * 65536 + b * 256) 1); [lia| |].
  - intros h _. destruct (_ =? 0); repeat constructor.
  - intros h e Hh He. apply count_from_In in Hh.
    destruct (_ =? 0); [destruct He|]. destruct He as [<-|[]]. cbn [fst].
    rewrite make_ip_eq by (try assumption; change SCORES_PER_BLOCK with 256 in *; lia).
    lia.
Qed.

Lemma host_entries_window p b block e :
  0 <= p < PREFIX16_COUNT -> 0 <= b < BLOCKS_PER_16 ->
  In e (host_entries p b block (upto SCORES_PER_BLOCK)) ->
  p * 65536 + b * 256 <= fst e < p * 65536 + (b + 1) * 256.
Proof.
  intros Hp Hb He. destruct e as [ip s].
  apply in_host_entries in He as (h & Hh & _ & -> & _). apply upto_In in Hh.
  cbn [fst]. rewrite make_ip_eq by assumption.
  change SCORES_PER_BLOCK with 256 in Hh. lia.
Qed.

Lemma live_entries_ascending ctx : ascending (live_entries ctx).
Proof.
  unfold live_entries, upto.
  apply (ascending_flat_map _ 0 65536); [lia| |].
  - intros p Hp. apply count_from_In in Hp.
    assert (Hp' : 0 <= p < PREFIX16_COUNT) by (change PREFIX16_COUNT with 65536 in *; lia).
    unfold prefix16_entries. destruct (block_ptrs ctx !! p); [|constructor].
    unfold upto. apply (ascending_flat_map _ (p * 65536) 256); [lia| |].
    + intros b Hb. apply count_from_In in Hb.
      unfold block_entries. destruct (lookup_block ctx p b); [|constructor].
      destruct (_ =? 0); [constructor|].
      apply host_entries_ascending;
        [assumption|change BLOCKS_PER_16 with 256 in *; lia].
    + intros b e Hb He. apply count_from_In in Hb.
      unfold block_entries in He. destruct (lookup_block ctx p b); [|destruct He].
      destruct (_ =? 0); [destruct He|].
      apply host_entries_window in He;
        [lia|assumption|change BLOCKS_PER_16 with 256 in *; lia].
  - intros p e Hp He. apply count_from_In in Hp.
    assert (Hp' : 0 <= p < PREFIX16_COUNT) by (change PREFIX16_COUNT with 65536 in *; lia).
    unfold prefix16_entries in He. destruct (block_ptrs ctx !! p); [|destruct He].
    apply in_flat_map in He as (b & Hb & He). apply upto_In in Hb.
    unfold block_entries in He. destruct (lookup_block ctx p b); [|destruct He].
    destruct (_ =? 0); [destruct He|].
    apply host_entries_window in He; [|assumption|assumption].
    change BLOCKS_PER_16 with 256 in Hb. lia.
Qed.

Section ForeachTheorems.
Context `{Platform}.

(** X18: [sauron_foreach] calls the callback once on every address whose score
    is not zero, with that score, in ascending order of address, until the
    callback returns non-zero; it returns the number of calls made, which
    is [sauron_count] when the callback never stops the iteration. *)
Theorem foreach_visits_nonzero_scores {U : Type} (callback : Z -> Z -> U -> Z * U)
    ctx (user_data : U) :
  reachable ctx ->
  sauron_foreach callback ctx user_data = visit callback (live_entries ctx) 0 user_data /\
  ascending (live_entries ctx) /\
  (forall ip score,
     In (ip, score) (live_entries ctx) <->
     is_u32 ip /\ score <> 0 /\ sauron_get_u32 ctx ip = score) /\
  ((forall ip score u, fst (callback ip score u) = 0) ->
   sauron_foreach callback ctx user_data =
   (sauron_count ctx,
    fold_left (fun u e => snd (callback (fst e) (snd e) u)) (live_entries ctx) user_data)).
Proof.
  intros Hr. pose proof (reachable_consistent _ Hr) as Hc.
  assert (Hlen : Z.of_nat (length (live_entries ctx)) = sauron_count ctx).
  { rewrite live_entries_length by assumption. symmetry. apply (cons_count _ Hc). }
  pose proof (consistent_count_bounds _ Hc) as Hb.
  assert (Hvisit : sauron_foreach callback ctx user_data =
                   visit callback (live_entries ctx) 0 user_data).
  { unfold sauron_foreach. rewrite foreach_sweep_entries by assumption.
    apply foreach_entries_visit; [lia|].
    rewrite Hlen. unfold sauron_count. change (2 ^ 64) with 18446744073709551616.
    change (2 ^ 32) with 4294967296 in Hb. lia. }
  split; [exact Hvisit|]. split; [apply live_entries_ascending|]. split.
  - intros ip score. split.
    + intros Hin. apply live_entries_sound in Hin as (Hip & _ & Hnz & ->); [|assumption].
      split; [assumption|]. split; [assumption|]. apply get_stored; assumption.
    + intros (Hip & Hnz & <-). rewrite get_stored in * by assumption.
      apply live_entries_complete; assumption.
  - intros Hgo. rewrite Hvisit, visit_all by assumption. rewrite Hlen. reflexivity.
Qed.

End ForeachTheorems.

(** * The two bulk loaders *)

(** ** The counters of a result *)

Lemma buffer_lines_length data : forall cur,
  Z.of_nat (length (buffer_lines data cur)) <= Z.of_nat (String.length data) + 1.
Proof.
  induction data as [|c data IH]; intros cur; cbn [buffer_lines String.length].
  - destruct (String.eqb cur EmptyString); cbn [length]; lia.
  - destruct (Ascii.eqb c "010").
    + cbn [length]. specialize (IH EmptyString).
      destruct data as [|c' data'].
      * cbn [buffer_lines String.eqb length String.length] in *. lia.
      * assert (Z.of_nat (length (buffer_lines (String c' data') EmptyString))
                <= Z.of_nat (String.length (String c' data'))); [|lia].
        clear IH. generalize (String c' data'). intros d.
        assert (Hgen : forall d cur,
                  Z.of_nat (length (buffer_lines d cur)) <=
                  Z.of_nat (String.length d) +
                  (if String.eqb cur EmptyString then 0 else 1)).
        { clear. induction d as [|x d IHd]; intros cur; cbn [buffer_lines String.length].
          - destruct (String.eqb cur EmptyString); cbn [length]; lia.
          - destruct (Ascii.eqb x "010").
            + cbn [length]. specialize (IHd EmptyString).
              cbn [String.eqb] in IHd. destruct (String.eqb cur EmptyString); lia.
            + specialize (IHd (String.append cur (String x EmptyString))).
              destruct (String.eqb (String.append cur (String x EmptyString)) EmptyString);
                destruct (String.eqb cur EmptyString); lia. }
        specialize (Hgen d EmptyString). cbn [String.eqb] in Hgen. lia.
    + specialize (IH (String.append cur (String c EmptyString))). lia.
Qed.

Lemma getline_lines_length data : forall cur,
  Z.of_nat (length (getline_lines data cur)) <= Z.of_nat (String.length data) + 1.
Proof.
  assert (Hgen : forall d cur,
            Z.of_nat (length (getline_lines d cur)) <=
            Z.of_nat (String.length d) + (if String.eqb cur EmptyString then 0 else 1)).
  { induction d as [|x d IHd]; intros cur; cbn [getline_lines String.length].
    - destruct (String.eqb cur EmptyString); cbn [length]; lia.
    - destruct (Ascii.eqb x "010").
      + cbn [length]. specialize (IHd EmptyString).
        cbn [String.eqb] in IHd. destruct (String.eqb cur EmptyString); lia.
      + specialize (IHd (String.append cur (String x EmptyString))).
        destruct (String.eqb (String.append cur (String x EmptyString)) EmptyString);
          destruct (String.eqb cur EmptyString); lia. }
  intros cur. specialize (Hgen data cur).
  destruct (String.eqb cur EmptyString); lia.
Qed.

Lemma counters_fold (step : sauron_ctx * sauron_bulk_result -> string ->
                            sauron_ctx * sauron_bulk_result) ignored :
  (forall ctx stats line,
     counts_step stats (snd (step (ctx, stats) line)) (ignored line)) ->
  forall lines ctx stats done,
    counters_account stats done ignored ->
    Z.of_nat (length done) + Z.of_nat (length lines) < 2 ^ 64 ->
    counters_account (snd (fold_left step lines (ctx, stats))) (done ++ lines) ignored.
Proof.
  intros Hstep. induction lines as [|line lines IH]; intros ctx stats done Hacc Hlen.
  - rewrite app_nil_r. exact Hacc.
  - cbn [fold_left length] in *.
    pose proof (Hstep ctx stats line) as Hs.
    destruct (step (ctx, stats) line) as [ctx1 stats1]. cbn [snd] in Hs.
    replace (done ++ line :: lines) with ((done ++ [line]) ++ lines)
      by (rewrite <- app_assoc; reflexivity).
    apply IH; [|rewrite length_app; cbn [length]; lia].
    destruct Hacc as (Hlp & Hsk & Hs0 & Hu0 & He0 & Hsum).
    destruct Hs as [Hlp1 Hrest].
    assert (Hfl : Z.of_nat (length (List.filter (fun l => negb (ignored l)) done))
                  <= Z.of_nat (length done)).
    { clear. induction done as [|x done IH]; cbn [List.filter length]; [lia|].
      destruct (negb (ignored x)); cbn [length]; lia. }
    assert (Hw : forall x, 0 <= x <= Z.of_nat (length done) -> u64 (x + 1) = x + 1).
    { intros x Hx. unfold u64. apply Z.mod_small. lia. }
    unfold counters_account.
    rewrite List.filter_app, !length_app. cbn [List.filter length].
    rewrite Hlp1, Hlp, Hw by lia.
    destruct (ignored line); cbn [negb length].
    + destruct Hrest as (-> & -> & -> & ->). repeat split; lia.
    + destruct Hrest as [(-> & -> & -> & ->)|[(-> & -> & -> & ->)|(-> & -> & -> & ->)]];
        rewrite ?Hw by lia; repeat split; lia.
Qed.

(** The first byte of a line survives the copy into the line buffer. *)
Lemma peek_truncate_line line : peek (truncate_line line) = peek line.
Proof. destruct line; reflexivity. Qed.

Lemma truncate_short line :
  Z.of_nat (String.length line) < BULK_LINE_MAX -> truncate_line line = line.
Proof.
  intros Hl. unfold truncate_line. apply substring_whole.
  change BULK_LINE_MAX with 64 in *. lia.
Qed.

Section BulkCounters.
Context `{Platform}.

Lemma bulk_apply_counts ctx stats ip value is_relative :
  counts_step stats
    (snd (bulk_apply (ctx, bulk_count_line stats) ip value is_relative)) false.
Proof.
  unfold bulk_apply, counts_step.
  destruct is_relative; cbn [snd bulk_count_line lines_processed lines_skipped sets
                              updates parse_errors]; auto 10.
Qed.

Lemma bulk_buffer_line_counts ctx stats line :
  counts_step stats (snd (bulk_buffer_line (ctx, stats) line)) (buffer_line_ignored line).
Proof.
  unfold bulk_buffer_line, buffer_line_ignored. rewrite peek_truncate_line.
  assert (Hlen : ((if Z.of_nat (String.length line) >=? BULK_LINE_MAX
                   then BULK_LINE_MAX - 1 else Z.of_nat (String.length line)) =? 0) =
                 (Z.of_nat (String.length line) =? 0)).
  { change BULK_LINE_MAX with 64.
    destruct (Z.geb_spec (Z.of_nat (String.length line)) 64); [|reflexivity].
    cbn. symmetry. apply Z.eqb_neq. lia. }
  rewrite Hlen.
  destruct ((Z.of_nat (String.length line) =? 0) || Ascii.eqb (peek line) "#").
  - unfold counts_step. cbn. auto.
  - destruct (parse_bulk_line (truncate_line line)) as [[[ip value] is_relative]|].
    + apply bulk_apply_counts.
    + unfold counts_step. cbn. auto 10.
Qed.

Lemma bulk_file_line_counts ctx stats line :
  counts_step stats (snd (bulk_file_line (ctx, stats) line)) (file_line_ignored line).
Proof.
  unfold bulk_file_line, file_line_ignored.
  destruct ((Z.of_nat (String.length line) =? 0) || Ascii.eqb (peek line) "#"
            || Ascii.eqb (peek line) "010").
  - unfold counts_step. cbn. auto.
  - destruct (parse_bulk_line line) as [[[ip value] is_relative]|].
    + apply bulk_apply_counts.
    + unfold counts_step. cbn. auto 10.
Qed.

Lemma counters_zero ignored : counters_account bulk_result_zero [] ignored.
Proof. unfold counters_account. cbn. repeat split; lia. Qed.

(** X19: The counters of a bulk load account for every line of the input:
    [lines_processed] is the number of lines; each line is passed over
    (empty or a comment), or counted in both [parse_errors] and
    [lines_skipped], or counted in [sets] or in [updates].  A file that
    cannot be opened, or whose line buffer cannot be allocated, leaves
    the engine as it was. *)
Theorem bulk_counters_account_for_lines ctx data filename (fs : gmap string string) :
  Z.of_nat (String.length data) + 1 < 2 ^ 64 ->
  (let r := sauron_bulk_load_buffer ctx data in
   fst (fst r) = SAURON_OK /\
   counters_account (snd r) (buffer_lines data EmptyString) buffer_line_ignored) /\
  (let r := sauron_bulk_load ctx filename fs in
   (fs !! filename = Some data -> heap_ok (memory_used ctx) BULK_LINE_MAX = true ->
    fst (fst r) = SAURON_OK /\
    counters_account (snd r) (getline_lines data EmptyString) file_line_ignored) /\
   (fs !! filename = None -> r = (SAURON_ERR_IO, ctx, bulk_result_zero)) /\
   (fst (fst r) <> SAURON_OK -> snd (fst r) = ctx)).
Proof.
  intros Hlen. split; [|split; [|split]].
  - unfold sauron_bulk_load_buffer.
    pose proof (counters_fold bulk_buffer_line buffer_line_ignored
                  (fun c s l => bulk_buffer_line_counts c s l)
                  (buffer_lines data EmptyString) ctx bulk_result_zero []
                  (counters_zero _)) as Hf.
    pose proof (buffer_lines_length data EmptyString) as Hl.
    destruct (fold_left _ _ _) as [ctx' stats]. cbn [fst snd app length] in *.
    split; [reflexivity|]. apply Hf. lia.
  - intros Hfile Hheap. unfold sauron_bulk_load. rewrite Hfile, Hheap.
    pose proof (counters_fold bulk_file_line file_line_ignored
                  (fun c s l => bulk_file_line_counts c s l)
                  (getline_lines data EmptyString) ctx bulk_result_zero []
                  (counters_zero _)) as Hf.
    pose proof (getline_lines_length data EmptyString) as Hl.
    destruct (fold_left _ _ _) as [ctx' stats]. cbn [fst snd app length] in *.
    split; [reflexivity|]. apply Hf. lia.
  - intros Hfile. unfold sauron_bulk_load. rewrite Hfile. reflexivity.
  - unfold sauron_bulk_load. destruct (fs !! filename) as [d|]; [|reflexivity].
    destruct (heap_ok _ _); [|reflexivity].
    destruct (fold_left _ _ _) as [ctx' stats]. cbn [fst snd]. congruence.
Qed.

End BulkCounters.

(** ** A line with and without its newline *)

Lemma skip_blanks_newline p :
  skip_blanks (String.append p newline) = String.append (skip_blanks p) newline.
Proof.
  induction p as [|c p IH]; [reflexivity|].
  rewrite append_cons. cbn [skip_blanks]. destruct (is_blank c); [exact IH|reflexivity].
Qed.

Lemma parse_bulk_ip_newline p : forall ip octet dots digits,
  parse_bulk_ip (String.append p newline) ip octet dots digits =
  match parse_bulk_ip p ip octet dots digits with
  | None => None
  | Some (ip', octet', dots', digits', rest) =>
      match rest with
      | EmptyString => None
      | _ => Some (ip', octet', dots', digits', String.append rest newline)
      end
  end.
Proof.
  induction p as [|c p IH]; intros ip octet dots digits; [reflexivity|].
  rewrite append_cons. cbn [parse_bulk_ip].
  destruct (Ascii.eqb c NUL || Ascii.eqb c ","); [reflexivity|].
  destruct (is_digit c).
  - destruct (_ >? 255); [reflexivity|]. apply IH.
  - destruct (Ascii.eqb c ".").
    + destruct (digits =? 0); [reflexivity|]. destruct (dots >=? 3); [reflexivity|].
      apply IH.
    + destruct (is_blank c); reflexivity.
Qed.

Lemma parse_bulk_value_newline p : forall v,
  parse_bulk_value (String.append p newline) v =
  (fst (parse_bulk_value p v), String.append (snd (parse_bulk_value p v)) newline).
Proof.
  induction p as [|c p IH]; intros v; [reflexivity|].
  rewrite append_cons. cbn [parse_bulk_value].
  destruct (is_digit c); [apply IH|reflexivity].
Qed.

Lemma skip_trailing_newline p :
  peek (skip_trailing (String.append p newline)) = peek (skip_trailing p).
Proof.
  induction p as [|c p IH]; [reflexivity|].
  rewrite append_cons. cbn [skip_trailing].
  destruct (is_trailing_space c); [exact IH|reflexivity].
Qed.

Lemma bulk_sign_newline p :
  bulk_sign (String.append p newline) =
  (fst (fst (bulk_sign p)), snd (fst (bulk_sign p)),
   String.append (snd (bulk_sign p)) newline).
Proof.
  destruct p as [|c p]; [reflexivity|].
  destruct c as [[] [] [] [] [] [] [] []]; try reflexivity.
  destruct p as [|c p]; [reflexivity|].
  destruct c as [[] [] [] [] [] [] [] []]; reflexivity.
Qed.

Lemma bulk_value_part_newline ip p :
  bulk_value_part ip (String.append p newline) = bulk_value_part ip p.
Proof.
  unfold bulk_value_part. rewrite skip_blanks_newline, bulk_sign_newline.
  destruct (bulk_sign (skip_blanks p)) as [[is_relative negative] q]. cbn [fst snd].
  destruct q as [|c q]; [reflexivity|].
  rewrite parse_bulk_value_newline.
  destruct (parse_bulk_value (String c q) 0) as [value q']. cbn [fst snd].
  rewrite skip_trailing_newline. reflexivity.
Qed.

(** [parse_bulk_line], with the part after the comma named. *)
Lemma parse_bulk_line_parts line :
  parse_bulk_line line =
  match parse_bulk_ip (skip_blanks line) 0 0 0 0 with
  | None => None
  | Some (ip, octet, dots, digits, p) =>
      if negb (dots =? 3) || (digits =? 0) then None
      else
        match skip_blanks p with
        | EmptyString => None
        | String c p =>
            if Ascii.eqb c ","
            then bulk_value_part (u32 (Z.lor (Z.shiftl ip 8) octet)) p
            else None
        end
  end.
Proof.
  unfold parse_bulk_line.
  destruct (parse_bulk_ip (skip_blanks line) 0 0 0 0) as [[[[[ip octet] dots] digits] p]|];
    [|reflexivity].
  destruct (negb (dots =? 3) || (digits =? 0)); [reflexivity|].
  destruct (skip_blanks p) as [|c q]; [reflexivity|].
  destruct c as [[] [] [] [] [] [] [] []]; reflexivity.
Qed.

Lemma parse_bulk_line_newline line :
  parse_bulk_line (String.append line newline) = parse_bulk_line line.
Proof.
  rewrite !parse_bulk_line_parts, skip_blanks_newline, parse_bulk_ip_newline.
  destruct (parse_bulk_ip (skip_blanks line) 0 0 0 0) as [[[[[ip octet] dots] digits] p]|];
    [|reflexivity].
  destruct p as [|c p].
  - destruct (negb (dots =? 3) || (digits =? 0)); reflexivity.
  - destruct (negb (dots =? 3) || (digits =? 0)); [reflexivity|].
    rewrite skip_blanks_newline.
    destruct (skip_blanks (String c p)) as [|c1 p1]; [reflexivity|].
    rewrite append_cons. destruct (Ascii.eqb c1 ","); [|reflexivity].
    apply bulk_value_part_newline.
Qed.

Lemma no_newline_app cur c :
  no_newline cur = true -> Ascii.eqb c "010" = false ->
  no_newline (String.append cur (String c EmptyString)) = true.
Proof.
  intros Hcur Hc. induction cur as [|x cur IH].
  - rewrite append_nil_l. cbn [no_newline]. rewrite Hc. reflexivity.
  - rewrite append_cons. cbn [no_newline] in *.
    apply andb_true_iff in Hcur as [Hx Hr]. rewrite Hx, IH by assumption. reflexivity.
Qed.

Section BulkAgreement.
Context `{Platform}.

(** A complete short line: the file loader sees it with its newline. *)
Lemma bulk_line_terminated st cur :
  no_newline cur = true -> Z.of_nat (String.length cur) < BULK_LINE_MAX ->
  bulk_file_line st (String.append cur newline) = bulk_buffer_line st cur.
Proof.
  intros Hnl Hshort. destruct st as [ctx stats].
  unfold bulk_file_line, bulk_buffer_line.
  rewrite truncate_short by assumption.
  destruct (Z.geb_spec (Z.of_nat (String.length cur)) BULK_LINE_MAX); [lia|].
  destruct cur as [|c cur]; [reflexivity|].
  rewrite append_cons. cbn [no_newline] in Hnl. apply andb_true_iff in Hnl as [Hc _].
  apply negb_true_iff in Hc. cbn [peek String.length]. rewrite Hc.
  rewrite <- append_cons, parse_bulk_line_newline.
  assert (Hnz : forall n, (Z.of_nat (S n) =? 0) = false)
    by (intros n; apply Z.eqb_neq; lia).
  rewrite !Hnz. cbn [orb]. rewrite orb_false_r. reflexivity.
Qed.

(** The last line of data that does not end in a newline. *)
Lemma bulk_line_unterminated st cur :
  no_newline cur = true -> Z.of_nat (String.length cur) < BULK_LINE_MAX ->
  bulk_file_line st cur = bulk_buffer_line st cur.
Proof.
  intros Hnl Hshort. destruct st as [ctx stats].
  unfold bulk_file_line, bulk_buffer_line.
  rewrite truncate_short by assumption.
  destruct (Z.geb_spec (Z.of_nat (String.length cur)) BULK_LINE_MAX); [lia|].
  destruct cur as [|c cur]; [reflexivity|].
  cbn [no_newline] in Hnl. apply andb_true_iff in Hnl as [Hc _].
  apply negb_true_iff in Hc. cbn [peek]. rewrite Hc, orb_false_r. reflexivity.
Qed.

Lemma bulk_lines_agree data : forall cur st,
  no_newline cur = true ->
  Forall (fun l => Z.of_nat (String.length l) < BULK_LINE_MAX) (buffer_lines data cur) ->
  fold_left bulk_file_line (getline_lines data cur) st =
  fold_left bulk_buffer_line (buffer_lines data cur) st.
Proof.
  induction data as [|c data IH]; intros cur st Hnl Hshort;
    cbn [getline_lines buffer_lines] in *.
  - destruct (String.eqb cur EmptyString); [reflexivity|].
    cbn [fold_left]. inversion Hshort; subst.
    apply bulk_line_unterminated; assumption.
  - destruct (Ascii.eqb c "010") eqn:Hc.
    + apply Ascii.eqb_eq in Hc. subst c. inversion Hshort; subst.
      cbn [fold_left]. change (String "010" EmptyString) with newline.
      rewrite bulk_line_terminated by assumption.
      apply IH; [reflexivity|assumption].
    + apply IH; [apply no_newline_app; assumption|assumption].
Qed.

(** X20: On data whose lines are shorter than the line buffer
    ([BULK_LINE_MAX] bytes), loading a file and loading the same bytes
    from memory give the same status, the same engine and the same
    counters. *)
Theorem bulk_loaders_agree_on_short_lines ctx data filename (fs : gmap string string) :
  fs !! filename = Some data ->
  heap_ok (memory_used ctx) BULK_LINE_MAX = true ->
  Forall (fun l => Z.of_nat (String.length l) < BULK_LINE_MAX)
    (buffer_lines data EmptyString) ->
  sauron_bulk_load ctx filename fs = sauron_bulk_load_buffer ctx data.
Proof.
  intros Hfile Hheap Hshort. unfold sauron_bulk_load, sauron_bulk_load_buffer.
  rewrite Hfile, Hheap, bulk_lines_agree by (reflexivity || assumption). reflexivity.
Qed.

End BulkAgreement.

(** * Snapshots *)

Lemma entries_bytes_length es :
  Z.of_nat (String.length (entries_bytes es)) = 6 * Z.of_nat (length es).
Proof.
  induction es as [|e es IH]; [reflexivity|].
  cbn [entries_bytes length]. unfold entry_bytes.
  rewrite !string_length_app, !le_bytes_length. lia.
Qed.

Lemma snapshot_bytes_length n es :
  Z.of_nat (String.length (snapshot_bytes n es)) = 16 + 6 * Z.of_nat (length es).
Proof.
  unfold snapshot_bytes. rewrite !string_length_app, !le_bytes_length.
  pose proof (entries_bytes_length es). change (String.length SAURON_MAGIC) with 4%nat. lia.
Qed.

Section SnapshotTheorems.
Context `{Platform}.

(** X21: [sauron_save] writes the snapshot atomically.  On success the file
    holds the 16-byte header with the number of non-zero scores, then one
    6-byte record per non-zero score, in the order of the traversal.  On
    failure the status is the I/O error and the file of that name is as it
    was before.  No file but the target and the temporary file is
    touched. *)
Theorem save_writes_snapshot_atomically ctx io filename (fs : gmap string string) :
  reachable ctx ->
  let r := sauron_save io ctx filename fs in
  let snapshot := snapshot_bytes (sauron_count ctx) (live_entries ctx) in
  (io = io_ok -> fst r = SAURON_OK /\ snd r !! filename = Some snapshot) /\
  (io <> io_ok ->
   fst r = SAURON_ERR_IO /\
   (tmp_filename_of filename <> filename -> snd r !! filename = fs !! filename)) /\
  (forall other, other <> filename -> other <> tmp_filename_of filename ->
     snd r !! other = fs !! other) /\
  Z.of_nat (String.length snapshot) = 16 + 6 * sauron_count ctx /\
  Z.of_nat (length (live_entries ctx)) = sauron_count ctx.
Proof.
  intros Hr r snapshot. pose proof (reachable_consistent _ Hr) as Hc.
  assert (Hlen : Z.of_nat (length (live_entries ctx)) = sauron_count ctx).
  { rewrite live_entries_length by assumption. symmetry. apply (cons_count _ Hc). }
  pose proof (consistent_count_bounds _ Hc) as Hb.
  assert (Hu : u64 (Z.of_nat (length (live_entries ctx))) = sauron_count ctx).
  { rewrite Hlen. unfold u64, sauron_count. apply Z.mod_small.
    change (2 ^ 32) with 4294967296 in Hb. change (2 ^ 64) with 18446744073709551616. lia. }
  split; [|split; [|split; [|split]]].
  - intros ->. unfold r, snapshot, sauron_save. cbn [fst snd].
    split; [reflexivity|]. rewrite lookup_insert_eq, archive_bytes_spec, Hu. reflexivity.
  - intros Hio. unfold r, sauron_save.
    destruct io; try congruence; cbn [fst snd]; (split; [reflexivity|]); intros Hne;
      try reflexivity; apply lookup_delete_ne; assumption.
  - intros other Hne Htmp. unfold r, sauron_save.
    destruct io; cbn [snd]; try reflexivity;
      rewrite ?lookup_insert_ne by congruence;
      apply lookup_delete_ne; congruence.
  - unfold snapshot. rewrite snapshot_bytes_length, Hlen. reflexivity.
  - exact Hlen.
Qed.

(** ** Loading a truncated snapshot *)






End SnapshotTheorems.

(** * Batches of increments *)

Section BatchEffects.
Context `{Platform}.

(** An increment leaves every other address alone, whether or not it gets
    its block. *)
Lemma incr_other ctx ip delta ip' :
  consistent ctx -> is_u32 ip -> is_u32 ip' -> ip' <> ip ->
  stored_score (snd (sauron_incr_u32 ctx ip delta)) ip' = stored_score ctx ip'.
Proof.
  intros Hc Hip Hip' Hne.
  destruct (Z.eq_dec delta 0) as [->|Hd]; [reflexivity|].
  destruct (fst (get_or_alloc_block ctx ip)) as [block|] eqn:Hg.
  - assert (Hav : block_available ctx ip)
      by (unfold block_available; rewrite Hg; eexists; reflexivity).
    destruct (incr_effect_local ctx ip delta Hc Hip Hd Hav) as (_ & _ & Hfr & _).
    apply Hfr; assumption.
  - assert (Hno : ~ block_available ctx ip).
    { unfold block_available. rewrite Hg. intros [x Hx]. discriminate. }
    destruct (incr_effect_failed ctx ip delta Hc Hip Hd Hno) as (_ & _ & Hfr).
    apply Hfr.
Qed.

Lemma incr_batch_fold items : forall k ctx,
  fold_left (fun st item =>
               (fst st + 1, snd (sauron_incr_u32 (snd st) (fst item) (snd item))))
    items (k, ctx) =
  (k + Z.of_nat (length items),
   fold_left (fun c item => snd (sauron_incr_u32 c (fst item) (snd item))) items ctx).
Proof.
  induction items as [|it items IH]; intros k ctx.
  - cbn. f_equal. lia.
  - cbn [fold_left length fst snd]. rewrite IH. f_equal. lia.
Qed.

Lemma incr_all_other items : forall ctx a,
  consistent ctx -> Forall (fun it => is_u32 (fst it) /\ is_i16 (snd it)) items ->
  is_u32 a -> ~ In a (map fst items) ->
  stored_score
    (fold_left (fun c item => snd (sauron_incr_u32 c (fst item) (snd item))) items ctx) a =
  stored_score ctx a /\
  consistent
    (fold_left (fun c item => snd (sauron_incr_u32 c (fst item) (snd item))) items ctx).
Proof.
  induction items as [|[ip d] items IH]; intros ctx a Hc Hall Ha Hnot.
  - cbn. split; [reflexivity|assumption].
  - inversion Hall as [|? ? [Hip Hd] Hall']; subst. cbn [fst snd map fold_left] in *.
    pose proof (incr_consistent ctx ip d Hc Hip) as Hc1.
    destruct (IH _ a Hc1 Hall' Ha) as [Hst Hc2].
    + intros Hin. apply Hnot. right. assumption.
    + split; [|assumption]. rewrite Hst. apply incr_other; try assumption.
      intros ->. apply Hnot. left. reflexivity.
Qed.

(** X23: [sauron_incr_batch] applies the increments in the order of the arrays
    and returns the number of items, whether or not an increment found
    memory for its block; an address no item names keeps its score.  The
    counter is an [int]: the batch holds at most [INT_MAX] items. *)
Theorem incr_batch_effect ctx items :
  reachable ctx ->
  Forall (fun it => is_u32 (fst it) /\ is_i16 (snd it)) items ->
  Z.of_nat (length items) <= INT_MAX ->
  let r := sauron_incr_batch ctx items in
  fst r = Z.of_nat (length items) /\ 0 <= fst r <= INT_MAX /\
  snd r = fold_left (fun c item => snd (sauron_incr_u32 c (fst item) (snd item)))
            items ctx /\
  (forall a, is_u32 a -> ~ In a (map fst items) ->
     sauron_get_u32 (snd r) a = sauron_get_u32 ctx a).
Proof.
  intros Hr Hall Hlen r. pose proof (reachable_consistent _ Hr) as Hc.
  unfold r, sauron_incr_batch. rewrite incr_batch_fold. cbn [fst snd].
  split; [lia|]. split; [lia|]. split; [reflexivity|].
  intros a Ha Hnot.
  destruct (incr_all_other items ctx a Hc Hall Ha Hnot) as [Hst Hc'].
  rewrite !get_stored by assumption. exact Hst.
Qed.

End BatchEffects.

(** * What [sauron_decay] returns *)

Lemma sumZ_app f l1 l2 : sumZ f (l1 ++ l2) = sumZ f l1 + sumZ f l2.
Proof.
  unfold sumZ. induction l1 as [|x l1 IH]; cbn [app fold_right]; [reflexivity|].
  rewrite IH. lia.
Qed.

Lemma cell_changed_same v : cell_changed v v = 0.
Proof. unfold cell_changed. rewrite Z.eqb_refl. reflexivity. Qed.

Lemma cell_changed_bounds v v' : 0 <= cell_changed v v' <= 1.
Proof. unfold cell_changed. destruct (v =? v'); lia. Qed.

Lemma u64_succ X : u64 (u64 X + 1) = u64 (X + 1).
Proof. unfold u64. apply Zplus_mod_idemp_l. Qed.

Lemma decay_host_count f adz block ctx m h block' ctx' m' X :
  block_ok block -> 0 <= h < SCORES_PER_BLOCK -> m = u64 X ->
  decay_host f adz (block, ctx, m) h = Some (block', ctx', m') ->
  m' = u64 (X + cell_changed (block_score block h) (block_score block' h)).
Proof.
  intros Hok Hh Hm. unfold decay_host.
  destruct (Z.eqb_spec (block_score block h) 0) as [Hold|Hold].
  { intros Heq; inversion Heq; subst. rewrite cell_changed_same, Z.add_0_r. reflexivity. }
  destruct (decay_score f adz (block_score block h)) as [new|] eqn:Hd; [|discriminate].
  destruct (Z.eqb_spec new (block_score block h)) as [Hsame|Hdiff]; cbn [negb].
  { intros Heq; inversion Heq; subst block' ctx' m'.
    rewrite cell_changed_same, Z.add_0_r. assumption. }
  assert (Hlen : (Z.to_nat h < length (scores block))%nat).
  { destruct Hok as (Hlen & _). rewrite Hlen.
    change SCORES_PER_BLOCK with 256 in *. lia. }
  assert (Hcell : block_score (block_store block h new) h = new).
  { rewrite block_score_store by (try assumption; lia). rewrite Z.eqb_refl. reflexivity. }
  assert (Hone : cell_changed (block_score block h) new = 1).
  { unfold cell_changed. destruct (Z.eqb_spec (block_score block h) new); congruence. }
  destruct (new =? 0); intros Heq; inversion Heq; subst block' ctx' m'.
  - change (block_score (with_active_count (block_store block h new) _) h)
      with (block_score (block_store block h new) h).
    rewrite Hcell, Hone, Hm. apply u64_succ.
  - rewrite Hcell, Hone, Hm. apply u64_succ.
Qed.

Lemma decay_hosts_count f adz base hosts :
  (forall n, 0 <= n <= 256 -> 0 <= base + n <= 2 ^ 32) ->
  List.NoDup hosts -> (forall h, In h hosts -> 0 <= h < SCORES_PER_BLOCK) ->
  forall block ctx m X block' ctx' m',
  block_ok block -> score_count ctx = base + active_count block -> m = u64 X ->
  foldl_opt (decay_host f adz) (block, ctx, m) hosts = Some (block', ctx', m') ->
  m' = u64 (X + sumZ (fun h => cell_changed (block_score block h) (block_score block' h))
                     hosts).
Proof.
  intros Hbase. induction hosts as [|a hosts IH];
    intros Hnd Hrange block ctx m X block' ctx' m' Hok Hsc Hm Hf; cbn [foldl_opt] in Hf.
  - inversion Hf; subst. cbn. rewrite Z.add_0_r. reflexivity.
  - destruct (decay_host f adz (block, ctx, m) a) as [[[b1 c1] m1]|] eqn:Hstep;
      [|discriminate Hf].
    inversion Hnd as [|? ? Hnotin Hnd']; subst.
    pose proof (Hrange a (or_introl eq_refl)) as Ha.
    destruct (decay_host_step _ _ _ _ _ _ _ _ _ _ Hok Ha Hbase Hsc Hstep)
      as (Hok1 & Hsc1 & _ & _ & _ & _ & _ & Hoth1).
    pose proof (decay_host_count _ _ _ _ _ _ _ _ _ X Hok Ha eq_refl Hstep) as Hm1.
    destruct (decay_hosts_spec f adz base hosts Hbase Hnd'
                (fun h Hh => Hrange h (or_intror Hh)) _ _ _ _ _ _ Hok1 Hsc1 Hf)
      as (_ & _ & _ & _ & _ & _ & _ & Hoth2).
    rewrite (IH Hnd' (fun h Hh => Hrange h (or_intror Hh)) _ _ _ _ _ _ _
               Hok1 Hsc1 Hm1 Hf).
    f_equal. cbn [sumZ fold_right]. fold (sumZ (fun h => cell_changed (block_score block h)
                                                  (block_score block' h)) hosts).
    rewrite (Hoth2 a) by (try assumption; lia).
    rewrite <- Z.add_assoc. f_equal. f_equal.
    apply sumZ_ext. intros h Hh.
    rewrite (Hoth1 h); [reflexivity| |].
    + apply (Hrange h (or_intror Hh)).
    + intros ->. contradiction.
Qed.

Lemma slot_cell_same ctx ctx' p b h :
  lookup_block ctx' p b = lookup_block ctx p b -> slot_cell ctx' p b h = slot_cell ctx p b h.
Proof. intros Hl. unfold slot_cell. rewrite Hl. reflexivity. Qed.

Lemma decay_block_count f adz p16 bi ctx m ctx' m' X :
  consistent ctx -> 0 <= p16 < PREFIX16_COUNT -> 0 <= bi < BLOCKS_PER_16 ->
  m = u64 X ->
  decay_block f adz p16 (ctx, m) bi = Some (ctx', m') ->
  m' = u64 (X + sumZ (fun h => cell_changed (slot_cell ctx p16 bi h)
                                 (slot_cell ctx' p16 bi h))
                     (upto SCORES_PER_BLOCK)).
Proof.
  intros Hc Hp Hb Hm. unfold decay_block.
  assert (Hnone : forall c, (forall h, slot_cell c p16 bi h = slot_cell ctx p16 bi h) ->
            m = u64 (X + sumZ (fun h => cell_changed (slot_cell ctx p16 bi h)
                                          (slot_cell c p16 bi h))
                              (upto SCORES_PER_BLOCK))).
  { intros c Hsame. rewrite sumZ_zero; [rewrite Z.add_0_r; assumption|].
    intros h _. rewrite Hsame. apply cell_changed_same. }
  destruct (bitmap_test ctx (make_prefix24 p16 bi) =? 0).
  { intros Heq; inversion Heq; subst. apply Hnone. reflexivity. }
  destruct (lookup_block ctx p16 bi) as [block|] eqn:Hl.
  2:{ intros Heq; inversion Heq; subst. apply Hnone. reflexivity. }
  destruct (Z.eqb_spec (active_count block) 0) as [Hac|Hac].
  { intros Heq; inversion Heq; subst. apply Hnone. reflexivity. }
  pose proof (cons_block _ Hc _ _ _ Hl) as Hok.
  assert (Hslot : slot_active ctx p16 bi = active_count block)
    by (unfold slot_active; rewrite Hl; reflexivity).
  destruct (foldl_opt _ _ _) as [[[block1 ctx1] m1]|] eqn:Hloop; [|discriminate].
  intros Heq; inversion Heq; subst ctx' m'; clear Heq.
  assert (Hbase : forall n, 0 <= n <= 256 ->
            0 <= score_count ctx - active_count block + n <= 2 ^ 32).
  { intros n Hn. rewrite <- Hslot.
    apply (count_after_bounds ctx p16 bi (mk_block [] n) Hc Hp Hb). exact Hn. }
  assert (Hsc0 : score_count ctx =
                 score_count ctx - active_count block + active_count block) by lia.
  rewrite (decay_hosts_count f adz (score_count ctx - active_count block)
             (upto SCORES_PER_BLOCK) Hbase (upto_NoDup _)
             (fun h Hh => proj1 (upto_In _ h) Hh)
             _ _ _ X _ _ _ Hok Hsc0 Hm Hloop).
  f_equal. f_equal. apply sumZ_ext. intros h _.
  unfold slot_cell. rewrite Hl.
  assert (Hl' : lookup_block
                  (if active_count block1 =? 0
                   then bitmap_clear (store_block ctx1 p16 bi block1) (make_prefix24 p16 bi)
                   else store_block ctx1 p16 bi block1) p16 bi = Some block1).
  { destruct (_ =? 0); [rewrite lookup_block_bitmap_clear|]; apply lookup_store_block_eq. }
  rewrite Hl'. reflexivity.
Qed.

Lemma decay_prefix16_count f adz p16 ctx m ctx' m' X :
  consistent ctx -> 0 <= p16 < PREFIX16_COUNT -> m = u64 X ->
  decay_prefix16 f adz (ctx, m) p16 = Some (ctx', m') ->
  m' = u64 (X + sumZ (fun b =>
                  sumZ (fun h => cell_changed (slot_cell ctx p16 b h)
                                   (slot_cell ctx' p16 b h))
                    (upto SCORES_PER_BLOCK))
                (upto BLOCKS_PER_16)).
Proof.
  intros Hc Hp Hm. unfold decay_prefix16. cbn [fst].
  destruct (block_ptrs ctx !! p16) as [arr|] eqn:Harr.
  - intros Hf.
    pose (Q := fun (done : list Z) (st : sauron_ctx * Z) =>
      consistent (fst st) /\
      (forall b, ~ In b done -> lookup_block (fst st) p16 b = lookup_block ctx p16 b) /\
      snd st = u64 (X + sumZ (fun b =>
                          sumZ (fun h => cell_changed (slot_cell ctx p16 b h)
                                           (slot_cell (fst st) p16 b h))
                            (upto SCORES_PER_BLOCK)) done)).
    assert (HQ : Q (upto BLOCKS_PER_16) (ctx', m')).
    { apply (foldl_opt_inv (decay_block f adz p16) Q (upto BLOCKS_PER_16)
               (upto_NoDup _)) with (a := (ctx, m));
        [|unfold Q; cbn; rewrite Z.add_0_r; tauto|exact Hf].
      intros done x [c1 m1] [c2 m2] Hnot Hin (Hc1 & Hfr1 & Hm1) Hstep.
      cbn [fst snd] in *. apply upto_In in Hin.
      destruct (decay_block_spec _ _ _ _ _ _ _ _ Hc1 Hp Hin Hstep)
        as (Hc2 & Hfr2 & _).
      pose proof (decay_block_count _ _ _ _ _ _ _ _ _ Hc1 Hp Hin Hm1 Hstep) as Hm2.
      unfold Q. cbn [fst snd]. split; [exact Hc2|]. split.
      - intros b Hnb. rewrite Hfr2.
        + apply Hfr1. intros Hd. apply Hnb. apply in_or_app. left. assumption.
        + intros Heq. inversion Heq; subst. apply Hnb.
          apply in_or_app. right. left. reflexivity.
      - rewrite Hm2, sumZ_app. cbn [sumZ fold_right]. rewrite Z.add_0_r.
        rewrite <- Z.add_assoc. f_equal. f_equal. f_equal.
        + apply sumZ_ext. intros b Hb. apply sumZ_ext. intros h _. f_equal.
          apply slot_cell_same. symmetry. apply Hfr2.
          intros Heq. inversion Heq; subst. contradiction.
        + apply sumZ_ext. intros h _. f_equal.
          apply slot_cell_same. apply Hfr1. assumption. }
    destruct HQ as (_ & _ & Hm'). exact Hm'.
  - intros Heq; inversion Heq; subst.
    rewrite sumZ_zero; [rewrite Z.add_0_r; reflexivity|].
    intros b _. apply sumZ_zero. intros h _. apply cell_changed_same.
Qed.

Lemma decay_sweep_count f adz ctx ctx' m' :
  consistent ctx ->
  foldl_opt (decay_prefix16 f adz) (ctx, 0) (upto PREFIX16_COUNT) = Some (ctx', m') ->
  m' = u64 (sumZ (fun p =>
              sumZ (fun b =>
                sumZ (fun h => cell_changed (slot_cell ctx p b h) (slot_cell ctx' p b h))
                  (upto SCORES_PER_BLOCK))
                (upto BLOCKS_PER_16))
              (upto PREFIX16_COUNT)).
Proof.
  intros Hc Hf.
  pose (Q := fun (done : list Z) (st : sauron_ctx * Z) =>
    consistent (fst st) /\
    (forall p b, ~ In p done -> lookup_block (fst st) p b = lookup_block ctx p b) /\
    snd st = u64 (sumZ (fun p =>
                    sumZ (fun b =>
                      sumZ (fun h => cell_changed (slot_cell ctx p b h)
                                       (slot_cell (fst st) p b h))
                        (upto SCORES_PER_BLOCK))
                      (upto BLOCKS_PER_16)) done)).
  assert (HQ : Q (upto PREFIX16_COUNT) (ctx', m')).
  { apply (foldl_opt_inv (decay_prefix16 f adz) Q (upto PREFIX16_COUNT)
             (upto_NoDup _)) with (a := (ctx, 0)); [|unfold Q; cbn; tauto|exact Hf].
    intros done x [c1 m1] [c2 m2] Hnot Hin (Hc1 & Hfr1 & Hm1) Hstep.
    cbn [fst snd] in *. apply upto_In in Hin.
    destruct (decay_prefix16_spec _ _ _ _ _ _ _ Hc1 Hin Hstep) as (Hc2 & Hfr2 & _).
    pose proof (decay_prefix16_count _ _ _ _ _ _ _ _ Hc1 Hin Hm1 Hstep) as Hm2.
    unfold Q. cbn [fst snd]. split; [exact Hc2|]. split.
    - intros p b Hnb. rewrite Hfr2.
      + apply Hfr1. intros Hd. apply Hnb. apply in_or_app. left. assumption.
      + intros ->. apply Hnb. apply in_or_app. right. left. reflexivity.
    - rewrite Hm2, sumZ_app. cbn [sumZ fold_right]. rewrite Z.add_0_r.
      f_equal. f_equal.
      + apply sumZ_ext. intros p Hpd. apply sumZ_ext. intros b _.
        apply sumZ_ext. intros h _. f_equal.
        apply slot_cell_same. symmetry. apply Hfr2. intros ->. contradiction.
      + apply sumZ_ext. intros b _. apply sumZ_ext. intros h _. f_equal.
        apply slot_cell_same. apply Hfr1. assumption. }
  destruct HQ as (_ & _ & Hm'). exact Hm'.
Qed.

Lemma changed_addresses_slots ctx ctx' :
  changed_addresses ctx ctx' =
  sumZ (fun p =>
    sumZ (fun b =>
      sumZ (fun h => cell_changed (slot_cell ctx p b h) (slot_cell ctx' p b h))
        (upto SCORES_PER_BLOCK))
      (upto BLOCKS_PER_16))
    (upto PREFIX16_COUNT).
Proof.
  unfold changed_addresses. apply sumZ_ext. intros p Hp. apply upto_In in Hp.
  apply sumZ_ext. intros b Hb. apply upto_In in Hb.
  apply sumZ_ext. intros h Hh. apply upto_In in Hh.
  rewrite !stored_score_slot.
  destruct (make_ip_parts p b h Hp Hb Hh) as (_ & -> & -> & ->). reflexivity.
Qed.

Lemma changed_addresses_bounds ctx ctx' : 0 <= changed_addresses ctx ctx' <= 2 ^ 32.
Proof.
  assert (HLh : Z.of_nat (length (upto SCORES_PER_BLOCK)) = 256)
    by (apply upto_length; unfold SCORES_PER_BLOCK; lia).
  assert (HLb : Z.of_nat (length (upto BLOCKS_PER_16)) = 256)
    by (apply upto_length; unfold BLOCKS_PER_16; lia).
  assert (HLp : Z.of_nat (length (upto PREFIX16_COUNT)) = 65536)
    by (apply upto_length; unfold PREFIX16_COUNT; lia).
  assert (Hh : forall p b,
            0 <= sumZ (fun h => cell_changed (stored_score ctx (make_ip p b h))
                                  (stored_score ctx' (make_ip p b h)))
                   (upto SCORES_PER_BLOCK) <= 256).
  { intros p b.
    pose proof (sumZ_bounds
      (fun h => cell_changed (stored_score ctx (make_ip p b h))
                  (stored_score ctx' (make_ip p b h))) (upto SCORES_PER_BLOCK) 1
      (fun h _ => cell_changed_bounds _ _)) as Hs.
    lia. }
  assert (Hb : forall p,
            0 <= sumZ (fun b =>
                   sumZ (fun h => cell_changed (stored_score ctx (make_ip p b h))
                                    (stored_score ctx' (make_ip p b h)))
                     (upto SCORES_PER_BLOCK)) (upto BLOCKS_PER_16) <= 65536).
  { intros p.
    pose proof (sumZ_bounds
      (fun b => sumZ (fun h => cell_changed (stored_score ctx (make_ip p b h))
                                 (stored_score ctx' (make_ip p b h)))
                  (upto SCORES_PER_BLOCK)) (upto BLOCKS_PER_16) 256
      (fun b _ => Hh p b)) as Hs.
    lia. }
  unfold changed_addresses.
  pose proof (sumZ_bounds
    (fun p => sumZ (fun b =>
                sumZ (fun h => cell_changed (stored_score ctx (make_ip p b h))
                                 (stored_score ctx' (make_ip p b h)))
                  (upto SCORES_PER_BLOCK)) (upto BLOCKS_PER_16)) (upto PREFIX16_COUNT) 65536
    (fun p _ => Hb p)) as Hs.
  change (2 ^ 32) with 4294967296. lia.
Qed.

Section DecayCount.
Context `{Platform}.

Lemma decay_counts_changes ctx f d n ctx' :
  reachable ctx -> sauron_decay ctx f d = Some (n, ctx') ->
  n = changed_addresses ctx ctx' /\ 0 <= n <= sauron_count ctx.
Proof.
  intros Hr Hd. pose proof (reachable_consistent _ Hr) as Hc.
  assert (Hn : n = changed_addresses ctx ctx').
  { unfold sauron_decay in Hd.
    destruct (SFltb f float_zero || SFltb float_one f).
    - inversion Hd; subst. unfold changed_addresses. symmetry.
      apply sumZ_zero. intros p _. apply sumZ_zero. intros b _.
      apply sumZ_zero. intros h _. apply cell_changed_same.
    - destruct (foldl_opt _ _ _) as [[c1 m1]|] eqn:Hf; [|discriminate Hd].
      inversion Hd; subst.
      rewrite (decay_sweep_count _ _ _ _ _ Hc Hf), <- changed_addresses_slots.
      pose proof (changed_addresses_bounds ctx ctx') as Hb.
      unfold u64. apply Z.mod_small. change (2 ^ 32) with 4294967296 in Hb.
      change (2 ^ 64) with 18446744073709551616. lia. }
  split; [exact Hn|]. rewrite Hn.
  split; [apply changed_addresses_bounds|].
  destruct (sauron_decay_spec ctx f d n ctx' Hc Hd) as (Hc' & _ & _ & Hrel).
  unfold sauron_count. rewrite (cons_count _ Hc), <- nonzero_addresses_total by assumption.
  unfold changed_addresses, nonzero_addresses.
  apply sumZ_le. intros p Hp. apply sumZ_le. intros b Hb. apply sumZ_le. intros h Hh.
  apply upto_In in Hp, Hb, Hh.
  destruct (make_ip_parts p b h Hp Hb Hh) as (Hip & _).
  unfold cell_changed.
  destruct (Z.eqb_spec (stored_score ctx (make_ip p b h))
              (stored_score ctx' (make_ip p b h))) as [|Hne];
    [destruct (_ =? 0); lia|].
  destruct (Z.eqb_spec (stored_score ctx (make_ip p b h)) 0) as [Hz|]; [|lia].
  exfalso. unfold sauron_decay in Hd.
  destruct (SFltb f float_zero || SFltb float_one f) eqn:Hbad.
  - inversion Hd; subst. congruence.
  - destruct (Hrel eq_refl _ Hip) as [[_ Hz']|[Hnz _]]; congruence.
Qed.

(** X24: [sauron_decay] returns the number of addresses whose score it
    changed; with a factor outside [0, 1] that number is 0. *)
Theorem decay_returns_changed_count ctx f d :
  reachable ctx -> valid_binary 24 128 f = true -> f <> S754_nan ->
  exists n ctx',
    sauron_decay ctx f d = Some (n, ctx') /\
    n = changed_addresses ctx ctx' /\ 0 <= n <= sauron_count ctx.
Proof.
  intros Hr Hvalid Hnan.
  destruct (sauron_decay_defined ctx f d (reachable_consistent _ Hr) Hvalid Hnan)
    as (n & ctx' & Hd).
  exists n, ctx'. split; [exact Hd|].
  apply (decay_counts_changes ctx f d n ctx' Hr Hd).
Qed.

End DecayCount.

(** * Instances of the further properties on the reference platform *)

Lemma lp64_set_reachable ip v :
  is_u32 ip -> is_i16 v -> @reachable lp64 (snd (@sauron_set_u32 lp64 lp64_fresh ip v)).
Proof.
  intros Hip Hv. apply (@reach_step lp64 op_typed lp64_fresh (op_set ip v)).
  - apply reach_create. reflexivity.
  - split; assumption.
  - reflexivity.
Qed.

Section FurtherInstances.
#[local] Existing Instance lp64.

Lemma ip_to_u32_dotted_witness :
  let o1 := "10"%string in let o2 := "0"%string in
  let o3 := "0"%string in let o4 := "1"%string in
  digit_field o1 /\ digit_field o2 /\ digit_field o3 /\ digit_field o4 /\
  decimal o1 <= 255 /\ decimal o2 <= 255 /\ decimal o3 <= 255 /\ decimal o4 <= 255 /\
  sauron_ip_to_u32 (dotted o1 o2 o3 o4) =
  ipv4 (decimal o1) (decimal o2) (decimal o3) (decimal o4).
Proof.
  intros o1 o2 o3 o4.
  assert (F1 : digit_field o1) by (split; [discriminate|reflexivity]).
  assert (F2 : digit_field o2) by (split; [discriminate|reflexivity]).
  assert (F3 : digit_field o3) by (split; [discriminate|reflexivity]).
  assert (F4 : digit_field o4) by (split; [discriminate|reflexivity]).
  assert (V1 : decimal o1 <= 255) by (vm_compute; discriminate).
  assert (V2 : decimal o2 <= 255) by (vm_compute; discriminate).
  assert (V3 : decimal o3 <= 255) by (vm_compute; discriminate).
  assert (V4 : decimal o4 <= 255) by (vm_compute; discriminate).
  repeat (split; [assumption|]).
  exact (ip_to_u32_dotted o1 o2 o3 o4 F1 F2 F3 F4 V1 V2 V3 V4).
Defined.

Lemma ip_to_u32_accepts_only_dotted_witness :
  let s := "192.168.1.20"%string in
  sauron_ip_to_u32 s <> 0 /\
  exists o1 o2 o3 o4,
    cstr s = dotted o1 o2 o3 o4 /\
    digit_field o1 /\ digit_field o2 /\ digit_field o3 /\ digit_field o4 /\
    decimal o1 <= 255 /\ decimal o2 <= 255 /\ decimal o3 <= 255 /\ decimal o4 <= 255 /\
    sauron_ip_to_u32 s = ipv4 (decimal o1) (decimal o2) (decimal o3) (decimal o4).
Proof.
  intros s.
  assert (H1 : sauron_ip_to_u32 s <> 0) by (vm_compute; discriminate).
  split; [exact H1|]. exact (ip_to_u32_accepts_only_dotted s H1).
Defined.

Lemma u32_to_ip_round_trip_witness :
  let ip := 3232235796 in
  is_u32 ip /\
  sauron_u32_to_ip ip = format_ip ip /\
  7 <= Z.of_nat (String.length (sauron_u32_to_ip ip)) <= 15 /\
  sauron_ip_to_u32 (sauron_u32_to_ip ip) = ip.
Proof.
  intros ip.
  assert (H1 : is_u32 ip) by (unfold is_u32, ip; lia).
  split; [exact H1|]. exact (u32_to_ip_round_trip ip H1).
Defined.

Lemma u32_to_ip_s_spec_witness :
  let ip := 3232235796 in let buf_size := 16 in
  is_u32 ip /\
  (buf_size < 16 -> sauron_u32_to_ip_s ip buf_size = (0, None)) /\
  (16 <= buf_size ->
   sauron_u32_to_ip_s ip buf_size =
     (Z.of_nat (String.length (sauron_u32_to_ip ip)), Some (sauron_u32_to_ip ip)) /\
   sauron_ip_to_u32 (sauron_u32_to_ip ip) = ip).
Proof.
  intros ip buf_size.
  assert (H1 : is_u32 ip) by (unfold is_u32, ip; lia).
  split; [exact H1|]. exact (u32_to_ip_s_spec ip buf_size H1).
Defined.

Lemma string_interface_dotted_witness :
  let ctx := lp64_fresh in let v := 5 in
  let o1 := "10"%string in let o2 := "0"%string in
  let o3 := "0"%string in let o4 := "1"%string in
  digit_field o1 /\ digit_field o2 /\ digit_field o3 /\ digit_field o4 /\
  decimal o1 <= 255 /\ decimal o2 <= 255 /\ decimal o3 <= 255 /\ decimal o4 <= 255 /\
  let a := ipv4 (decimal o1) (decimal o2) (decimal o3) (decimal o4) in
  a <> 0 /\
  sauron_get ctx (dotted o1 o2 o3 o4) = sauron_get_u32 ctx a /\
  sauron_set ctx (dotted o1 o2 o3 o4) v = sauron_set_u32 ctx a v /\
  sauron_incr ctx (dotted o1 o2 o3 o4) v = sauron_incr_u32 ctx a v /\
  sauron_decr ctx (dotted o1 o2 o3 o4) v = sauron_decr_u32 ctx a v /\
  sauron_delete ctx (dotted o1 o2 o3 o4) = sauron_delete_u32 ctx a.
Proof.
  intros ctx v o1 o2 o3 o4.
  assert (F1 : digit_field o1) by (split; [discriminate|reflexivity]).
  assert (F2 : digit_field o2) by (split; [discriminate|reflexivity]).
  assert (F3 : digit_field o3) by (split; [discriminate|reflexivity]).
  assert (F4 : digit_field o4) by (split; [discriminate|reflexivity]).
  assert (V1 : decimal o1 <= 255) by (vm_compute; discriminate).
  assert (V2 : decimal o2 <= 255) by (vm_compute; discriminate).
  assert (V3 : decimal o3 <= 255) by (vm_compute; discriminate).
  assert (V4 : decimal o4 <= 255) by (vm_compute; discriminate).
  repeat (split; [assumption|]).
  intros a.
  assert (Ha : a <> 0) by (vm_compute; discriminate).
  split; [exact Ha|].
  exact (string_interface_dotted ctx o1 o2 o3 o4 v F1 F2 F3 F4 V1 V2 V3 V4 Ha).
Defined.

Lemma string_interface_rejects_witness :
  let ctx := lp64_fresh in let s := EmptyString in let v := 5 in
  (forall o1 o2 o3 o4,
     cstr s = dotted o1 o2 o3 o4 ->
     digit_field o1 -> digit_field o2 -> digit_field o3 -> digit_field o4 ->
     decimal o1 <= 255 -> decimal o2 <= 255 -> decimal o3 <= 255 -> decimal o4 <= 255 ->
     ipv4 (decimal o1) (decimal o2) (decimal o3) (decimal o4) = 0) /\
  sauron_get ctx s = 0 /\
  sauron_set ctx s v = (0, ctx) /\
  sauron_incr ctx s v = (0, ctx) /\
  sauron_decr ctx s v = (0, ctx) /\
  sauron_delete ctx s = (SAURON_ERR_INVALID, ctx).
Proof.
  intros ctx s v.
  assert (H1 : forall o1 o2 o3 o4,
     cstr s = dotted o1 o2 o3 o4 ->
     digit_field o1 -> digit_field o2 -> digit_field o3 -> digit_field o4 ->
     decimal o1 <= 255 -> decimal o2 <= 255 -> decimal o3 <= 255 -> decimal o4 <= 255 ->
     ipv4 (decimal o1) (decimal o2) (decimal o3) (decimal o4) = 0).
  { intros o1 o2 o3 o4 Heq. destruct o1; discriminate Heq. }
  split; [exact H1|]. exact (string_interface_rejects ctx s v H1).
Defined.

Lemma set_writes_one_address_witness :
  let ctx := lp64_fresh in let a := 167772161 in let v := 5 in
  reachable ctx /\ is_u32 a /\ is_i16 v /\
  let r := sauron_set_u32 ctx a v in
  (forall a', is_u32 a' -> a' <> a ->
     sauron_get_u32 (snd r) a' = sauron_get_u32 ctx a') /\
  (block_available ctx a ->
   fst r = sauron_get_u32 ctx a /\ sauron_get_u32 (snd r) a = v /\
   sauron_count (snd r) = sauron_count ctx - nz (sauron_get_u32 ctx a) + nz v) /\
  (~ block_available ctx a ->
   fst r = 0 /\ sauron_get_u32 (snd r) a = 0 /\ sauron_get_u32 ctx a = 0 /\
   sauron_count (snd r) = sauron_count ctx).
Proof.
  intros ctx a v.
  assert (H1 : reachable ctx) by exact lp64_fresh_reachable.
  assert (H2 : is_u32 a) by (unfold is_u32, a; lia).
  assert (H3 : is_i16 v) by (unfold is_i16, v; lia).
  split; [exact H1|]. split; [exact H2|]. split; [exact H3|].
  exact (set_writes_one_address ctx a v H1 H2 H3).
Defined.

Lemma delete_effect_witness :
  let ctx := snd (sauron_set_u32 lp64_fresh 167772161 5) in let a := 167772161 in
  reachable ctx /\ is_u32 a /\
  let r := sauron_delete_u32 ctx a in
  fst r = SAURON_OK /\
  sauron_get_u32 (snd r) a = 0 /\
  (forall a', is_u32 a' -> a' <> a ->
     sauron_get_u32 (snd r) a' = sauron_get_u32 ctx a') /\
  sauron_count (snd r) = sauron_count ctx - nz (sauron_get_u32 ctx a) /\
  sauron_block_count (snd r) = sauron_block_count ctx /\
  sauron_memory_usage (snd r) = sauron_memory_usage ctx.
Proof.
  intros ctx a.
  assert (H2 : is_u32 a) by (unfold is_u32, a; lia).
  assert (H1 : reachable ctx)
    by (apply lp64_set_reachable; [exact H2|unfold is_i16; lia]).
  split; [exact H1|]. split; [exact H2|].
  exact (delete_effect ctx a H1 H2).
Defined.

Lemma delete_twice_witness :
  let ctx := snd (sauron_set_u32 lp64_fresh 167772161 5) in let a := 167772161 in
  reachable ctx /\ is_u32 a /\
  sauron_delete_u32 (snd (sauron_delete_u32 ctx a)) a =
  (SAURON_OK, snd (sauron_delete_u32 ctx a)).
Proof.
  intros ctx a.
  assert (H2 : is_u32 a) by (unfold is_u32, a; lia).
  assert (H1 : reachable ctx)
    by (apply lp64_set_reachable; [exact H2|unfold is_i16; lia]).
  split; [exact H1|]. split; [exact H2|].
  exact (delete_twice ctx a H1 H2).
Defined.

Lemma incr_then_decr_witness :
  let ctx := snd (sauron_set_u32 lp64_fresh 167772161 5) in
  let a := 167772161 in let d := 20 in
  reachable ctx /\ is_u32 a /\ is_i16 d /\ d <> INT16_MIN /\
  block_available ctx a /\
  SAURON_SCORE_MIN <= sauron_get_u32 ctx a <= SAURON_SCORE_MAX /\
  SAURON_SCORE_MIN <= sauron_get_u32 ctx a + d <= SAURON_SCORE_MAX /\
  let ctx1 := snd (sauron_incr_u32 ctx a d) in
  fst (sauron_decr_u32 ctx1 a d) = sauron_get_u32 ctx a /\
  sauron_get_u32 (snd (sauron_decr_u32 ctx1 a d)) a = sauron_get_u32 ctx a.
Proof.
  intros ctx a d.
  assert (H2 : is_u32 a) by (unfold is_u32, a; lia).
  assert (H1 : reachable ctx)
    by (apply lp64_set_reachable; [exact H2|unfold is_i16; lia]).
  assert (H3 : is_i16 d) by (unfold is_i16, d; lia).
  assert (H4 : d <> INT16_MIN) by (unfold d, INT16_MIN; lia).
  assert (H5 : block_available ctx a) by (vm_compute; eexists; reflexivity).
  assert (H6 : SAURON_SCORE_MIN <= sauron_get_u32 ctx a <= SAURON_SCORE_MAX)
    by (vm_compute; split; discriminate).
  assert (H7 : SAURON_SCORE_MIN <= sauron_get_u32 ctx a + d <= SAURON_SCORE_MAX)
    by (vm_compute; split; discriminate).
  split; [exact H1|]. split; [exact H2|]. split; [exact H3|]. split; [exact H4|].
  split; [exact H5|]. split; [exact H6|]. split; [exact H7|].
  exact (incr_then_decr ctx a d H1 H2 H3 H4 H5 H6 H7).
Defined.

Lemma statistics_account_for_allocations_witness :
  let ctx := snd (sauron_set_u32 lp64_fresh 167772161 5) in
  reachable ctx /\
  sauron_block_count ctx = allocated_blocks ctx /\
  0 <= allocated_blocks ctx <= 2 ^ 24 /\ 0 <= allocated_arrays ctx <= 2 ^ 16 /\
  sauron_memory_usage ctx =
    u64 (sizeof_sauron_ctx + BITMAP_BYTES
         + allocated_arrays ctx * (BLOCKS_PER_16 * sizeof_block_ptr)
         + allocated_blocks ctx * sizeof_cidr_block).
Proof.
  intros ctx.
  assert (H1 : reachable ctx)
    by (apply lp64_set_reachable; [unfold is_u32; lia|unfold is_i16; lia]).
  split; [exact H1|]. exact (statistics_account_for_allocations ctx H1).
Defined.

Lemma delete_clear_decay_keep_allocations_witness :
  let ctx := snd (sauron_set_u32 lp64_fresh 167772161 5) in
  let ctx' := snd (sauron_clear ctx) in
  ((exists a, ctx' = snd (sauron_delete_u32 ctx a)) \/
   ctx' = snd (sauron_clear ctx) \/
   (exists f d n, sauron_decay ctx f d = Some (n, ctx'))) /\
  (forall p b, is_Some (lookup_block ctx' p b) <-> is_Some (lookup_block ctx p b)) /\
  sauron_block_count ctx' = sauron_block_count ctx /\
  sauron_memory_usage ctx' = sauron_memory_usage ctx.
Proof.
  intros ctx ctx'.
  assert (H1 : (exists a, ctx' = snd (sauron_delete_u32 ctx a)) \/
               ctx' = snd (sauron_clear ctx) \/
               (exists f d n, sauron_decay ctx f d = Some (n, ctx')))
    by (right; left; reflexivity).
  split; [exact H1|]. exact (delete_clear_decay_keep_allocations ctx ctx' H1).
Defined.

Lemma clear_effect_witness :
  let ctx := snd (sauron_set_u32 lp64_fresh 167772161 5) in
  reachable ctx /\
  let r := sauron_clear ctx in
  fst r = SAURON_OK /\
  (forall a, is_u32 a ->
     sauron_get_u32 (snd r) a = 0 /\ fst (sauron_get_ex (snd r) a) = SAURON_ERR_INVALID) /\
  sauron_count (snd r) = 0 /\
  (forall p b, is_Some (lookup_block (snd r) p b) <-> is_Some (lookup_block ctx p b)) /\
  sauron_block_count (snd r) = sauron_block_count ctx /\
  sauron_memory_usage (snd r) = sauron_memory_usage ctx.
Proof.
  intros ctx.
  assert (H1 : reachable ctx)
    by (apply lp64_set_reachable; [unfold is_u32; lia|unfold is_i16; lia]).
  split; [exact H1|]. exact (clear_effect ctx H1).
Defined.

Lemma decay_is_defined_witness :
  let ctx := snd (sauron_set_u32 lp64_fresh 167772161 (-32768)) in
  let f := float_one in let d := 0 in
  reachable ctx /\ valid_binary 24 128 f = true /\ f <> S754_nan /\
  exists n ctx', sauron_decay ctx f d = Some (n, ctx').
Proof.
  intros ctx f d.
  assert (H1 : reachable ctx)
    by (apply lp64_set_reachable; [unfold is_u32; lia|unfold is_i16; lia]).
  assert (H2 : valid_binary 24 128 f = true) by reflexivity.
  assert (H3 : f <> S754_nan) by discriminate.
  split; [exact H1|]. split; [exact H2|]. split; [exact H3|].
  exact (decay_is_defined ctx f d H1 H2 H3).
Defined.

Lemma decay_nan_is_undefined_witness :
  let ctx := snd (sauron_set_u32 lp64_fresh 167772161 5) in
  let a := 167772161 in let d := 0 in
  reachable ctx /\ is_u32 a /\ sauron_get_u32 ctx a <> 0 /\
  sauron_decay ctx S754_nan d = None.
Proof.
  intros ctx a d.
  assert (H2 : is_u32 a) by (unfold is_u32, a; lia).
  assert (H1 : reachable ctx)
    by (apply lp64_set_reachable; [exact H2|unfold is_i16; lia]).
  assert (H3 : sauron_get_u32 ctx a <> 0) by (vm_compute; discriminate).
  split; [exact H1|]. split; [exact H2|]. split; [exact H3|].
  exact (decay_nan_is_undefined ctx a d H1 H2 H3).
Defined.

Lemma decay_never_grows_witness :
  let ctx := snd (sauron_set_u32 lp64_fresh 167772161 101) in
  let f := float_half in let d := 3 in
  reachable ctx /\ valid_binary 24 128 f = true /\ f <> S754_nan /\
  exists n ctx',
    sauron_decay ctx f d = Some (n, ctx') /\
    (forall a, is_u32 a ->
       Z.abs (sauron_get_u32 ctx' a) <= Z.abs (sauron_get_u32 ctx a)) /\
    sauron_count ctx' <= sauron_count ctx.
Proof.
  intros ctx f d.
  assert (H1 : reachable ctx)
    by (apply lp64_set_reachable; [unfold is_u32; lia|unfold is_i16; lia]).
  assert (H2 : valid_binary 24 128 f = true) by reflexivity.
  assert (H3 : f <> S754_nan) by discriminate.
  split; [exact H1|]. split; [exact H2|]. split; [exact H3|].
  exact (decay_never_grows ctx f d H1 H2 H3).
Defined.

Lemma decay_by_zero_clears_witness :
  let ctx := snd (sauron_set_u32 lp64_fresh 167772161 101) in let d := 0 in
  reachable ctx /\
  exists n ctx',
    sauron_decay ctx float_zero d = Some (n, ctx') /\
    (forall a, is_u32 a -> sauron_get_u32 ctx' a = 0) /\ sauron_count ctx' = 0.
Proof.
  intros ctx d.
  assert (H1 : reachable ctx)
    by (apply lp64_set_reachable; [unfold is_u32; lia|unfold is_i16; lia]).
  split; [exact H1|]. exact (decay_by_zero_clears ctx d H1).
Defined.

Lemma decay_returns_changed_count_witness :
  let ctx := snd (sauron_set_u32 lp64_fresh 167772161 101) in
  let f := float_half in let d := 3 in
  reachable ctx /\ valid_binary 24 128 f = true /\ f <> S754_nan /\
  exists n ctx',
    sauron_decay ctx f d = Some (n, ctx') /\
    n = changed_addresses ctx ctx' /\ 0 <= n <= sauron_count ctx.
Proof.
  intros ctx f d.
  assert (H1 : reachable ctx)
    by (apply lp64_set_reachable; [unfold is_u32; lia|unfold is_i16; lia]).
  assert (H2 : valid_binary 24 128 f = true) by reflexivity.
  assert (H3 : f <> S754_nan) by discriminate.
  split; [exact H1|]. split; [exact H2|]. split; [exact H3|].
  exact (decay_returns_changed_count ctx f d H1 H2 H3).
Defined.

Lemma foreach_visits_nonzero_scores_witness :
  let ctx := snd (sauron_set_u32 lp64_fresh 167772161 5) in
  let callback := sum_scores in let user_data := 0 in
  reachable ctx /\
  sauron_foreach callback ctx user_data = visit callback (live_entries ctx) 0 user_data /\
  ascending (live_entries ctx) /\
  (forall ip score,
     In (ip, score) (live_entries ctx) <->
     is_u32 ip /\ score <> 0 /\ sauron_get_u32 ctx ip = score) /\
  ((forall ip score u, fst (callback ip score u) = 0) ->
   sauron_foreach callback ctx user_data =
   (sauron_count ctx,
    fold_left (fun u e => snd (callback (fst e) (snd e) u)) (live_entries ctx) user_data)).
Proof.
  intros ctx callback user_data.
  assert (H1 : reachable ctx)
    by (apply lp64_set_reachable; [unfold is_u32; lia|unfold is_i16; lia]).
  split; [exact H1|].
  exact (foreach_visits_nonzero_scores callback ctx user_data H1).
Defined.

Lemma bulk_counters_account_for_lines_witness :
  let ctx := lp64_fresh in let data := short_lines_buffer in
  let filename := "records.csv"%string in let fs := short_lines_file in
  Z.of_nat (String.length data) + 1 < 2 ^ 64 /\
  (let r := sauron_bulk_load_buffer ctx data in
   fst (fst r) = SAURON_OK /\
   counters_account (snd r) (buffer_lines data EmptyString) buffer_line_ignored) /\
  (let r := sauron_bulk_load ctx filename fs in
   (fs !! filename = Some data -> heap_ok (memory_used ctx) BULK_LINE_MAX = true ->
    fst (fst r) = SAURON_OK /\
    counters_account (snd r) (getline_lines data EmptyString) file_line_ignored) /\
   (fs !! filename = None -> r = (SAURON_ERR_IO, ctx, bulk_result_zero)) /\
   (fst (fst r) <> SAURON_OK -> snd (fst r) = ctx)).
Proof.
  intros ctx data filename fs.
  assert (H1 : Z.of_nat (String.length data) + 1 < 2 ^ 64) by (vm_compute; reflexivity).
  split; [exact H1|].
  exact (bulk_counters_account_for_lines ctx data filename fs H1).
Defined.

Lemma bulk_loaders_agree_on_short_lines_witness :
  let ctx := lp64_fresh in let data := short_lines_buffer in
  let filename := "records.csv"%string in let fs := short_lines_file in
  fs !! filename = Some data /\
  heap_ok (memory_used ctx) BULK_LINE_MAX = true /\
  Forall (fun l => Z.of_nat (String.length l) < BULK_LINE_MAX)
    (buffer_lines data EmptyString) /\
  sauron_bulk_load ctx filename fs = sauron_bulk_load_buffer ctx data.
Proof.
  intros ctx data filename fs.
  assert (H1 : fs !! filename = Some data) by reflexivity.
  assert (H2 : heap_ok (memory_used ctx) BULK_LINE_MAX = true) by reflexivity.
  assert (H3 : Forall (fun l => Z.of_nat (String.length l) < BULK_LINE_MAX)
                 (buffer_lines data EmptyString))
    by (vm_compute; repeat constructor).
  split; [exact H1|]. split; [exact H2|]. split; [exact H3|].
  exact (bulk_loaders_agree_on_short_lines ctx data filename fs H1 H2 H3).
Defined.

Lemma save_writes_snapshot_atomically_witness :
  let ctx := snd (sauron_set_u32 lp64_fresh 16909060 111) in
  let io := io_ok in let filename := "f"%string in
  let fs : gmap string string := ∅ in
  reachable ctx /\
  let r := sauron_save io ctx filename fs in
  let snapshot := snapshot_bytes (sauron_count ctx) (live_entries ctx) in
  (io = io_ok -> fst r = SAURON_OK /\ snd r !! filename = Some snapshot) /\
  (io <> io_ok ->
   fst r = SAURON_ERR_IO /\
   (tmp_filename_of filename <> filename -> snd r !! filename = fs !! filename)) /\
  (forall other, other <> filename -> other <> tmp_filename_of filename ->
     snd r !! other = fs !! other) /\
  Z.of_nat (String.length snapshot) = 16 + 6 * sauron_count ctx /\
  Z.of_nat (length (live_entries ctx)) = sauron_count ctx.
Proof.
  intros ctx io filename fs.
  assert (H1 : reachable ctx)
    by (apply lp64_set_reachable; [unfold is_u32; lia|unfold is_i16; lia]).
  split; [exact H1|].
  exact (save_writes_snapshot_atomically ctx io filename fs H1).
Defined.


Lemma incr_batch_effect_witness :
  let ctx := lp64_fresh in
  let items := [(167772161, 5); (167772162, -7); (167772161, 10)] in
  reachable ctx /\
  Forall (fun it => is_u32 (fst it) /\ is_i16 (snd it)) items /\
  Z.of_nat (length items) <= INT_MAX /\
  let r := sauron_incr_batch ctx items in
  fst r = Z.of_nat (length items) /\ 0 <= fst r <= INT_MAX /\
  snd r = fold_left (fun c item => snd (sauron_incr_u32 c (fst item) (snd item)))
            items ctx /\
  (forall a, is_u32 a -> ~ In a (map fst items) ->
     sauron_get_u32 (snd r) a = sauron_get_u32 ctx a).
Proof.
  intros ctx items.
  assert (H1 : reachable ctx) by exact lp64_fresh_reachable.
  assert (H2 : Forall (fun it => is_u32 (fst it) /\ is_i16 (snd it)) items).
  { repeat constructor; cbn; unfold is_u32, is_i16; lia. }
  assert (H3 : Z.of_nat (length items) <= INT_MAX) by (vm_compute; discriminate).
  split; [exact H1|]. split; [exact H2|]. split; [exact H3|].
  exact (incr_batch_effect ctx items H1 H2 H3).
Defined.

End FurtherInstances.
